(** * BetterBrainfuck: the code generator and its companion executor

    A shallow embedding of the compiler ([compile] and the helpers it is
    built from) and of the tape-machine executor ([brainfuck]), followed by
    the properties of the specification checked against them.

    Conventions of the embedding.
    - JavaScript numbers that the compiler handles are integers: [Z].
    - The instruction string [brainfuckCode] is a [list ascii]; names of
      variables and functions are [string]s.
    - [memoryUsage] is a JavaScript [Map], whose iteration order is the
      insertion order of its keys.  Both [findEmptyLocation] and
      [findVariableLocation] iterate it, so it is an association list kept in
      insertion order: [Map.set] on a present key keeps the key's position,
      on an absent key appends, and [Map.delete] removes the entry.
    - [variables] and [functions] are only read by key: [gmap string _].
    - The module-level mutable variables are the fields of [cstate]; a
      thrown [Error] is the [Throw] result.  The text of an error message is
      abstracted to a constructor of [error] (the did-you-mean suffix of
      [variableNotFoundMessage] is not modelled).
    - [compile] inlines function bodies, so it need not terminate
      ([function f { $f }]); it takes a [fuel] bounding the nesting depth of
      [compile] calls and answers [OutOfFuel] beyond it.
    - Where the embedding is the code.  Numbers are integers that doubles
      hold exactly, of magnitude below 2^53: the [bits] option, the values
      of cells, sizes and addresses.  The emitted text is a list without
      a bound, where [String.prototype.repeat] and [+=] throw a
      [RangeError] beyond the string length limit of the engine.  The
      executor's [input] is a string of characters with codes below 256.
      The statements that depend on the cell arithmetic, on the length of
      the text or on the characters of the input carry these bounds as
      hypotheses, compute on given small numbers, or take the result of
      [compile] as given. *)

From Stdlib Require Import ZArith List String Ascii Lia DecimalString.
From stdpp Require Import gmap strings list fin_maps.

Local Open Scope Z_scope.
Set Warnings "-register-all".

(** ** Tokens (tokens.ts, as used by the compiler and built by the parser) *)

Inductive PrimitiveType := TChar | TNumber.

(** [setValue] accepts a number, a string or a boolean. *)
Inductive LiteralValue :=
  | LitNumber (n : Z)
  | LitString (s : string)
  | LitBoolean (b : bool).

Inductive MathOperator := OpPlus | OpMinus | OpTimes | OpDivide.

(** A variable reference is [name: [string, number | ValueToken]]. *)
Inductive ValueToken :=
  | Literal (value : LiteralValue)
  | VariableRef (name : string) (index : VarIndex)
  | Math (operator : MathOperator) (lhs rhs : ValueToken)
  | Max
with VarIndex :=
  | IndexNumber (i : Z)
  | IndexExpr (e : ValueToken).

(** [Abstract.bf] is an array of one-character strings; [brainfuckCode += bf]
    appends its elements joined by commas.  The string ["&"] of the builtin
    [__dump] is the one-element array (both append the same text). *)
Inductive UnsafeToken :=
  | UnsafeAdd (amount : ValueToken)
  | UnsafeReduce (amount : ValueToken)
  | UnsafeGoto (loc : Z)
  | UnsafeShow
  | UnsafeLoop (body : list UnsafeToken)
  | Abstract (bf : list string).

Inductive Token :=
  | Declaration (name : string) (type : PrimitiveType) (array : option Z)
  | Assign (variable : string) (index : VarIndex) (value : ValueToken)
  | Show (value : ValueToken)
  | Loop (condition : ValueToken) (body : list Token)
  | If (condition : ValueToken) (body : list Token)
  | Input (variable : string)
  | Unsafe (safetySize : Z) (body : list UnsafeToken)
  | Function (name : string) (body : list Token)
  | Call (name : string)
  | Remove (variable : string).

(** ** Compiler state *)

(** A [memoryUsage] value: an object for a variable's cell, [null] for freed
    memory, [undefined] for a temporary. *)
Inductive usage :=
  | Named (variable : string * Z) (type : PrimitiveType)
  | Freed
  | Temporary.

Record varinfo := { base : Z; length_ : Z; type_ : PrimitiveType }.

Record cstate := {
  brainfuckCode : list ascii;
  memoryUsage : list (Z * usage);
  variables : gmap string varinfo;
  pointerLocation : Z;
  functions : gmap string (list Token);
  unsafePointerLocation : option Z
}.

Inductive error :=
  | VariableNotDeclared (name : string)
  | UnsupportedOperator (op : MathOperator)
  | Woopsies
  | UnsafePointerNotInitialized
  | FunctionNotDefined (name : string)
  | UnhandledTokenType (tag : string).

Inductive result (A : Type) :=
  | Ok (a : A)
  | Throw (e : error)
  | OutOfFuel.
Arguments Ok {A} a.
Arguments Throw {A} e.
Arguments OutOfFuel {A}.

(** The compiler monad: state passing with exceptions. *)
Definition M (A : Type) : Type := cstate -> result (A * cstate).

Definition ret {A} (a : A) : M A := fun st => Ok (a, st).
Definition bind {A B} (m : M A) (f : A -> M B) : M B :=
  fun st => match m st with
            | Ok (a, st') => f a st'
            | Throw e => Throw e
            | OutOfFuel => OutOfFuel
            end.
Definition throw {A} (e : error) : M A := fun _ => Throw e.
Definition get : M cstate := fun st => Ok (st, st).
Definition fmapM {A B} (f : A -> B) (m : M A) : M B :=
  fun st => match m st with
            | Ok (a, st') => Ok (f a, st')
            | Throw e => Throw e
            | OutOfFuel => OutOfFuel
            end.
Definition modify (f : cstate -> cstate) : M unit := fun st => Ok (tt, f st).

Declare Scope comp_scope.
Delimit Scope comp_scope with comp.
Notation "x <- m ;; k" := (bind m (fun x => k))
  (at level 100, m at next level, right associativity) : comp_scope.
Notation "m ;; k" := (bind m (fun _ => k))
  (at level 100, right associativity) : comp_scope.
Local Open Scope comp_scope.

(** [xs.forEach(f)] *)
Definition forEach {A} (f : A -> M unit) : list A -> M unit :=
  fix go (xs : list A) : M unit :=
    match xs with
    | [] => ret tt
    | x :: xs' => f x ;; go xs'
    end.

(** [for (let i = 0; i < n; i++) f(i)] *)
Definition forRange (n : Z) (f : Z -> M unit) : M unit :=
  forEach f (seqZ 0 n).

(** *** Field updates *)

Definition set_code (c : list ascii) (st : cstate) : cstate :=
  {| brainfuckCode := c; memoryUsage := memoryUsage st;
     variables := variables st; pointerLocation := pointerLocation st;
     functions := functions st;
     unsafePointerLocation := unsafePointerLocation st |}.
Definition set_memoryUsage (m : list (Z * usage)) (st : cstate) : cstate :=
  {| brainfuckCode := brainfuckCode st; memoryUsage := m;
     variables := variables st; pointerLocation := pointerLocation st;
     functions := functions st;
     unsafePointerLocation := unsafePointerLocation st |}.
Definition set_variables (v : gmap string varinfo) (st : cstate) : cstate :=
  {| brainfuckCode := brainfuckCode st; memoryUsage := memoryUsage st;
     variables := v; pointerLocation := pointerLocation st;
     functions := functions st;
     unsafePointerLocation := unsafePointerLocation st |}.
Definition set_pointerLocation (p : Z) (st : cstate) : cstate :=
  {| brainfuckCode := brainfuckCode st; memoryUsage := memoryUsage st;
     variables := variables st; pointerLocation := p;
     functions := functions st;
     unsafePointerLocation := unsafePointerLocation st |}.
Definition set_functions (f : gmap string (list Token)) (st : cstate) : cstate :=
  {| brainfuckCode := brainfuckCode st; memoryUsage := memoryUsage st;
     variables := variables st; pointerLocation := pointerLocation st;
     functions := f;
     unsafePointerLocation := unsafePointerLocation st |}.
Definition set_unsafePointerLocation (u : option Z) (st : cstate) : cstate :=
  {| brainfuckCode := brainfuckCode st; memoryUsage := memoryUsage st;
     variables := variables st; pointerLocation := pointerLocation st;
     functions := functions st;
     unsafePointerLocation := u |}.

(** *** The [Map] operations on [memoryUsage] *)

Fixpoint map_set (k : Z) (v : usage) (m : list (Z * usage)) : list (Z * usage) :=
  match m with
  | [] => [(k, v)]
  | (k', v') :: m' =>
      if Z.eqb k' k then (k', v) :: m' else (k', v') :: map_set k v m'
  end.

Fixpoint map_delete (k : Z) (m : list (Z * usage)) : list (Z * usage) :=
  match m with
  | [] => []
  | (k', v') :: m' =>
      if Z.eqb k' k then m' else (k', v') :: map_delete k m'
  end.

Fixpoint map_get (k : Z) (m : list (Z * usage)) : option usage :=
  match m with
  | [] => None
  | (k', v') :: m' => if Z.eqb k' k then Some v' else map_get k m'
  end.

Definition map_has (k : Z) (m : list (Z * usage)) : bool :=
  existsb (fun e => Z.eqb (fst e) k) m.

(** [brainfuckCode += s] *)
Definition emit (s : list ascii) : M unit :=
  modify (fun st => set_code (brainfuckCode st ++ s) st).

Definition bf (s : string) : list ascii := list_ascii_of_string s.

(** [memoryUsage.set(k, v)] *)
Definition memSet (k : Z) (v : usage) : M unit :=
  modify (fun st => set_memoryUsage (map_set k v (memoryUsage st)) st).

(** [memoryUsage.delete(k)] *)
Definition memDelete (k : Z) : M unit :=
  modify (fun st => set_memoryUsage (map_delete k (memoryUsage st)) st).

(** ** Helper functions of the compiler *)

Definition movePointerRight : M unit :=
  modify (fun st => set_pointerLocation (pointerLocation st + 1) st) ;;
  emit (bf ">").

Definition movePointerLeft : M unit :=
  modify (fun st => set_pointerLocation (pointerLocation st - 1) st) ;;
  emit (bf "<").

(** [findEmptyLocation]: one pass over the entries in iteration order; the
    first [null] entry is returned, otherwise one past the last entry seen. *)
Fixpoint findEmptyLocation_loop (lastOccupiedIndex : Z) (entries : list (Z * usage)) : Z :=
  match entries with
  | [] => lastOccupiedIndex + 1
  | (locationIndex, details) :: rest =>
      match details with
      | Freed => locationIndex
      | _ => findEmptyLocation_loop locationIndex rest
      end
  end.

Definition findEmptyLocation_of (m : list (Z * usage)) : Z :=
  findEmptyLocation_loop (-1) m.

Definition findEmptyLocation : M Z :=
  st <- get ;; ret (findEmptyLocation_of (memoryUsage st)).

(** [moveTo]: the two [while] loops run [locationIndex - pointerLocation]
    times to the right, or [pointerLocation - locationIndex] times to the
    left. *)
Definition moveTo (locationIndex : Z) : M unit :=
  st <- get ;;
  forEach (fun _ => movePointerRight)
          (seqZ 0 (locationIndex - pointerLocation st)) ;;
  forEach (fun _ => movePointerLeft)
          (seqZ 0 (pointerLocation st - locationIndex)).

Definition clearCell : M unit := emit (bf "[-]").

(** ["c".repeat(n)] for an integer [n >= 0] *)
Definition repeat_char (c : ascii) (n : Z) : list ascii :=
  List.repeat c (Z.to_nat n).

(** [value.charCodeAt(0)], [NaN] on the empty string *)
Definition charCodeAt0 (s : string) : option Z :=
  match s with
  | EmptyString => None
  | String c _ => Some (Z.of_nat (nat_of_ascii c))
  end.

Definition setValue (value : LiteralValue) : M unit :=
  clearCell ;;
  match value with
  | LitNumber n =>
      if 0 <? n then emit (repeat_char "+" n)
      else if n <? 0 then emit (repeat_char "-" (- n))
      else ret tt
  | LitBoolean b => if b then emit (bf "+") else ret tt
  | LitString s =>
      match charCodeAt0 s with
      | Some code => if 0 <? code then emit (repeat_char "+" code) else ret tt
      | None => ret tt
      end
  end.

Definition copy (cell : Z) : M Z :=
  moveTo cell ;;
  location1 <- findEmptyLocation ;;
  memSet location1 Temporary ;;
  location2 <- findEmptyLocation ;;
  memSet location2 Temporary ;;
  emit (bf "[") ;;
  moveTo location1 ;;
  emit (bf "+") ;;
  moveTo location2 ;;
  emit (bf "+") ;;
  moveTo cell ;;
  emit (bf "-") ;;
  emit (bf "]") ;;
  (* Restore original cell from location1 *)
  moveTo location1 ;;
  emit (bf "[") ;;
  moveTo cell ;;
  emit (bf "+") ;;
  moveTo location1 ;;
  emit (bf "-") ;;
  emit (bf "]") ;;
  moveTo location1 ;;
  clearCell ;;
  memSet location1 Freed ;;
  ret location2.

Definition add (a b : Z) : M Z :=
  copiedA <- copy a ;;
  copiedB <- copy b ;;
  targetLocation <- findEmptyLocation ;;
  memSet targetLocation Temporary ;;
  moveTo copiedA ;;
  emit (bf "[") ;;
  moveTo targetLocation ;;
  emit (bf "+") ;;
  moveTo copiedA ;;
  emit (bf "-") ;;
  emit (bf "]") ;;
  moveTo copiedB ;;
  emit (bf "[") ;;
  moveTo targetLocation ;;
  emit (bf "+") ;;
  moveTo copiedB ;;
  emit (bf "-") ;;
  emit (bf "]") ;;
  moveTo copiedA ;;
  clearCell ;;
  memSet copiedA Freed ;;
  moveTo copiedB ;;
  clearCell ;;
  memSet copiedB Freed ;;
  ret targetLocation.

Definition subtract (a b : Z) : M Z :=
  targetLocation <- findEmptyLocation ;;
  memSet targetLocation Temporary ;;
  copiedA <- copy a ;;
  copiedB <- copy b ;;
  moveTo copiedA ;;
  emit (bf "[") ;;
  moveTo targetLocation ;;
  emit (bf "+") ;;
  moveTo copiedA ;;
  emit (bf "-") ;;
  emit (bf "]") ;;
  moveTo copiedB ;;
  emit (bf "[") ;;
  moveTo targetLocation ;;
  emit (bf "-") ;;
  moveTo copiedB ;;
  emit (bf "-") ;;
  emit (bf "]") ;;
  moveTo copiedA ;;
  clearCell ;;
  memSet copiedA Freed ;;
  moveTo copiedB ;;
  clearCell ;;
  memSet copiedB Freed ;;
  ret targetLocation.

(** [findVariableLocation]: the first entry, in iteration order, that is a
    variable's cell with this name and index. *)
Fixpoint findVariableLocation_of (name : string) (index : Z)
    (entries : list (Z * usage)) : option Z :=
  match entries with
  | [] => None
  | (loc, details) :: rest =>
      match details with
      | Named (n, i) _ =>
          if (String.eqb n name && Z.eqb i index)%bool then Some loc
          else findVariableLocation_of name index rest
      | _ => findVariableLocation_of name index rest
      end
  end.

Definition findVariableLocation (name : string) (index : Z) : M (option Z) :=
  st <- get ;; ret (findVariableLocation_of name index (memoryUsage st)).

Definition findVariableBase (name : string) : M (option Z) :=
  st <- get ;; ret (base <$> variables st !! name).

Definition findVariableLength (name : string) : M (option Z) :=
  st <- get ;; ret (length_ <$> variables st !! name).

(** [getVariableValueAtDynamicIndex(name, indexExpr)].  The evaluation of
    the index expression, [evalValue(indexExpr)], is passed as the
    computation [evalIndex]; it runs where the source calls it. *)
Definition getVariableValueAtDynamicIndex (name : string) (evalIndex : M Z) : M Z :=
  st <- get ;;
  match variables st !! name with
  | None => throw (VariableNotDeclared name)
  | Some info =>
      let base := base info in
      let len := length_ info in
      (* Evaluate index expression *)
      idxCell <- evalIndex ;;
      resultLoc <- findEmptyLocation ;;
      memSet resultLoc Temporary ;;
      forRange len (fun i =>
        comp <- copy idxCell ;;
        flag <- findEmptyLocation ;;
        memSet flag Temporary ;;
        moveTo flag ;;
        setValue (LitNumber 1) ;;
        (* While comp != 0, set flag to 0 and decrement comp *)
        moveTo comp ;;
        emit (bf "[") ;;
        moveTo flag ;;
        clearCell ;;
        moveTo comp ;;
        emit (bf "-") ;;
        emit (bf "]") ;;
        (if 0 <? i then
           comp2 <- copy idxCell ;;
           forRange i (fun _ => moveTo comp2 ;; emit (bf "-")) ;;
           flag2 <- findEmptyLocation ;;
           memSet flag2 Temporary ;;
           moveTo flag2 ;;
           setValue (LitNumber 1) ;;
           moveTo comp2 ;;
           emit (bf "[") ;;
           moveTo flag2 ;;
           emit (bf "[-]") ;;
           moveTo comp2 ;;
           emit (bf "-") ;;
           emit (bf "]") ;;
           (* If flag2==1 copy base+i to result *)
           moveTo flag2 ;;
           emit (bf "[") ;;
           copyOfElem <- copy (base + i) ;;
           moveTo copyOfElem ;;
           emit (bf "[") ;;
           moveTo resultLoc ;;
           emit (bf "+") ;;
           moveTo copyOfElem ;;
           emit (bf "-") ;;
           emit (bf "]") ;;
           (* cleanup *)
           moveTo copyOfElem ;;
           clearCell ;;
           memSet copyOfElem Freed ;;
           moveTo flag2 ;;
           clearCell ;;
           memSet flag2 Freed ;;
           (* close flag2 loop *)
           emit (bf "]") ;;
           moveTo comp2 ;;
           clearCell ;;
           memSet comp2 Freed
         else
           (* i == 0 *)
           moveTo flag ;;
           emit (bf "[") ;;
           copyOfElem <- copy (base + i) ;;
           moveTo copyOfElem ;;
           emit (bf "[") ;;
           moveTo resultLoc ;;
           emit (bf "+") ;;
           moveTo copyOfElem ;;
           emit (bf "-") ;;
           emit (bf "]") ;;
           moveTo copyOfElem ;;
           clearCell ;;
           memSet copyOfElem Freed ;;
           moveTo flag ;;
           clearCell ;;
           memSet flag Freed ;;
           (* close flag loop *)
           emit (bf "]")) ;;
        moveTo comp ;;
        clearCell ;;
        memSet comp Freed) ;;
      (* return location of copied element (0 if none matched) *)
      ret resultLoc
  end.

Fixpoint evalValue (val : ValueToken) : M Z :=
  match val with
  | Literal value =>
      loc <- findEmptyLocation ;;
      memSet loc Temporary ;;
      moveTo loc ;;
      setValue value ;;
      ret loc
  | VariableRef name idx =>
      match idx with
      | IndexNumber i =>
          src <- findVariableLocation name i ;;
          match src with
          | None => throw (VariableNotDeclared name)
          | Some src => ret src
          end
      | IndexExpr e =>
          (* dynamic index *)
          getVariableValueAtDynamicIndex name (evalValue e)
      end
  | Math operator lhs rhs =>
      match operator with
      | OpPlus =>
          a <- evalValue lhs ;;
          b <- evalValue rhs ;;
          add a b
      | OpMinus =>
          a <- evalValue lhs ;;
          b <- evalValue rhs ;;
          subtract a b
      | _ => throw (UnsupportedOperator operator)
      end
  | Max =>
      loc <- findEmptyLocation ;;
      memSet loc Temporary ;;
      moveTo loc ;;
      emit (bf "[-]-") ;;
      ret loc
  end.

(** [memoryUsage.get(k) === undefined]: the key is absent or its cell is a
    temporary. *)
Definition get_is_undefined (k : Z) (m : list (Z * usage)) : bool :=
  match map_get k m with
  | None | Some Temporary => true
  | _ => false
  end.

Definition setVariableAtDynamicIndex (name : string) (indexExpr value : ValueToken) : M unit :=
  st <- get ;;
  match variables st !! name with
  | None => throw (VariableNotDeclared name)
  | Some info =>
      let base := base info in
      let len := length_ info in
      idxCell <- evalValue indexExpr ;;
      valueCell <- evalValue value ;;
      forRange len (fun i =>
        comp <- copy idxCell ;;
        flag2 <- findEmptyLocation ;;
        memSet flag2 Temporary ;;
        moveTo flag2 ;;
        setValue (LitNumber 1) ;;
        moveTo comp ;;
        emit (bf "[") ;;
        moveTo flag2 ;;
        emit (bf "[-]") ;;
        moveTo comp ;;
        emit (bf "-") ;;
        emit (bf "]") ;;
        (if 0 <? i then
           comp2 <- copy idxCell ;;
           forRange i (fun _ => moveTo comp2 ;; emit (bf "-")) ;;
           (* check comp2 == 0 -> flag3 *)
           flag3 <- findEmptyLocation ;;
           memSet flag3 Temporary ;;
           moveTo flag3 ;;
           setValue (LitNumber 1) ;;
           moveTo comp2 ;;
           emit (bf "[") ;;
           moveTo flag3 ;;
           emit (bf "[-]") ;;
           moveTo comp2 ;;
           emit (bf "-") ;;
           emit (bf "]") ;;
           (* if flag3 then write to base+i *)
           moveTo flag3 ;;
           emit (bf "[") ;;
           let target := base + i in
           moveTo target ;;
           clearCell ;;
           copyOfValue <- copy valueCell ;;
           moveTo copyOfValue ;;
           emit (bf "[") ;;
           moveTo target ;;
           emit (bf "+") ;;
           moveTo copyOfValue ;;
           emit (bf "-") ;;
           emit (bf "]") ;;
           moveTo copyOfValue ;;
           clearCell ;;
           memSet copyOfValue Freed ;;
           moveTo flag3 ;;
           clearCell ;;
           memSet flag3 Freed ;;
           (* close flag3 loop *)
           emit (bf "]") ;;
           moveTo comp2 ;;
           clearCell ;;
           memSet comp2 Freed
         else
           moveTo flag2 ;;
           emit (bf "[") ;;
           let target := base + i in
           moveTo target ;;
           clearCell ;;
           copyOfValue <- copy valueCell ;;
           moveTo copyOfValue ;;
           emit (bf "[") ;;
           moveTo target ;;
           emit (bf "+") ;;
           moveTo copyOfValue ;;
           emit (bf "-") ;;
           emit (bf "]") ;;
           moveTo copyOfValue ;;
           clearCell ;;
           memSet copyOfValue Freed ;;
           moveTo flag2 ;;
           clearCell ;;
           memSet flag2 Freed ;;
           (* close flag2 loop *)
           emit (bf "]")) ;;
        moveTo comp ;;
        clearCell ;;
        memSet comp Freed) ;;
      (* clear valueCell if it's a temporary *)
      st' <- get ;;
      if get_is_undefined valueCell (memoryUsage st') then
        moveTo valueCell ;;
        clearCell ;;
        memSet valueCell Freed
      else ret tt
  end.

(** [token.bf] appended to a string: the elements joined by commas. *)
Definition join_bf (ops : list string) : list ascii :=
  bf (String.concat "," ops).

Definition getUnsafePointer : M Z :=
  st <- get ;;
  match unsafePointerLocation st with
  | None => throw UnsafePointerNotInitialized
  | Some p => ret p
  end.

(** One iteration of the [forEach] of [compileUnsafe]. *)
Fixpoint compileUnsafeToken (token : UnsafeToken) : M unit :=
  match token with
  | UnsafeAdd amount =>
      amountCell <- evalValue amount ;;
      copyOfAmount <- copy amountCell ;;
      p <- getUnsafePointer ;;
      moveTo copyOfAmount ;;
      emit (bf "[") ;;
      moveTo p ;;
      emit (bf "+") ;;
      moveTo copyOfAmount ;;
      emit (bf "-") ;;
      emit (bf "]")
  | UnsafeReduce amount =>
      amountCell <- evalValue amount ;;
      copyOfAmount <- copy amountCell ;;
      p <- getUnsafePointer ;;
      moveTo copyOfAmount ;;
      emit (bf "[") ;;
      moveTo p ;;
      emit (bf "-") ;;
      moveTo copyOfAmount ;;
      emit (bf "-") ;;
      emit (bf "]")
  | UnsafeGoto loc =>
      p <- getUnsafePointer ;;
      let target := p + loc in
      moveTo target ;;
      modify (set_unsafePointerLocation (Some target))
  | UnsafeShow =>
      p <- getUnsafePointer ;;
      moveTo p ;;
      emit (bf ".")
  | UnsafeLoop body =>
      p <- getUnsafePointer ;;
      moveTo p ;;
      emit (bf "[") ;;
      forEach compileUnsafeToken body ;;
      (* the unsafe pointer is read again: a goto in the body moves it *)
      p' <- getUnsafePointer ;;
      moveTo p' ;;
      emit (bf "]")
  | Abstract ops =>
      emit (join_bf ops)
  end.

Definition compileUnsafe (tokens : list UnsafeToken) : M unit :=
  forEach compileUnsafeToken tokens.

(** [findContiguousFreeRegion].  [firstUsedOffset] is the inner [for] loop:
    the first [i] below [size] with [start + i] a key of [memoryUsage]. *)
Fixpoint firstUsedOffset (m : list (Z * usage)) (start : Z) (offsets : list Z) : option Z :=
  match offsets with
  | [] => None
  | i :: rest =>
      if map_has (start + i) m then Some i else firstUsedOffset m start rest
  end.

(** The [while (true)] loop.  Every failed attempt moves [start] past one
    more key, so [length m] retries are enough
    ([findContiguousFreeRegion_of_total]). *)
Fixpoint findContiguousFreeRegion_loop (retries : nat) (m : list (Z * usage))
    (size start : Z) : option Z :=
  match firstUsedOffset m start (seqZ 0 size) with
  | None => Some start
  | Some i =>
      match retries with
      | O => None
      | S retries' => findContiguousFreeRegion_loop retries' m size (start + i + 1)
      end
  end.

Definition findContiguousFreeRegion_of (m : list (Z * usage)) (size : Z) : option Z :=
  findContiguousFreeRegion_loop (length m) m size 0.

Definition findContiguousFreeRegion (size : Z) : M Z :=
  fun st =>
    match findContiguousFreeRegion_of (memoryUsage st) size with
    | Some start => Ok (start, st)
    | None => OutOfFuel
    end.

(** ** The main compilation function *)

(** The [if (reset)] block: [functions] is not reset. *)
Definition resetState (st : cstate) : cstate :=
  {| brainfuckCode := [];
     memoryUsage := [];
     variables := ∅;
     pointerLocation := 0;
     functions := functions st;
     unsafePointerLocation := None |}.

(** The condition cell of [Loop] and [If]. *)
Definition conditionCell (condition : ValueToken) : M Z :=
  match condition with
  | VariableRef name (IndexNumber i) =>
      condCell <- findVariableLocation name i ;;
      match condCell with
      | None => throw Woopsies
      | Some c => ret c
      end
  | _ => evalValue condition
  end.

(** The [switch (true)] of [Show]: does the value print as a character? *)
Definition showsAsChar (value : ValueToken) (st : cstate) : bool :=
  match value with
  | VariableRef name (IndexNumber i) =>
      match findVariableLocation_of name i (memoryUsage st) with
      | Some loc =>
          match map_get loc (memoryUsage st) with
          | Some (Named _ TChar) => true
          | _ => false
          end
      | None =>
          match map_get (-1) (memoryUsage st) with
          | Some (Named _ TChar) => true
          | _ => false
          end
      end
  | VariableRef name (IndexExpr _) =>
      match variables st !! name with
      | Some info => match type_ info with TChar => true | TNumber => false end
      | None => false
      end
  | Literal (LitString _) => true
  | _ => false
  end.

(** The body of the [code.forEach] callback; [compile_rec] is the recursive
    call [compile(body, reset)]. *)
Definition compileToken (compile_rec : list Token -> bool -> M (list ascii))
    (token : Token) : M unit :=
  match token with
  | Declaration name type array =>
      match array with
      | Some n =>
          baseAddress <- findContiguousFreeRegion n ;;
          forRange n (fun i =>
            let loc := baseAddress + i in
            memSet loc (Named (name, i) type) ;;
            moveTo loc ;;
            clearCell) ;;
          modify (fun st => set_variables
            (<[name := {| base := baseAddress; length_ := n; type_ := type |}]>
               (variables st)) st)
      | None =>
          locationIndex <- findEmptyLocation ;;
          memSet locationIndex (Named (name, 0) type) ;;
          modify (fun st => set_variables
            (<[name := {| base := locationIndex; length_ := 1; type_ := type |}]>
               (variables st)) st)
      end
  | Assign name index value =>
      match index with
      | IndexExpr indexExpr =>
          (* support dynamic indexing on assignment *)
          setVariableAtDynamicIndex name indexExpr value
      | IndexNumber i =>
          entryLoc <- findVariableLocation name i ;;
          match entryLoc with
          | None => throw (VariableNotDeclared name)
          | Some targetLocation =>
              match value with
              | Literal v =>
                  moveTo targetLocation ;;
                  setValue v
              | VariableRef vname vindex =>
                  moveTo targetLocation ;;
                  clearCell ;;
                  sourceLocation <-
                    match vindex with
                    | IndexNumber j => findVariableLocation vname j
                    | IndexExpr _ => fmapM Some (evalValue value)
                    end ;;
                  match sourceLocation with
                  | None => throw (VariableNotDeclared vname)
                  | Some sourceLocation =>
                      moveTo sourceLocation ;;
                      copyLocation <- copy sourceLocation ;;
                      moveTo copyLocation ;;
                      emit (bf "[") ;;
                      moveTo targetLocation ;;
                      emit (bf "+") ;;
                      moveTo copyLocation ;;
                      emit (bf "-") ;;
                      emit (bf "]")
                  end
              | Math _ _ _ =>
                  resultCell <- evalValue value ;;
                  moveTo targetLocation ;;
                  clearCell ;;
                  moveTo resultCell ;;
                  emit (bf "[") ;;
                  moveTo targetLocation ;;
                  emit (bf "+") ;;
                  moveTo resultCell ;;
                  emit (bf "-") ;;
                  emit (bf "]")
              | Max =>
                  moveTo targetLocation ;;
                  clearCell ;;
                  emit (bf "-")
              end
          end
      end
  | Show value =>
      valueLocation <- evalValue value ;;
      moveTo valueLocation ;;
      st <- get ;;
      if showsAsChar value st then emit (bf "~") else emit (bf ".")
  | Loop condition body =>
      condCell <- conditionCell condition ;;
      moveTo condCell ;;
      emit (bf "[") ;;
      _ <- compile_rec body false ;;
      moveTo condCell ;;
      emit (bf "]")
  | Input name =>
      entryLoc <- findVariableLocation name 0 ;;
      match entryLoc with
      | None => throw (VariableNotDeclared name)
      | Some entryLoc =>
          (* [if (!entryLoc)]: the address 0 is falsy as well *)
          if entryLoc =? 0 then throw (VariableNotDeclared name)
          else
            moveTo entryLoc ;;
            emit (bf ",")
      end
  | If condition body =>
      condCell <- conditionCell condition ;;
      moveTo condCell ;;
      emit (bf "[") ;;
      _ <- compile_rec body false ;;
      moveTo condCell ;;
      clearCell ;;
      emit (bf "]")
  | Unsafe safetySize body =>
      start <- findContiguousFreeRegion safetySize ;;
      forRange safetySize (fun i => memSet (start + i) Freed) ;;
      modify (set_unsafePointerLocation (Some start)) ;;
      moveTo start ;;
      compileUnsafe body ;;
      forRange safetySize (fun i =>
        memDelete (start + i) ;;
        moveTo (start + i) ;;
        clearCell) ;;
      modify (set_unsafePointerLocation None)
  | Function name body =>
      modify (fun st => set_functions (<[name := body]> (functions st)) st)
  | Call name =>
      st <- get ;;
      match functions st !! name with
      | None => throw (FunctionNotDefined name)
      | Some funcCode =>
          (* [brainfuckCode += compile(funcCode)]: the left operand is read
             before the call, and [reset] takes its default, [true] *)
          let before := brainfuckCode st in
          funcOutput <- compile_rec funcCode true ;;
          modify (set_code (before ++ funcOutput))
      end
  | Remove _ =>
      throw (UnhandledTokenType "Remove")
  end.

Fixpoint compile_fuel (fuel : nat) (code : list Token) (reset : bool) : M (list ascii) :=
  match fuel with
  | O => fun _ => OutOfFuel
  | S fuel' =>
      (if reset then modify resetState else ret tt) ;;
      forEach (compileToken (compile_fuel fuel')) code ;;
      st <- get ;;
      ret (brainfuckCode st)
  end.

(** The builtin function [__dump]. *)
Definition builtin_functions : gmap string (list Token) :=
  {[ "__dump" := [Unsafe 1 [Abstract ["&"%string]]] ]}.

(** The module-level variables as the module initialises them. *)
Definition initial_state : cstate :=
  {| brainfuckCode := [];
     memoryUsage := [];
     variables := ∅;
     pointerLocation := 0;
     functions := builtin_functions;
     unsafePointerLocation := None |}.

(** [compile(code)], called from outside with [reset] at its default. *)
Definition compile (fuel : nat) (code : list Token) : M (list ascii) :=
  compile_fuel fuel code true.

(** ** The executor ([brainfuck])

    Cells are JavaScript numbers: integers, or [NaN] (from [parseInt] on a
    character that is no digit, or from [% 0]).  A JavaScript string built
    by the executor is the list of its UTF-16 code units.  The [memory]
    array of [memorySize] zeros is a finite map with default [Num 0].

    The instruction pointer is kept as a zipper over [code]: the characters
    before it, last first, and the characters from it on; the number
    [instructionPointer] is the length of the first list. *)

Inductive number := Num (z : Z) | NaN.

Record options := {
  input : list ascii;
  useNumberInputs : bool;
  bits : Z
}.

Definition memorySize : Z := 30000.

Record machine := {
  memory : gmap Z number;
  dataPointer : Z;
  output : list Z;
  inputPointer : nat
}.

Definition initial_machine : machine :=
  {| memory := ∅; dataPointer := 0; output := []; inputPointer := 0 |}.

Definition read (mem : gmap Z number) (dp : Z) : number :=
  default (Num 0) (mem !! dp).

(** [(x + k) % b] on JavaScript numbers ([%] truncates towards zero). *)
Definition add_rem (x : number) (k b : Z) : number :=
  match x with
  | Num z => if b =? 0 then NaN else Num (Z.rem (z + k) b)
  | NaN => NaN
  end.

Definition is_zero (x : number) : bool :=
  match x with
  | Num z => z =? 0
  | NaN => false
  end.

Definition code_units (s : string) : list Z :=
  map (fun c => Z.of_nat (nat_of_ascii c)) (list_ascii_of_string s).

(** [`${x}`] *)
Definition number_to_string (x : number) : list Z :=
  match x with
  | Num z => code_units (NilZero.string_of_int (Z.to_int z))
  | NaN => code_units "NaN"
  end.

(** [String.fromCharCode(x)] *)
Definition fromCharCode (x : number) : list Z :=
  match x with
  | Num z => [z mod 65536]
  | NaN => [0]
  end.

(** [parseInt(c)] on a one-character string *)
Definition parseInt (c : ascii) : number :=
  let n := Z.of_nat (nat_of_ascii c) in
  if ((48 <=? n) && (n <=? 57))%bool then Num (n - 48) else NaN.

Definition set_cell (v : number) (m : machine) : machine :=
  {| memory := <[dataPointer m := v]> (memory m);
     dataPointer := dataPointer m;
     output := output m;
     inputPointer := inputPointer m |}.

Definition set_dataPointer (dp : Z) (m : machine) : machine :=
  {| memory := memory m; dataPointer := dp;
     output := output m; inputPointer := inputPointer m |}.

Definition append_output (s : list Z) (m : machine) : machine :=
  {| memory := memory m; dataPointer := dataPointer m;
     output := output m ++ s; inputPointer := inputPointer m |}.

Definition read_input (o : options) (m : machine) : machine :=
  match input o !! inputPointer m with
  | Some c =>
      {| memory := <[dataPointer m :=
                      if useNumberInputs o then parseInt c
                      else Num (Z.of_nat (nat_of_ascii c))]> (memory m);
         dataPointer := dataPointer m;
         output := output m;
         inputPointer := S (inputPointer m) |}
  | None => set_cell (Num 0) m
  end.

(** The scan of ["["] for its closing bracket: [before] ends with the
    character under the instruction pointer. *)
Fixpoint scan_forward (loopCount : nat) (before after : list ascii)
    : option (list ascii * list ascii) :=
  match after with
  | [] => None
  | char :: after' =>
      let loopCount' :=
        if Ascii.eqb char "[" then S loopCount
        else if Ascii.eqb char "]" then pred loopCount
        else loopCount in
      match loopCount' with
      | O => Some (char :: before, after')
      | _ => scan_forward loopCount' (char :: before) after'
      end
  end.

(** The scan of ["]"] for its opening bracket: [after] starts with the
    character under the instruction pointer. *)
Fixpoint scan_backward (loopCount : nat) (before after : list ascii)
    : option (list ascii * list ascii) :=
  match before with
  | [] => None
  | char :: before' =>
      let loopCount' :=
        if Ascii.eqb char "]" then S loopCount
        else if Ascii.eqb char "[" then pred loopCount
        else loopCount in
      match loopCount' with
      | O => Some (before, after)
      | _ => scan_backward loopCount' before' (char :: after)
      end
  end.

Inductive exec_error := UnmatchedOpen | UnmatchedClose.

Inductive outcome :=
  | Halted (m : machine)
  | Raised (e : exec_error)
  | Timeout.

(** One turn of the [while (instructionPointer < code.length)] loop on the
    instruction [instruction], which is followed by [after]. *)
Definition operation (o : options) (instruction : ascii)
    (before after : list ascii) (m : machine)
    : option (list ascii * list ascii * machine) :=
  let next := (instruction :: before, after) in
  if Ascii.eqb instruction ">" then
    Some (next, set_dataPointer (Z.rem (dataPointer m + 1) memorySize) m)
  else if Ascii.eqb instruction "<" then
    Some (next, set_dataPointer (Z.rem (dataPointer m - 1 + memorySize) memorySize) m)
  else if Ascii.eqb instruction "+" then
    Some (next, set_cell (add_rem (read (memory m) (dataPointer m)) 1 (bits o)) m)
  else if Ascii.eqb instruction "-" then
    Some (next, set_cell (add_rem (read (memory m) (dataPointer m)) (-1 + bits o) (bits o)) m)
  else if Ascii.eqb instruction "." then
    Some (next, append_output (number_to_string (read (memory m) (dataPointer m))) m)
  else if Ascii.eqb instruction "~" then
    Some (next, append_output (fromCharCode (read (memory m) (dataPointer m))) m)
  else if Ascii.eqb instruction "," then
    Some (next, read_input o m)
  else if Ascii.eqb instruction "[" then
    if is_zero (read (memory m) (dataPointer m)) then
      match scan_forward 1 (instruction :: before) after with
      | Some z => Some (z, m)
      | None => None
      end
    else Some (next, m)
  else if Ascii.eqb instruction "]" then
    if is_zero (read (memory m) (dataPointer m)) then Some (next, m)
    else
      match scan_backward 1 before (instruction :: after) with
      | Some z => Some (z, m)
      | None => None
      end
  else Some (next, m).

Fixpoint run (fuel : nat) (o : options) (before after : list ascii) (m : machine)
    : outcome :=
  match after with
  | [] => Halted m
  | instruction :: after' =>
      match fuel with
      | O => Timeout
      | S fuel' =>
          match operation o instruction before after' m with
          | Some (before', after'', m') => run fuel' o before' after'' m'
          | None =>
              Raised (if Ascii.eqb instruction "[" then UnmatchedOpen
                      else UnmatchedClose)
          end
      end
  end.

(** [brainfuck(code, options)]; [fuel] bounds the number of instructions
    executed. *)
Definition brainfuck (fuel : nat) (code : list ascii) (o : options) : outcome :=
  run fuel o [] code initial_machine.

Definition output_of (r : outcome) : option (list Z) :=
  match r with
  | Halted m => Some (output m)
  | _ => None
  end.

(** ** Programs and states used in the statements below *)

Definition lit (n : Z) : ValueToken := Literal (LitNumber n).
Definition var (x : string) : ValueToken := VariableRef x (IndexNumber 0).
Definition scalar (x : string) : Token := Declaration x TNumber None.
Definition set_ (x : string) (v : ValueToken) : Token := Assign x (IndexNumber 0) v.
Definition raw (s : string) : UnsafeToken := Abstract [s].

Definition options_of_bits (b : Z) : options :=
  {| input := []; useNumberInputs := false; bits := b |}.

(** The program of the test "expression-based index read and write". *)
Definition expression_index_test : list Token :=
  [ Declaration "a" TNumber (Some 3);
    scalar "i";
    Assign "a" (IndexNumber 0) (lit 11);
    Assign "a" (IndexNumber 1) (lit 22);
    Assign "a" (IndexNumber 2) (lit 33);
    set_ "i" (lit 2);
    Assign "a" (IndexExpr (Math OpMinus (var "i") (lit 1))) (lit 99);
    Show (VariableRef "a" (IndexExpr (Math OpMinus (var "i") (lit 1)))) ].

(** The program of the test "dynamic indexing assignment and show". *)
Definition dynamic_index_test : list Token :=
  [ Declaration "a" TNumber (Some 5);
    scalar "i";
    Assign "a" (IndexNumber 0) (lit 3);
    Assign "a" (IndexNumber 1) (lit 1);
    Assign "a" (IndexNumber 2) (lit 4);
    Assign "a" (IndexNumber 3) (lit 1);
    Assign "a" (IndexNumber 4) (lit 5);
    set_ "i" (lit 3);
    Assign "a" (IndexExpr (var "i")) (lit 7);
    Show (VariableRef "a" (IndexExpr (var "i"))) ].

(** [function f { show 56 }], called after a variable was declared, and the
    same program with the body written at the call site. *)
Definition call_program : list Token :=
  [ scalar "a"; set_ "a" (lit 1);
    Function "f" [Show (lit 56)];
    Call "f";
    Show (var "a") ].

Definition inlined_program : list Token :=
  [ scalar "a"; set_ "a" (lit 1);
    Function "f" [Show (lit 56)];
    Show (lit 56);
    Show (var "a") ].

(** The first steps of the [Unsafe] branch, up to the body, followed by one
    query of the single-cell allocator. *)
Definition reserve_then_allocate (safetySize : Z) : M (Z * Z) :=
  start <- findContiguousFreeRegion safetySize ;;
  forRange safetySize (fun i => memSet (start + i) Freed) ;;
  modify (set_unsafePointerLocation (Some start)) ;;
  moveTo start ;;
  loc <- findEmptyLocation ;;
  ret (start, loc).

Definition unsafe_add_show : list Token :=
  [ Unsafe 1 [UnsafeAdd (lit 5); UnsafeShow] ].

(** An [if] whose body moves the tape pointer with a raw escape. *)
Definition if_with_raw_escape : list Token :=
  [ scalar "c"; set_ "c" (lit 1);
    If (var "c") [Unsafe 1 [raw ">"]] ].

(** A raw escape leaves 1 in cell 2; later [a] is copied into [b]. *)
Definition copy_after_raw_escape_prefix : list Token :=
  [ Unsafe 1 [raw ">"; raw ">"; raw "+"; raw "<"; raw "<"];
    scalar "a"; scalar "b";
    set_ "a" (lit 3) ].

Definition copy_after_raw_escape : list Token :=
  copy_after_raw_escape_prefix ++ [ set_ "b" (var "a") ].

Definition two_operands : list Token := [ scalar "a"; scalar "b" ].

(** Two variables, the first set to 3. *)
Definition two_variables : list Token :=
  [ scalar "a"; scalar "b"; set_ "a" (lit 3) ].

(** Two variables, the first set to 3 and then assigned to the second. *)
Definition assign_variable : list Token :=
  two_variables ++ [ set_ "b" (var "a") ].

(** A variable set to 3 and then assigned to itself. *)
Definition self_assignment : list Token :=
  [ scalar "a"; set_ "a" (lit 3); set_ "a" (var "a") ].

(** A variable set to 1, then the call of a function with an empty body. *)
Definition call_after_set : list Token :=
  [ scalar "a"; set_ "a" (lit 1); Function "f" []; Call "f" ].

(** A flag set to 1, and an [if] on it that declares and sets a variable. *)
Definition flag_set : list Token := [ scalar "c"; set_ "c" (lit 1) ].
Definition if_flag : Token :=
  If (var "c") [ scalar "x"; set_ "x" (lit 2) ].

(** The compiler state after a program, and the machine its code halts
    in. *)
Definition state_after (code : list Token) : cstate :=
  match compile 2 code initial_state with
  | Ok (_, st) => st
  | _ => initial_state
  end.

Definition code_after (code : list Token) : list ascii :=
  match compile 2 code initial_state with
  | Ok (c, _) => c
  | _ => []
  end.

Definition machine_after (code : list Token) (o : options) : machine :=
  match compile 2 code initial_state with
  | Ok (c, _) =>
      match brainfuck 1000 c o with
      | Halted m => m
      | _ => initial_machine
      end
  | _ => initial_machine
  end.

Definition unsafe_then_array : list Token :=
  [ Unsafe 2 [UnsafeAdd (lit 5)];
    Declaration "a" TNumber (Some 2) ].

Definition raw_escape_outside_region : list Token :=
  [ Unsafe 1 [raw ">"; raw "+"; raw "<"] ].



(** The instruction alphabet of the target machine, with the
    character-output variant. *)
Definition instruction_char (c : ascii) : bool :=
  existsb (Ascii.eqb c) (bf "><+-.,[]~").

(** ** Structured view of the executor

    A bracket-balanced instruction string is the flattening of a list of
    [instr]: single characters other than brackets, and loops.  [exec] is the
    big-step reading of the executor on such a string and [steps] iterates
    the executor's [operation]. *)

Inductive instr :=
  | Simple (c : ascii)
  | LoopI (body : list instr).

Fixpoint unparse_instr (i : instr) : list ascii :=
  match i with
  | Simple c => [c]
  | LoopI body => "["%char :: flat_map unparse_instr body ++ ["]"%char]
  end.

Definition unparse (p : list instr) : list ascii := flat_map unparse_instr p.

Definition is_bracket (c : ascii) : bool :=
  (Ascii.eqb c "[" || Ascii.eqb c "]")%bool.

Fixpoint wf_instr (i : instr) : bool :=
  match i with
  | Simple c => negb (is_bracket c)
  | LoopI body => forallb wf_instr body
  end.

Definition wf_prog (p : list instr) : bool := forallb wf_instr p.

(** What [operation] does to the machine on a character that is no
    bracket. *)
Definition simple_step (o : options) (instruction : ascii) (m : machine) : machine :=
  if Ascii.eqb instruction ">" then
    set_dataPointer (Z.rem (dataPointer m + 1) memorySize) m
  else if Ascii.eqb instruction "<" then
    set_dataPointer (Z.rem (dataPointer m - 1 + memorySize) memorySize) m
  else if Ascii.eqb instruction "+" then
    set_cell (add_rem (read (memory m) (dataPointer m)) 1 (bits o)) m
  else if Ascii.eqb instruction "-" then
    set_cell (add_rem (read (memory m) (dataPointer m)) (-1 + bits o) (bits o)) m
  else if Ascii.eqb instruction "." then
    append_output (number_to_string (read (memory m) (dataPointer m))) m
  else if Ascii.eqb instruction "~" then
    append_output (fromCharCode (read (memory m) (dataPointer m))) m
  else if Ascii.eqb instruction "," then
    read_input o m
  else m.

Definition at_zero (m : machine) : bool :=
  is_zero (read (memory m) (dataPointer m)).

Inductive exec (o : options) : list instr -> machine -> machine -> Prop :=
  | exec_nil m : exec o [] m m
  | exec_simple c p m m' :
      exec o p (simple_step o c m) m' ->
      exec o (Simple c :: p) m m'
  | exec_skip body p m m' :
      at_zero m = true ->
      exec o p m m' ->
      exec o (LoopI body :: p) m m'
  | exec_iter body p m m1 m' :
      at_zero m = false ->
      exec o body m m1 ->
      exec o (LoopI body :: p) m1 m' ->
      exec o (LoopI body :: p) m m'.

(** [n] turns of the executor's loop, from the instruction pointer that
    has [before] behind it and [after] ahead. *)
Fixpoint steps (n : nat) (o : options) (before after : list ascii) (m : machine)
    : option (list ascii * list ascii * machine) :=
  match n with
  | O => Some (before, after, m)
  | S n' =>
      match after with
      | [] => None
      | instruction :: after' =>
          match operation o instruction before after' m with
          | Some (before', after'', m') => steps n' o before' after'' m'
          | None => None
          end
      end
  end.

(** The executor runs the segment [seg] from [m] to [m']: wherever the
    segment stands in the code, it is entered at its first character with
    [m] and left past its last character with [m']. *)
Definition runs (o : options) (seg : list ascii) (m m' : machine) : Prop :=
  forall before after,
    exists n, steps n o before (seg ++ after) m = Some (rev seg ++ before, after, m').

(** ** A static analysis of emitted code

    [ascan] follows the tape pointer through the code as the compiler
    tracks it ([apos]), collects the addresses the code may leave non-zero
    ([adirty]) and checks that every loop ends at the address it started
    at.  A loop is analysed from an empty set; at its end the addresses it
    dirtied are added to those dirty before it, and the loop's own cell,
    zero on exit, is removed. *)

Record astate := {
  apos : Z;
  adirty : gset Z;
  astack : list (Z * gset Z)
}.

Definition ascan_char (c : ascii) (s : astate) : option astate :=
  if Ascii.eqb c ">" then
    Some {| apos := apos s + 1; adirty := adirty s; astack := astack s |}
  else if Ascii.eqb c "<" then
    Some {| apos := apos s - 1; adirty := adirty s; astack := astack s |}
  else if (Ascii.eqb c "+" || Ascii.eqb c "-" || Ascii.eqb c ",")%bool then
    Some {| apos := apos s; adirty := adirty s ∪ {[apos s]}; astack := astack s |}
  else if Ascii.eqb c "[" then
    Some {| apos := apos s; adirty := ∅;
            astack := (apos s, adirty s) :: astack s |}
  else if Ascii.eqb c "]" then
    match astack s with
    | (p, d) :: stack =>
        if p =? apos s then
          Some {| apos := apos s; adirty := (d ∪ adirty s) ∖ {[apos s]};
                  astack := stack |}
        else None
    | [] => None
    end
  else Some s.

Fixpoint ascan (code : list ascii) (s : astate) : option astate :=
  match code with
  | [] => Some s
  | c :: rest =>
      match ascan_char c s with
      | Some s' => ascan rest s'
      | None => None
      end
  end.

(** The tape cell [cell] is the cell of no address of [d]. *)
Definition uncovered (d : gset Z) (cell : Z) : Prop :=
  forall k, k ∈ d -> k mod memorySize <> cell.

(** Builder of the structured program of a code: the instructions of the
    innermost open loop, and those of the loops around it. *)
Definition build_char (c : ascii) (b : list instr * list (list instr))
    : option (list instr * list (list instr)) :=
  if Ascii.eqb c "[" then Some ([], fst b :: snd b)
  else if Ascii.eqb c "]" then
    match snd b with
    | parent :: stack => Some (parent ++ [LoopI (fst b)], stack)
    | [] => None
    end
  else Some (fst b ++ [Simple c], snd b).

Fixpoint build (code : list ascii) (b : list instr * list (list instr))
    : option (list instr * list (list instr)) :=
  match code with
  | [] => Some b
  | c :: rest =>
      match build_char c b with
      | Some b' => build rest b'
      | None => None
      end
  end.

Fixpoint unparse_frames (stack : list (list instr)) : list ascii :=
  match stack with
  | [] => []
  | parent :: stack' => unparse_frames stack' ++ unparse parent ++ ["["%char]
  end.

(** ** Reasoning about the compiler monad *)

(** Weakest precondition, for partial correctness: a compilation that
    throws satisfies every postcondition. *)
Definition wp {A} (m : M A) (Q : A -> cstate -> Prop) (st : cstate) : Prop :=
  match m st with
  | Ok (a, st') => Q a st'
  | _ => True
  end.

(** The text [moveTo] emits to go from the address [p] to the address [q]. *)
Definition moves (p q : Z) : list ascii :=
  repeat_char ">" (q - p) ++ repeat_char "<" (p - q).

(** The text [setValue] emits. *)
Definition setValue_code (value : LiteralValue) : list ascii :=
  bf "[-]" ++
  match value with
  | LitNumber n =>
      if 0 <? n then repeat_char "+" n
      else if n <? 0 then repeat_char "-" (- n)
      else []
  | LitBoolean b => if b then bf "+" else []
  | LitString s =>
      match charCodeAt0 s with
      | Some code => if 0 <? code then repeat_char "+" code else []
      | None => []
      end
  end.

(** The text [copy] emits with the tape pointer tracked at [p], for the
    source [cell] and the two cells [l1] and [l2] the allocator hands out. *)
Definition copy_code (p cell l1 l2 : Z) : list ascii :=
  moves p cell ++ bf "[" ++ moves cell l1 ++ bf "+" ++ moves l1 l2 ++ bf "+"
  ++ moves l2 cell ++ bf "-" ++ bf "]"
  ++ moves cell l1 ++ bf "[" ++ moves l1 cell ++ bf "+" ++ moves cell l1
  ++ bf "-" ++ bf "]" ++ moves l1 l1 ++ bf "[-]".

(** The text the assignment of one variable's cell [cell] to another
    variable's cell [target] emits, with [l1] and [l2] the cells of its
    [copy]. *)
Definition assign_code (p target cell l1 l2 : Z) : list ascii :=
  moves p target ++ bf "[-]" ++ moves target cell
  ++ copy_code cell cell l1 l2
  ++ moves l1 l2 ++ bf "[" ++ moves l2 target ++ bf "+" ++ moves target l2
  ++ bf "-" ++ bf "]".

(** The two cells [copy] takes from the allocator. *)
Definition copy_location1 (m : list (Z * usage)) : Z := findEmptyLocation_of m.
Definition copy_location2 (m : list (Z * usage)) : Z :=
  findEmptyLocation_of (map_set (copy_location1 m) Temporary m).

(** *** The allocator's view of the tape *)

Definition is_occupied (u : option usage) : bool :=
  match u with
  | Some (Named _ _) | Some Temporary => true
  | Some Freed | None => false
  end.

(** The addresses in [Named] or [Temporary] status. *)
Definition occ (m : list (Z * usage)) : gset Z :=
  list_to_set (List.filter (fun k => is_occupied (map_get k m)) (map fst m)).

Definition is_named (u : option usage) : bool :=
  match u with
  | Some (Named _ _) => true
  | _ => false
  end.

(** The addresses in [Named] status: the cells of declared variables. *)
Definition named (m : list (Z * usage)) : gset Z :=
  list_to_set (List.filter (fun k => is_named (map_get k m)) (map fst m)).

(** The keys of the map are [0 .. length m - 1], in this order: the state of
    [memoryUsage] as long as no key was deleted. *)
Definition dense (m : list (Z * usage)) : Prop :=
  map fst m = seqZ 0 (Z.of_nat (length m)).

(** The analysis state at the start of a program. *)
Definition ascan_start : astate :=
  {| apos := 0; adirty := ∅; astack := [] |}.

(** One analysis stack bounded by another: the same loop addresses, smaller
    dirty sets. *)
Definition stack_le (k k' : list (Z * gset Z)) : Prop :=
  Forall2 (fun e e' => fst e = fst e' /\ snd e ⊆ snd e') k k'.

(** The code emitted since the code was [c0] is accepted by the analysis
    started in [s0]; the analysis ends at the tracked pointer, with a dirty
    set within [D] and open loops bounded by [K]. *)
Definition covered (c0 : list ascii) (s0 : astate) (st : cstate)
    (D : gset Z) (K : list (Z * gset Z)) : Prop :=
  exists delta d k,
    brainfuckCode st = c0 ++ delta
    /\ ascan delta s0
       = Some {| apos := pointerLocation st; adirty := d; astack := k |}
    /\ d ⊆ D /\ stack_le k K.

(** The compiler state as the proofs below follow it: the map has no deleted
    key, the code is [covered], the pointer is [p], the occupied addresses
    are [Oc], the variables' cells are [N] and the variable table is [V]. *)
Definition sstate (c0 : list ascii) (s0 : astate)
    (V : gmap string varinfo) (N : gset Z)
    (st : cstate) (p : Z) (D : gset Z) (K : list (Z * gset Z)) (Oc : gset Z)
    : Prop :=
  dense (memoryUsage st)
  /\ covered c0 s0 st D K
  /\ pointerLocation st = p
  /\ occ (memoryUsage st) = Oc
  /\ named (memoryUsage st) = N
  /\ variables st = V.

(** Every element of a declared variable is an occupied cell. *)
Definition vars_ok (V : gmap string varinfo) (Oc : gset Z) : Prop :=
  forall name info,
    V !! name = Some info ->
    forall i, 0 <= i < length_ info -> base info + i ∈ Oc.

(** The invariant of compilation without [Unsafe] and [Call]: the map has no
    deleted key, the variable table points at occupied cells, the emitted
    code keeps the tape pointer where it is tracked, only occupied cells can
    be non-zero, and the addresses of [O] stay occupied. *)
Definition good (c0 : list ascii) (s0 : astate) (K : list (Z * gset Z))
    (O : gset Z) (st : cstate) : Prop :=
  exists V N p D Oc,
    sstate c0 s0 V N st p D K Oc
    /\ D ⊆ Oc /\ vars_ok V Oc /\ O ⊆ Oc.

(** What the evaluation of an expression does to the state the invariant
    follows: cells are only added to the occupied ones, only occupied cells
    are dirtied, and the result is an occupied cell, a variable's or a new
    one. *)
Definition eval_spec (m : M Z) : Prop :=
  forall c0 s0 V N st p D K Oc (Q : Z -> cstate -> Prop),
    sstate c0 s0 V N st p D K Oc ->
    vars_ok V Oc ->
    (forall r st' p' D' Oc',
       sstate c0 s0 V N st' p' D' K Oc' ->
       D' ⊆ D ∪ Oc' -> Oc ⊆ Oc' -> r ∈ Oc' -> r ∈ N \/ r ∉ Oc ->
       Q r st') ->
    wp m Q st.

(** Tokens without [Unsafe] and [Call], also in nested bodies. *)
Fixpoint safe_token (t : Token) : bool :=
  match t with
  | Loop _ body | If _ body | Function _ body => forallb safe_token body
  | Unsafe _ _ | Call _ => false
  | _ => true
  end.

(** A compilation function for nested bodies that preserves the invariant
    on bodies without [Unsafe] and [Call]. *)
Definition keeps_good (compile_rec : list Token -> bool -> M (list ascii)) : Prop :=
  forall body c0 s0 K O st,
    forallb safe_token body = true ->
    good c0 s0 K O st ->
    wp (compile_rec body false) (fun _ => good c0 s0 K O) st.

(** Raw-escape texts over the instruction alphabet, and no call of the
    builtin [__dump]. *)
Definition clean_text (s : string) : bool :=
  forallb instruction_char (list_ascii_of_string s).

Fixpoint clean_unsafe_token (t : UnsafeToken) : bool :=
  match t with
  | UnsafeLoop body => forallb clean_unsafe_token body
  | Abstract ops => forallb clean_text ops
  | _ => true
  end.

Fixpoint clean_token (t : Token) : bool :=
  match t with
  | Loop _ body | If _ body | Function _ body => forallb clean_token body
  | Unsafe _ body => forallb clean_unsafe_token body
  | Call name => negb (String.eqb name "__dump")
  | _ => true
  end.

(** Every registered function other than [__dump] is clean. *)
Definition clean_registry (fs : gmap string (list Token)) : Prop :=
  forall name body,
    name <> "__dump"%string -> fs !! name = Some body ->
    forallb clean_token body = true.

Definition alphabet (c : list ascii) : Prop :=
  Forall (fun ch => instruction_char ch = true) c.

(** The earlier revision of [subtract] (src/compiler/index.ts), whose
    docstring notes that it "is missing freeing copiedA and copiedB unlike
    add".  The helpers it calls are the same in both revisions. *)
Module Legacy.

Definition subtract (a b : Z) : M Z :=
  targetLocation <- findEmptyLocation ;;
  memSet targetLocation Temporary ;;
  copiedA <- copy a ;;
  copiedB <- copy b ;;
  moveTo copiedA ;;
  emit (bf "[") ;;
  moveTo targetLocation ;;
  emit (bf "+") ;;
  moveTo copiedA ;;
  emit (bf "-") ;;
  emit (bf "]") ;;
  moveTo copiedB ;;
  emit (bf "[") ;;
  moveTo targetLocation ;;
  emit (bf "-") ;;
  moveTo copiedB ;;
  emit (bf "-") ;;
  emit (bf "]") ;;
  ret targetLocation.

End Legacy.

(** [st'] comes from [st] by appending text over the instruction alphabet;
    the function registry is the same. *)
Definition extends (st st' : cstate) : Prop :=
  functions st' = functions st
  /\ exists e, brainfuckCode st' = brainfuckCode st ++ e /\ alphabet e.

Definition emits_clean {A} (m : M A) : Prop :=
  forall st, wp m (fun _ st' => extends st st') st.

(** The same for computations that may register functions. *)
Definition registers_clean {A} (m : M A) : Prop :=
  forall st,
    clean_registry (functions st) ->
    wp m (fun _ st' =>
            clean_registry (functions st')
            /\ exists e, brainfuckCode st' = brainfuckCode st ++ e /\ alphabet e) st.

(** What [compile(code, reset)] returns and leaves behind. *)
Definition compiles_clean (rec : list Token -> bool -> M (list ascii)) : Prop :=
  forall code reset,
    forallb clean_token code = true ->
    forall st,
      clean_registry (functions st) ->
      wp (rec code reset)
         (fun c st' =>
            clean_registry (functions st')
            /\ c = brainfuckCode st'
            /\ exists e,
                 brainfuckCode st' = (if reset then [] else brainfuckCode st) ++ e
                 /\ alphabet e) st.

Scheme ValueToken_ind' := Induction for ValueToken Sort Prop
  with VarIndex_ind' := Induction for VarIndex Sort Prop.

(** [define x number; set x 2; show x] *)
Definition show_two : list Token :=
  [ scalar "x"; set_ "x" (lit 2); Show (var "x") ].

(** *** Structured form of emitted code *)

(** A text without brackets as a structured program. *)
Definition straight (s : list ascii) : list instr := map Simple s.

(** The structured program of [copy_code]. *)
Definition copy_prog (p cell l1 l2 : Z) : list instr :=
  straight (moves p cell)
  ++ [LoopI (straight (moves cell l1 ++ bf "+" ++ moves l1 l2 ++ bf "+"
                       ++ moves l2 cell ++ bf "-"))]
  ++ straight (moves cell l1)
  ++ [LoopI (straight (moves l1 cell ++ bf "+" ++ moves cell l1 ++ bf "-"))]
  ++ straight (moves l1 l1)
  ++ [LoopI (straight (bf "-"))].

(** Two machines that differ at most in the tape cells of [cells] and in
    the data pointer. *)
Definition same_except (cells : list Z) (m m' : machine) : Prop :=
  output m' = output m
  /\ inputPointer m' = inputPointer m
  /\ forall k, ~ In k cells -> read (memory m') k = read (memory m) k.

(** What the analysis of a segment says about its structured execution:
    from the address [pos], with [d] the addresses that may be non-zero, to
    the address [pos'] with [d']. *)
Definition sound_between (o : options) (p : list instr)
    (pos : Z) (d : gset Z) (pos' : Z) (d' : gset Z) : Prop :=
  forall m m',
    exec o p m m' ->
    dataPointer m = pos mod memorySize ->
    dataPointer m' = pos' mod memorySize
    /\ forall cell,
         uncovered d' cell ->
         (uncovered d cell -> read (memory m) cell = Num 0) ->
         read (memory m') cell = Num 0.

(** ** What the emitted code computes

    The value [setValue] leaves in a cell of a machine whose cells wrap at
    [b]: [n] increments or [-n] decrements from 0, one increment for [true],
    as many increments as the first code unit of a string. *)
Definition literal_value (value : LiteralValue) (b : Z) : Z :=
  match value with
  | LitNumber n => n mod b
  | LitBoolean true => 1 mod b
  | LitBoolean false => 0
  | LitString s =>
      match charCodeAt0 s with
      | Some code => code mod b
      | None => 0
      end
  end.

(** The tape as the allocator sees it: the map has no deleted key, the tape
    pointer is where the compiler tracks it, the cells the map does not
    record as occupied hold 0 and the occupied ones hold numbers below
    [bits]. *)
Definition tape_ok (o : options) (st : cstate) (m : machine) : Prop :=
  dense (memoryUsage st)
  /\ dataPointer m = pointerLocation st mod memorySize
  /\ (forall a, 0 <= a < memorySize -> a ∉ occ (memoryUsage st) ->
                read (memory m) a = Num 0)
  /\ (forall a, a ∈ occ (memoryUsage st) ->
                exists z, read (memory m) a = Num z /\ 0 <= z < bits o).

(** The map never loses an entry. *)
Definition grows {A} (c : M A) : Prop :=
  forall st,
    wp c (fun _ st' =>
            (length (memoryUsage st) <= length (memoryUsage st'))%nat) st.

(** [c], run in [st] beside the machine [m]: when [c] returns and its map
    fits the tape, the text it appended runs from [m] to a machine that
    satisfies [Q]. *)
Definition computes {A} (o : options) (c : M A) (st : cstate) (m : machine)
    (Q : A -> cstate -> machine -> Prop) : Prop :=
  forall a st',
    c st = Ok (a, st') ->
    Z.of_nat (length (memoryUsage st')) <= memorySize ->
    exists seg m',
      brainfuckCode st' = brainfuckCode st ++ seg
      /\ runs o seg m m' /\ Q a st' m'.

(** The state and the machine after the evaluation of an expression into
    the cell [r], with value [v]: the tape is as the allocator sees it, no
    cell stopped being occupied, the variables are found where they were and
    no other cell is a variable's, the cells occupied before hold what they held, and nothing was printed
    or read. *)
Definition evaluated (o : options) (st : cstate) (m : machine)
    (r v : Z) (st' : cstate) (m' : machine) : Prop :=
  tape_ok o st' m'
  /\ occ (memoryUsage st) ⊆ occ (memoryUsage st')
  /\ (forall x i, findVariableLocation_of x i (memoryUsage st')
                  = findVariableLocation_of x i (memoryUsage st))
  /\ named (memoryUsage st') = named (memoryUsage st)
  /\ r ∈ occ (memoryUsage st')
  /\ read (memory m') r = Num v
  /\ (forall k, k ∈ occ (memoryUsage st) ->
                read (memory m') k = read (memory m) k)
  /\ output m' = output m
  /\ inputPointer m' = inputPointer m.

(** The value of an expression without computed indices on a machine whose
    cells wrap at [bits]: variables are read from their cells. *)
Fixpoint value_of (o : options) (mu : list (Z * usage)) (m : machine)
    (e : ValueToken) : option Z :=
  match e with
  | Literal v => Some (literal_value v (bits o))
  | VariableRef x (IndexNumber i) =>
      match findVariableLocation_of x i mu with
      | Some loc =>
          match read (memory m) loc with
          | Num z => Some z
          | NaN => None
          end
      | None => None
      end
  | VariableRef _ (IndexExpr _) => None
  | Math OpPlus l r =>
      match value_of o mu m l, value_of o mu m r with
      | Some a, Some b => Some ((a + b) mod bits o)
      | _, _ => None
      end
  | Math OpMinus l r =>
      match value_of o mu m l, value_of o mu m r with
      | Some a, Some b => Some ((a - b) mod bits o)
      | _, _ => None
      end
  | Math _ _ _ => None
  | Max => Some ((-1) mod bits o)
  end.

(** Expressions without computed indices. *)
Fixpoint static_value (e : ValueToken) : bool :=
  match e with
  | Literal _ | Max => true
  | VariableRef _ (IndexNumber _) => true
  | VariableRef _ (IndexExpr _) => false
  | Math _ l r => static_value l && static_value r
  end.

(** [tape_ok], decided: the cells the machine stores are checked one by
    one, and so are the occupied addresses. *)
Definition tape_okb (o : options) (st : cstate) (m : machine) : bool :=
  bool_decide (map fst (memoryUsage st)
               = seqZ 0 (Z.of_nat (length (memoryUsage st))))
  && (dataPointer m =? pointerLocation st mod memorySize)
  && forallb (fun kv : Z * number =>
                match snd kv with
                | Num 0 => true
                | _ => bool_decide (fst kv ∈ occ (memoryUsage st))
                end) (map_to_list (memory m))
  && forallb (fun k =>
                match read (memory m) k with
                | Num z => (0 <=? z) && (z <? bits o)
                | NaN => false
                end)
             (List.filter (fun k => is_occupied (map_get k (memoryUsage st)))
                          (map fst (memoryUsage st))).

(** The state and the machine after an assignment of [v] to the cell
    [target]: as [evaluated], with [target] the one cell occupied before
    that holds something else. *)
Definition assigned (o : options) (st : cstate) (m : machine)
    (target v : Z) (st' : cstate) (m' : machine) : Prop :=
  tape_ok o st' m'
  /\ occ (memoryUsage st) ⊆ occ (memoryUsage st')
  /\ (forall x i, findVariableLocation_of x i (memoryUsage st')
                  = findVariableLocation_of x i (memoryUsage st))
  /\ named (memoryUsage st') = named (memoryUsage st)
  /\ read (memory m') target = Num v
  /\ (forall k, k ∈ occ (memoryUsage st) -> k <> target ->
                read (memory m') k = read (memory m) k)
  /\ output m' = output m
  /\ inputPointer m' = inputPointer m.

(** ** Where the embedding is the code

    The compiler builds its text in a JavaScript string and its map in a
    [Map], and the executor computes on doubles; the embedding has lists and
    integers.  The two agree as long as the text fits a string
    ([String.prototype.repeat] and [+=] throw a [RangeError] beyond the
    engine's limit), the map fits the tape, and the numbers are integers
    that doubles hold exactly.

    [maxStringLength] is a length that the strings of every engine can
    have: the limit of V8 on a 32-bit platform, the lowest of V8's,
    JavaScriptCore's and SpiderMonkey's. *)
Definition maxStringLength : Z := 2 ^ 28 - 16.

(** [c], run in [st], returns, with a text that fits a string and a map
    that fits the tape.  The text is only ever appended to, so every string
    built on the way fits as well. *)
Definition within_limits {A} (c : M A) (st : cstate) : bool :=
  match c st with
  | Ok (_, st') =>
      (Z.of_nat (length (brainfuckCode st')) <=? maxStringLength)
      && (Z.of_nat (length (memoryUsage st')) <=? memorySize)
  | _ => false
  end.

(** Every key of the map is an address of the tape. *)
Definition keys_on_tape (m : list (Z * usage)) : bool :=
  forallb (fun e => (0 <=? fst e) && (fst e <? memorySize)) m.

(** [c] only appends to the emitted text. *)
Definition appends {A} (c : M A) : Prop :=
  forall st,
    wp c (fun _ st' => exists e, brainfuckCode st' = brainfuckCode st ++ e) st.

(** A flag set to 1, and an [if] on it whose body is an [unsafe] block
    without raw escape, around an [if] on a second flag. *)
Definition two_flags : list Token :=
  [ scalar "c"; scalar "d"; set_ "c" (lit 1); set_ "d" (lit 1) ].
Definition if_unsafe_body : list Token :=
  [ Unsafe 1 [UnsafeAdd (lit 5); UnsafeShow];
    If (var "d") [ Show (lit 7) ] ].

(** The state after one more token. *)
Definition state_after_token (t : Token) (st : cstate) : cstate :=
  match compileToken (compile_fuel 2) t st with
  | Ok (_, st') => st'
  | _ => st
  end.

(** The condition cell of an [if], the pointer the compiler tracks after
    its body and the text of the body. *)
Definition if_body_text (fuel : nat) (condition : ValueToken)
    (body : list Token) (st : cstate) : option (Z * Z * list ascii) :=
  match conditionCell condition st with
  | Ok (cell, sa) =>
      match (moveTo cell ;; emit (bf "[")) sa with
      | Ok (_, st1) =>
          match compile_fuel fuel body false st1 with
          | Ok (_, st2) =>
              Some (cell, pointerLocation st2,
                    drop (length (brainfuckCode st1)) (brainfuckCode st2))
          | _ => None
          end
      | _ => None
      end
  | _ => None
  end.

(** [a] is set to 3; a loop of two passes assigns it to [b] and counts
    down. *)
Definition copy_in_loop_prefix : list Token :=
  [ scalar "a"; scalar "b"; scalar "c";
    set_ "a" (lit 3); set_ "c" (lit 2) ].

Definition copy_in_loop_body : list Token :=
  [ set_ "b" (var "a"); set_ "c" (Math OpMinus (var "c") (lit 1)) ].

Definition copy_in_loop : list Token :=
  copy_in_loop_prefix ++ [ Loop (var "c") copy_in_loop_body; Show (var "a") ].

(** The same program with the two passes written out. *)
Definition copy_unrolled : list Token :=
  copy_in_loop_prefix ++ copy_in_loop_body ++ copy_in_loop_body
  ++ [ Show (var "a") ].

(** An array of one element set to 6 and read twice, at an index that is
    an expression, as the parser builds every index. *)
Definition accumulator_prefix : list Token :=
  [ Declaration "a" TNumber (Some 1); scalar "c";
    Assign "a" (IndexExpr (lit 0)) (lit 6); set_ "c" (lit 2) ].

Definition accumulator_body : list Token :=
  [ Show (VariableRef "a" (IndexExpr (lit 0)));
    set_ "c" (Math OpMinus (var "c") (lit 1)) ].

Definition accumulator_in_loop : list Token :=
  accumulator_prefix ++ [ Loop (var "c") accumulator_body ].

Definition accumulator_unrolled : list Token :=
  accumulator_prefix ++ accumulator_body ++ accumulator_body.

(** ** Brackets

    [closes d code]: read from a place inside [d] open loops, every ["]"] of
    [code] closes a loop that is open and none is left open at the end. *)
Fixpoint closes (d : nat) (code : list ascii) : bool :=
  match code with
  | [] => Nat.eqb d 0
  | c :: rest =>
      if Ascii.eqb c "[" then closes (S d) rest
      else if Ascii.eqb c "]" then
        match d with
        | O => false
        | S d' => closes d' rest
        end
      else closes d rest
  end.

(** The brackets of [code] match. *)
Definition balanced (code : list ascii) : bool := closes 0 code.

(** The number of loops open after the characters behind the instruction
    pointer, [before] (last character first); [None] when a ["]"] among
    them closes no loop. *)
Fixpoint pdepth (before : list ascii) : option nat :=
  match before with
  | [] => Some O
  | c :: rest =>
      match pdepth rest with
      | None => None
      | Some d =>
          if Ascii.eqb c "[" then Some (S d)
          else if Ascii.eqb c "]" then
            match d with
            | O => None
            | S d' => Some d'
            end
          else Some d
      end
  end.

(** Every cell of the tape holds a number from 0 to [bits - 1]. *)
Definition cells_in_range (o : options) (m : machine) : Prop :=
  forall a, exists z, read (memory m) a = Num z /\ 0 <= z < bits o.

(** The executor's position in the code and its machine, with the characters
    that are no instructions left out of the code. *)
Definition filter_zipper (z : list ascii * list ascii * machine)
    : list ascii * list ascii * machine :=
  (List.filter instruction_char (fst (fst z)),
   List.filter instruction_char (snd (fst z)), snd z).

(** ** [levenshtein]

    A string is the list of its code units.  [dp] is the array of rows;
    [dp[i][j]] is read with [get2] and written with [set2] (every index the
    function uses is inside the array). *)
Definition get2 (dp : list (list Z)) (i j : nat) : Z := (dp !!! i) !!! j.

Definition set2 (dp : list (list Z)) (i j : nat) (v : Z) : list (list Z) :=
  <[i := <[j := v]> (dp !!! i)]> dp.

Definition levenshtein (a b : list Z) : Z :=
  let rows := S (length a) in
  let cols := S (length b) in
  let dp := replicate rows (replicate cols 0) in
  let dp := foldl (fun dp i => set2 dp i 0 (Z.of_nat i)) dp (seq 0 rows) in
  let dp := foldl (fun dp j => set2 dp 0 j (Z.of_nat j)) dp (seq 0 cols) in
  let dp :=
    foldl (fun dp i =>
             foldl (fun dp j =>
                      let cost :=
                        if bool_decide (a !! (i - 1)%nat = b !! (j - 1)%nat)
                        then 0 else 1 in
                      let up := get2 dp (i - 1) j + 1 in
                      let left := get2 dp i (j - 1) + 1 in
                      let diag := get2 dp (i - 1) (j - 1) + cost in
                      set2 dp i j (Z.min (Z.min up left) diag))
                   dp (seq 1 (cols - 1)))
          dp (seq 1 (rows - 1)) in
  get2 dp (rows - 1) (cols - 1).

(** The edit distance of two strings: the least number of insertions,
    deletions and replacements of one code unit that turn one into the
    other, by its recurrence. *)
Fixpoint edit (a b : list Z) {struct a} : nat :=
  match a with
  | [] => length b
  | x :: a' =>
      (fix go (b : list Z) : nat :=
         match b with
         | [] => S (length a')
         | y :: b' =>
             Nat.min (Nat.min (edit a' (y :: b') + 1) (go b' + 1))
                     (edit a' b' + if bool_decide (x = y) then 0 else 1)
         end) b
  end.

(** A matrix of [R] rows of [C] cells. *)
Definition wfm (R C : nat) (dp : list (list Z)) : Prop :=
  length dp = R /\ forall i, (i < R)%nat -> length (dp !!! i) = C.

(** ** The page's helpers ([escapeHTML], [format])

    [s.replace(/c/g, r)] for a one-character pattern and a replacement text
    without [$]: every occurrence of the code unit [c] becomes [r]. *)
Definition replace_all (c : Z) (r : list Z) (s : list Z) : list Z :=
  flat_map (fun x => if x =? c then r else [x]) s.

Definition escapeHTML (s : list Z) : list Z :=
  replace_all 62 (code_units "&gt;")
    (replace_all 60 (code_units "&lt;")
       (replace_all 38 (code_units "&amp;") s)).

(** One code unit in the text [escapeHTML] returns. *)
Definition escape_unit (x : Z) : list Z :=
  if x =? 38 then code_units "&amp;"
  else if x =? 60 then code_units "&lt;"
  else if x =? 62 then code_units "&gt;"
  else [x].

(** The code units [trimStart] removes: white space and line ends. *)
Definition is_js_space (c : Z) : bool :=
  (c =? 9) || (c =? 10) || (c =? 11) || (c =? 12) || (c =? 13) || (c =? 32)
  || (c =? 160) || (c =? 5760) || ((8192 <=? c) && (c <=? 8202))
  || (c =? 8232) || (c =? 8233) || (c =? 8239) || (c =? 8287)
  || (c =? 12288) || (c =? 65279).

(** [l.trimStart()] *)
Fixpoint trimStart (l : list Z) : list Z :=
  match l with
  | [] => []
  | c :: l' => if is_js_space c then trimStart l' else l
  end.

(** [s.split("\n")]: the empty string gives one empty line. *)
Fixpoint split_lines (s : list Z) : list (list Z) :=
  match s with
  | [] => [[]]
  | c :: s' =>
      if c =? 10 then [] :: split_lines s'
      else match split_lines s' with
           | l :: ls => (c :: l) :: ls
           | [] => [[c]]
           end
  end.

(** [lines.join("\n")] *)
Fixpoint join_lines (ls : list (list Z)) : list Z :=
  match ls with
  | [] => []
  | [l] => l
  | l :: ls' => l ++ 10 :: join_lines ls'
  end.

(** [l.startsWith(c)] and [l.endsWith(c)] for a one-character [c] *)
Definition starts_with (c : Z) (l : list Z) : bool :=
  match l with
  | x :: _ => x =? c
  | [] => false
  end.

Definition ends_with (c : Z) (l : list Z) : bool :=
  match rev l with
  | x :: _ => x =? c
  | [] => false
  end.

(** The [lines.map] callback of [format], with the [level] it updates. *)
Fixpoint format_lines (level : Z) (lines : list (list Z)) : list (list Z) :=
  match lines with
  | [] => []
  | l :: rest =>
      let level1 :=
        if starts_with 125 l || starts_with 93 l || starts_with 41 l
        then Z.max (level - 1) 0 else level in
      let out := concat (List.repeat [32; 32] (Z.to_nat level1)) ++ l in
      let level2 :=
        if ends_with 123 l || ends_with 91 l || ends_with 40 l
        then level1 + 1 else level1 in
      out :: format_lines level2 rest
  end.

(** The text [format] stores in [code]. *)
Definition format_text (code : list Z) : list Z :=
  join_lines (format_lines 0 (map trimStart (split_lines code))).

(** ** The lexer

    The input is the list of its code units; the position [pos] is kept as
    the units from [pos] on. *)
Inductive Tok :=
  | TokNumber (text : list Z)
  | TokIdent (text : list Z)
  | TokSymbol (text : list Z)
  | TokEof.

Inductive lex_result :=
  | LexOk (tokens : list Tok)
  | LexError (char : Z)
  | LexOutOfFuel.

Definition isAlpha (c : Z) : bool :=
  ((65 <=? c) && (c <=? 90)) || ((97 <=? c) && (c <=? 122)) || (c =? 95).

Definition isDigit (c : Z) : bool := (48 <=? c) && (c <=? 57).

Definition isAlphaNum (c : Z) : bool :=
  ((65 <=? c) && (c <=? 90)) || ((97 <=? c) && (c <=? 122))
  || ((48 <=? c) && (c <=? 57)) || (c =? 95).

(** The units a [while (... && p(input[end])) end++] loop passes, and the
    units it stops at. *)
Fixpoint span_while (p : Z -> bool) (s : list Z) : list Z * list Z :=
  match s with
  | c :: s' =>
      if p c then let (a, b) := span_while p s' in (c :: a, b) else ([], s)
  | [] => ([], [])
  end.

Definition two_char_symbols : list (list Z) :=
  [code_units "=="; code_units "!="; code_units "<="; code_units ">="].

Definition one_char_symbols : list Z := code_units "(){}+-*/:,<>[]$".

Definition push (t : Tok) (r : lex_result) : lex_result :=
  match r with
  | LexOk ts => LexOk (t :: ts)
  | _ => r
  end.

(** The [while (pos < length)] loop of [lexer]; every turn passes at least
    one unit, so as many turns as there are units, and one more, are
    enough. *)
Fixpoint lex_loop (fuel : nat) (s : list Z) : lex_result :=
  match fuel with
  | O => LexOutOfFuel
  | S fuel' =>
      match s with
      | [] => LexOk [TokEof]
      | char :: rest =>
          if is_js_space char then lex_loop fuel' rest
          else if (char =? 47) && (match rest with c :: _ => c =? 47 | [] => false end)
          then lex_loop fuel' (snd (span_while (fun c => negb (c =? 10)) (tl rest)))
          else if isAlpha char then
            let (text, rest') := span_while isAlphaNum rest in
            push (TokIdent (char :: text)) (lex_loop fuel' rest')
          else if isDigit char
                  || ((char =? 45)
                      && (match rest with c :: _ => isDigit c | [] => false end))
          then
            let (digits, rest') :=
              span_while isDigit (if char =? 45 then rest else s) in
            push (TokNumber (if char =? 45 then char :: digits else digits))
                 (lex_loop fuel' rest')
          else if bool_decide (take 2 s ∈ two_char_symbols) then
            push (TokSymbol (take 2 s)) (lex_loop fuel' (drop 2 s))
          else if bool_decide (char ∈ one_char_symbols) then
            push (TokSymbol [char]) (lex_loop fuel' rest)
          else LexError char
      end
  end.

Definition lexer (input : list Z) : lex_result :=
  lex_loop (S (length input)) input.

(** A token as the lexer makes them: an identifier is a letter or [_]
    followed by letters, digits and [_]; a number is an optional [-] and
    one digit or more; a symbol is one of the eighteen. *)
Definition tok_ok (t : Tok) : Prop :=
  match t with
  | TokIdent text =>
      exists c rest, text = c :: rest /\ isAlpha c = true
                     /\ forallb isAlphaNum rest = true
  | TokNumber text =>
      exists digits,
        (text = digits \/ text = 45 :: digits)
        /\ digits <> [] /\ forallb isDigit digits = true
  | TokSymbol text =>
      text ∈ two_char_symbols \/ exists c, text = [c] /\ c ∈ one_char_symbols
  | TokEof => False
  end.

(** * Properties *)

(** ** The compiler monad *)

Lemma bind_Ok {A B} (m : M A) (f : A -> M B) st b st' :
  bind m f st = Ok (b, st') ->
  exists a st1, m st = Ok (a, st1) /\ f a st1 = Ok (b, st').
Proof.
  unfold bind. destruct (m st) as [[a st1]| |]; try discriminate.
  intros H. eauto.
Qed.

(** ** Function calls *)

Lemma Call_undefined rec name st :
  functions st !! name = None ->
  compileToken rec (Call name) st = Throw (FunctionNotDefined name).
Proof. intros H. unfold compileToken, bind, get. rewrite H. reflexivity. Qed.

(** A call compiles the body with [reset] at its default: whatever the
    caller's allocator, variables and tracked pointer were, the body starts
    from the state [compile_rec] builds, and only the emitted text of the
    caller is kept. *)
Lemma Call_defined rec name body st :
  functions st !! name = Some body ->
  compileToken rec (Call name) st =
    match rec body true st with
    | Ok (funcOutput, st') => Ok (tt, set_code (brainfuckCode st ++ funcOutput) st')
    | Throw e => Throw e
    | OutOfFuel => OutOfFuel
    end.
Proof.
  intros H. unfold compileToken, bind, get, modify. rewrite H.
  destruct (rec body true st) as [[out st']| |]; reflexivity.
Qed.

(** C2: on [call_program] the call resets the allocator and the variable
    table, so the statement after the call no longer finds [a] and the
    compilation throws, whereas the program with [show 56] written at the
    call site compiles and prints 56 and 1. *)
Theorem call_is_not_inlining :
  compile 2 call_program initial_state = Throw (VariableNotDeclared "a")
  /\ exists c st,
       compile 2 inlined_program initial_state = Ok (c, st)
       /\ output_of (brainfuck 1000 c (options_of_bits 256)) = Some (code_units "561").
Proof.
  split; [vm_compute; reflexivity|].
  eexists; eexists; split; [vm_compute; reflexivity | vm_compute; reflexivity].
Qed.

(** ** Input *)

(** C7: [x] is declared and bound to tape address 0, yet [input x] throws
    the undeclared-name error: [if (!entryLoc)] takes the address 0 for a
    missing binding. *)
Theorem input_rejects_address_zero :
  (exists c st,
     compile 1 [scalar "x"] initial_state = Ok (c, st)
     /\ findVariableLocation_of "x" 0 (memoryUsage st) = Some 0)
  /\ compile 1 [scalar "x"; Input "x"] initial_state
     = Throw (VariableNotDeclared "x").
Proof.
  split; [|vm_compute; reflexivity].
  eexists; eexists; split; [vm_compute; reflexivity | vm_compute; reflexivity].
Qed.

(** ** Dynamic indexing on the executor *)

(** The executor reduces a cell modulo [bits], not modulo [2 ** bits]
    ([cellSize] is computed and never used). *)
Lemma increment_wraps_at_bits o before after m :
  operation o "+" before after m =
    Some ("+"%char :: before, after,
          set_cell (add_rem (read (memory m) (dataPointer m)) 1 (bits o)) m).
Proof. reflexivity. Qed.

Lemma dynamic_index_test_output :
  exists c st,
    compile 1 dynamic_index_test initial_state = Ok (c, st)
    /\ output_of (brainfuck (Z.to_nat 100000) c (options_of_bits 8))
       = Some (code_units "7").
Proof.
  eexists; eexists; split; [vm_compute; reflexivity | vm_compute; reflexivity].
Qed.

(** C1: the program of the repository's test "expression-based index read
    and write" sets [a[i - 1]] to 99 and shows [a[i - 1]], both with a
    computed index; run with [bits: 8] as the test does, the executor
    prints 3, not 99. *)
Theorem dynamic_index_roundtrip_wraps_at_bits :
  exists c st,
    compile 1 expression_index_test initial_state = Ok (c, st)
    /\ output_of (brainfuck (Z.to_nat 100000) c (options_of_bits 8))
       = Some (code_units "3")
    /\ code_units "3" <> code_units "99".
Proof.
  eexists; eexists; split; [vm_compute; reflexivity|].
  split; [vm_compute; reflexivity | discriminate].
Qed.

(** ** The unsafe region *)

(** C3: with a region of one cell reserved at address 0, the next query of
    the single-cell allocator answers 0, the reserved address; in
    [unsafe 1 { add 5 show }] the literal 5 is therefore materialised in the
    region cell itself and the block prints 10 instead of 5. *)
Theorem unsafe_region_is_handed_out :
  (exists st, reserve_then_allocate 1 initial_state = Ok ((0, 0), st))
  /\ exists c st,
       compile 1 unsafe_add_show initial_state = Ok (c, st)
       /\ output_of (brainfuck 1000 c (options_of_bits 16)) = Some (code_units "10").
Proof.
  split; [eexists; vm_compute; reflexivity|].
  eexists; eexists; split; [vm_compute; reflexivity | vm_compute; reflexivity].
Qed.

(** ** The single-cell allocator *)

(** C8: after [unsafe 2 { add 5 }] and [define a 2 number] the map holds the
    keys 2, 0, 1 in this order, none of them freed; [findEmptyLocation]
    answers 2, one past the last key it iterated, which is an address in
    [Temporary] status and not one past the highest address, 3. *)
Theorem findEmptyLocation_follows_insertion_order :
  exists c st,
    compile 1 unsafe_then_array initial_state = Ok (c, st)
    /\ memoryUsage st =
         [(2, Temporary); (0, Named ("a"%string, 0) TNumber);
          (1, Named ("a"%string, 1) TNumber)]
    /\ findEmptyLocation st = Ok (2, st).
Proof.
  eexists; eexists; split; [vm_compute; reflexivity|].
  split; vm_compute; reflexivity.
Qed.

(** ** Counterexamples *)

(** C9, as stated, fails: called with the builtin [__dump], [compile]
    returns ["&[-]"], whose first character is no instruction. *)
Lemma dump_emits_ampersand :
  exists c st,
    compile 2 [Call "__dump"] initial_state = Ok (c, st)
    /\ c = bf "&[-]"
    /\ forallb instruction_char c = false.
Proof.
  eexists; eexists; split; [vm_compute; reflexivity|].
  split; vm_compute; reflexivity.
Qed.


(** C4, as stated, fails: in [if_with_raw_escape] the condition cell is the
    cell 0 and holds 1; the body runs once, its raw escape moves the tape
    pointer where the compiler does not track it, and the statement ends
    with the condition cell still at 1. *)
Lemma if_leaves_condition_nonzero :
  exists c st m,
    compile 2 if_with_raw_escape initial_state = Ok (c, st)
    /\ findVariableLocation_of "c" 0 (memoryUsage st) = Some 0
    /\ brainfuck 100 c (options_of_bits 16) = Halted m
    /\ read (memory m) 0 = Num 1.
Proof.
  eexists; eexists; eexists.
  split; [vm_compute; reflexivity|].
  split; [vm_compute; reflexivity|].
  split; [vm_compute; reflexivity|].
  vm_compute; reflexivity.
Qed.

(** A raw escape makes [copy] alter its source as well: in
    [copy_after_raw_escape] the variable [a] is the cell 0 and holds 3
    before [set b a]; the allocator hands the cell 2, in which a raw escape
    left 1, to [copy] as a scratch cell, and after [set b a] the cell of
    [a] holds 4. *)
Lemma copy_after_raw_escape_alters_source :
  exists c1 st1 m1 c2 st2 m2,
    compile 1 copy_after_raw_escape_prefix initial_state = Ok (c1, st1)
    /\ brainfuck 1000 c1 (options_of_bits 16) = Halted m1
    /\ compile 1 copy_after_raw_escape initial_state = Ok (c2, st2)
    /\ brainfuck 1000 c2 (options_of_bits 16) = Halted m2
    /\ findVariableLocation_of "a" 0 (memoryUsage st2) = Some 0
    /\ read (memory m1) 0 = Num 3
    /\ read (memory m2) 0 = Num 4.
Proof.
  do 6 eexists.
  split; [vm_compute; reflexivity|].
  split; [vm_compute; reflexivity|].
  split; [vm_compute; reflexivity|].
  split; [vm_compute; reflexivity|].
  split; [vm_compute; reflexivity|].
  split; vm_compute; reflexivity.
Qed.

(** A raw escape leaves a value in a cell the allocator never touched:
    after [raw_escape_outside_region] the allocator records no address at
    all, and the emitted code leaves 1 in the cell 1. *)
Lemma raw_escape_leaves_untouched_cell_nonzero :
  exists c st m,
    compile 1 raw_escape_outside_region initial_state = Ok (c, st)
    /\ memoryUsage st = []
    /\ brainfuck 100 c (options_of_bits 16) = Halted m
    /\ read (memory m) 1 = Num 1.
Proof.
  eexists; eexists; eexists.
  split; [vm_compute; reflexivity|].
  split; [vm_compute; reflexivity|].
  split; [vm_compute; reflexivity|].
  vm_compute; reflexivity.
Qed.

(** ** The executor on bracket-balanced code *)

Lemma prog_ind (P : list instr -> Prop) :
  P [] ->
  (forall c p, P p -> P (Simple c :: p)) ->
  (forall body p, P body -> P p -> P (LoopI body :: p)) ->
  forall p, P p.
Proof.
  intros Hnil Hsimple Hloop.
  assert (Hi : forall i p, P p -> P (i :: p)).
  { fix IH 1. intros [c|body] p Hp.
    - apply Hsimple, Hp.
    - apply Hloop; [|exact Hp].
      induction body as [|i body IHbody]; [exact Hnil|].
      apply IH, IHbody. }
  induction p as [|i p IHp]; [exact Hnil|apply Hi, IHp].
Qed.

Lemma unparse_app p q : unparse (p ++ q) = unparse p ++ unparse q.
Proof. unfold unparse. apply flat_map_app. Qed.

Lemma unparse_cons i p : unparse (i :: p) = unparse_instr i ++ unparse p.
Proof. reflexivity. Qed.

Lemma unparse_loop body p :
  unparse (LoopI body :: p) = "["%char :: unparse body ++ "]"%char :: unparse p.
Proof.
  rewrite unparse_cons. cbn [unparse_instr]. fold (unparse body).
  cbn. rewrite <- app_assoc. reflexivity.
Qed.

Lemma rev_loop (b q before : list ascii) :
  rev ("["%char :: b ++ "]"%char :: q) ++ before
  = rev q ++ "]"%char :: rev b ++ "["%char :: before.
Proof.
  change ("["%char :: b ++ "]"%char :: q) with (["["%char] ++ b ++ ["]"%char] ++ q).
  rewrite !rev_app_distr. cbn [rev app]. rewrite <- !app_assoc. reflexivity.
Qed.

Lemma is_bracket_false c :
  is_bracket c = false -> Ascii.eqb c "[" = false /\ Ascii.eqb c "]" = false.
Proof. unfold is_bracket. intros H. apply orb_false_elim in H. exact H. Qed.

Lemma operation_simple o c before after m :
  is_bracket c = false ->
  operation o c before after m = Some (c :: before, after, simple_step o c m).
Proof.
  intros H. apply is_bracket_false in H as [H1 H2].
  unfold operation, simple_step. rewrite H1, H2.
  destruct (Ascii.eqb c ">"); [reflexivity|].
  destruct (Ascii.eqb c "<"); [reflexivity|].
  destruct (Ascii.eqb c "+"); [reflexivity|].
  destruct (Ascii.eqb c "-"); [reflexivity|].
  destruct (Ascii.eqb c "."); [reflexivity|].
  destruct (Ascii.eqb c "~"); [reflexivity|].
  destruct (Ascii.eqb c ","); reflexivity.
Qed.

Lemma scan_forward_balanced p :
  wf_prog p = true ->
  forall k before rest,
    scan_forward (S k) before (unparse p ++ rest)
    = scan_forward (S k) (rev (unparse p) ++ before) rest.
Proof.
  induction p as [|c p IH|body p IHb IH] using prog_ind; intros Hwf k before rest.
  - reflexivity.
  - cbn in Hwf. apply andb_true_iff in Hwf as [Hc Hp].
    apply negb_true_iff, is_bracket_false in Hc as [H1 H2].
    rewrite unparse_cons. cbn [unparse_instr app scan_forward].
    rewrite H1, H2. rewrite IH by exact Hp.
    cbn [rev]. rewrite <- app_assoc. reflexivity.
  - cbn in Hwf. apply andb_true_iff in Hwf as [Hb Hp].
    rewrite unparse_loop. cbn [app scan_forward].
    change (Ascii.eqb "[" "[") with true. cbv iota.
    rewrite <- app_assoc. rewrite IHb by exact Hb.
    cbn [app scan_forward].
    change (Ascii.eqb "]" "[") with false. change (Ascii.eqb "]" "]") with true.
    cbv iota. cbn [pred]. rewrite IH by exact Hp.
    rewrite rev_loop. reflexivity.
Qed.

Lemma scan_backward_balanced p :
  wf_prog p = true ->
  forall k before after,
    scan_backward (S k) (rev (unparse p) ++ before) after
    = scan_backward (S k) before (unparse p ++ after).
Proof.
  induction p as [|c p IH|body p IHb IH] using prog_ind; intros Hwf k before after.
  - reflexivity.
  - cbn in Hwf. apply andb_true_iff in Hwf as [Hc Hp].
    apply negb_true_iff, is_bracket_false in Hc as [H1 H2].
    rewrite unparse_cons. cbn [unparse_instr app rev].
    rewrite <- app_assoc. rewrite IH by exact Hp.
    cbn [app scan_backward]. rewrite H1, H2. reflexivity.
  - cbn in Hwf. apply andb_true_iff in Hwf as [Hb Hp].
    rewrite unparse_loop, rev_loop. rewrite IH by exact Hp.
    cbn [app scan_backward].
    change (Ascii.eqb "]" "]") with true. cbv iota.
    rewrite IHb by exact Hb.
    cbn [scan_backward].
    change (Ascii.eqb "[" "]") with false. change (Ascii.eqb "[" "[") with true.
    cbv iota. cbn [pred app]. rewrite <- app_assoc. reflexivity.
Qed.

(** Entering a loop on a zero cell leads past its closing bracket. *)
Lemma operation_open_zero o body before rest m :
  wf_prog body = true -> at_zero m = true ->
  operation o "[" before (unparse body ++ "]"%char :: rest) m
  = Some ("]"%char :: rev (unparse body) ++ "["%char :: before, rest, m).
Proof.
  intros Hwf Hz. unfold operation. cbn [Ascii.eqb]. 
  change (Ascii.eqb "[" ">") with false. change (Ascii.eqb "[" "<") with false.
  change (Ascii.eqb "[" "+") with false. change (Ascii.eqb "[" "-") with false.
  change (Ascii.eqb "[" ".") with false. change (Ascii.eqb "[" "~") with false.
  change (Ascii.eqb "[" ",") with false. change (Ascii.eqb "[" "[") with true.
  cbv iota. unfold at_zero in Hz. rewrite Hz.
  rewrite scan_forward_balanced by exact Hwf. reflexivity.
Qed.

Lemma operation_open_nonzero o before after m :
  at_zero m = false ->
  operation o "[" before after m = Some ("["%char :: before, after, m).
Proof.
  intros Hz. unfold operation.
  change (Ascii.eqb "[" ">") with false. change (Ascii.eqb "[" "<") with false.
  change (Ascii.eqb "[" "+") with false. change (Ascii.eqb "[" "-") with false.
  change (Ascii.eqb "[" ".") with false. change (Ascii.eqb "[" "~") with false.
  change (Ascii.eqb "[" ",") with false. change (Ascii.eqb "[" "[") with true.
  cbv iota. unfold at_zero in Hz. rewrite Hz. reflexivity.
Qed.

Lemma operation_close_zero o before after m :
  at_zero m = true ->
  operation o "]" before after m = Some ("]"%char :: before, after, m).
Proof.
  intros Hz. unfold operation.
  change (Ascii.eqb "]" ">") with false. change (Ascii.eqb "]" "<") with false.
  change (Ascii.eqb "]" "+") with false. change (Ascii.eqb "]" "-") with false.
  change (Ascii.eqb "]" ".") with false. change (Ascii.eqb "]" "~") with false.
  change (Ascii.eqb "]" ",") with false. change (Ascii.eqb "]" "[") with false.
  change (Ascii.eqb "]" "]") with true.
  cbv iota. unfold at_zero in Hz. rewrite Hz. reflexivity.
Qed.

(** Closing a loop on a non-zero cell leads back behind its opening
    bracket. *)
Lemma operation_close_nonzero o body before rest m :
  wf_prog body = true -> at_zero m = false ->
  operation o "]" (rev (unparse body) ++ "["%char :: before) rest m
  = Some ("["%char :: before, unparse body ++ "]"%char :: rest, m).
Proof.
  intros Hwf Hz. unfold operation.
  change (Ascii.eqb "]" ">") with false. change (Ascii.eqb "]" "<") with false.
  change (Ascii.eqb "]" "+") with false. change (Ascii.eqb "]" "-") with false.
  change (Ascii.eqb "]" ".") with false. change (Ascii.eqb "]" "~") with false.
  change (Ascii.eqb "]" ",") with false. change (Ascii.eqb "]" "[") with false.
  change (Ascii.eqb "]" "]") with true.
  cbv iota. unfold at_zero in Hz. rewrite Hz.
  rewrite scan_backward_balanced by exact Hwf. reflexivity.
Qed.

Lemma steps_add n1 n2 o before after m before' after' m' :
  steps n1 o before after m = Some (before', after', m') ->
  steps (n1 + n2) o before after m = steps n2 o before' after' m'.
Proof.
  revert before after m. induction n1 as [|n1 IH]; intros before after m H.
  - cbn in H. injection H as -> -> ->. reflexivity.
  - cbn in H |- *. destruct after as [|i after1]; [discriminate|].
    destruct (operation o i before after1 m) as [[[b1 a1] m1]|]; [|discriminate].
    apply IH. exact H.
Qed.

Lemma steps_S o i before after m before' after' m' n :
  operation o i before after m = Some (before', after', m') ->
  steps (S n) o before (i :: after) m = steps n o before' after' m'.
Proof. intros H. cbn. rewrite H. reflexivity. Qed.

Lemma exec_steps o p m m' :
  wf_prog p = true ->
  exec o p m m' ->
  forall before after,
  exists n, steps n o before (unparse p ++ after) m
            = Some (rev (unparse p) ++ before, after, m').
Proof.
  intros Hwf H. induction H as [m|c p m m' H IH|body p m m' Hz H IH
                               |body p m m1 m' Hz Hb IHb Hl IHl];
    intros before after.
  - exists O. reflexivity.
  - cbn in Hwf. apply andb_true_iff in Hwf as [Hc Hp].
    apply negb_true_iff in Hc.
    destruct (IH Hp (c :: before) after) as [n Hn].
    exists (S n). rewrite unparse_cons. cbn [unparse_instr app].
    rewrite (steps_S _ _ _ _ _ _ _ _ _ (operation_simple o c before _ m Hc)).
    rewrite Hn. cbn [rev]. rewrite <- app_assoc. reflexivity.
  - cbn in Hwf. apply andb_true_iff in Hwf as [Hbody Hp].
    destruct (IH Hp ("]"%char :: rev (unparse body) ++ "["%char :: before) after)
      as [n Hn].
    exists (S n). rewrite unparse_loop. cbn [app]. rewrite <- app_assoc.
    cbn [app].
    rewrite (steps_S _ _ _ _ _ _ _ _ _
               (operation_open_zero o body before _ m Hbody Hz)).
    rewrite Hn, rev_loop. reflexivity.
  - pose proof Hwf as Hwf'.
    cbn in Hwf. apply andb_true_iff in Hwf as [Hbody Hp].
    destruct (IHb Hbody ("["%char :: before) ("]"%char :: unparse p ++ after))
      as [nb Hnb].
    destruct (IHl Hwf' before after) as [nl Hnl].
    (* the run of the loop from [m1] starts with one turn at its bracket *)
    destruct nl as [|nl].
    { exfalso. cbn [steps] in Hnl. injection Hnl as Hbefore _.
      apply (f_equal (@length ascii)) in Hbefore.
      rewrite !length_app in Hbefore. cbn [length] in Hbefore. lia. }
    rewrite unparse_loop in Hnl. cbn [app] in Hnl. rewrite <- app_assoc in Hnl.
    cbn [app] in Hnl.
    exists (S (nb + S nl)). rewrite unparse_loop. cbn [app].
    rewrite <- app_assoc. cbn [app].
    rewrite (steps_S _ _ _ _ _ _ _ _ _ (operation_open_nonzero o before _ m Hz)).
    rewrite (steps_add _ _ _ _ _ _ _ _ _ Hnb).
    destruct (at_zero m1) eqn:Hz1.
    + rewrite (steps_S _ _ _ _ _ _ _ _ _
                 (operation_open_zero o body before _ m1 Hbody Hz1)) in Hnl.
      rewrite (steps_S _ _ _ _ _ _ _ _ _ (operation_close_zero o _ _ m1 Hz1)).
      rewrite Hnl. reflexivity.
    + rewrite (steps_S _ _ _ _ _ _ _ _ _
                 (operation_open_nonzero o before _ m1 Hz1)) in Hnl.
      rewrite (steps_S _ _ _ _ _ _ _ _ _
                 (operation_close_nonzero o body before _ m1 Hbody Hz1)).
      rewrite Hnl. reflexivity.
Qed.

Lemma exec_runs o p m m' :
  wf_prog p = true -> exec o p m m' -> runs o (unparse p) m m'.
Proof. intros Hwf H before after. apply exec_steps; assumption. Qed.

Lemma run_S o i before after m before' after' m' n :
  operation o i before after m = Some (before', after', m') ->
  run (S n) o before (i :: after) m = run n o before' after' m'.
Proof. intros H. cbn. rewrite H. reflexivity. Qed.

(** A run that ends, by halting or by an error, leaves every balanced
    segment it enters through the segment's end, and what it does in
    between is the structured execution. *)
Lemma run_exec o p :
  wf_prog p = true ->
  forall N before after m R,
    run N o before (unparse p ++ after) m = R ->
    R <> Timeout ->
    exists m1 N1,
      exec o p m m1 /\ (N1 <= N)%nat
      /\ run N1 o (rev (unparse p) ++ before) after m1 = R.
Proof.
  induction p as [|c p IH|body p IHb IH] using prog_ind;
    intros Hwf N before after m R Hrun HR.
  - exists m, N. split; [constructor|]. split; [lia|exact Hrun].
  - cbn in Hwf. apply andb_true_iff in Hwf as [Hc Hp].
    apply negb_true_iff in Hc.
    rewrite unparse_cons in Hrun. cbn [unparse_instr app] in Hrun.
    destruct N as [|N]; [cbn in Hrun; congruence|].
    rewrite (run_S _ _ _ _ _ _ _ _ _ (operation_simple o c before _ m Hc)) in Hrun.
    destruct (IH Hp _ _ _ _ _ Hrun HR) as (m1 & N1 & Hex & Hle & Hrest).
    exists m1, N1. split; [constructor; exact Hex|]. split; [lia|].
    rewrite unparse_cons. cbn [unparse_instr rev app]. rewrite <- app_assoc.
    exact Hrest.
  - cbn in Hwf. apply andb_true_iff in Hwf as [Hbody Hp].
    assert (Hinner : forall N m,
      at_zero m = false ->
      run N o ("["%char :: before)
          (unparse body ++ "]"%char :: unparse p ++ after) m = R ->
      exists m1 N1,
        exec o (LoopI body :: p) m m1 /\ (N1 <= N)%nat
        /\ run N1 o (rev (unparse (LoopI body :: p)) ++ before) after m1 = R).
    { clear N m Hrun. intros N.
      induction N as [N IHN] using lt_wf_ind. intros m Hz Hrun.
      destruct (IHb Hbody _ _ _ _ _ Hrun HR) as (mb & Nb & Hexb & Hleb & Hrunb).
      destruct Nb as [|Nb]; [cbn in Hrunb; congruence|].
      destruct (at_zero mb) eqn:Hzb.
      - rewrite (run_S _ _ _ _ _ _ _ _ _ (operation_close_zero o _ _ mb Hzb))
          in Hrunb.
        destruct (IH Hp _ _ _ _ _ Hrunb HR) as (m1 & N1 & Hex & Hle & Hrest).
        exists m1, N1. split.
        + eapply exec_iter; [exact Hz|exact Hexb|].
          apply exec_skip; assumption.
        + split; [lia|]. rewrite unparse_loop, rev_loop. exact Hrest.
      - rewrite (run_S _ _ _ _ _ _ _ _ _
                   (operation_close_nonzero o body before _ mb Hbody Hzb))
          in Hrunb.
        destruct (IHN Nb ltac:(lia) mb Hzb Hrunb) as (m1 & N1 & Hex & Hle & Hrest).
        exists m1, N1. split.
        + eapply exec_iter; [exact Hz|exact Hexb|exact Hex].
        + split; [lia|exact Hrest]. }
    rewrite unparse_loop in Hrun. cbn [app] in Hrun.
    rewrite <- app_assoc in Hrun. cbn [app] in Hrun.
    destruct N as [|N]; [cbn in Hrun; congruence|].
    destruct (at_zero m) eqn:Hz.
    + rewrite (run_S _ _ _ _ _ _ _ _ _
                 (operation_open_zero o body before _ m Hbody Hz)) in Hrun.
      destruct (IH Hp _ _ _ _ _ Hrun HR) as (m1 & N1 & Hex & Hle & Hrest).
      exists m1, N1. split; [apply exec_skip; assumption|].
      split; [lia|]. rewrite unparse_loop, rev_loop. exact Hrest.
    + rewrite (run_S _ _ _ _ _ _ _ _ _ (operation_open_nonzero o before _ m Hz))
        in Hrun.
      destruct (Hinner N m Hz Hrun) as (m1 & N1 & Hex & Hle & Hrest).
      exists m1, N1. split; [exact Hex|]. split; [lia|exact Hrest].
Qed.

Lemma run_nil N o before m : run N o before [] m = Halted m.
Proof. destruct N; reflexivity. Qed.

(** The executor halts on a balanced program exactly as the structured
    execution says. *)
Lemma brainfuck_exec o p N m :
  wf_prog p = true ->
  brainfuck N (unparse p) o = Halted m ->
  exec o p initial_machine m.
Proof.
  intros Hwf H. unfold brainfuck in H.
  rewrite <- (app_nil_r (unparse p)) in H.
  destruct (run_exec o p Hwf _ _ _ _ _ H ltac:(discriminate))
    as (m1 & N1 & Hex & _ & Hrest).
  rewrite run_nil in Hrest. injection Hrest as ->. exact Hex.
Qed.

Lemma steps_run n o before after m before' after' m' k :
  steps n o before after m = Some (before', after', m') ->
  run (n + k) o before after m = run k o before' after' m'.
Proof.
  revert before after m. induction n as [|n IH]; intros before after m H.
  - cbn in H. injection H as -> -> ->. reflexivity.
  - cbn in H. destruct after as [|i after1]; [discriminate|].
    destruct (operation o i before after1 m) as [[[b1 a1] m1]|] eqn:Hop;
      [|discriminate].
    cbn [Nat.add]. rewrite (run_S _ _ _ _ _ _ _ _ _ Hop). apply IH, H.
Qed.

Lemma exec_brainfuck o p m :
  wf_prog p = true ->
  exec o p initial_machine m ->
  exists N, brainfuck N (unparse p) o = Halted m.
Proof.
  intros Hwf H. destruct (exec_steps o p _ _ Hwf H [] []) as [n Hn].
  exists (n + 0)%nat. unfold brainfuck.
  rewrite <- (app_nil_r (unparse p)).
  rewrite (steps_run _ _ _ _ _ _ _ _ _ Hn). apply run_nil.
Qed.

(** ** Soundness of the static analysis *)

Lemma ascan_app a b s :
  ascan (a ++ b) s = match ascan a s with
                     | Some s' => ascan b s'
                     | None => None
                     end.
Proof.
  revert s. induction a as [|c a IH]; intros s; [reflexivity|].
  cbn. destruct (ascan_char c s); [apply IH|reflexivity].
Qed.

Lemma memorySize_pos : 0 < memorySize.
Proof. reflexivity. Qed.

Lemma at_zero_read m : at_zero m = true -> read (memory m) (dataPointer m) = Num 0.
Proof.
  unfold at_zero, is_zero. destruct (read (memory m) (dataPointer m)) as [z|];
    [|discriminate].
  intros H. apply Z.eqb_eq in H. rewrite H. reflexivity.
Qed.

Lemma read_insert_ne (mem : gmap Z number) k v cell :
  k <> cell -> read (<[k := v]> mem) cell = read mem cell.
Proof. intros H. unfold read. rewrite lookup_insert_ne by exact H. reflexivity. Qed.

Lemma read_insert_eq (mem : gmap Z number) k v :
  read (<[k := v]> mem) k = v.
Proof. unfold read. rewrite lookup_insert_eq. reflexivity. Qed.

Lemma move_right_mod p :
  Z.rem (p mod memorySize + 1) memorySize = (p + 1) mod memorySize.
Proof.
  pose proof (Z.mod_pos_bound p memorySize memorySize_pos).
  rewrite Z.rem_mod_nonneg by (unfold memorySize in *; lia).
  rewrite Z.add_mod_idemp_l by (unfold memorySize; lia). reflexivity.
Qed.

Lemma move_left_mod p :
  Z.rem (p mod memorySize - 1 + memorySize) memorySize = (p - 1) mod memorySize.
Proof.
  pose proof (Z.mod_pos_bound p memorySize memorySize_pos).
  rewrite Z.rem_mod_nonneg by (unfold memorySize in *; lia).
  replace (p mod memorySize - 1 + memorySize)
    with (p mod memorySize + (-1 + 1 * memorySize)) by lia.
  rewrite Z.add_mod_idemp_l by (unfold memorySize; lia).
  replace (p + (-1 + 1 * memorySize)) with (p - 1 + 1 * memorySize) by lia.
  rewrite Z.mod_add by (unfold memorySize; lia). reflexivity.
Qed.

Lemma uncovered_union d k cell :
  uncovered (d ∪ {[k]}) cell -> uncovered d cell /\ k mod memorySize <> cell.
Proof.
  intros H. split.
  - intros j Hj. apply H. set_solver.
  - apply H. set_solver.
Qed.

(** One character that is no bracket: the analysis follows the data
    pointer, and the cells it does not report keep their value. *)
Lemma simple_step_sound o c s s1 :
  is_bracket c = false ->
  ascan_char c s = Some s1 ->
  astack s1 = astack s
  /\ forall m,
       dataPointer m = apos s mod memorySize ->
       dataPointer (simple_step o c m) = apos s1 mod memorySize
       /\ forall cell,
            uncovered (adirty s1) cell ->
            uncovered (adirty s) cell
            /\ read (memory (simple_step o c m)) cell = read (memory m) cell.
Proof.
  intros Hc. apply is_bracket_false in Hc as [H1 H2].
  unfold ascan_char, simple_step. rewrite H1, H2.
  destruct (Ascii.eqb c ">").
  { intros [= <-]. split; [reflexivity|]. intros m Hdp. cbn.
    rewrite Hdp, move_right_mod. split; [reflexivity|]. intros cell Hu. auto. }
  destruct (Ascii.eqb c "<").
  { intros [= <-]. split; [reflexivity|]. intros m Hdp. cbn.
    rewrite Hdp, move_left_mod. split; [reflexivity|]. intros cell Hu. auto. }
  destruct (Ascii.eqb c "+").
  { cbn. intros [= <-]. split; [reflexivity|]. intros m Hdp. cbn.
    split; [exact Hdp|]. intros cell Hu.
    apply uncovered_union in Hu as [Hu Hne]. split; [exact Hu|].
    apply read_insert_ne. rewrite Hdp. exact Hne. }
  destruct (Ascii.eqb c "-").
  { cbn. intros [= <-]. split; [reflexivity|]. intros m Hdp. cbn.
    split; [exact Hdp|]. intros cell Hu.
    apply uncovered_union in Hu as [Hu Hne]. split; [exact Hu|].
    apply read_insert_ne. rewrite Hdp. exact Hne. }
  destruct (Ascii.eqb c ".").
  { destruct (Ascii.eqb c ","); cbn; intros [= <-];
      (split; [reflexivity|]); intros m Hdp; cbn; (split; [exact Hdp|]);
      intros cell Hu; [apply uncovered_union in Hu as [Hu _]|]; auto. }
  destruct (Ascii.eqb c "~").
  { destruct (Ascii.eqb c ","); cbn; intros [= <-];
      (split; [reflexivity|]); intros m Hdp; cbn; (split; [exact Hdp|]);
      intros cell Hu; [apply uncovered_union in Hu as [Hu _]|]; auto. }
  destruct (Ascii.eqb c ",").
  { cbn. intros [= <-]. split; [reflexivity|]. intros m Hdp.
    unfold read_input. destruct (input o !! inputPointer m); cbn;
      (split; [exact Hdp|]); intros cell Hu;
      apply uncovered_union in Hu as [Hu Hne]; (split; [exact Hu|]);
      apply read_insert_ne; rewrite Hdp; exact Hne. }
  cbn. intros [= <-]. split; [reflexivity|]. intros m Hdp.
  split; [exact Hdp|]. auto.
Qed.

Lemma loop_sound o body p pos d db pos' d' :
  sound_between o body pos ∅ pos db ->
  sound_between o p pos ((d ∪ db) ∖ {[pos]}) pos' d' ->
  forall m m',
    exec o (LoopI body :: p) m m' ->
    dataPointer m = pos mod memorySize ->
    dataPointer m' = pos' mod memorySize
    /\ forall cell,
         uncovered d' cell ->
         (cell <> pos mod memorySize -> uncovered ((d ∪ db) ∖ {[pos]}) cell ->
          read (memory m) cell = Num 0) ->
         read (memory m') cell = Num 0.
Proof.
  intros Hbody Hrest m m' Hexec.
  remember (LoopI body :: p) as q eqn:Hq.
  induction Hexec as [|? ? ? ? ? ?|body' p' m m' Hz Hp _
                      |body' p' m m1 m' Hz Hb _ Hl IHl];
    try discriminate; injection Hq as -> ->; intros Hdp.
  - destruct (Hrest _ _ Hp Hdp) as [Hdp' Hcells].
    split; [exact Hdp'|]. intros cell Hu Hpre. apply Hcells; [exact Hu|].
    intros Hua. destruct (Z.eq_dec cell (pos mod memorySize)) as [->|Hne].
    + rewrite <- Hdp. apply at_zero_read, Hz.
    + apply Hpre; assumption.
  - destruct (Hbody _ _ Hb Hdp) as [Hdp1 Hcells1].
    destruct (IHl eq_refl Hdp1) as [Hdp' Hcells].
    split; [exact Hdp'|]. intros cell Hu Hpre. apply Hcells; [exact Hu|].
    intros Hne Hua. apply Hcells1.
    + intros k Hk Hkc. apply (Hua k); [|exact Hkc].
      apply elem_of_difference. split; [set_solver|].
      intros Hkp. apply elem_of_singleton in Hkp. subst k. congruence.
    + intros _. apply Hpre; assumption.
Qed.

Lemma ascan_sound o p :
  wf_prog p = true ->
  forall s s',
    ascan (unparse p) s = Some s' ->
    astack s' = astack s
    /\ sound_between o p (apos s) (adirty s) (apos s') (adirty s').
Proof.
  induction p as [|c p IH|body p IHb IH] using prog_ind; intros Hwf s s' Hscan.
  - cbn in Hscan. injection Hscan as <-. split; [reflexivity|].
    intros m m' Hexec Hdp. inversion Hexec; subst. split; [exact Hdp|]. auto.
  - cbn in Hwf. apply andb_true_iff in Hwf as [Hc Hp].
    apply negb_true_iff in Hc.
    rewrite unparse_cons in Hscan. cbn [unparse_instr app ascan] in Hscan.
    destruct (ascan_char c s) as [s1|] eqn:Hchar; [|discriminate].
    destruct (simple_step_sound o c s s1 Hc Hchar) as [Hstack Hstep].
    destruct (IH Hp _ _ Hscan) as [Hstack' Hsound].
    split; [congruence|].
    intros m m' Hexec Hdp. inversion Hexec; subst.
    destruct (Hstep m Hdp) as [Hdp1 Hcells1].
    destruct (Hsound _ _ H3 Hdp1) as [Hdp' Hcells].
    split; [exact Hdp'|]. intros cell Hu Hpre. apply Hcells; [exact Hu|].
    intros Hu1. destruct (Hcells1 cell Hu1) as [Hu0 ->]. apply Hpre, Hu0.
  - cbn in Hwf. apply andb_true_iff in Hwf as [Hbody Hp].
    rewrite unparse_loop in Hscan. cbn [ascan] in Hscan.
    unfold ascan_char at 1 in Hscan.
    change (Ascii.eqb "[" ">") with false in Hscan.
    change (Ascii.eqb "[" "<") with false in Hscan.
    change (Ascii.eqb "[" "+") with false in Hscan.
    change (Ascii.eqb "[" "-") with false in Hscan.
    change (Ascii.eqb "[" ",") with false in Hscan.
    change (Ascii.eqb "[" "[") with true in Hscan.
    cbv iota in Hscan. cbn [orb] in Hscan. cbv iota in Hscan.
    rewrite ascan_app in Hscan.
    destruct (ascan (unparse body) _) as [sb|] eqn:Hscanb; [|discriminate].
    destruct (IHb Hbody _ _ Hscanb) as [Hstackb Hsoundb].
    cbn [astack apos adirty] in Hstackb, Hsoundb.
    cbn [ascan] in Hscan. unfold ascan_char at 1 in Hscan.
    change (Ascii.eqb "]" ">") with false in Hscan.
    change (Ascii.eqb "]" "<") with false in Hscan.
    change (Ascii.eqb "]" "+") with false in Hscan.
    change (Ascii.eqb "]" "-") with false in Hscan.
    change (Ascii.eqb "]" ",") with false in Hscan.
    change (Ascii.eqb "]" "[") with false in Hscan.
    change (Ascii.eqb "]" "]") with true in Hscan.
    cbv iota in Hscan. cbn [orb] in Hscan. cbv iota in Hscan.
    rewrite Hstackb in Hscan.
    destruct (Z.eqb_spec (apos s) (apos sb)) as [Hpos|]; [|discriminate].
    destruct (ascan (unparse p) _) as [s2|] eqn:Hscanp; [|discriminate].
    injection Hscan as <-.
    destruct (IH Hp _ _ Hscanp) as [Hstackp Hsoundp].
    cbn [astack apos adirty] in Hstackp, Hsoundp. split; [exact Hstackp|].
    rewrite <- Hpos in Hsoundb, Hsoundp.
    intros m m' Hexec Hdp.
    destruct (loop_sound o body p _ _ _ _ _ Hsoundb Hsoundp m m' Hexec Hdp)
      as [Hdp' Hcells].
    split; [exact Hdp'|]. intros cell Hu Hpre. apply Hcells; [exact Hu|].
    intros Hne Hua. apply Hpre.
    intros k Hk Hkc. apply (Hua k); [|exact Hkc].
    apply elem_of_difference. split; [set_solver|].
    intros Hkp. apply elem_of_singleton in Hkp. subst k. congruence.
Qed.

(** ** Code the analysis accepts is bracket-balanced *)

Lemma ascan_char_simple_stack c s s1 :
  is_bracket c = false -> ascan_char c s = Some s1 -> astack s1 = astack s.
Proof.
  intros Hc H.
  exact (proj1 (simple_step_sound (options_of_bits 0) c s s1 Hc H)).
Qed.

Lemma unparse_snoc p i : unparse (p ++ [i]) = unparse p ++ unparse_instr i.
Proof. rewrite unparse_app. cbn. rewrite app_nil_r. reflexivity. Qed.

Lemma wf_prog_app p q :
  wf_prog (p ++ q) = (wf_prog p && wf_prog q)%bool.
Proof. unfold wf_prog. apply forallb_app. Qed.

Lemma build_ascan c :
  forall s s' b,
    ascan c s = Some s' ->
    length (snd b) = length (astack s) ->
    wf_prog (fst b) = true -> forallb wf_prog (snd b) = true ->
    exists b',
      build c b = Some b'
      /\ length (snd b') = length (astack s')
      /\ wf_prog (fst b') = true /\ forallb wf_prog (snd b') = true
      /\ unparse_frames (snd b') ++ unparse (fst b')
         = unparse_frames (snd b) ++ unparse (fst b) ++ c.
Proof.
  induction c as [|ch c IH]; intros s s' [cur stack] Hscan Hlen Hcur Hstack.
  - cbn in Hscan. injection Hscan as <-. exists (cur, stack).
    rewrite app_nil_r. auto.
  - cbn [ascan] in Hscan.
    destruct (ascan_char ch s) as [s1|] eqn:Hchar; [|discriminate].
    cbn [build]. unfold build_char. cbn [fst snd] in *.
    destruct (Ascii.eqb ch "[") eqn:Hopen.
    { apply Ascii.eqb_eq in Hopen. subst ch.
      unfold ascan_char in Hchar. cbn in Hchar. injection Hchar as <-.
      destruct (IH _ _ ([], cur :: stack) Hscan) as (b' & Hb & Hl & Hw1 & Hw2 & Hu).
      - cbn. lia.
      - reflexivity.
      - cbn [snd forallb]. rewrite Hcur. exact Hstack.
      - exists b'. repeat split; try assumption.
        rewrite Hu. cbn. rewrite <- !app_assoc. reflexivity. }
    destruct (Ascii.eqb ch "]") eqn:Hclose.
    { apply Ascii.eqb_eq in Hclose. subst ch.
      unfold ascan_char in Hchar. cbn in Hchar.
      destruct (astack s) as [|[p d] astk] eqn:Hastk; [discriminate|].
      destruct (p =? apos s); [|discriminate]. injection Hchar as <-.
      destruct stack as [|parent stack]; [cbn in Hlen; lia|].
      cbn in Hstack. apply andb_true_iff in Hstack as [Hparent Hstack].
      destruct (IH _ _ (parent ++ [LoopI cur], stack) Hscan)
        as (b' & Hb & Hl & Hw1 & Hw2 & Hu).
      - cbn in *. lia.
      - cbn [fst]. rewrite wf_prog_app, Hparent. cbn [andb].
        unfold wf_prog. cbn [forallb wf_instr]. fold (wf_prog cur).
        rewrite Hcur. reflexivity.
      - exact Hstack.
      - exists b'. repeat split; try assumption.
        rewrite Hu. cbn [fst snd unparse_frames].
        rewrite unparse_snoc. cbn [unparse_instr]. fold (unparse cur).
        rewrite <- !app_assoc. cbn [app]. rewrite <- !app_assoc. reflexivity. }
    assert (Hbr : is_bracket ch = false).
    { unfold is_bracket. rewrite Hopen, Hclose. reflexivity. }
    pose proof (ascan_char_simple_stack ch s s1 Hbr Hchar) as Hs1.
    destruct (IH _ _ (cur ++ [Simple ch], stack) Hscan)
      as (b' & Hb & Hl & Hw1 & Hw2 & Hu).
    + cbn. congruence.
    + cbn [fst]. rewrite wf_prog_app, Hcur. cbn [andb].
      unfold wf_prog. cbn [forallb wf_instr]. rewrite Hbr. reflexivity.
    + exact Hstack.
    + exists b'. repeat split; try assumption.
      rewrite Hu. cbn [fst snd]. rewrite unparse_snoc. cbn.
      rewrite <- !app_assoc. reflexivity.
Qed.

Lemma ascan_balanced c s s' :
  ascan c s = Some s' -> astack s = [] -> astack s' = [] ->
  exists p, wf_prog p = true /\ c = unparse p.
Proof.
  intros Hscan Hs Hs'.
  destruct (build_ascan c s s' ([], []) Hscan) as (b' & _ & Hl & Hw & _ & Hu).
  - rewrite Hs. reflexivity.
  - reflexivity.
  - reflexivity.
  - destruct b' as [cur stack]. cbn in *. rewrite Hs' in Hl.
    destruct stack; [|discriminate]. cbn in Hu.
    exists cur. split; [exact Hw|]. symmetry. exact Hu.
Qed.

(** Code that the analysis accepts from the start of the tape: when the
    executor halts on it, the data pointer is where the analysis says, and
    every cell of no reported address holds zero. *)
Lemma analysis_sound o c pos d N m :
  ascan c {| apos := 0; adirty := ∅; astack := [] |}
  = Some {| apos := pos; adirty := d; astack := [] |} ->
  brainfuck N c o = Halted m ->
  dataPointer m = pos mod memorySize
  /\ forall cell, uncovered d cell -> read (memory m) cell = Num 0.
Proof.
  intros Hscan Hrun.
  destruct (ascan_balanced _ _ _ Hscan eq_refl eq_refl) as (p & Hwf & ->).
  destruct (ascan_sound o p Hwf _ _ Hscan) as [_ Hsound].
  apply brainfuck_exec in Hrun; [|exact Hwf].
  destruct (Hsound _ _ Hrun eq_refl) as [Hdp Hcells].
  split; [exact Hdp|]. intros cell Hu. apply Hcells; [exact Hu|].
  intros _. reflexivity.
Qed.

(** ** Weakest preconditions *)

Lemma wp_bind {A B} (m : M A) (f : A -> M B) Q st :
  wp m (fun a st' => wp (f a) Q st') st -> wp (bind m f) Q st.
Proof.
  unfold wp, bind. destruct (m st) as [[a st']| |]; auto.
Qed.

Lemma wp_bind_inv {A B} (m : M A) (f : A -> M B) Q st :
  wp (bind m f) Q st -> wp m (fun a st' => wp (f a) Q st') st.
Proof.
  unfold wp, bind. destruct (m st) as [[a st']| |]; auto.
Qed.

Lemma wp_eq {A} (m : M A) Q st a st' :
  m st = Ok (a, st') -> Q a st' -> wp m Q st.
Proof. unfold wp. intros -> H. exact H. Qed.

Lemma wp_ret {A} (a : A) Q st : Q a st -> wp (ret a) Q st.
Proof. exact (fun H => H). Qed.

Lemma wp_throw {A} e (Q : A -> cstate -> Prop) st : wp (throw e) Q st.
Proof. exact I. Qed.

Lemma wp_mono {A} (m : M A) (Q Q' : A -> cstate -> Prop) st :
  wp m Q st -> (forall a st', Q a st' -> Q' a st') -> wp m Q' st.
Proof.
  unfold wp. destruct (m st) as [[a st']| |]; auto.
Qed.

Lemma wp_Ok {A} (m : M A) Q st a st' :
  wp m Q st -> m st = Ok (a, st') -> Q a st'.
Proof. unfold wp. intros H E. rewrite E in H. exact H. Qed.

Lemma wp_forEach {A} (f : A -> M unit) (Inv : cstate -> Prop) xs :
  (forall x st, In x xs -> Inv st -> wp (f x) (fun _ => Inv) st) ->
  forall st, Inv st -> wp (forEach f xs) (fun _ => Inv) st.
Proof.
  induction xs as [|x xs IH]; intros Hf st Hst.
  - exact Hst.
  - cbn. apply wp_bind. eapply wp_mono.
    + apply Hf; [left; reflexivity|exact Hst].
    + intros u st' Hst'. apply IH; [|exact Hst'].
      intros y st0 Hy. apply Hf. right. exact Hy.
Qed.

Lemma In_seqZ i n : In i (seqZ 0 n) -> 0 <= i < n.
Proof.
  intros H. apply list_elem_of_In, elem_of_seqZ in H. lia.
Qed.

Lemma wp_forRange (f : Z -> M unit) (Inv : cstate -> Prop) n :
  (forall i st, 0 <= i < n -> Inv st -> wp (f i) (fun _ => Inv) st) ->
  forall st, Inv st -> wp (forRange n f) (fun _ => Inv) st.
Proof.
  intros Hf. unfold forRange. apply wp_forEach.
  intros i st Hi. apply Hf, In_seqZ, Hi.
Qed.

(** ** The primitives as state transformers *)

Lemma emit_eq s st :
  emit s st = Ok (tt, set_code (brainfuckCode st ++ s) st).
Proof. reflexivity. Qed.

Lemma memSet_eq k v st :
  memSet k v st = Ok (tt, set_memoryUsage (map_set k v (memoryUsage st)) st).
Proof. reflexivity. Qed.

Lemma findEmptyLocation_eq st :
  findEmptyLocation st = Ok (findEmptyLocation_of (memoryUsage st), st).
Proof. reflexivity. Qed.

Lemma findVariableLocation_eq name i st :
  findVariableLocation name i st
  = Ok (findVariableLocation_of name i (memoryUsage st), st).
Proof. reflexivity. Qed.

Lemma clearCell_eq st :
  clearCell st = Ok (tt, set_code (brainfuckCode st ++ bf "[-]") st).
Proof. reflexivity. Qed.

Lemma state_eq (st st' : cstate) :
  brainfuckCode st = brainfuckCode st' ->
  memoryUsage st = memoryUsage st' ->
  variables st = variables st' ->
  pointerLocation st = pointerLocation st' ->
  functions st = functions st' ->
  unsafePointerLocation st = unsafePointerLocation st' ->
  st = st'.
Proof.
  destruct st, st'. cbn. intros -> -> -> -> -> ->. reflexivity.
Qed.

Lemma Ok_eq {A} (a : A) (st st' : cstate) :
  st = st' -> Ok (a, st) = Ok (a, st').
Proof. intros ->. reflexivity. Qed.

Lemma rights_eq n st :
  forEach (fun _ : Z => movePointerRight) (seqZ 0 (Z.of_nat n)) st
  = Ok (tt, set_pointerLocation (pointerLocation st + Z.of_nat n)
              (set_code (brainfuckCode st ++ List.repeat ">"%char n) st)).
Proof.
  assert (H : forall (l : list Z) st,
    forEach (fun _ : Z => movePointerRight) l st
    = Ok (tt, set_pointerLocation (pointerLocation st + Z.of_nat (length l))
                (set_code (brainfuckCode st ++ List.repeat ">"%char (length l)) st))).
  { clear. induction l as [|x l IH]; intros st.
    - cbn [forEach length List.repeat]. unfold ret. apply Ok_eq.
      apply state_eq; cbn; try reflexivity.
      + rewrite app_nil_r. reflexivity.
      + lia.
    - cbn [forEach]. unfold bind at 1. unfold movePointerRight at 1.
      unfold bind at 1. cbn [modify emit]. rewrite IH.
      apply Ok_eq. apply state_eq; cbn; try reflexivity.
      + rewrite <- app_assoc. reflexivity.
      + lia. }
  rewrite H. rewrite length_seqZ, Nat2Z.id. reflexivity.
Qed.

Lemma lefts_eq n st :
  forEach (fun _ : Z => movePointerLeft) (seqZ 0 (Z.of_nat n)) st
  = Ok (tt, set_pointerLocation (pointerLocation st - Z.of_nat n)
              (set_code (brainfuckCode st ++ List.repeat "<"%char n) st)).
Proof.
  assert (H : forall (l : list Z) st,
    forEach (fun _ : Z => movePointerLeft) l st
    = Ok (tt, set_pointerLocation (pointerLocation st - Z.of_nat (length l))
                (set_code (brainfuckCode st ++ List.repeat "<"%char (length l)) st))).
  { clear. induction l as [|x l IH]; intros st.
    - cbn [forEach length List.repeat]. unfold ret. apply Ok_eq.
      apply state_eq; cbn; try reflexivity.
      + rewrite app_nil_r. reflexivity.
      + lia.
    - cbn [forEach]. unfold bind at 1. unfold movePointerLeft at 1.
      unfold bind at 1. cbn [modify emit]. rewrite IH.
      apply Ok_eq. apply state_eq; cbn; try reflexivity.
      + rewrite <- app_assoc. reflexivity.
      + lia. }
  rewrite H. rewrite length_seqZ, Nat2Z.id. reflexivity.
Qed.

Lemma moveTo_eq q st :
  moveTo q st
  = Ok (tt, set_pointerLocation q
              (set_code (brainfuckCode st ++ moves (pointerLocation st) q) st)).
Proof.
  unfold moveTo. unfold bind at 1. cbn [get].
  unfold bind at 1.
  destruct (Z_le_gt_dec 0 (q - pointerLocation st)) as [Hle|Hgt].
  - rewrite <- (Z2Nat.id (q - pointerLocation st)) at 1 by exact Hle.
    rewrite rights_eq.
    rewrite (seqZ_nil 0 (pointerLocation st - q)) by lia.
    cbn [forEach]. unfold ret. apply Ok_eq.
    apply state_eq; cbn; try reflexivity.
    + unfold moves, repeat_char.
      rewrite (Z2Nat.nonpos (pointerLocation st - q)) by lia.
      cbn [List.repeat]. rewrite app_nil_r. reflexivity.
    + rewrite Z2Nat.id by lia. lia.
  - rewrite (seqZ_nil 0 (q - pointerLocation st)) by lia. cbn [forEach ret].
    rewrite <- (Z2Nat.id (pointerLocation st - q)) at 1 by lia.
    rewrite lefts_eq. apply Ok_eq. apply state_eq; cbn; try reflexivity.
    + unfold moves, repeat_char.
      rewrite (Z2Nat.nonpos (q - pointerLocation st)) by lia. reflexivity.
    + rewrite Z2Nat.id by lia. lia.
Qed.

Lemma setValue_eq value st :
  setValue value st
  = Ok (tt, set_code (brainfuckCode st ++ setValue_code value) st).
Proof.
  unfold setValue, setValue_code. unfold bind. rewrite clearCell_eq.
  assert (Hemit : forall s,
    emit s (set_code (brainfuckCode st ++ bf "[-]") st)
    = Ok (tt, set_code (brainfuckCode st ++ bf "[-]" ++ s) st)).
  { intros s. rewrite emit_eq. apply Ok_eq.
    apply state_eq; cbn; try reflexivity. rewrite <- app_assoc. reflexivity. }
  assert (Hret :
    ret tt (set_code (brainfuckCode st ++ bf "[-]") st)
    = Ok (tt, set_code (brainfuckCode st ++ bf "[-]" ++ []) st)).
  { unfold ret. apply Ok_eq. apply state_eq; cbn; try reflexivity. }
  destruct value as [n|s|b].
  - destruct (0 <? n); [apply Hemit|]. destruct (n <? 0); [apply Hemit|apply Hret].
  - destruct (charCodeAt0 s) as [code|]; [|apply Hret].
    destruct (0 <? code); [apply Hemit|apply Hret].
  - destruct b; [apply Hemit|apply Hret].
Qed.

Ltac simpl_state :=
  cbn [brainfuckCode memoryUsage variables pointerLocation functions
       unsafePointerLocation set_code set_memoryUsage set_pointerLocation
       set_variables set_functions set_unsafePointerLocation].

Ltac run_prim :=
  unfold bind at 1;
  first [ rewrite moveTo_eq | rewrite emit_eq | rewrite memSet_eq
        | rewrite findEmptyLocation_eq | rewrite clearCell_eq
        | rewrite setValue_eq | rewrite findVariableLocation_eq ];
  cbv beta iota; simpl_state.

(** [copy] as a state transformer. *)
Lemma copy_eq cell st :
  let l1 := copy_location1 (memoryUsage st) in
  let l2 := copy_location2 (memoryUsage st) in
  copy cell st
  = Ok (l2,
        {| brainfuckCode :=
             brainfuckCode st ++ copy_code (pointerLocation st) cell l1 l2;
           memoryUsage :=
             map_set l1 Freed
               (map_set l2 Temporary (map_set l1 Temporary (memoryUsage st)));
           variables := variables st;
           pointerLocation := l1;
           functions := functions st;
           unsafePointerLocation := unsafePointerLocation st |}).
Proof.
  intros l1 l2. unfold copy.
  do 23 run_prim.
  unfold ret. apply Ok_eq. apply state_eq; simpl_state; try reflexivity.
  unfold copy_code. fold l1. fold l2. rewrite <- !app_assoc. reflexivity.
Qed.

(** ** The allocator map *)

Lemma map_get_map_set k v m k' :
  map_get k' (map_set k v m) = if k =? k' then Some v else map_get k' m.
Proof.
  induction m as [|[k0 v0] m IH]; cbn.
  - destruct (Z.eqb_spec k k'); reflexivity.
  - destruct (Z.eqb_spec k0 k) as [->|Hne]; cbn.
    + destruct (Z.eqb_spec k k'); reflexivity.
    + destruct (Z.eqb_spec k0 k') as [->|Hne'].
      * destruct (Z.eqb_spec k k'); [congruence|reflexivity].
      * exact IH.
Qed.

Lemma map_get_Some_In k v m : map_get k m = Some v -> In k (map fst m).
Proof.
  induction m as [|[k0 v0] m IH]; cbn; [discriminate|].
  destruct (Z.eqb_spec k0 k) as [->|Hne]; [auto|]. intros H. right. auto.
Qed.

Lemma elem_of_occ k m : k ∈ occ m <-> is_occupied (map_get k m) = true.
Proof.
  unfold occ. rewrite elem_of_list_to_set, list_elem_of_In, filter_In.
  split; [intros [_ H]; exact H|].
  intros H. split; [|exact H].
  destruct (map_get k m) as [v|] eqn:E; [|discriminate].
  eapply map_get_Some_In, E.
Qed.

Lemma occ_map_set_occupied k v m :
  is_occupied (Some v) = true -> occ (map_set k v m) = occ m ∪ {[k]}.
Proof.
  intros Hv. apply set_eq. intros j.
  rewrite elem_of_union, elem_of_singleton, !elem_of_occ, map_get_map_set.
  destruct (Z.eqb_spec k j) as [->|Hne]; [tauto|].
  split; [auto|]. intros [H|H]; [exact H|congruence].
Qed.

Lemma occ_map_set_Freed k m : occ (map_set k Freed m) = occ m ∖ {[k]}.
Proof.
  apply set_eq. intros j.
  rewrite elem_of_difference, elem_of_singleton, !elem_of_occ, map_get_map_set.
  destruct (Z.eqb_spec k j) as [->|Hne]; cbn.
  - split; [discriminate|]. intros [_ H]. congruence.
  - split; [intros H; split; [exact H|congruence]|intros [H _]; exact H].
Qed.

Lemma occ_map_set_Temporary k m : occ (map_set k Temporary m) = occ m ∪ {[k]}.
Proof. apply occ_map_set_occupied. reflexivity. Qed.

Lemma occ_map_set_Named k x t m : occ (map_set k (Named x t) m) = occ m ∪ {[k]}.
Proof. apply occ_map_set_occupied. reflexivity. Qed.

(** ** Subtraction *)

Ltac run_copy :=
  unfold bind at 1; rewrite copy_eq; cbv beta iota zeta; simpl_state.


(** ** The output alphabet *)

Lemma alphabet_forallb s : forallb instruction_char s = true -> alphabet s.
Proof.
  unfold alphabet. rewrite forallb_forall, List.Forall_forall. auto.
Qed.

Lemma alphabet_app a b : alphabet a -> alphabet b -> alphabet (a ++ b).
Proof. unfold alphabet. intros Ha Hb. apply Forall_app. split; assumption. Qed.

Lemma alphabet_nil : alphabet [].
Proof. constructor. Qed.

Lemma alphabet_repeat c n :
  instruction_char c = true -> alphabet (repeat_char c n).
Proof.
  intros Hc. unfold repeat_char, alphabet.
  induction (Z.to_nat n) as [|k IH]; cbn; constructor; assumption.
Qed.

Lemma alphabet_moves p q : alphabet (moves p q).
Proof.
  unfold moves. apply alphabet_app; apply alphabet_repeat; reflexivity.
Qed.

Lemma alphabet_setValue_code v : alphabet (setValue_code v).
Proof.
  unfold setValue_code. apply alphabet_app; [apply alphabet_forallb; reflexivity|].
  destruct v as [n|s|b].
  - destruct (0 <? n); [apply alphabet_repeat; reflexivity|].
    destruct (n <? 0); [apply alphabet_repeat; reflexivity|apply alphabet_nil].
  - destruct (charCodeAt0 s) as [code|]; [|apply alphabet_nil].
    destruct (0 <? code); [apply alphabet_repeat; reflexivity|apply alphabet_nil].
  - destruct b; [apply alphabet_forallb; reflexivity|apply alphabet_nil].
Qed.

Ltac solve_alphabet :=
  repeat first
    [ apply alphabet_nil
    | apply alphabet_moves
    | apply alphabet_setValue_code
    | apply alphabet_app
    | apply alphabet_forallb; reflexivity
    | assumption ].

Lemma alphabet_copy_code p cell l1 l2 : alphabet (copy_code p cell l1 l2).
Proof. unfold copy_code. solve_alphabet. Qed.

Lemma extends_refl st : extends st st.
Proof.
  split; [reflexivity|]. exists []. split; [symmetry; apply app_nil_r|constructor].
Qed.

Lemma extends_trans st1 st2 st3 :
  extends st1 st2 -> extends st2 st3 -> extends st1 st3.
Proof.
  intros [Hf1 (e1 & Hc1 & Ha1)] [Hf2 (e2 & Hc2 & Ha2)].
  split; [congruence|]. exists (e1 ++ e2). split.
  - rewrite Hc2, Hc1, app_assoc. reflexivity.
  - apply alphabet_app; assumption.
Qed.

Lemma ec_bind {A B} (m : M A) (f : A -> M B) :
  emits_clean m -> (forall a, emits_clean (f a)) -> emits_clean (bind m f).
Proof.
  intros Hm Hf st. apply wp_bind. eapply wp_mono; [apply Hm|].
  intros a st1 H1. eapply wp_mono; [apply Hf|].
  intros b st2 H2. exact (extends_trans _ _ _ H1 H2).
Qed.

Lemma ec_ret {A} (a : A) : emits_clean (ret a).
Proof. intros st. apply extends_refl. Qed.

Lemma ec_throw {A} e : emits_clean (@throw A e).
Proof. intros st. exact I. Qed.

Lemma ec_get : emits_clean get.
Proof. intros st. apply extends_refl. Qed.

Lemma ec_fmapM {A B} (f : A -> B) (m : M A) : emits_clean m -> emits_clean (fmapM f m).
Proof.
  intros Hm st. specialize (Hm st). unfold wp, fmapM in *.
  destruct (m st) as [[a st']| |]; auto.
Qed.

Lemma ec_eq {A} (m : M A) :
  (forall st, exists a st', m st = Ok (a, st') /\ extends st st') ->
  emits_clean m.
Proof.
  intros H st. destruct (H st) as (a & st' & E & Hx).
  eapply wp_eq; [exact E|exact Hx].
Qed.

Lemma extends_emit st s :
  alphabet s -> extends st (set_code (brainfuckCode st ++ s) st).
Proof. intros Hs. split; [reflexivity|]. exists s. auto. Qed.

Lemma ec_emit s : alphabet s -> emits_clean (emit s).
Proof.
  intros Hs. apply ec_eq. intros st. do 2 eexists.
  split; [apply emit_eq|apply extends_emit, Hs].
Qed.

Lemma ec_clearCell : emits_clean clearCell.
Proof. apply ec_emit. apply alphabet_forallb. reflexivity. Qed.

Lemma ec_moveTo q : emits_clean (moveTo q).
Proof.
  apply ec_eq. intros st. do 2 eexists. split; [apply moveTo_eq|].
  split; [reflexivity|]. eexists. split; [reflexivity|apply alphabet_moves].
Qed.

Lemma ec_setValue v : emits_clean (setValue v).
Proof.
  apply ec_eq. intros st. do 2 eexists. split; [apply setValue_eq|].
  apply extends_emit, alphabet_setValue_code.
Qed.

Lemma ec_modify_memory (g : cstate -> cstate) :
  (forall st, brainfuckCode (g st) = brainfuckCode st
              /\ functions (g st) = functions st) ->
  emits_clean (modify g).
Proof.
  intros H st. destruct (H st) as [Hc Hf]. cbn. split; [exact Hf|].
  exists []. rewrite app_nil_r. split; [exact Hc|constructor].
Qed.

Lemma ec_memSet k v : emits_clean (memSet k v).
Proof. apply ec_modify_memory. intros st. split; reflexivity. Qed.

Lemma ec_memDelete k : emits_clean (memDelete k).
Proof. apply ec_modify_memory. intros st. split; reflexivity. Qed.

Lemma ec_findEmptyLocation : emits_clean findEmptyLocation.
Proof. intros st. apply extends_refl. Qed.

Lemma ec_findVariableLocation name i : emits_clean (findVariableLocation name i).
Proof. intros st. apply extends_refl. Qed.

Lemma ec_findContiguousFreeRegion n : emits_clean (findContiguousFreeRegion n).
Proof.
  intros st. unfold wp, findContiguousFreeRegion.
  destruct (findContiguousFreeRegion_of _ _); [apply extends_refl|exact I].
Qed.

Lemma ec_getUnsafePointer : emits_clean getUnsafePointer.
Proof.
  intros st. unfold wp, getUnsafePointer, bind, get.
  destruct (unsafePointerLocation st); [apply extends_refl|exact I].
Qed.

Lemma ec_forEach {A} (f : A -> M unit) xs :
  (forall x, emits_clean (f x)) -> emits_clean (forEach f xs).
Proof.
  intros Hf. induction xs as [|x xs IH].
  - apply ec_ret.
  - cbn. apply ec_bind; [apply Hf|intros _; exact IH].
Qed.

Lemma ec_forRange n (f : Z -> M unit) :
  (forall i, emits_clean (f i)) -> emits_clean (forRange n f).
Proof. intros Hf. apply ec_forEach, Hf. Qed.

Create HintDb ec discriminated.

Ltac ec_step :=
  first [ assumption | lazymatch goal with
  | |- emits_clean (bind _ _) => apply ec_bind; [|intros ?]
  | |- emits_clean (ret _) => apply ec_ret
  | |- emits_clean (throw _) => apply ec_throw
  | |- emits_clean get => apply ec_get
  | |- emits_clean (moveTo _) => apply ec_moveTo
  | |- emits_clean clearCell => apply ec_clearCell
  | |- emits_clean (setValue _) => apply ec_setValue
  | |- emits_clean (memSet _ _) => apply ec_memSet
  | |- emits_clean (memDelete _) => apply ec_memDelete
  | |- emits_clean findEmptyLocation => apply ec_findEmptyLocation
  | |- emits_clean (findVariableLocation _ _) => apply ec_findVariableLocation
  | |- emits_clean (findContiguousFreeRegion _) => apply ec_findContiguousFreeRegion
  | |- emits_clean getUnsafePointer => apply ec_getUnsafePointer
  | |- emits_clean (emit _) => apply ec_emit; solve [solve_alphabet]
  | |- emits_clean (forRange _ _) => apply ec_forRange; intros ?
  | |- emits_clean (forEach _ _) => apply ec_forEach; intros ?
  | |- emits_clean (fmapM _ _) => apply ec_fmapM
  | |- emits_clean (modify _) =>
      apply ec_modify_memory; intros ?; split; reflexivity
  | |- emits_clean (match ?x with _ => _ end) => destruct x
  | |- _ => solve [auto with ec]
  end ].

Ltac ec := cbv zeta; repeat ec_step.

Lemma ec_copy cell : emits_clean (copy cell).
Proof. unfold copy. ec. Qed.
#[local] Hint Resolve ec_copy : ec.

Lemma ec_add a b : emits_clean (add a b).
Proof. unfold add. ec. Qed.
#[local] Hint Resolve ec_add : ec.

Lemma ec_subtract a b : emits_clean (subtract a b).
Proof. unfold subtract. ec. Qed.
#[local] Hint Resolve ec_subtract : ec.

Lemma ec_getVariableValueAtDynamicIndex name evalIndex :
  emits_clean evalIndex ->
  emits_clean (getVariableValueAtDynamicIndex name evalIndex).
Proof.
  intros Hidx. unfold getVariableValueAtDynamicIndex. ec.
Qed.

Lemma ec_evalValue val : emits_clean (evalValue val).
Proof.
  induction val as [value|name index IH|operator lhs IHl rhs IHr| |i|e IH]
    using ValueToken_ind'
    with (P0 := fun index =>
                  match index with
                  | IndexNumber _ => True
                  | IndexExpr e => emits_clean (evalValue e)
                  end).
  - cbn [evalValue]. ec.
  - cbn [evalValue]. destruct index as [i|e].
    + ec.
    + apply ec_getVariableValueAtDynamicIndex. exact IH.
  - cbn [evalValue]. destruct operator; ec.
  - cbn [evalValue]. ec.
  - exact I.
  - exact IH.
Qed.

#[local] Hint Resolve ec_evalValue : ec.

Lemma ec_setVariableAtDynamicIndex name indexExpr value :
  emits_clean (setVariableAtDynamicIndex name indexExpr value).
Proof. unfold setVariableAtDynamicIndex. ec. Qed.

Lemma ec_conditionCell condition : emits_clean (conditionCell condition).
Proof.
  unfold conditionCell. destruct condition as [v|name [i|e]|op l r|]; ec.
Qed.

Lemma list_ascii_of_string_app s1 s2 :
  list_ascii_of_string (String.append s1 s2)
  = list_ascii_of_string s1 ++ list_ascii_of_string s2.
Proof.
  induction s1 as [|c s1 IH]; [reflexivity|].
  simpl. f_equal. exact IH.
Qed.

Lemma alphabet_join_bf ops :
  forallb clean_text ops = true -> alphabet (join_bf ops).
Proof.
  unfold join_bf, bf. induction ops as [|s ops IH]; intros H.
  - constructor.
  - cbn in H. apply andb_true_iff in H as [Hs Hops].
    cbn [String.concat]. destruct ops as [|s' ops'].
    + apply alphabet_forallb, Hs.
    + rewrite !list_ascii_of_string_app.
      apply alphabet_app; [apply alphabet_forallb, Hs|].
      apply alphabet_app; [apply alphabet_forallb; reflexivity|].
      apply IH, Hops.
Qed.

Lemma ec_compileUnsafeToken :
  forall token, clean_unsafe_token token = true ->
                emits_clean (compileUnsafeToken token).
Proof.
  fix IH 1. intros [amount|amount|loc| |body|ops] Hclean; cbn [compileUnsafeToken].
  - ec.
  - ec.
  - ec.
  - ec.
  - cbn in Hclean.
    assert (Hbody : emits_clean (forEach compileUnsafeToken body)).
    { induction body as [|t body IHbody]; [apply ec_ret|].
      cbn in Hclean. apply andb_true_iff in Hclean as [Ht Hbody].
      cbn [forEach]. apply ec_bind; [apply IH, Ht|intros _; apply IHbody, Hbody]. }
    ec.
  - cbn in Hclean. apply ec_emit, alphabet_join_bf, Hclean.
Qed.

Lemma ec_compileUnsafe tokens :
  forallb clean_unsafe_token tokens = true -> emits_clean (compileUnsafe tokens).
Proof.
  unfold compileUnsafe. induction tokens as [|t tokens IH]; intros H.
  - apply ec_ret.
  - cbn in H. apply andb_true_iff in H as [Ht Htokens].
    cbn [forEach]. apply ec_bind; [apply ec_compileUnsafeToken, Ht|].
    intros _. apply IH, Htokens.
Qed.

Lemma rc_ec {A} (m : M A) : emits_clean m -> registers_clean m.
Proof.
  intros Hm st Hreg. eapply wp_mono; [apply Hm|].
  intros a st' [Hf He]. split; [rewrite Hf; exact Hreg|exact He].
Qed.

Lemma rc_bind {A B} (m : M A) (f : A -> M B) :
  registers_clean m -> (forall a, registers_clean (f a)) ->
  registers_clean (bind m f).
Proof.
  intros Hm Hf st Hreg. apply wp_bind. eapply wp_mono; [apply Hm, Hreg|].
  intros a st1 [Hreg1 (e1 & Hc1 & Ha1)]. eapply wp_mono; [apply Hf, Hreg1|].
  intros b st2 [Hreg2 (e2 & Hc2 & Ha2)]. split; [exact Hreg2|].
  exists (e1 ++ e2). split.
  - rewrite Hc2, Hc1, app_assoc. reflexivity.
  - apply alphabet_app; assumption.
Qed.

Lemma rc_forEach {A} (f : A -> M unit) xs :
  (forall x, In x xs -> registers_clean (f x)) -> registers_clean (forEach f xs).
Proof.
  induction xs as [|x xs IH]; intros Hf.
  - apply rc_ec, ec_ret.
  - cbn [forEach]. apply rc_bind; [apply Hf; left; reflexivity|].
    intros _. apply IH. intros y Hy. apply Hf. right. exact Hy.
Qed.

Lemma clean_registry_insert name body fs :
  clean_registry fs ->
  forallb clean_token body = true ->
  clean_registry (<[name := body]> fs).
Proof.
  intros Hfs Hbody n b Hn Hlook.
  destruct (decide (name = n)) as [->|Hne].
  - rewrite lookup_insert_eq in Hlook. injection Hlook as <-. exact Hbody.
  - rewrite lookup_insert_ne in Hlook by exact Hne. eapply Hfs; eassumption.
Qed.

Lemma rc_compileToken rec token :
  compiles_clean rec ->
  clean_token token = true ->
  registers_clean (compileToken rec token).
Proof.
  intros Hrec Hclean.
  assert (Hbody : forall body,
            forallb clean_token body = true -> registers_clean (rec body false)).
  { intros body Hb st Hreg. eapply wp_mono; [apply (Hrec body false Hb st Hreg)|].
    intros c st' (Hreg' & _ & He). auto. }
  destruct token as [name type array|name index value|value|condition body
                    |condition body|name|safetySize body|name body|name|name];
    cbn [compileToken].
  - apply rc_ec. ec.
  - apply rc_ec. pose proof ec_setVariableAtDynamicIndex.
    destruct index as [i|e]; [|auto]. ec.
  - apply rc_ec. ec.
  - cbn in Hclean. pose proof ec_conditionCell.
    apply rc_bind; [apply rc_ec; auto|intros condCell].
    apply rc_bind; [apply rc_ec, ec_moveTo|intros _].
    apply rc_bind; [apply rc_ec; ec|intros _].
    apply rc_bind; [apply Hbody, Hclean|intros _].
    apply rc_ec. ec.
  - cbn in Hclean. pose proof ec_conditionCell.
    apply rc_bind; [apply rc_ec; auto|intros condCell].
    apply rc_bind; [apply rc_ec, ec_moveTo|intros _].
    apply rc_bind; [apply rc_ec; ec|intros _].
    apply rc_bind; [apply Hbody, Hclean|intros _].
    apply rc_ec. ec.
  - apply rc_ec. ec.
  - cbn in Hclean. apply rc_ec. pose proof (ec_compileUnsafe body Hclean). ec.
  - cbn in Hclean. intros st Hreg. cbn. split.
    + apply clean_registry_insert; assumption.
    + exists []. rewrite app_nil_r. split; [reflexivity|constructor].
  - cbn in Hclean. apply negb_true_iff in Hclean.
    apply String.eqb_neq in Hclean.
    intros st Hreg. unfold wp, bind, get.
    destruct (functions st !! name) as [funcCode|] eqn:Hlook; [|exact I].
    pose proof (Hrec funcCode true (Hreg name funcCode Hclean Hlook) st Hreg) as H.
    unfold wp in H.
    destruct (rec funcCode true st) as [[c st']| |]; [|exact I|exact I].
    destruct H as (Hreg' & -> & e & He & Ha). cbn.
    split; [exact Hreg'|]. exists (brainfuckCode st'). split; [reflexivity|].
    rewrite He. exact Ha.
  - apply rc_ec. ec.
Qed.

Lemma compile_fuel_clean fuel : compiles_clean (compile_fuel fuel).
Proof.
  induction fuel as [|fuel IH]; intros code reset Hcode st Hreg.
  - exact I.
  - cbn [compile_fuel]. apply wp_bind.
    assert (Hloop : registers_clean
              (forEach (compileToken (compile_fuel fuel)) code)).
    { apply rc_forEach. intros t Ht. apply rc_compileToken; [exact IH|].
      rewrite forallb_forall in Hcode. apply Hcode, Ht. }
    destruct reset.
    + cbn. apply wp_bind. eapply wp_mono; [apply Hloop; exact Hreg|].
      intros _ st' [Hreg' (e & He & Ha)]. cbn.
      split; [exact Hreg'|]. split; [reflexivity|]. exists e. auto.
    + cbn. apply wp_bind. eapply wp_mono; [apply Hloop; exact Hreg|].
      intros _ st' [Hreg' (e & He & Ha)]. cbn.
      split; [exact Hreg'|]. split; [reflexivity|]. exists e. auto.
Qed.

Lemma clean_registry_initial : clean_registry (functions initial_state).
Proof.
  intros name body Hname Hlook. cbn in Hlook. unfold builtin_functions in Hlook.
  apply lookup_singleton_Some in Hlook as [<- _]. congruence.
Qed.

(** C9 (amended): every character of the string [compile] returns is one of
    the eight instruction characters or [~], provided the raw-escape texts
    of the program and of the registered functions it can call use these
    characters only and the program does not call the builtin [__dump],
    whose text is [&]. *)
Theorem output_alphabet fuel code st c st' :
  forallb clean_token code = true ->
  clean_registry (functions st) ->
  compile fuel code st = Ok (c, st') ->
  alphabet c.
Proof.
  intros Hcode Hreg Hcompile.
  pose proof (compile_fuel_clean fuel code true Hcode st Hreg) as H.
  apply (wp_Ok _ _ _ _ _ H) in Hcompile.
  destruct Hcompile as (_ & -> & e & -> & He). exact He.
Qed.

Lemma output_alphabet_witness :
  exists c st',
    compile 1 show_two initial_state = Ok (c, st') /\ alphabet c.
Proof.
  eexists; eexists; split; [vm_compute; reflexivity|].
  eapply (output_alphabet 1 show_two initial_state);
    [reflexivity | apply clean_registry_initial | vm_compute; reflexivity].
Defined.


(** The earlier revision of [subtract] on the state of the counterexample:
    the two copies, at the addresses 4 and 5, stay [Temporary]. *)
Lemma legacy_subtract_leaks_two_cells :
  exists c st t st',
    compile 1 two_operands initial_state = Ok (c, st)
    /\ Legacy.subtract 0 1 st = Ok (t, st')
    /\ memoryUsage st' =
         [(0, Named ("a"%string, 0) TNumber); (1, Named ("b"%string, 0) TNumber);
          (2, Temporary); (3, Freed); (4, Temporary); (5, Temporary)].
Proof.
  do 4 eexists.
  split; [vm_compute; reflexivity|].
  split; vm_compute; reflexivity.
Qed.

(** ** Running emitted code *)

Lemma exec_app o p1 p2 m m1 m2 :
  exec o p1 m m1 -> exec o p2 m1 m2 -> exec o (p1 ++ p2) m m2.
Proof.
  intros H1 H2. induction H1 as [m|c p m m' H IH|body p m m' Hz H IH
                                |body p m ma m' Hz Hb _ Hl IH].
  - exact H2.
  - cbn. constructor. apply IH, H2.
  - cbn. apply exec_skip; [exact Hz|apply IH, H2].
  - cbn. eapply exec_iter; [exact Hz|exact Hb|apply IH, H2].
Qed.

Lemma unparse_straight s : unparse (straight s) = s.
Proof.
  unfold straight. induction s as [|c s IH]; [reflexivity|].
  cbn [map]. rewrite unparse_cons, IH. reflexivity.
Qed.

Lemma wf_straight s :
  forallb (fun c => negb (is_bracket c)) s = true -> wf_prog (straight s) = true.
Proof.
  unfold straight, wf_prog. intros H.
  induction s as [|c s IH]; [reflexivity|].
  cbn in H |- *. apply andb_true_iff in H as [Hc Hs].
  rewrite Hc. apply IH, Hs.
Qed.

Lemma straight_app a b : straight (a ++ b) = straight a ++ straight b.
Proof. apply map_app. Qed.

Lemma no_bracket_repeat c n :
  is_bracket c = false ->
  forallb (fun c => negb (is_bracket c)) (repeat_char c n) = true.
Proof.
  intros Hc. unfold repeat_char. induction (Z.to_nat n) as [|k IH]; [reflexivity|].
  cbn. rewrite Hc. exact IH.
Qed.

Lemma no_bracket_moves p q :
  forallb (fun c => negb (is_bracket c)) (moves p q) = true.
Proof.
  unfold moves. rewrite forallb_app, !no_bracket_repeat by reflexivity. reflexivity.
Qed.

Lemma exec_rights o n m :
  exec o (straight (List.repeat ">"%char n)) m
    (Nat.iter n (fun m => set_dataPointer (Z.rem (dataPointer m + 1) memorySize) m) m).
Proof.
  revert m. induction n as [|n IH]; intros m; [constructor|].
  cbn [List.repeat straight map]. constructor.
  change (simple_step o ">" m)
    with (set_dataPointer (Z.rem (dataPointer m + 1) memorySize) m).
  rewrite Nat.iter_succ_r. apply IH.
Qed.

Lemma exec_lefts o n m :
  exec o (straight (List.repeat "<"%char n)) m
    (Nat.iter n (fun m => set_dataPointer
                            (Z.rem (dataPointer m - 1 + memorySize) memorySize) m) m).
Proof.
  revert m. induction n as [|n IH]; intros m; [constructor|].
  cbn [List.repeat straight map]. constructor.
  change (simple_step o "<" m)
    with (set_dataPointer (Z.rem (dataPointer m - 1 + memorySize) memorySize) m).
  rewrite Nat.iter_succ_r. apply IH.
Qed.

Lemma set_dataPointer_id m : set_dataPointer (dataPointer m) m = m.
Proof. destruct m. reflexivity. Qed.

Lemma set_dataPointer_twice p q m :
  set_dataPointer q (set_dataPointer p m) = set_dataPointer q m.
Proof. reflexivity. Qed.

Lemma iter_rights n p m :
  dataPointer m = p mod memorySize ->
  Nat.iter n (fun m => set_dataPointer (Z.rem (dataPointer m + 1) memorySize) m) m
  = set_dataPointer ((p + Z.of_nat n) mod memorySize) m.
Proof.
  intros Hdp. induction n as [|n IH].
  - cbn. rewrite Z.add_0_r, <- Hdp. symmetry. apply set_dataPointer_id.
  - rewrite Nat.iter_succ, IH. cbn [dataPointer set_dataPointer].
    rewrite move_right_mod. unfold set_dataPointer.
    cbn [memory output inputPointer]. f_equal. f_equal. lia.
Qed.

Lemma iter_lefts n p m :
  dataPointer m = p mod memorySize ->
  Nat.iter n (fun m => set_dataPointer
                         (Z.rem (dataPointer m - 1 + memorySize) memorySize) m) m
  = set_dataPointer ((p - Z.of_nat n) mod memorySize) m.
Proof.
  intros Hdp. induction n as [|n IH].
  - cbn. rewrite Z.sub_0_r, <- Hdp. symmetry. apply set_dataPointer_id.
  - rewrite Nat.iter_succ, IH. cbn [dataPointer set_dataPointer].
    rewrite move_left_mod. unfold set_dataPointer.
    cbn [memory output inputPointer]. f_equal. f_equal. lia.
Qed.

(** The text of [moveTo] moves the data pointer from the cell of [p] to the
    cell of [q]. *)
Lemma exec_moves o p q m :
  dataPointer m = p mod memorySize ->
  exec o (straight (moves p q)) m (set_dataPointer (q mod memorySize) m).
Proof.
  intros Hdp. unfold moves, repeat_char. rewrite straight_app.
  eapply exec_app; [apply exec_rights|].
  rewrite (iter_rights _ p) by exact Hdp.
  replace (set_dataPointer (q mod memorySize) m)
    with (set_dataPointer (q mod memorySize)
            (set_dataPointer ((p + Z.of_nat (Z.to_nat (q - p))) mod memorySize) m))
    by reflexivity.
  set (m1 := set_dataPointer ((p + Z.of_nat (Z.to_nat (q - p))) mod memorySize) m).
  assert (H1 : dataPointer m1 = (p + Z.of_nat (Z.to_nat (q - p))) mod memorySize)
    by reflexivity.
  pose proof (exec_lefts o (Z.to_nat (p - q)) m1) as H.
  rewrite (iter_lefts _ _ _ H1) in H.
  replace ((p + Z.of_nat (Z.to_nat (q - p)) - Z.of_nat (Z.to_nat (p - q))))
    with q in H by lia.
  exact H.
Qed.

Lemma exec_single o c m : exec o [Simple c] m (simple_step o c m).
Proof. constructor. constructor. Qed.

Lemma exec_inc o m :
  exec o (straight (bf "+")) m
    (set_cell (add_rem (read (memory m) (dataPointer m)) 1 (bits o)) m).
Proof. apply exec_single. Qed.

Lemma exec_dec o m :
  exec o (straight (bf "-")) m
    (set_cell (add_rem (read (memory m) (dataPointer m)) (-1 + bits o) (bits o)) m).
Proof. apply exec_single. Qed.

Lemma add_rem_inc z b : 0 <= z -> z + 1 < b -> add_rem (Num z) 1 b = Num (z + 1).
Proof.
  intros Hz Hb. unfold add_rem. destruct (Z.eqb_spec b 0) as [->|_]; [lia|].
  rewrite Z.rem_small by lia. reflexivity.
Qed.

Lemma add_rem_dec z b : 0 < z -> z < b -> add_rem (Num z) (-1 + b) b = Num (z - 1).
Proof.
  intros Hz Hb. unfold add_rem. destruct (Z.eqb_spec b 0) as [->|_]; [lia|].
  rewrite Z.rem_mod_nonneg by lia.
  replace (z + (-1 + b)) with (z - 1 + 1 * b) by lia.
  rewrite Z.mod_add by lia. rewrite Z.mod_small by lia. reflexivity.
Qed.

Lemma read_set_cell_eq v m : read (memory (set_cell v m)) (dataPointer m) = v.
Proof. cbn. apply read_insert_eq. Qed.

Lemma read_set_cell_ne v m k :
  k <> dataPointer m -> read (memory (set_cell v m)) k = read (memory m) k.
Proof. intros H. cbn. apply read_insert_ne. congruence. Qed.

Lemma at_zero_Num m z :
  read (memory m) (dataPointer m) = Num z -> at_zero m = (z =? 0).
Proof. unfold at_zero. intros ->. reflexivity. Qed.

Lemma same_except_refl cells m : same_except cells m m.
Proof. repeat split. Qed.

Lemma same_except_trans cells m1 m2 m3 :
  same_except cells m1 m2 -> same_except cells m2 m3 -> same_except cells m1 m3.
Proof.
  intros (Ho1 & Hi1 & Hm1) (Ho2 & Hi2 & Hm2).
  split; [congruence|]. split; [congruence|].
  intros k Hk. rewrite Hm2, Hm1 by exact Hk. reflexivity.
Qed.

Lemma same_except_weaken cells cells' m m' :
  (forall k, In k cells -> In k cells') ->
  same_except cells m m' -> same_except cells' m m'.
Proof.
  intros Hsub (Ho & Hi & Hm). split; [exact Ho|]. split; [exact Hi|].
  intros k Hk. apply Hm. intros Hin. apply Hk, Hsub, Hin.
Qed.

(** [[-]] clears the current cell, whatever number it holds. *)
Lemma exec_clear_small o m n :
  read (memory m) (dataPointer m) = Num (Z.of_nat n) ->
  Z.of_nat n < bits o ->
  exists m',
    exec o [LoopI (straight (bf "-"))] m m'
    /\ dataPointer m' = dataPointer m
    /\ read (memory m') (dataPointer m) = Num 0
    /\ same_except [dataPointer m] m m'.
Proof.
  revert m. induction n as [|n IH]; intros m Hread Hlt.
  - exists m. split.
    + apply exec_skip; [|constructor].
      rewrite (at_zero_Num _ _ Hread). reflexivity.
    + split; [reflexivity|]. split; [exact Hread|apply same_except_refl].
  - set (m1 := set_cell (add_rem (read (memory m) (dataPointer m))
                           (-1 + bits o) (bits o)) m).
    assert (H1 : read (memory m1) (dataPointer m1) = Num (Z.of_nat n)).
    { unfold m1. cbn [dataPointer set_cell memory]. rewrite read_insert_eq, Hread.
      rewrite add_rem_dec by lia. f_equal. lia. }
    destruct (IH m1 H1 ltac:(lia)) as (m' & Hex & Hdp & Hz & Hsame).
    exists m'. split.
    + eapply exec_iter; [|apply exec_dec|exact Hex].
      rewrite (at_zero_Num _ _ Hread). apply Z.eqb_neq. lia.
    + split; [exact Hdp|]. split; [exact Hz|].
      eapply same_except_trans; [|exact Hsame].
      split; [reflexivity|]. split; [reflexivity|].
      intros k Hk. apply read_set_cell_ne. intros ->. apply Hk. left. reflexivity.
Qed.

Lemma exec_clear o m z :
  0 < bits o ->
  read (memory m) (dataPointer m) = Num z ->
  exists m',
    exec o [LoopI (straight (bf "-"))] m m'
    /\ dataPointer m' = dataPointer m
    /\ read (memory m') (dataPointer m) = Num 0
    /\ same_except [dataPointer m] m m'.
Proof.
  intros Hbits Hread.
  assert (Hsmall : forall m z,
    read (memory m) (dataPointer m) = Num z -> 0 <= z < bits o ->
    exists m',
      exec o [LoopI (straight (bf "-"))] m m'
      /\ dataPointer m' = dataPointer m
      /\ read (memory m') (dataPointer m) = Num 0
      /\ same_except [dataPointer m] m m').
  { intros m0 z0 H0 Hz0. apply (exec_clear_small o m0 (Z.to_nat z0)).
    - rewrite Z2Nat.id by lia. exact H0.
    - rewrite Z2Nat.id by lia. lia. }
  assert (Hstep : forall m z,
    read (memory m) (dataPointer m) = Num z -> z <> 0 ->
    forall m1,
      m1 = set_cell (Num (Z.rem (z - 1 + bits o) (bits o))) m ->
      (exists m',
         exec o [LoopI (straight (bf "-"))] m1 m'
         /\ dataPointer m' = dataPointer m1
         /\ read (memory m') (dataPointer m1) = Num 0
         /\ same_except [dataPointer m1] m1 m') ->
      exists m',
        exec o [LoopI (straight (bf "-"))] m m'
        /\ dataPointer m' = dataPointer m
        /\ read (memory m') (dataPointer m) = Num 0
        /\ same_except [dataPointer m] m m').
  { intros m0 z0 H0 Hz0 m1 -> (m' & Hex & Hdp & Hz & Hsame).
    exists m'. split.
    - eapply exec_iter; [| |exact Hex].
      + rewrite (at_zero_Num _ _ H0). apply Z.eqb_neq. exact Hz0.
      + pose proof (exec_dec o m0) as Hd. rewrite H0 in Hd. unfold add_rem in Hd.
        destruct (Z.eqb_spec (bits o) 0); [lia|].
        replace (z0 + (-1 + bits o)) with (z0 - 1 + bits o) in Hd by lia.
        exact Hd.
    - split; [exact Hdp|]. split; [exact Hz|].
      eapply same_except_trans; [|exact Hsame].
      split; [reflexivity|]. split; [reflexivity|].
      intros k Hk. apply read_set_cell_ne. intros ->. apply Hk. left. reflexivity. }
  destruct (Z.eq_dec z 0) as [->|Hz].
  { apply (Hsmall m 0 Hread). lia. }
  eapply Hstep; [exact Hread|exact Hz|reflexivity|].
  set (z1 := Z.rem (z - 1 + bits o) (bits o)).
  set (m1 := set_cell (Num z1) m).
  assert (H1 : read (memory m1) (dataPointer m1) = Num z1)
    by (unfold m1; cbn [dataPointer set_cell memory]; apply read_insert_eq).
  pose proof (Z.rem_bound_abs (z - 1 + bits o) (bits o) ltac:(lia)) as Habs.
  fold z1 in Habs.
  destruct (Z_lt_le_dec z1 0) as [Hneg|Hpos].
  - eapply Hstep; [exact H1|lia|reflexivity|].
    refine (Hsmall (set_cell (Num (Z.rem (z1 - 1 + bits o) (bits o))) m1) _ _ _).
    + cbn [dataPointer set_cell memory]. apply read_insert_eq.
    + rewrite Z.rem_small by lia. lia.
  - apply (Hsmall m1 z1 H1). lia.
Qed.

Ltac simpl_machine :=
  cbn [memory dataPointer output inputPointer set_cell set_dataPointer].

Ltac reads :=
  repeat first
    [ rewrite read_insert_eq
    | rewrite read_insert_ne by (first [assumption | congruence | lia]) ].

(** The first loop of [copy]: the source is drained into both cells. *)
Lemma exec_copy_loop1 o cell l1 l2 n :
  cell mod memorySize <> l1 mod memorySize ->
  cell mod memorySize <> l2 mod memorySize ->
  l1 mod memorySize <> l2 mod memorySize ->
  forall m x y,
    dataPointer m = cell mod memorySize ->
    read (memory m) (cell mod memorySize) = Num (Z.of_nat n) ->
    read (memory m) (l1 mod memorySize) = Num x ->
    read (memory m) (l2 mod memorySize) = Num y ->
    0 <= x -> 0 <= y ->
    x + Z.of_nat n < bits o -> y + Z.of_nat n < bits o -> Z.of_nat n < bits o ->
    exists m',
      exec o [LoopI (straight (moves cell l1 ++ bf "+" ++ moves l1 l2 ++ bf "+"
                               ++ moves l2 cell ++ bf "-"))] m m'
      /\ dataPointer m' = cell mod memorySize
      /\ read (memory m') (cell mod memorySize) = Num 0
      /\ read (memory m') (l1 mod memorySize) = Num (x + Z.of_nat n)
      /\ read (memory m') (l2 mod memorySize) = Num (y + Z.of_nat n)
      /\ same_except [cell mod memorySize; l1 mod memorySize; l2 mod memorySize] m m'.
Proof.
  intros Hc1 Hc2 H12. induction n as [|n IH];
    intros m x y Hdp Hcell Hl1 Hl2 Hx Hy Hxn Hyn Hn.
  - exists m. split.
    + apply exec_skip; [|constructor]. unfold at_zero. rewrite Hdp, Hcell. reflexivity.
    + split; [exact Hdp|]. split; [exact Hcell|].
      split; [rewrite Hl1; f_equal; lia|].
      split; [rewrite Hl2; f_equal; lia|apply same_except_refl].
  - set (ma := set_dataPointer (l1 mod memorySize) m).
    set (mb := set_cell (add_rem (read (memory ma) (dataPointer ma)) 1 (bits o)) ma).
    set (mc := set_dataPointer (l2 mod memorySize) mb).
    set (md := set_cell (add_rem (read (memory mc) (dataPointer mc)) 1 (bits o)) mc).
    set (me := set_dataPointer (cell mod memorySize) md).
    set (mf := set_cell (add_rem (read (memory me) (dataPointer me))
                           (-1 + bits o) (bits o)) me).
    assert (Hbody : exec o (straight (moves cell l1 ++ bf "+" ++ moves l1 l2
                                      ++ bf "+" ++ moves l2 cell ++ bf "-")) m mf).
    { rewrite !straight_app.
      eapply exec_app; [apply exec_moves, Hdp|].
      eapply exec_app; [apply exec_inc|].
      eapply exec_app; [apply (exec_moves o l1 l2); reflexivity|].
      eapply exec_app; [apply exec_inc|].
      eapply exec_app; [apply (exec_moves o l2 cell); reflexivity|].
      apply exec_dec. }
    assert (Hmem : memory mf
                   = <[cell mod memorySize := Num (Z.of_nat n)]>
                       (<[l2 mod memorySize := Num (y + 1)]>
                          (<[l1 mod memorySize := Num (x + 1)]> (memory m)))).
    { unfold mf, me, md, mc, mb, ma. simpl_machine. reads.
      rewrite Hl1, Hl2, Hcell.
      rewrite !add_rem_inc by lia. rewrite add_rem_dec by lia.
      do 2 f_equal. lia. }
    destruct (IH mf (x + 1) (y + 1)) as (m' & Hex & Hdp' & Hz & H1 & H2 & Hsame);
      try lia.
    + reflexivity.
    + rewrite Hmem. reads. reflexivity.
    + rewrite Hmem. reads. reflexivity.
    + rewrite Hmem. reads. reflexivity.
    + exists m'. split.
      * eapply exec_iter; [|exact Hbody|exact Hex].
        unfold at_zero. rewrite Hdp, Hcell. apply Z.eqb_neq. lia.
      * split; [exact Hdp'|]. split; [exact Hz|].
        split; [rewrite H1; f_equal; lia|].
        split; [rewrite H2; f_equal; lia|].
        eapply same_except_trans; [|exact Hsame].
        split; [reflexivity|]. split; [reflexivity|].
        intros k Hk. rewrite Hmem.
        rewrite !read_insert_ne; [reflexivity| | |];
          intros E; apply Hk; subst k; cbn; auto.
Qed.

(** A loop that drains its cell into one other cell. *)
Lemma exec_transfer o src dst n :
  src mod memorySize <> dst mod memorySize ->
  forall m x,
    dataPointer m = src mod memorySize ->
    read (memory m) (src mod memorySize) = Num (Z.of_nat n) ->
    read (memory m) (dst mod memorySize) = Num x ->
    0 <= x -> x + Z.of_nat n < bits o -> Z.of_nat n < bits o ->
    exists m',
      exec o [LoopI (straight (moves src dst ++ bf "+" ++ moves dst src ++ bf "-"))]
           m m'
      /\ dataPointer m' = src mod memorySize
      /\ read (memory m') (src mod memorySize) = Num 0
      /\ read (memory m') (dst mod memorySize) = Num (x + Z.of_nat n)
      /\ same_except [src mod memorySize; dst mod memorySize] m m'.
Proof.
  intros Hne. induction n as [|n IH]; intros m x Hdp Hsrc Hdst Hx Hxn Hn.
  - exists m. split.
    + apply exec_skip; [|constructor]. unfold at_zero. rewrite Hdp, Hsrc. reflexivity.
    + split; [exact Hdp|]. split; [exact Hsrc|].
      split; [rewrite Hdst; f_equal; lia|apply same_except_refl].
  - set (ma := set_dataPointer (dst mod memorySize) m).
    set (mb := set_cell (add_rem (read (memory ma) (dataPointer ma)) 1 (bits o)) ma).
    set (mc := set_dataPointer (src mod memorySize) mb).
    set (md := set_cell (add_rem (read (memory mc) (dataPointer mc))
                           (-1 + bits o) (bits o)) mc).
    assert (Hbody : exec o (straight (moves src dst ++ bf "+" ++ moves dst src
                                      ++ bf "-")) m md).
    { rewrite !straight_app.
      eapply exec_app; [apply exec_moves, Hdp|].
      eapply exec_app; [apply exec_inc|].
      eapply exec_app; [apply (exec_moves o dst src); reflexivity|].
      apply exec_dec. }
    assert (Hmem : memory md
                   = <[src mod memorySize := Num (Z.of_nat n)]>
                       (<[dst mod memorySize := Num (x + 1)]> (memory m))).
    { unfold md, mc, mb, ma. simpl_machine. reads.
      rewrite Hdst, Hsrc.
      rewrite add_rem_inc by lia. rewrite add_rem_dec by lia.
      do 2 f_equal. lia. }
    destruct (IH md (x + 1)) as (m' & Hex & Hdp' & Hz & H1 & Hsame); try lia.
    + reflexivity.
    + rewrite Hmem. reads. reflexivity.
    + rewrite Hmem. reads. reflexivity.
    + exists m'. split.
      * eapply exec_iter; [|exact Hbody|exact Hex].
        unfold at_zero. rewrite Hdp, Hsrc. apply Z.eqb_neq. lia.
      * split; [exact Hdp'|]. split; [exact Hz|].
        split; [rewrite H1; f_equal; lia|].
        eapply same_except_trans; [|exact Hsame].
        split; [reflexivity|]. split; [reflexivity|].
        intros k Hk. rewrite Hmem.
        rewrite !read_insert_ne; [reflexivity| |];
          intros E; apply Hk; subst k; cbn; auto.
Qed.

(** ** The code of [copy], executed *)

Lemma unparse_copy_prog p cell l1 l2 :
  unparse (copy_prog p cell l1 l2) = copy_code p cell l1 l2.
Proof.
  unfold copy_prog, copy_code.
  repeat first [ rewrite unparse_app | rewrite unparse_straight
               | rewrite unparse_loop ].
  change (unparse []) with (@nil ascii). unfold bf.
  cbn [list_ascii_of_string app].
  repeat (rewrite <- ?app_assoc; cbn [app]). reflexivity.
Qed.

Lemma no_bracket_app a b :
  forallb (fun c => negb (is_bracket c)) a = true ->
  forallb (fun c => negb (is_bracket c)) b = true ->
  forallb (fun c => negb (is_bracket c)) (a ++ b) = true.
Proof. intros Ha Hb. rewrite forallb_app, Ha, Hb. reflexivity. Qed.

Lemma wf_copy_prog p cell l1 l2 : wf_prog (copy_prog p cell l1 l2) = true.
Proof.
  unfold copy_prog. rewrite !wf_prog_app.
  assert (Hloop : forall s,
             forallb (fun c => negb (is_bracket c)) s = true ->
             wf_prog [LoopI (straight s)] = true).
  { intros s Hs. unfold wf_prog. cbn [forallb wf_instr].
    fold (wf_prog (straight s)). rewrite (wf_straight s Hs). reflexivity. }
  rewrite !wf_straight by apply no_bracket_moves.
  rewrite !Hloop; [reflexivity|..];
    repeat first [ apply no_bracket_moves | apply no_bracket_app | reflexivity ].
Qed.

Lemma exec_copy o p cell l1 l2 m v :
  cell mod memorySize <> l1 mod memorySize ->
  cell mod memorySize <> l2 mod memorySize ->
  l1 mod memorySize <> l2 mod memorySize ->
  dataPointer m = p mod memorySize ->
  0 <= v < bits o ->
  read (memory m) (cell mod memorySize) = Num v ->
  read (memory m) (l1 mod memorySize) = Num 0 ->
  read (memory m) (l2 mod memorySize) = Num 0 ->
  exists m',
    exec o (copy_prog p cell l1 l2) m m'
    /\ dataPointer m' = l1 mod memorySize
    /\ read (memory m') (cell mod memorySize) = Num v
    /\ read (memory m') (l2 mod memorySize) = Num v
    /\ read (memory m') (l1 mod memorySize) = Num 0
    /\ same_except [l2 mod memorySize] m m'.
Proof.
  intros Hc1 Hc2 H12 Hdp Hv Hcell Hl1 Hl2.
  set (ma := set_dataPointer (cell mod memorySize) m).
  assert (Hn : Z.of_nat (Z.to_nat v) = v) by lia.
  pose proof (exec_copy_loop1 o cell l1 l2 (Z.to_nat v) Hc1 Hc2 H12 ma 0 0) as Hb.
  rewrite Hn in Hb.
  destruct (Hb eq_refl Hcell Hl1 Hl2 ltac:(lia) ltac:(lia) ltac:(lia) ltac:(lia)
              ltac:(lia))
    as (mb & Hexb & Hdpb & Hbc & Hb1 & Hb2 & Hsb).
  clear Hb. rewrite Z.add_0_l in Hb1, Hb2.
  set (mc := set_dataPointer (l1 mod memorySize) mb).
  pose proof (exec_transfer o l1 cell (Z.to_nat v) (not_eq_sym Hc1) mc 0) as Hd.
  rewrite Hn in Hd.
  destruct (Hd eq_refl Hb1 Hbc ltac:(lia) ltac:(lia) ltac:(lia))
    as (md & Hexd & Hdpd & Hd1 & Hdc & Hsd).
  clear Hd. rewrite Z.add_0_l in Hdc.
  set (me := set_dataPointer (l1 mod memorySize) md).
  destruct (exec_clear o me 0 ltac:(lia) Hd1) as (mf & Hexf & Hdpf & Hf1 & Hsf).
  change (dataPointer me) with (l1 mod memorySize) in Hdpf, Hf1, Hsf.
  destruct Hsb as (Hob & Hib & Hmb).
  destruct Hsd as (Hod & Hid & Hmd).
  destruct Hsf as (Hof & Hif & Hmf).
  cbn [memory output inputPointer set_dataPointer mc me ma] in *.
  assert (Hd2 : read (memory md) (l2 mod memorySize) = Num v).
  { rewrite Hmd; [exact Hb2|]. cbn. intros [E|[E|[]]]; congruence. }
  exists mf. split.
  { unfold copy_prog.
    eapply exec_app; [apply exec_moves, Hdp|].
    eapply exec_app; [exact Hexb|].
    eapply exec_app; [apply (exec_moves o cell l1), Hdpb|].
    eapply exec_app; [exact Hexd|].
    eapply exec_app; [apply (exec_moves o l1 l1), Hdpd|].
    exact Hexf. }
  split; [exact Hdpf|].
  split. { rewrite Hmf; [exact Hdc|]. cbn. intros [E|[]]; congruence. }
  split. { rewrite Hmf; [exact Hd2|]. cbn. intros [E|[]]; congruence. }
  split; [exact Hf1|].
  split; [congruence|]. split; [congruence|].
  intros k Hk.
  destruct (Z.eq_dec k (l1 mod memorySize)) as [->|Hk1].
  { rewrite Hf1, Hl1. reflexivity. }
  rewrite Hmf by (cbn; intros [E|[]]; congruence).
  destruct (Z.eq_dec k (cell mod memorySize)) as [->|Hkc].
  { rewrite Hdc, Hcell. reflexivity. }
  rewrite Hmd by (cbn; intros [E|[E|[]]]; congruence).
  rewrite Hmb; [reflexivity|].
  cbn. intros [E|[E|[E|[]]]]; try congruence. apply Hk. cbn. auto.
Qed.

(** ** The allocator on a map without deleted keys *)

Lemma elem_of_named k m : k ∈ named m <-> is_named (map_get k m) = true.
Proof.
  unfold named. rewrite elem_of_list_to_set, list_elem_of_In, filter_In.
  split; [intros [_ H]; exact H|].
  intros H. split; [|exact H].
  destruct (map_get k m) as [v|] eqn:E; [|discriminate].
  eapply map_get_Some_In, E.
Qed.

Lemma named_occ m : named m ⊆ occ m.
Proof.
  intros k. rewrite elem_of_named, elem_of_occ.
  destruct (map_get k m) as [[| |]|]; cbn; congruence.
Qed.

Lemma named_map_set k v m :
  is_named (Some v) = false -> k ∉ named m -> named (map_set k v m) = named m.
Proof.
  intros Hv Hk. apply set_eq. intros j.
  rewrite !elem_of_named, map_get_map_set.
  destruct (Z.eqb_spec k j) as [->|Hne]; [|reflexivity].
  rewrite elem_of_named in Hk. rewrite Hv.
  split; [discriminate|]. intros H. contradiction.
Qed.

Lemma named_map_set_Named k x t m :
  named (map_set k (Named x t) m) = named m ∪ {[k]}.
Proof.
  apply set_eq. intros j.
  rewrite elem_of_union, elem_of_singleton, !elem_of_named, map_get_map_set.
  destruct (Z.eqb_spec k j) as [->|Hne]; [cbn; tauto|].
  split; [auto|]. intros [H|H]; [exact H|congruence].
Qed.

Lemma map_get_None k m : ~ In k (map fst m) -> map_get k m = None.
Proof.
  induction m as [|[k0 v0] m IH]; cbn; [reflexivity|].
  intros H. destruct (Z.eqb_spec k0 k) as [->|Hne]; [tauto|]. apply IH. tauto.
Qed.

Lemma map_fst_map_set_In k v m :
  In k (map fst m) -> map fst (map_set k v m) = map fst m.
Proof.
  induction m as [|[k0 v0] m IH]; cbn; [tauto|].
  intros H. destruct (Z.eqb_spec k0 k) as [->|Hne]; [reflexivity|].
  cbn. f_equal. apply IH. destruct H; [contradiction|assumption].
Qed.

Lemma map_fst_map_set_notin k v m :
  ~ In k (map fst m) -> map fst (map_set k v m) = map fst m ++ [k].
Proof.
  induction m as [|[k0 v0] m IH]; cbn; [reflexivity|].
  intros H. destruct (Z.eqb_spec k0 k) as [->|Hne]; [tauto|].
  cbn. f_equal. apply IH. tauto.
Qed.

Lemma dense_In m k :
  dense m -> In k (map fst m) <-> 0 <= k < Z.of_nat (length m).
Proof.
  intros H. rewrite H, <- list_elem_of_In, elem_of_seqZ. lia.
Qed.

Lemma dense_occ m k : dense m -> k ∈ occ m -> 0 <= k < Z.of_nat (length m).
Proof.
  intros H Hk. apply (dense_In m k H).
  apply elem_of_occ in Hk.
  destruct (map_get k m) as [v|] eqn:E; [|discriminate].
  eapply map_get_Some_In, E.
Qed.

Lemma dense_map_set m k v :
  dense m -> 0 <= k <= Z.of_nat (length m) ->
  dense (map_set k v m)
  /\ (length m <= length (map_set k v m) <= S (length m))%nat.
Proof.
  intros H Hk. unfold dense.
  assert (Hlen : length (map_set k v m) = length (map fst (map_set k v m)))
    by (rewrite length_map; reflexivity).
  destruct (Z.eq_dec k (Z.of_nat (length m))) as [->|Hne].
  - assert (Hnot : ~ In (Z.of_nat (length m)) (map fst m))
      by (rewrite (dense_In _ _ H); lia).
    rewrite Hlen, (map_fst_map_set_notin _ _ _ Hnot), length_app, length_map.
    cbn [length]. rewrite Nat.add_1_r, seqZ_S, <- H. split; [reflexivity|lia].
  - assert (Hin : In k (map fst m)) by (rewrite (dense_In _ _ H); lia).
    rewrite Hlen, (map_fst_map_set_In _ _ _ Hin), length_map.
    split; [exact H|lia].
Qed.

Lemma findEmptyLocation_loop_spec m :
  forall s,
    map fst m = seqZ s (Z.of_nat (length m)) ->
    let r := findEmptyLocation_loop (s - 1) m in
    s <= r <= s + Z.of_nat (length m)
    /\ is_occupied (map_get r m) = false.
Proof.
  induction m as [|[k u] m IH]; intros s Hkeys.
  - cbn. split; [lia|reflexivity].
  - rewrite seqZ_cons in Hkeys by (cbn [length]; lia).
    cbn [map fst] in Hkeys. injection Hkeys as -> Hrest.
    cbn [length] in Hrest.
    replace (Z.pred (Z.of_nat (S (length m)))) with (Z.of_nat (length m))
      in Hrest by lia.
    specialize (IH (Z.succ s) Hrest).
    replace (Z.succ s - 1) with s in IH by lia.
    cbn zeta in IH. destruct IH as [Hr Hocc].
    assert (Hnext : s <= findEmptyLocation_loop s m <= s + Z.of_nat (length ((s, u) :: m))
                    /\ is_occupied (map_get (findEmptyLocation_loop s m) ((s, u) :: m))
                       = false).
    { split; [cbn [length]; lia|].
      cbn [map_get]. destruct (Z.eqb_spec s (findEmptyLocation_loop s m)); [lia|].
      exact Hocc. }
    cbn zeta. cbn [findEmptyLocation_loop].
    destruct u; try exact Hnext.
    split; [cbn [length]; lia|]. cbn [map_get]. rewrite Z.eqb_refl. reflexivity.
Qed.

Lemma findEmptyLocation_of_spec m :
  dense m ->
  0 <= findEmptyLocation_of m <= Z.of_nat (length m)
  /\ findEmptyLocation_of m ∉ occ m.
Proof.
  intros H. destruct (findEmptyLocation_loop_spec m 0 H) as [Hr Hocc].
  unfold findEmptyLocation_of. change (-1) with (0 - 1).
  split; [lia|]. rewrite elem_of_occ, Hocc. discriminate.
Qed.

Lemma findVariableLocation_of_named name i m loc :
  NoDup (map fst m) ->
  findVariableLocation_of name i m = Some loc -> loc ∈ named m.
Proof.
  rewrite elem_of_named.
  induction m as [|[k u] m IH]; cbn [findVariableLocation_of map fst];
    [discriminate|].
  intros Hnd Hfind. apply NoDup_cons in Hnd as [Hk Hnd].
  assert (Hrest : findVariableLocation_of name i m = Some loc ->
                  is_named (map_get loc ((k, u) :: m)) = true).
  { intros H. specialize (IH Hnd H). cbn [map_get].
    destruct (Z.eqb_spec k loc) as [->|Hne]; [|exact IH].
    exfalso. apply Hk. apply list_elem_of_In.
    destruct (map_get loc m) as [v|] eqn:E; [|discriminate].
    eapply map_get_Some_In, E. }
  destruct u as [[n j] t| |]; try (apply Hrest, Hfind).
  destruct (String.eqb n name && (j =? i))%bool; [|apply Hrest, Hfind].
  injection Hfind as <-. cbn [map_get]. rewrite Z.eqb_refl. reflexivity.
Qed.

Lemma dense_NoDup m : dense m -> NoDup (map fst m).
Proof. intros H. rewrite H. apply NoDup_seqZ. Qed.

Lemma mod_small_cell k n :
  0 <= k < n -> n <= memorySize -> k mod memorySize = k.
Proof. intros Hk Hn. apply Z.mod_small. lia. Qed.

(** ** Segments of emitted code, run by the executor *)

Lemma runs_app o a b m m1 m2 :
  runs o a m m1 -> runs o b m1 m2 -> runs o (a ++ b) m m2.
Proof.
  intros Ha Hb before after.
  destruct (Ha before (b ++ after)) as [n1 H1].
  destruct (Hb (rev a ++ before) after) as [n2 H2].
  exists (n1 + n2)%nat. rewrite <- app_assoc.
  rewrite (steps_add _ _ _ _ _ _ _ _ _ H1), H2.
  rewrite rev_app_distr, <- app_assoc. reflexivity.
Qed.

Lemma unparse_loop_straight s :
  unparse [LoopI (straight s)] = bf "[" ++ s ++ bf "]".
Proof.
  rewrite unparse_loop, unparse_straight. reflexivity.
Qed.

Lemma wf_loop_straight s :
  forallb (fun c => negb (is_bracket c)) s = true ->
  wf_prog [LoopI (straight s)] = true.
Proof.
  intros Hs. unfold wf_prog. cbn [forallb wf_instr].
  fold (wf_prog (straight s)). rewrite (wf_straight s Hs). reflexivity.
Qed.

Lemma runs_moves o p q m :
  dataPointer m = p mod memorySize ->
  runs o (moves p q) m (set_dataPointer (q mod memorySize) m).
Proof.
  intros Hdp. rewrite <- (unparse_straight (moves p q)).
  apply exec_runs; [apply wf_straight, no_bracket_moves|].
  apply exec_moves, Hdp.
Qed.

Lemma runs_clear o m z :
  0 < bits o ->
  read (memory m) (dataPointer m) = Num z ->
  exists m',
    runs o (bf "[-]") m m'
    /\ dataPointer m' = dataPointer m
    /\ read (memory m') (dataPointer m) = Num 0
    /\ same_except [dataPointer m] m m'.
Proof.
  intros Hb Hz. destruct (exec_clear o m z Hb Hz) as (m' & Hex & H).
  exists m'. split; [|exact H].
  change (bf "[-]") with (bf "[" ++ bf "-" ++ bf "]").
  rewrite <- unparse_loop_straight.
  apply exec_runs; [reflexivity|exact Hex].
Qed.

Lemma runs_transfer o src dst m v :
  src mod memorySize <> dst mod memorySize ->
  dataPointer m = src mod memorySize ->
  0 <= v < bits o ->
  read (memory m) (src mod memorySize) = Num v ->
  read (memory m) (dst mod memorySize) = Num 0 ->
  exists m',
    runs o (bf "[" ++ moves src dst ++ bf "+" ++ moves dst src ++ bf "-" ++ bf "]")
         m m'
    /\ dataPointer m' = src mod memorySize
    /\ read (memory m') (src mod memorySize) = Num 0
    /\ read (memory m') (dst mod memorySize) = Num v
    /\ same_except [src mod memorySize; dst mod memorySize] m m'.
Proof.
  intros Hne Hdp Hv Hsrc Hdst.
  assert (Hn : Z.of_nat (Z.to_nat v) = v) by lia.
  pose proof (exec_transfer o src dst (Z.to_nat v) Hne m 0) as H.
  rewrite Hn in H.
  destruct (H Hdp Hsrc Hdst ltac:(lia) ltac:(lia) ltac:(lia))
    as (m' & Hex & Hdp' & Hs & Hd & Hsame).
  rewrite Z.add_0_l in Hd.
  exists m'. split; [|auto].
  replace (bf "[" ++ moves src dst ++ bf "+" ++ moves dst src ++ bf "-" ++ bf "]")
    with (unparse [LoopI (straight (moves src dst ++ bf "+" ++ moves dst src
                                    ++ bf "-"))])
    by (rewrite unparse_loop_straight, <- !app_assoc; reflexivity).
  apply exec_runs; [|exact Hex].
  apply wf_loop_straight.
  repeat first [ apply no_bracket_moves | apply no_bracket_app | reflexivity ].
Qed.

(** The two cells [copy] takes from the allocator are new and distinct. *)
Lemma copy_locations m :
  dense m ->
  let l1 := copy_location1 m in
  let l2 := copy_location2 m in
  0 <= l1 <= Z.of_nat (length m)
  /\ 0 <= l2 <= Z.of_nat (length m) + 1
  /\ (l1 ∉ occ m) /\ (l2 ∉ occ m) /\ l1 <> l2.
Proof.
  intros H. cbv zeta. unfold copy_location2, copy_location1.
  destruct (findEmptyLocation_of_spec m H) as [Hr1 Ho1].
  set (l1 := findEmptyLocation_of m) in *.
  destruct (dense_map_set m l1 Temporary H Hr1) as [Hd1 Hlen].
  destruct (findEmptyLocation_of_spec _ Hd1) as [Hr2 Ho2].
  set (l2 := findEmptyLocation_of (map_set l1 Temporary m)) in *.
  rewrite occ_map_set_Temporary in Ho2.
  split; [exact Hr1|]. split; [lia|]. split; [exact Ho1|].
  split; set_solver.
Qed.

Lemma runs_copy o st cell m v :
  dense (memoryUsage st) ->
  Z.of_nat (length (memoryUsage st)) + 2 <= memorySize ->
  cell ∈ occ (memoryUsage st) ->
  dataPointer m = pointerLocation st mod memorySize ->
  0 <= v < bits o ->
  read (memory m) cell = Num v ->
  read (memory m) (copy_location1 (memoryUsage st)) = Num 0 ->
  read (memory m) (copy_location2 (memoryUsage st)) = Num 0 ->
  exists m',
    runs o (copy_code (pointerLocation st) cell
              (copy_location1 (memoryUsage st)) (copy_location2 (memoryUsage st)))
         m m'
    /\ dataPointer m' = copy_location1 (memoryUsage st)
    /\ read (memory m') cell = Num v
    /\ read (memory m') (copy_location2 (memoryUsage st)) = Num v
    /\ read (memory m') (copy_location1 (memoryUsage st)) = Num 0
    /\ same_except [copy_location2 (memoryUsage st)] m m'.
Proof.
  intros Hd Hlen Hcell Hdp Hv Hrc Hr1 Hr2.
  destruct (copy_locations _ Hd) as (H1 & H2 & Ho1 & Ho2 & H12).
  pose proof (dense_occ _ _ Hd Hcell) as Hc.
  set (l1 := copy_location1 (memoryUsage st)) in *.
  set (l2 := copy_location2 (memoryUsage st)) in *.
  assert (Ec : cell mod memorySize = cell) by (apply Z.mod_small; lia).
  assert (E1 : l1 mod memorySize = l1) by (apply Z.mod_small; lia).
  assert (E2 : l2 mod memorySize = l2) by (apply Z.mod_small; lia).
  destruct (exec_copy o (pointerLocation st) cell l1 l2 m v)
    as (m' & Hex & H); rewrite ?Ec, ?E1, ?E2; try assumption.
  - intros ->. contradiction.
  - intros ->. contradiction.
  - rewrite Ec, E1, E2 in H. exists m'. split; [|exact H].
    rewrite <- unparse_copy_prog. apply exec_runs; [apply wf_copy_prog|exact Hex].
Qed.

(** ** Assignment of a variable to a variable *)

Lemma assign_variable_eq compile_rec a i b j cell target st :
  findVariableLocation_of a i (memoryUsage st) = Some cell ->
  findVariableLocation_of b j (memoryUsage st) = Some target ->
  let l1 := copy_location1 (memoryUsage st) in
  let l2 := copy_location2 (memoryUsage st) in
  compileToken compile_rec
    (Assign b (IndexNumber j) (VariableRef a (IndexNumber i))) st
  = Ok (tt,
        {| brainfuckCode :=
             brainfuckCode st
             ++ assign_code (pointerLocation st) target cell l1 l2;
           memoryUsage :=
             map_set l1 Freed
               (map_set l2 Temporary (map_set l1 Temporary (memoryUsage st)));
           variables := variables st;
           pointerLocation := l2;
           functions := functions st;
           unsafePointerLocation := unsafePointerLocation st |}).
Proof.
  intros Ha Hb l1 l2. unfold compileToken.
  run_prim. rewrite Hb.
  do 2 run_prim.
  run_prim. rewrite Ha.
  run_prim. run_copy.
  do 6 run_prim.
  rewrite emit_eq. apply Ok_eq. apply state_eq; simpl_state; try reflexivity.
  unfold assign_code. fold l1. fold l2. rewrite <- !app_assoc. reflexivity.
Qed.

Lemma runs_assign o st cell target m v w :
  dense (memoryUsage st) ->
  Z.of_nat (length (memoryUsage st)) + 2 <= memorySize ->
  cell ∈ occ (memoryUsage st) ->
  target ∈ occ (memoryUsage st) ->
  target <> cell ->
  dataPointer m = pointerLocation st mod memorySize ->
  0 <= v < bits o ->
  read (memory m) cell = Num v ->
  read (memory m) target = Num w ->
  read (memory m) (copy_location1 (memoryUsage st)) = Num 0 ->
  read (memory m) (copy_location2 (memoryUsage st)) = Num 0 ->
  exists m',
    runs o (assign_code (pointerLocation st) target cell
              (copy_location1 (memoryUsage st)) (copy_location2 (memoryUsage st)))
         m m'
    /\ dataPointer m' = copy_location2 (memoryUsage st)
    /\ read (memory m') cell = Num v
    /\ read (memory m') target = Num v
    /\ same_except [target] m m'.
Proof.
  intros Hd Hlen Hcell Htgt Hne Hdp Hv Hrc Hrt Hr1 Hr2.
  destruct (copy_locations _ Hd) as (H1 & H2 & Ho1 & Ho2 & H12).
  pose proof (dense_occ _ _ Hd Hcell) as Hc.
  pose proof (dense_occ _ _ Hd Htgt) as Ht.
  set (l1 := copy_location1 (memoryUsage st)) in *.
  set (l2 := copy_location2 (memoryUsage st)) in *.
  assert (Ec : cell mod memorySize = cell) by (apply Z.mod_small; lia).
  assert (Et : target mod memorySize = target) by (apply Z.mod_small; lia).
  assert (E1 : l1 mod memorySize = l1) by (apply Z.mod_small; lia).
  assert (E2 : l2 mod memorySize = l2) by (apply Z.mod_small; lia).
  assert (Ht1 : target <> l1) by (intros ->; contradiction).
  assert (Ht2 : target <> l2) by (intros ->; contradiction).
  assert (Hc1 : cell <> l1) by (intros ->; contradiction).
  assert (Hc2 : cell <> l2) by (intros ->; contradiction).
  (* to the target, which is cleared *)
  pose proof (runs_moves o (pointerLocation st) target m Hdp) as Ra.
  rewrite Et in Ra. set (ma := set_dataPointer target m) in *.
  destruct (runs_clear o ma w ltac:(lia) Hrt) as (mb & Rb & Hdpb & Hbt & Hsb).
  change (dataPointer ma) with target in Hdpb, Hbt, Hsb.
  destruct Hsb as (Hob & Hib & Hmb).
  (* to the source, which is copied *)
  pose proof (runs_moves o target cell mb ltac:(rewrite Et; exact Hdpb)) as Rc.
  rewrite Ec in Rc. set (mc := set_dataPointer cell mb) in *.
  set (st2 := set_pointerLocation cell st).
  destruct (runs_copy o st2 cell mc v Hd Hlen Hcell) as
    (md & Rd & Hdpd & Hdc & Hd2 & Hd1 & Hsd).
  { exact (eq_sym Ec). }
  { exact Hv. }
  { change (read (memory mb) cell = Num v).
    rewrite Hmb; [exact Hrc|]. intros [E|[]]. lia. }
  { change (read (memory mb) l1 = Num 0).
    rewrite Hmb; [exact Hr1|]. intros [E|[]]. lia. }
  { change (read (memory mb) l2 = Num 0).
    rewrite Hmb; [exact Hr2|]. intros [E|[]]. lia. }
  change (memoryUsage st2) with (memoryUsage st) in *.
  change (pointerLocation st2) with cell in *.
  fold l1 in Rd, Hdpd, Hd1. fold l2 in Rd, Hd2, Hsd.
  destruct Hsd as (Hod & Hid & Hmd).
  (* the copy is moved into the target *)
  pose proof (runs_moves o l1 l2 md ltac:(rewrite E1; exact Hdpd)) as Re.
  rewrite E2 in Re. set (me := set_dataPointer l2 md) in *.
  destruct (runs_transfer o l2 target me v) as (mf & Rf & Hdpf & Hf2 & Hft & Hsf).
  { rewrite E2, Et. lia. }
  { rewrite E2. reflexivity. }
  { exact Hv. }
  { rewrite E2. exact Hd2. }
  { rewrite Et. change (read (memory md) target = Num 0).
    rewrite Hmd by (intros [E|[]]; lia). exact Hbt. }
  rewrite E2 in Hf2, Hdpf. rewrite Et in Hft. rewrite E2, Et in Hsf.
  destruct Hsf as (Hof & Hif & Hmf).
  exists mf. split.
  { unfold assign_code.
    eapply runs_app; [exact Ra|].
    eapply runs_app; [exact Rb|].
    eapply runs_app; [exact Rc|].
    eapply runs_app; [exact Rd|].
    eapply runs_app; [exact Re|]. exact Rf. }
  split; [exact Hdpf|].
  split.
  { rewrite Hmf by (intros [E|[E|[]]]; lia). exact Hdc. }
  split; [exact Hft|].
  split.
  { rewrite Hof. change (output md = output m).
    rewrite Hod. change (output mb = output m). rewrite Hob. reflexivity. }
  split.
  { rewrite Hif. change (inputPointer md = inputPointer m).
    rewrite Hid. change (inputPointer mb = inputPointer m).
    rewrite Hib. reflexivity. }
  intros k Hk.
  assert (Hkt : k <> target) by (intros ->; apply Hk; cbn; auto).
  destruct (Z.eq_dec k l2) as [->|Hk2].
  { rewrite Hf2, Hr2. reflexivity. }
  rewrite Hmf by (intros [E|[E|[]]]; lia).
  change (read (memory md) k = read (memory m) k).
  rewrite Hmd by (intros [E|[]]; lia).
  apply Hmb. intros [E|[]]. lia.
Qed.

(** [copy] where its two cells start at 0.  Let the allocator map have no
    deleted key and at most 29998 entries, let [cell] be an occupied
    address whose tape cell holds [v] with [0 <= v < bits], let the tape
    pointer be where the compiler tracks it, and let the two cells the
    allocator hands to [copy] hold 0.  Then [copy] returns an address that
    was not occupied; the text it emits runs from [m] to a machine in which
    that cell and the source both hold [v] and no other cell differs from
    [m].  Consequently the assignment [set b a] of a variable cell [a] to a
    different variable cell [b], whatever number [b] held, runs to a
    machine in which both hold [v] and no cell but [b]'s differs from
    [m]. *)
Lemma copy_with_zero_scratch o st cell m v :
  dense (memoryUsage st) ->
  Z.of_nat (length (memoryUsage st)) + 2 <= memorySize ->
  cell ∈ occ (memoryUsage st) ->
  dataPointer m = pointerLocation st mod memorySize ->
  0 <= v < bits o ->
  read (memory m) cell = Num v ->
  read (memory m) (copy_location1 (memoryUsage st)) = Num 0 ->
  read (memory m) (copy_location2 (memoryUsage st)) = Num 0 ->
  (exists l2 st' seg m',
     copy cell st = Ok (l2, st')
     /\ (l2 ∉ occ (memoryUsage st))
     /\ brainfuckCode st' = brainfuckCode st ++ seg
     /\ runs o seg m m'
     /\ dataPointer m' = pointerLocation st' mod memorySize
     /\ read (memory m') l2 = Num v
     /\ read (memory m') cell = Num v
     /\ same_except [l2] m m')
  /\ (forall compile_rec a i b j target w,
        findVariableLocation_of a i (memoryUsage st) = Some cell ->
        findVariableLocation_of b j (memoryUsage st) = Some target ->
        target <> cell ->
        read (memory m) target = Num w ->
        exists st' seg m',
          compileToken compile_rec
            (Assign b (IndexNumber j) (VariableRef a (IndexNumber i))) st
          = Ok (tt, st')
          /\ brainfuckCode st' = brainfuckCode st ++ seg
          /\ runs o seg m m'
          /\ dataPointer m' = pointerLocation st' mod memorySize
          /\ read (memory m') cell = Num v
          /\ read (memory m') target = Num v
          /\ same_except [target] m m').
Proof.
  intros Hd Hlen Hcell Hdp Hv Hrc Hr1 Hr2.
  destruct (copy_locations _ Hd) as (H1 & H2 & Ho1 & Ho2 & H12).
  split.
  - destruct (runs_copy o st cell m v Hd Hlen Hcell Hdp Hv Hrc Hr1 Hr2)
      as (m' & R & Hdp' & Hc & Hl2 & _ & Hs).
    eexists _, _, _, m'. split; [apply copy_eq|]. simpl_state.
    split; [exact Ho2|]. split; [reflexivity|]. split; [exact R|].
    split; [rewrite Z.mod_small by lia; exact Hdp'|]. auto.
  - intros compile_rec a i b j target w Ha Hb Hne Hrt.
    assert (Htgt : target ∈ occ (memoryUsage st)).
    { apply named_occ.
      eapply findVariableLocation_of_named; [apply dense_NoDup, Hd|exact Hb]. }
    destruct (runs_assign o st cell target m v w Hd Hlen Hcell Htgt Hne Hdp Hv
                Hrc Hrt Hr1 Hr2) as (m' & R & Hdp' & Hc & Ht & Hs).
    eexists _, _, m'. split; [apply (assign_variable_eq _ _ _ _ _ _ _ _ Ha Hb)|].
    simpl_state. split; [reflexivity|]. split; [exact R|].
    split; [rewrite Z.mod_small by lia; exact Hdp'|]. auto.
Qed.

Lemma copy_with_zero_scratch_instance :
  let st := state_after two_variables in
  let m := machine_after two_variables (options_of_bits 16) in
  (exists l2 st' seg m',
     copy 0 st = Ok (l2, st')
     /\ (l2 ∉ occ (memoryUsage st))
     /\ brainfuckCode st' = brainfuckCode st ++ seg
     /\ runs (options_of_bits 16) seg m m'
     /\ dataPointer m' = pointerLocation st' mod memorySize
     /\ read (memory m') l2 = Num 3
     /\ read (memory m') 0 = Num 3
     /\ same_except [l2] m m')
  /\ (forall compile_rec a i b j target w,
        findVariableLocation_of a i (memoryUsage st) = Some 0 ->
        findVariableLocation_of b j (memoryUsage st) = Some target ->
        target <> 0 ->
        read (memory m) target = Num w ->
        exists st' seg m',
          compileToken compile_rec
            (Assign b (IndexNumber j) (VariableRef a (IndexNumber i))) st
          = Ok (tt, st')
          /\ brainfuckCode st' = brainfuckCode st ++ seg
          /\ runs (options_of_bits 16) seg m m'
          /\ dataPointer m' = pointerLocation st' mod memorySize
          /\ read (memory m') 0 = Num 3
          /\ read (memory m') target = Num 3
          /\ same_except [target] m m').
Proof.
  intros st m.
  apply (copy_with_zero_scratch (options_of_bits 16) st 0 m 3).
  - vm_compute. reflexivity.
  - vm_compute. discriminate.
  - apply elem_of_occ. vm_compute. reflexivity.
  - vm_compute. reflexivity.
  - vm_compute. split; [discriminate|reflexivity].
  - vm_compute. reflexivity.
  - vm_compute. reflexivity.
  - vm_compute. reflexivity.
Qed.

(** ** The analysis on the texts the compiler emits *)

Lemma ascan_repeat_right n p d k :
  ascan (List.repeat ">"%char n) {| apos := p; adirty := d; astack := k |}
  = Some {| apos := p + Z.of_nat n; adirty := d; astack := k |}.
Proof.
  revert p. induction n as [|n IH]; intros p.
  - cbn. rewrite Z.add_0_r. reflexivity.
  - cbn [List.repeat ascan]. change (ascan_char ">" {| apos := p; adirty := d; astack := k |})
      with (Some {| apos := p + 1; adirty := d; astack := k |}).
    cbv beta iota. rewrite IH. do 2 f_equal. lia.
Qed.

Lemma ascan_repeat_left n p d k :
  ascan (List.repeat "<"%char n) {| apos := p; adirty := d; astack := k |}
  = Some {| apos := p - Z.of_nat n; adirty := d; astack := k |}.
Proof.
  revert p. induction n as [|n IH]; intros p.
  - cbn. rewrite Z.sub_0_r. reflexivity.
  - cbn [List.repeat ascan]. change (ascan_char "<" {| apos := p; adirty := d; astack := k |})
      with (Some {| apos := p - 1; adirty := d; astack := k |}).
    cbv beta iota. rewrite IH. do 2 f_equal. lia.
Qed.

Lemma ascan_moves p q d k :
  ascan (moves p q) {| apos := p; adirty := d; astack := k |}
  = Some {| apos := q; adirty := d; astack := k |}.
Proof.
  unfold moves, repeat_char. rewrite ascan_app, ascan_repeat_right, ascan_repeat_left.
  do 2 f_equal. lia.
Qed.

Lemma ascan_repeat_dirty c n p d k :
  (Ascii.eqb c "+" || Ascii.eqb c "-")%bool = true ->
  exists d',
    ascan (List.repeat c n) {| apos := p; adirty := d; astack := k |}
    = Some {| apos := p; adirty := d'; astack := k |}
    /\ d ⊆ d' /\ d' ⊆ d ∪ {[p]}.
Proof.
  intros Hc.
  assert (Hstep : forall d0,
    ascan_char c {| apos := p; adirty := d0; astack := k |}
    = Some {| apos := p; adirty := d0 ∪ {[p]}; astack := k |}).
  { intros d0. unfold ascan_char.
    destruct (Ascii.eqb_spec c ">") as [->|_]; [discriminate|].
    destruct (Ascii.eqb_spec c "<") as [->|_]; [discriminate|].
    destruct (Ascii.eqb_spec c "+") as [->|_]; [reflexivity|].
    destruct (Ascii.eqb_spec c "-") as [->|_]; [reflexivity|].
    discriminate. }
  revert d. induction n as [|n IH]; intros d.
  - exists d. split; [reflexivity|]. set_solver.
  - cbn [List.repeat ascan]. rewrite Hstep.
    destruct (IH (d ∪ {[p]})) as (d' & E & H1 & H2).
    exists d'. split; [exact E|]. set_solver.
Qed.

Lemma ascan_open p d k :
  ascan (bf "[") {| apos := p; adirty := d; astack := k |}
  = Some {| apos := p; adirty := ∅; astack := (p, d) :: k |}.
Proof. reflexivity. Qed.

Lemma ascan_close p d d0 k :
  ascan (bf "]") {| apos := p; adirty := d; astack := (p, d0) :: k |}
  = Some {| apos := p; adirty := (d0 ∪ d) ∖ {[p]}; astack := k |}.
Proof.
  cbn. unfold ascan_char. cbn. rewrite Z.eqb_refl. reflexivity.
Qed.

Lemma ascan_dirty s p d k :
  s = bf "+" \/ s = bf "-" \/ s = bf "," ->
  ascan s {| apos := p; adirty := d; astack := k |}
  = Some {| apos := p; adirty := d ∪ {[p]}; astack := k |}.
Proof. intros [->|[->| ->]]; reflexivity. Qed.

Lemma ascan_output s p d k :
  s = bf "." \/ s = bf "~" ->
  ascan s {| apos := p; adirty := d; astack := k |}
  = Some {| apos := p; adirty := d; astack := k |}.
Proof. intros [->| ->]; reflexivity. Qed.

Lemma ascan_clear p d k :
  ascan (bf "[-]") {| apos := p; adirty := d; astack := k |}
  = Some {| apos := p; adirty := (d ∪ (∅ ∪ {[p]})) ∖ {[p]}; astack := k |}.
Proof.
  change (bf "[-]") with (bf "[" ++ bf "-" ++ bf "]").
  rewrite ascan_app, ascan_open, ascan_app, (ascan_dirty (bf "-")) by auto.
  apply ascan_close.
Qed.

Lemma ascan_setValue value p d k :
  exists d',
    ascan (setValue_code value) {| apos := p; adirty := d; astack := k |}
    = Some {| apos := p; adirty := d'; astack := k |}
    /\ d' ⊆ d ∪ {[p]}.
Proof.
  unfold setValue_code. rewrite ascan_app, ascan_clear.
  set (d1 := (d ∪ (∅ ∪ {[p]})) ∖ {[p]}).
  assert (Hd1 : d1 ⊆ d ∪ {[p]}) by set_solver.
  assert (Hnil : exists d',
    ascan [] {| apos := p; adirty := d1; astack := k |}
    = Some {| apos := p; adirty := d'; astack := k |} /\ d' ⊆ d ∪ {[p]})
    by (exists d1; split; [reflexivity|exact Hd1]).
  assert (Hrep : forall c n,
    (Ascii.eqb c "+" || Ascii.eqb c "-")%bool = true ->
    exists d',
      ascan (repeat_char c n) {| apos := p; adirty := d1; astack := k |}
      = Some {| apos := p; adirty := d'; astack := k |} /\ d' ⊆ d ∪ {[p]}).
  { intros c n Hc.
    destruct (ascan_repeat_dirty c (Z.to_nat n) p d1 k Hc) as (d' & E & _ & H2).
    exists d'. split; [exact E|]. set_solver. }
  destruct value as [n|s|b].
  - destruct (0 <? n); [apply Hrep; reflexivity|].
    destruct (n <? 0); [apply Hrep; reflexivity|exact Hnil].
  - destruct (charCodeAt0 s) as [code|]; [|exact Hnil].
    destruct (0 <? code); [apply Hrep; reflexivity|exact Hnil].
  - destruct b; [|exact Hnil].
    exists (d1 ∪ {[p]}). split; [reflexivity|]. set_solver.
Qed.

Lemma stack_le_refl k : stack_le k k.
Proof. induction k as [|e k IH]; constructor; [split; [reflexivity|set_solver]|exact IH]. Qed.

(** ** The invariant, step by step *)

Section Invariant.

Variables (c0 : list ascii) (s0 : astate).
Variables (V : gmap string varinfo) (N : gset Z).

Lemma covered_step st st' code D K D' K' :
  covered c0 s0 st D K ->
  brainfuckCode st' = brainfuckCode st ++ code ->
  (forall d k, d ⊆ D -> stack_le k K ->
     exists d' k',
       ascan code {| apos := pointerLocation st; adirty := d; astack := k |}
       = Some {| apos := pointerLocation st'; adirty := d'; astack := k' |}
       /\ d' ⊆ D' /\ stack_le k' K') ->
  covered c0 s0 st' D' K'.
Proof.
  intros (delta & d & k & Hc & Hs & Hd & Hk) Hcode Hstep.
  destruct (Hstep d k Hd Hk) as (d' & k' & E & Hd' & Hk').
  exists (delta ++ code), d', k'.
  split; [rewrite Hcode, Hc, app_assoc; reflexivity|].
  split; [rewrite ascan_app, Hs; exact E|]. auto.
Qed.

Lemma sstate_step st st' code p p' D K D' K' Oc :
  sstate c0 s0 V N st p D K Oc ->
  brainfuckCode st' = brainfuckCode st ++ code ->
  pointerLocation st' = p' ->
  memoryUsage st' = memoryUsage st ->
  variables st' = variables st ->
  (forall d k, d ⊆ D -> stack_le k K ->
     exists d' k',
       ascan code {| apos := p; adirty := d; astack := k |}
       = Some {| apos := p'; adirty := d'; astack := k' |}
       /\ d' ⊆ D' /\ stack_le k' K') ->
  sstate c0 s0 V N st' p' D' K' Oc.
Proof.
  intros (Hd & Hc & Hp & Ho & Hn & Hv) Hcode Hp' Hm Hv' Hstep.
  unfold sstate. rewrite Hm, Hv'.
  split; [exact Hd|]. split; [|auto].
  eapply covered_step; [exact Hc|exact Hcode|]. rewrite Hp, Hp'. exact Hstep.
Qed.

Lemma sstate_weaken st p D D' K Oc :
  D ⊆ D' -> sstate c0 s0 V N st p D K Oc -> sstate c0 s0 V N st p D' K Oc.
Proof.
  intros HD H. eapply (sstate_step st st [] p p D K D' K Oc H);
    [rewrite app_nil_r; reflexivity|apply H|reflexivity|reflexivity|].
  intros d k Hd Hk. exists d, k. split; [reflexivity|]. split; [set_solver|exact Hk].
Qed.

Lemma sstate_named_occ st p D K Oc :
  sstate c0 s0 V N st p D K Oc -> N ⊆ Oc.
Proof. intros (_ & _ & _ & <- & <- & _). apply named_occ. Qed.

Lemma wp_moveTo q st p D K Oc (Q : unit -> cstate -> Prop) :
  sstate c0 s0 V N st p D K Oc ->
  (forall st', sstate c0 s0 V N st' q D K Oc -> Q tt st') ->
  wp (moveTo q) Q st.
Proof.
  intros H HQ. eapply wp_eq; [apply moveTo_eq|]. apply HQ.
  eapply (sstate_step _ _ (moves (pointerLocation st) q) _ _ _ _ _ _ _ H);
    try reflexivity.
  intros d k Hd Hk. exists d, k.
  destruct H as (_ & _ & <- & _). rewrite ascan_moves. auto.
Qed.

(** A text that leaves the pointer where it is. *)
Lemma wp_emit s st p D K D' K' Oc (Q : unit -> cstate -> Prop) :
  sstate c0 s0 V N st p D K Oc ->
  (forall d k, d ⊆ D -> stack_le k K ->
     exists d' k',
       ascan s {| apos := p; adirty := d; astack := k |}
       = Some {| apos := p; adirty := d'; astack := k' |}
       /\ d' ⊆ D' /\ stack_le k' K') ->
  (forall st', sstate c0 s0 V N st' p D' K' Oc -> Q tt st') ->
  wp (emit s) Q st.
Proof.
  intros H Hs HQ. eapply wp_eq; [apply emit_eq|]. apply HQ.
  eapply (sstate_step _ _ s _ _ _ _ _ _ _ H); try reflexivity; [apply H|exact Hs].
Qed.

Lemma wp_emit_dirty s st p D K Oc (Q : unit -> cstate -> Prop) :
  s = bf "+" \/ s = bf "-" \/ s = bf "," ->
  sstate c0 s0 V N st p D K Oc ->
  (forall st', sstate c0 s0 V N st' p (D ∪ {[p]}) K Oc -> Q tt st') ->
  wp (emit s) Q st.
Proof.
  intros Hs H. apply (wp_emit _ _ _ _ _ _ _ _ _ H).
  intros d k Hd Hk. exists (d ∪ {[p]}), k. rewrite (ascan_dirty s) by exact Hs.
  split; [reflexivity|]. split; [set_solver|exact Hk].
Qed.

Lemma wp_emit_output s st p D K Oc (Q : unit -> cstate -> Prop) :
  s = bf "." \/ s = bf "~" ->
  sstate c0 s0 V N st p D K Oc ->
  (forall st', sstate c0 s0 V N st' p D K Oc -> Q tt st') ->
  wp (emit s) Q st.
Proof.
  intros Hs H. apply (wp_emit _ _ _ _ _ _ _ _ _ H).
  intros d k Hd Hk. exists d, k. rewrite (ascan_output s) by exact Hs. auto.
Qed.

Lemma wp_emit_open st p D K Oc (Q : unit -> cstate -> Prop) :
  sstate c0 s0 V N st p D K Oc ->
  (forall st', sstate c0 s0 V N st' p ∅ ((p, D) :: K) Oc -> Q tt st') ->
  wp (emit (bf "[")) Q st.
Proof.
  intros H. apply (wp_emit _ _ _ _ _ _ _ _ _ H).
  intros d k Hd Hk. exists ∅, ((p, d) :: k). rewrite ascan_open.
  split; [reflexivity|]. split; [set_solver|].
  constructor; [split; [reflexivity|exact Hd]|exact Hk].
Qed.

Lemma wp_emit_close st p D D0 K Oc (Q : unit -> cstate -> Prop) :
  sstate c0 s0 V N st p D ((p, D0) :: K) Oc ->
  (forall st', sstate c0 s0 V N st' p ((D0 ∪ D) ∖ {[p]}) K Oc -> Q tt st') ->
  wp (emit (bf "]")) Q st.
Proof.
  intros H. apply (wp_emit _ _ _ _ _ _ _ _ _ H).
  intros d k Hd Hk. inversion Hk as [|[p1 d1] e' k1 K1 [Hp Hd1] Hk1]; subst.
  cbn in Hp, Hd1. subst p1.
  exists ((d1 ∪ d) ∖ {[p]}), k1. rewrite ascan_close.
  split; [reflexivity|]. split; [set_solver|exact Hk1].
Qed.

Lemma wp_emit_clear st p D K Oc (Q : unit -> cstate -> Prop) :
  sstate c0 s0 V N st p D K Oc ->
  (forall st', sstate c0 s0 V N st' p (D ∖ {[p]}) K Oc -> Q tt st') ->
  wp (emit (bf "[-]")) Q st.
Proof.
  intros H. apply (wp_emit _ _ _ _ _ _ _ _ _ H).
  intros d k Hd Hk. eexists _, k. rewrite ascan_clear.
  split; [reflexivity|]. split; [set_solver|exact Hk].
Qed.

Lemma wp_clearCell st p D K Oc (Q : unit -> cstate -> Prop) :
  sstate c0 s0 V N st p D K Oc ->
  (forall st', sstate c0 s0 V N st' p (D ∖ {[p]}) K Oc -> Q tt st') ->
  wp clearCell Q st.
Proof. apply wp_emit_clear. Qed.

Lemma wp_emit_max st p D K Oc (Q : unit -> cstate -> Prop) :
  sstate c0 s0 V N st p D K Oc ->
  (forall st', sstate c0 s0 V N st' p (D ∪ {[p]}) K Oc -> Q tt st') ->
  wp (emit (bf "[-]-")) Q st.
Proof.
  intros H. apply (wp_emit _ _ _ _ _ _ _ _ _ H).
  intros d k Hd Hk. eexists _, k.
  change (bf "[-]-") with (bf "[-]" ++ bf "-").
  rewrite ascan_app, ascan_clear, (ascan_dirty (bf "-")) by auto.
  split; [reflexivity|]. split; [set_solver|exact Hk].
Qed.

Lemma wp_setValue value st p D K Oc (Q : unit -> cstate -> Prop) :
  sstate c0 s0 V N st p D K Oc ->
  (forall st', sstate c0 s0 V N st' p (D ∪ {[p]}) K Oc -> Q tt st') ->
  wp (setValue value) Q st.
Proof.
  intros H HQ. eapply wp_eq; [apply setValue_eq|]. apply HQ.
  eapply (sstate_step _ _ (setValue_code value) _ _ _ _ _ _ _ H);
    try reflexivity; [apply H|].
  intros d k Hd Hk. destruct (ascan_setValue value p d k) as (d' & E & Hd').
  exists d', k. split; [exact E|]. split; [set_solver|exact Hk].
Qed.

(** Allocation of a temporary: [findEmptyLocation] followed by
    [memoryUsage.set]. *)
Lemma wp_alloc {A} (k : Z -> M A) st p D K Oc (Q : A -> cstate -> Prop) :
  sstate c0 s0 V N st p D K Oc ->
  (forall r st',
     r ∉ Oc -> r ∉ N ->
     sstate c0 s0 V N st' p D K (Oc ∪ {[r]}) -> wp (k r) Q st') ->
  wp (bind findEmptyLocation (fun r => bind (memSet r Temporary) (fun _ => k r)))
     Q st.
Proof.
  intros H HQ. apply wp_bind. eapply wp_eq; [apply findEmptyLocation_eq|].
  apply wp_bind. eapply wp_eq; [apply memSet_eq|].
  pose proof (sstate_named_occ _ _ _ _ _ H) as HN.
  destruct H as (Hd & Hc & Hp & Ho & Hn & Hv).
  destruct (findEmptyLocation_of_spec _ Hd) as [Hr Hocc].
  set (r := findEmptyLocation_of (memoryUsage st)) in *.
  rewrite Ho in Hocc.
  apply HQ; [exact Hocc|set_solver|].
  unfold sstate. simpl_state.
  split; [apply dense_map_set; assumption|].
  split. { destruct Hc as (delta & d & k' & Hc). exists delta, d, k'. exact Hc. }
  split; [exact Hp|]. split; [rewrite occ_map_set_Temporary, Ho; reflexivity|].
  split; [|exact Hv].
  rewrite named_map_set; [exact Hn|reflexivity|rewrite Hn; set_solver].
Qed.

Lemma wp_free r st p D K Oc (Q : unit -> cstate -> Prop) :
  sstate c0 s0 V N st p D K Oc ->
  r ∈ Oc -> r ∉ N ->
  (forall st', sstate c0 s0 V N st' p D K (Oc ∖ {[r]}) -> Q tt st') ->
  wp (memSet r Freed) Q st.
Proof.
  intros H Hr HrN HQ. eapply wp_eq; [apply memSet_eq|]. apply HQ.
  destruct H as (Hd & Hc & Hp & Ho & Hn & Hv).
  unfold sstate. simpl_state.
  split.
  { apply dense_map_set; [exact Hd|].
    rewrite <- Ho in Hr. pose proof (dense_occ _ _ Hd Hr). lia. }
  split. { destruct Hc as (delta & d & k' & Hc). exists delta, d, k'. exact Hc. }
  split; [exact Hp|]. split; [rewrite occ_map_set_Freed, Ho; reflexivity|].
  split; [|exact Hv].
  rewrite named_map_set; [exact Hn|reflexivity|rewrite Hn; exact HrN].
Qed.

End Invariant.

Lemma sstate_occ_eq c0 s0 V N st p D K Oc Oc' :
  Oc = Oc' -> sstate c0 s0 V N st p D K Oc -> sstate c0 s0 V N st p D K Oc'.
Proof. intros ->. exact (fun H => H). Qed.

(** One step of a proof that follows the invariant [H] through a function
    of the compiler; [wcall] is extended with the functions proved so
    far. *)
Ltac wcall H := fail "no rule".

Ltac wrule H :=
  lazymatch goal with
  | |- wp (moveTo _) _ _ =>
      eapply wp_moveTo; [exact H|]; clear H; intros ? H
  | |- wp (emit (bf "[")) _ _ =>
      eapply wp_emit_open; [exact H|]; clear H; intros ? H
  | |- wp (emit (bf "]")) _ _ =>
      eapply wp_emit_close; [exact H|]; clear H; intros ? H
  | |- wp (emit (bf "[-]")) _ _ =>
      eapply wp_emit_clear; [exact H|]; clear H; intros ? H
  | |- wp (emit (bf "[-]-")) _ _ =>
      eapply wp_emit_max; [exact H|]; clear H; intros ? H
  | |- wp (emit (bf "+")) _ _ =>
      eapply wp_emit_dirty; [auto|exact H|]; clear H; intros ? H
  | |- wp (emit (bf "-")) _ _ =>
      eapply wp_emit_dirty; [auto|exact H|]; clear H; intros ? H
  | |- wp (emit (bf ",")) _ _ =>
      eapply wp_emit_dirty; [auto|exact H|]; clear H; intros ? H
  | |- wp (emit (bf ".")) _ _ =>
      eapply wp_emit_output; [auto|exact H|]; clear H; intros ? H
  | |- wp (emit (bf "~")) _ _ =>
      eapply wp_emit_output; [auto|exact H|]; clear H; intros ? H
  | |- wp clearCell _ _ =>
      eapply wp_clearCell; [exact H|]; clear H; intros ? H
  | |- wp (setValue _) _ _ =>
      eapply wp_setValue; [exact H|]; clear H; intros ? H
  | |- wp (memSet _ Freed) _ _ =>
      eapply wp_free; [exact H|set_solver|set_solver|]; clear H; intros ? H
  | |- wp (ret _) _ _ => apply wp_ret
  | |- _ => wcall H
  end.

Ltac wstep H :=
  lazymatch goal with
  | |- wp (bind findEmptyLocation (fun r => bind (memSet r Temporary) _)) _ _ =>
      let r := fresh "r" in
      let Hr := fresh "Hr" in
      let HrN := fresh "HrN" in
      eapply wp_alloc; [exact H|]; clear H; intros r ? Hr HrN H
  | |- wp (bind _ _) _ _ => apply wp_bind; wrule H
  | |- _ => wrule H
  end; cbv beta zeta.

Lemma wp_copy c0 s0 V N cell st p D K Oc (Q : Z -> cstate -> Prop) :
  sstate c0 s0 V N st p D K Oc ->
  (forall r st' p',
     r ∉ Oc -> r ∉ N ->
     sstate c0 s0 V N st' p' (D ∪ {[cell; r]}) K (Oc ∪ {[r]}) -> Q r st') ->
  wp (copy cell) Q st.
Proof.
  intros H HQ. unfold copy.
  do 21 wstep H.
  apply wp_ret. eapply HQ; [set_solver|set_solver|].
  eapply sstate_occ_eq; [|eapply sstate_weaken; [|exact H]]; set_solver.
Qed.

Ltac wcall H ::=
  lazymatch goal with
  | |- wp (copy _) _ _ =>
      let r := fresh "r" in
      let Hr := fresh "Hr" in
      let HrN := fresh "HrN" in
      eapply wp_copy; [exact H|]; clear H; intros r ? ? Hr HrN H
  end.

Lemma wp_add c0 s0 V N a b st p D K Oc (Q : Z -> cstate -> Prop) :
  sstate c0 s0 V N st p D K Oc ->
  (forall r st' p',
     r ∉ Oc -> r ∉ N ->
     sstate c0 s0 V N st' p' (D ∪ {[a; b; r]}) K (Oc ∪ {[r]}) -> Q r st') ->
  wp (add a b) Q st.
Proof.
  intros H HQ. unfold add.
  do 23 wstep H.
  apply wp_ret. eapply HQ; [set_solver|set_solver|].
  eapply sstate_occ_eq; [|eapply sstate_weaken; [|exact H]]; set_solver.
Qed.

Lemma wp_subtract c0 s0 V N a b st p D K Oc (Q : Z -> cstate -> Prop) :
  sstate c0 s0 V N st p D K Oc ->
  (forall r st' p',
     r ∉ Oc -> r ∉ N ->
     sstate c0 s0 V N st' p' (D ∪ {[a; b; r]}) K (Oc ∪ {[r]}) -> Q r st') ->
  wp (subtract a b) Q st.
Proof.
  intros H HQ. unfold subtract.
  do 23 wstep H.
  apply wp_ret. eapply HQ; [set_solver|set_solver|].
  eapply sstate_occ_eq; [|eapply sstate_weaken; [|exact H]]; set_solver.
Qed.

Lemma wp_get {A} (k : cstate -> M A) (Q : A -> cstate -> Prop) st :
  wp (k st) Q st -> wp (bind get k) Q st.
Proof. exact (fun H => H). Qed.

Lemma wp_findVariableLocation c0 s0 V N name i st p D K Oc
    (Q : option Z -> cstate -> Prop) :
  sstate c0 s0 V N st p D K Oc ->
  Q None st ->
  (forall loc, loc ∈ N -> Q (Some loc) st) ->
  wp (findVariableLocation name i) Q st.
Proof.
  intros H HNone HSome. eapply wp_eq; [apply findVariableLocation_eq|].
  destruct (findVariableLocation_of name i (memoryUsage st)) as [loc|] eqn:E;
    [|exact HNone].
  apply HSome. destruct H as (Hd & _ & _ & _ & <- & _).
  eapply findVariableLocation_of_named; [apply dense_NoDup, Hd|exact E].
Qed.

(** A loop of [n] decrements of the cell [c]. *)
Lemma wp_decrements c0 s0 V N c n st p D K Oc (Q : unit -> cstate -> Prop) :
  sstate c0 s0 V N st p D K Oc ->
  (forall st' p', sstate c0 s0 V N st' p' (D ∪ {[c]}) K Oc -> Q tt st') ->
  wp (forRange n (fun _ => moveTo c ;; emit (bf "-"))) Q st.
Proof.
  intros H HQ. eapply wp_mono.
  - apply (wp_forRange _
             (fun st' => exists p', sstate c0 s0 V N st' p' (D ∪ {[c]}) K Oc)).
    + intros i st' _ (p' & H'). do 2 wstep H'.
      exists c. eapply sstate_weaken; [|exact H']. set_solver.
    + exists p. eapply sstate_weaken; [|exact H]. set_solver.
  - intros [] st' (p' & H'). cbv beta in H'. eapply HQ, H'.
Qed.

Ltac wcall H ::=
  lazymatch goal with
  | |- wp (copy _) _ _ =>
      let r := fresh "r" in
      let Hr := fresh "Hr" in
      let HrN := fresh "HrN" in
      eapply wp_copy; [exact H|]; clear H; intros r ? ? Hr HrN H
  | |- wp (add _ _) _ _ =>
      let r := fresh "r" in
      let Hr := fresh "Hr" in
      let HrN := fresh "HrN" in
      eapply wp_add; [exact H|]; clear H; intros r ? ? Hr HrN H
  | |- wp (subtract _ _) _ _ =>
      let r := fresh "r" in
      let Hr := fresh "Hr" in
      let HrN := fresh "HrN" in
      eapply wp_subtract; [exact H|]; clear H; intros r ? ? Hr HrN H
  | |- wp (forRange _ (fun _ => bind (moveTo _) (fun _ => emit (bf "-")))) _ _ =>
      eapply wp_decrements; [exact H|]; clear H; intros ? ? H
  end.

(** The dirty set and the occupied set of the invariant [H], replaced by a
    larger and by an equal one. *)
Ltac wweaken H Dn :=
  apply (sstate_weaken _ _ _ _ _ _ _ Dn) in H; [|set_solver].
Ltac woccupied H On :=
  apply (sstate_occ_eq _ _ _ _ _ _ _ _ _ On) in H; [|set_solver].

Tactic Notation "wnew" hyp(H) "as" ident(x) ident(Hx) ident(HxN) :=
  wstep H; rename r into x, Hr into Hx, HrN into HxN.

Lemma eval_getVariableValueAtDynamicIndex name evalIndex :
  eval_spec evalIndex ->
  eval_spec (getVariableValueAtDynamicIndex name evalIndex).
Proof.
  intros IH c0 s0 V N st p D K Oc Q H Hvok HQ.
  unfold getVariableValueAtDynamicIndex. apply wp_get.
  replace (variables st) with V by (symmetry; apply H).
  destruct (V !! name) as [info|] eqn:Hinfo; [|apply wp_throw].
  apply wp_bind. apply (IH _ _ _ _ _ _ _ _ _ _ H Hvok).
  intros idx st1 p1 D1 Oc1 H1 HD1 HO1 Hidx _. clear H.
  wnew H1 as res Hres HresN.
  apply wp_bind. eapply wp_mono.
  - apply (wp_forRange _
             (fun s => exists pi Di Oi,
                sstate c0 s0 V N s pi Di K Oi
                /\ Di ⊆ D ∪ Oi /\ Oc1 ∪ {[res]} ⊆ Oi)).
    + intros i si Hi (pi & Di & Oi & H' & HD' & HO').
      assert (Hbase : base info + i ∈ Oi)
        by (apply HO', elem_of_union_l, HO1; eapply Hvok; eassumption).
      assert (Hidx' : idx ∈ Oi) by set_solver.
      assert (Hres' : res ∈ Oi) by set_solver.
      wnew H' as comp Hcomp HcompN.
      wnew H' as flag Hflag HflagN.
      do 9 wstep H'.
      wweaken H' (D ∪ Oi ∪ {[flag]}).
      apply wp_bind. destruct (0 <? i).
      * wnew H' as comp2 Hcomp2 Hcomp2N.
        wstep H'.
        wnew H' as flag2 Hflag2 Hflag2N.
        do 9 wstep H'.
        wweaken H' (D ∪ Oi ∪ {[flag; flag2]}).
        do 2 wstep H'.
        wnew H' as elem Helem HelemN.
        do 10 wstep H'.
        do 4 wstep H'.
        wweaken H' (D ∪ Oi ∪ {[flag]}).
        woccupied H' (Oi ∪ {[flag; comp; comp2]}).
        do 3 wstep H'.
        do 3 wstep H'.
        eexists _, _, (Oi ∪ {[flag]}).
        split; [eapply sstate_occ_eq; [|exact H']; set_solver|].
        split; set_solver.
      * do 2 wstep H'.
        wnew H' as elem Helem HelemN.
        do 10 wstep H'.
        do 4 wstep H'.
        wweaken H' (D ∪ Oi).
        woccupied H' (Oi ∪ {[comp]}).
        do 3 wstep H'.
        eexists _, _, Oi.
        split; [eapply sstate_occ_eq; [|exact H']; set_solver|].
        split; set_solver.
    + eexists _, _, _. split; [exact H1|]. split; set_solver.
  - intros [] sf (pf & Df & Of & H' & HD' & HO'). cbv beta.
    apply wp_ret. eapply HQ; [exact H'|set_solver..].
Qed.

Lemma vars_ok_mono V Oc Oc' : Oc ⊆ Oc' -> vars_ok V Oc -> vars_ok V Oc'.
Proof. intros Hsub H name info Hinfo i Hi. apply Hsub. eapply H; eassumption. Qed.

Lemma eval_evalValue val : eval_spec (evalValue val).
Proof.
  induction val as [value|name index IH|operator lhs IHl rhs IHr| |i|e IH]
    using ValueToken_ind'
    with (P0 := fun index =>
                  match index with
                  | IndexNumber _ => True
                  | IndexExpr e => eval_spec (evalValue e)
                  end).
  - intros c0 s0 V N st p D K Oc Q H Hvok HQ. cbn [evalValue].
    wnew H as loc Hloc HlocN. do 3 wstep H.
    eapply HQ; [exact H|set_solver..].
  - cbn [evalValue]. destruct index as [i|e].
    + intros c0 s0 V N st p D K Oc Q H Hvok HQ.
      pose proof (sstate_named_occ _ _ _ _ _ _ _ _ _ H) as HN.
      apply wp_bind. eapply wp_findVariableLocation; [exact H|apply wp_throw|].
      intros loc Hloc. apply wp_ret. eapply HQ; [exact H|set_solver..].
    + apply eval_getVariableValueAtDynamicIndex. exact IH.
  - intros c0 s0 V N st p D K Oc Q H Hvok HQ. cbn [evalValue].
    destruct operator; try apply wp_throw.
    + apply wp_bind. apply (IHl _ _ _ _ _ _ _ _ _ _ H Hvok).
      intros a st1 p1 D1 Oc1 H1 HD1 HO1 Ha _.
      apply wp_bind.
      apply (IHr _ _ _ _ _ _ _ _ _ _ H1 (vars_ok_mono _ _ _ HO1 Hvok)).
      intros b st2 p2 D2 Oc2 H2 HD2 HO2 Hb _.
      wstep H2. eapply HQ; [exact H2|set_solver..].
    + apply wp_bind. apply (IHl _ _ _ _ _ _ _ _ _ _ H Hvok).
      intros a st1 p1 D1 Oc1 H1 HD1 HO1 Ha _.
      apply wp_bind.
      apply (IHr _ _ _ _ _ _ _ _ _ _ H1 (vars_ok_mono _ _ _ HO1 Hvok)).
      intros b st2 p2 D2 Oc2 H2 HD2 HO2 Hb _.
      wstep H2. eapply HQ; [exact H2|set_solver..].
  - intros c0 s0 V N st p D K Oc Q H Hvok HQ. cbn [evalValue].
    wnew H as loc Hloc HlocN. do 3 wstep H.
    eapply HQ; [exact H|set_solver..].
  - exact I.
  - exact IH.
Qed.

Lemma eval_conditionCell condition : eval_spec (conditionCell condition).
Proof.
  unfold conditionCell.
  destruct condition as [v|name [i|e]|op l r|]; try apply eval_evalValue.
  intros c0 s0 V N st p D K Oc Q H Hvok HQ.
  pose proof (sstate_named_occ _ _ _ _ _ _ _ _ _ H) as HN.
  apply wp_bind. eapply wp_findVariableLocation; [exact H|apply wp_throw|].
  intros loc Hloc. apply wp_ret. eapply HQ; [exact H|set_solver..].
Qed.

Lemma get_is_undefined_named k m : get_is_undefined k m = true -> k ∉ named m.
Proof.
  unfold get_is_undefined. rewrite elem_of_named.
  destruct (map_get k m) as [[| |]|]; cbn; congruence.
Qed.

Lemma wp_setVariableAtDynamicIndex name indexExpr value c0 s0 V N st p D K Oc
    (Q : unit -> cstate -> Prop) :
  sstate c0 s0 V N st p D K Oc ->
  vars_ok V Oc ->
  (forall st' p' D' Oc',
     sstate c0 s0 V N st' p' D' K Oc' -> D' ⊆ D ∪ Oc' -> Oc ⊆ Oc' -> Q tt st') ->
  wp (setVariableAtDynamicIndex name indexExpr value) Q st.
Proof.
  intros H Hvok HQ.
  unfold setVariableAtDynamicIndex. apply wp_get.
  replace (variables st) with V by (symmetry; apply H).
  destruct (V !! name) as [info|] eqn:Hinfo; [|apply wp_throw].
  apply wp_bind. apply (eval_evalValue indexExpr _ _ _ _ _ _ _ _ _ _ H Hvok).
  intros idx st1 p1 D1 Oc1 H1 HD1 HO1 Hidx _. clear H.
  apply wp_bind.
  apply (eval_evalValue value _ _ _ _ _ _ _ _ _ _ H1
           (vars_ok_mono _ _ _ HO1 Hvok)).
  intros val st2 p2 D2 Oc2 H2 HD2 HO2 Hval Hval'. clear H1.
  apply wp_bind. eapply wp_mono.
  - apply (wp_forRange _
             (fun s => exists pi Di Oi,
                sstate c0 s0 V N s pi Di K Oi
                /\ Di ⊆ D ∪ Oi /\ Oc2 ⊆ Oi)).
    + intros i si Hi (pi & Di & Oi & H' & HD' & HO').
      assert (Hbase : base info + i ∈ Oi)
        by (apply HO', HO2, HO1; eapply Hvok; eassumption).
      assert (Hidx' : idx ∈ Oi) by set_solver.
      assert (Hval'' : val ∈ Oi) by set_solver.
      wnew H' as comp Hcomp HcompN.
      wnew H' as flag Hflag HflagN.
      do 9 wstep H'.
      wweaken H' (D ∪ Oi ∪ {[flag]}).
      apply wp_bind. destruct (0 <? i).
      * wnew H' as comp2 Hcomp2 Hcomp2N.
        wstep H'.
        wnew H' as flag3 Hflag3 Hflag3N.
        do 9 wstep H'.
        wweaken H' (D ∪ Oi ∪ {[flag; flag3]}).
        do 4 wstep H'.
        wnew H' as cv Hcv HcvN.
        do 10 wstep H'.
        do 4 wstep H'.
        wweaken H' (D ∪ Oi ∪ {[flag]}).
        woccupied H' (Oi ∪ {[flag; comp; comp2]}).
        do 3 wstep H'.
        do 3 wstep H'.
        eexists _, _, (Oi ∪ {[flag]}).
        split; [eapply sstate_occ_eq; [|exact H']; set_solver|].
        split; set_solver.
      * do 4 wstep H'.
        wnew H' as cv Hcv HcvN.
        do 10 wstep H'.
        do 4 wstep H'.
        wweaken H' (D ∪ Oi).
        woccupied H' (Oi ∪ {[comp]}).
        do 3 wstep H'.
        eexists _, _, Oi.
        split; [eapply sstate_occ_eq; [|exact H']; set_solver|].
        split; set_solver.
    + eexists _, _, _. split; [exact H2|]. split; set_solver.
  - intros [] sf (pf & Df & Of & H' & HD' & HO'). cbv beta.
    apply wp_get.
    destruct (get_is_undefined val (memoryUsage sf)) eqn:E.
    + apply get_is_undefined_named in E.
      replace (named (memoryUsage sf)) with N in E by (symmetry; apply H').
      assert (HvalOc : val ∉ Oc) by (destruct Hval'; set_solver).
      do 3 wstep H'.
      eapply HQ; [exact H'|set_solver..].
    + apply wp_ret. eapply HQ; [exact H'|set_solver..].
Qed.

(** ** [findContiguousFreeRegion] *)

Lemma map_has_In k m : map_has k m = true <-> In k (map fst m).
Proof.
  unfold map_has. rewrite existsb_exists, in_map_iff. split.
  - intros ([k' v] & Hin & E). apply Z.eqb_eq in E. cbn in E. subst.
    exists (k, v). auto.
  - intros ([k' v] & E & Hin). cbn in E. subst. exists (k, v).
    split; [exact Hin|apply Z.eqb_refl].
Qed.

Lemma firstUsedOffset_None m start offsets :
  (forall i, In i offsets -> ~ In (start + i) (map fst m)) ->
  firstUsedOffset m start offsets = None.
Proof.
  induction offsets as [|i rest IH]; intros H; [reflexivity|].
  cbn. destruct (map_has (start + i) m) eqn:E.
  - apply map_has_In in E. exfalso. apply (H i); [left; reflexivity|exact E].
  - apply IH. intros j Hj. apply H. right. exact Hj.
Qed.

Lemma firstUsedOffset_Some m start offsets i :
  firstUsedOffset m start offsets = Some i ->
  In i offsets /\ In (start + i) (map fst m).
Proof.
  induction offsets as [|j rest IH]; [discriminate|].
  cbn. destruct (map_has (start + j) m) eqn:E.
  - intros [= <-]. split; [left; reflexivity|apply map_has_In, E].
  - intros H. destruct (IH H) as [H1 H2]. split; [right; exact H1|exact H2].
Qed.

(** On a map without deleted keys the region starts right after the last
    key. *)
Lemma findContiguousFreeRegion_loop_dense m size :
  dense m -> 0 < size ->
  forall retries start,
    0 <= start <= Z.of_nat (length m) ->
    Z.of_nat (length m) - start <= Z.of_nat retries ->
    findContiguousFreeRegion_loop retries m size start
    = Some (Z.of_nat (length m)).
Proof.
  intros Hd Hsize. induction retries as [|retries IH]; intros start Hs Hr.
  - assert (start = Z.of_nat (length m)) as -> by lia.
    cbn. rewrite firstUsedOffset_None; [reflexivity|].
    intros i Hi. apply In_seqZ in Hi. rewrite (dense_In _ _ Hd). lia.
  - destruct (Z.eq_dec start (Z.of_nat (length m))) as [->|Hne].
    + cbn. rewrite firstUsedOffset_None; [reflexivity|].
      intros i Hi. apply In_seqZ in Hi. rewrite (dense_In _ _ Hd). lia.
    + cbn [findContiguousFreeRegion_loop].
      rewrite seqZ_cons by exact Hsize. cbn [firstUsedOffset].
      assert (E : map_has (start + 0) m = true).
      { apply map_has_In, (dense_In _ _ Hd). lia. }
      rewrite E. rewrite IH by lia. reflexivity.
Qed.

Lemma findContiguousFreeRegion_of_dense m size :
  dense m ->
  findContiguousFreeRegion_of m size
  = Some (if 0 <? size then Z.of_nat (length m) else 0).
Proof.
  intros Hd. unfold findContiguousFreeRegion_of.
  destruct (Z.ltb_spec 0 size) as [Hs|Hs].
  - apply findContiguousFreeRegion_loop_dense; [exact Hd|exact Hs|lia|lia].
  - destruct (length m); cbn; rewrite seqZ_nil by lia; reflexivity.
Qed.

(** The [while (true)] loop of [findContiguousFreeRegion] ends: every failed
    attempt moves the start past one more key. *)
Lemma filter_length_lt {A} (f g : A -> bool) (l : list A) x :
  (forall a, f a = true -> g a = true) ->
  In x l -> g x = true -> f x = false ->
  (length (List.filter f l) < length (List.filter g l))%nat.
Proof.
  intros Hfg. 
  assert (Hle : forall l', (length (List.filter f l') <= length (List.filter g l'))%nat).
  { induction l' as [|a l' IH]; [reflexivity|]. cbn.
    destruct (f a) eqn:Ef.
    - rewrite (Hfg a Ef). cbn. lia.
    - destruct (g a); cbn; lia. }
  induction l as [|a l IH]; intros Hin Hg Hf; [destruct Hin|].
  cbn. destruct Hin as [->|Hin].
  - rewrite Hf, Hg. cbn. specialize (Hle l). lia.
  - specialize (IH Hin Hg Hf). destruct (f a) eqn:Ef.
    + rewrite (Hfg a Ef). cbn. lia.
    + destruct (g a); cbn; lia.
Qed.

Lemma findContiguousFreeRegion_loop_total m size :
  forall retries start,
    (length (List.filter (fun e => Z.leb start (fst e)) m) <= retries)%nat ->
    exists r, findContiguousFreeRegion_loop retries m size start = Some r.
Proof.
  induction retries as [|retries IH]; intros start Hcount.
  - cbn. destruct (firstUsedOffset m start (seqZ 0 size)) as [i|] eqn:E;
      [|eexists; reflexivity].
    exfalso. apply firstUsedOffset_Some in E as [Hi Hkey].
    apply In_seqZ in Hi. apply in_map_iff in Hkey as ([k v] & Ek & Hin).
    cbn in Ek. subst k.
    assert (Hf : In (start + i, v) (List.filter (fun e => Z.leb start (fst e)) m)).
    { apply filter_In. split; [exact Hin|]. cbn. apply Z.leb_le. lia. }
    destruct (List.filter (fun e => Z.leb start (fst e)) m); [destruct Hf|].
    cbn in Hcount. lia.
  - cbn [findContiguousFreeRegion_loop].
    destruct (firstUsedOffset m start (seqZ 0 size)) as [i|] eqn:E;
      [|eexists; reflexivity].
    apply IH. apply firstUsedOffset_Some in E as [Hi Hkey].
    apply In_seqZ in Hi. apply in_map_iff in Hkey as ([k v] & Ek & Hin).
    cbn in Ek. subst k.
    pose proof (filter_length_lt
                  (fun e : Z * usage => Z.leb (start + i + 1) (fst e))
                  (fun e => Z.leb start (fst e)) m (start + i, v)) as Hlt.
    cbn in Hlt.
    assert ((length (List.filter (fun e : Z * usage => Z.leb (start + i + 1) (fst e)) m)
             < length (List.filter (fun e : Z * usage => Z.leb start (fst e)) m))%nat).
    { apply Hlt.
      - intros a Ha. apply Z.leb_le in Ha. apply Z.leb_le. lia.
      - exact Hin.
      - apply Z.leb_le. lia.
      - apply Z.leb_gt. lia. }
    lia.
Qed.

Lemma findContiguousFreeRegion_of_total m size :
  exists start, findContiguousFreeRegion_of m size = Some start.
Proof.
  unfold findContiguousFreeRegion_of. apply findContiguousFreeRegion_loop_total.
  apply filter_length_le.
Qed.

(** ** The invariant through the statements *)

Lemma wp_modify (f : cstate -> cstate) (Q : unit -> cstate -> Prop) st :
  Q tt (f st) -> wp (modify f) Q st.
Proof. exact (fun H => H). Qed.

Lemma wp_fmapM {A B} (f : A -> B) (m : M A) (Q : B -> cstate -> Prop) st :
  wp m (fun a => Q (f a)) st -> wp (fmapM f m) Q st.
Proof. unfold wp, fmapM. destruct (m st) as [[a st']| |]; auto. Qed.

Lemma wp_findContiguousFreeRegion size (Q : Z -> cstate -> Prop) st :
  dense (memoryUsage st) ->
  Q (if 0 <? size then Z.of_nat (length (memoryUsage st)) else 0) st ->
  wp (findContiguousFreeRegion size) Q st.
Proof.
  intros Hd HQ. unfold wp, findContiguousFreeRegion.
  rewrite (findContiguousFreeRegion_of_dense _ _ Hd). exact HQ.
Qed.

Lemma wp_forEach_idx (f : Z -> M unit) (Inv : Z -> cstate -> Prop) k :
  forall s st,
    (forall i st', s <= i < s + Z.of_nat k -> Inv i st' ->
                   wp (f i) (fun _ => Inv (i + 1)) st') ->
    Inv s st ->
    wp (forEach f (seqZ s (Z.of_nat k))) (fun _ => Inv (s + Z.of_nat k)) st.
Proof.
  induction k as [|k IH]; intros s st Hf Hs.
  - cbn. rewrite Z.add_0_r. exact Hs.
  - rewrite seqZ_cons by lia. cbn [forEach]. apply wp_bind.
    eapply wp_mono; [apply Hf; [lia|exact Hs]|].
    intros [] st' Hst'. cbv beta.
    replace (Z.pred (Z.of_nat (S k))) with (Z.of_nat k) by lia.
    replace (s + Z.of_nat (S k)) with (Z.succ s + Z.of_nat k) by lia.
    apply IH; [|exact Hst'].
    intros i st'' Hi. apply Hf. lia.
Qed.

Lemma wp_forRange_idx (f : Z -> M unit) (Inv : Z -> cstate -> Prop) n st :
  0 <= n ->
  (forall i st', 0 <= i < n -> Inv i st' -> wp (f i) (fun _ => Inv (i + 1)) st') ->
  Inv 0 st ->
  wp (forRange n f) (fun _ => Inv n) st.
Proof.
  intros Hn Hf H0. unfold forRange.
  rewrite <- (Z2Nat.id n) by exact Hn.
  apply (wp_forEach_idx f Inv (Z.to_nat n) 0 st); [|exact H0].
  intros i st' Hi. apply Hf. lia.
Qed.

Section Statements.

Variables (c0 : list ascii) (s0 : astate).

Lemma sstate_memSet_Named V N st p D K Oc k x t :
  sstate c0 s0 V N st p D K Oc ->
  0 <= k <= Z.of_nat (length (memoryUsage st)) ->
  sstate c0 s0 V (N ∪ {[k]})
    (set_memoryUsage (map_set k (Named x t) (memoryUsage st)) st)
    p D K (Oc ∪ {[k]}).
Proof.
  intros (Hd & Hc & Hp & Ho & Hn & Hv) Hk. unfold sstate. simpl_state.
  split; [apply dense_map_set; assumption|].
  split. { destruct Hc as (delta & d & k' & Hc). exists delta, d, k'. exact Hc. }
  split; [exact Hp|]. split; [rewrite occ_map_set_Named, Ho; reflexivity|].
  split; [rewrite named_map_set_Named, Hn; reflexivity|exact Hv].
Qed.

Lemma sstate_sets_eq V N N' st p D K Oc Oc' :
  N = N' -> Oc = Oc' ->
  sstate c0 s0 V N st p D K Oc -> sstate c0 s0 V N' st p D K Oc'.
Proof. intros -> ->. exact (fun H => H). Qed.

Lemma sstate_set_variables V V' N st p D K Oc :
  sstate c0 s0 V N st p D K Oc ->
  sstate c0 s0 V' N (set_variables V' st) p D K Oc.
Proof.
  intros (Hd & Hc & Hp & Ho & Hn & Hv). unfold sstate. simpl_state.
  split; [exact Hd|].
  split. { destruct Hc as (delta & d & k' & Hc). exists delta, d, k'. exact Hc. }
  auto.
Qed.

Lemma sstate_set_functions V N st p D K Oc f :
  sstate c0 s0 V N st p D K Oc ->
  sstate c0 s0 V N (set_functions f st) p D K Oc.
Proof.
  intros (Hd & Hc & Hp & Ho & Hn & Hv). unfold sstate. simpl_state.
  split; [exact Hd|].
  split. { destruct Hc as (delta & d & k' & Hc). exists delta, d, k'. exact Hc. }
  auto.
Qed.

Lemma sstate_moveTo V N st p D K Oc q :
  sstate c0 s0 V N st p D K Oc ->
  sstate c0 s0 V N
    (set_pointerLocation q
       (set_code (brainfuckCode st ++ moves (pointerLocation st) q) st))
    q D K Oc.
Proof.
  intros H.
  pose proof (wp_moveTo c0 s0 V N q st p D K Oc
                (fun _ s => sstate c0 s0 V N s q D K Oc) H (fun s Hs => Hs)) as W.
  exact (wp_Ok _ _ _ _ _ W (moveTo_eq q st)).
Qed.

Lemma sstate_clear V N st p D K Oc :
  sstate c0 s0 V N st p D K Oc ->
  sstate c0 s0 V N (set_code (brainfuckCode st ++ bf "[-]") st)
    p (D ∖ {[p]}) K Oc.
Proof.
  intros H.
  pose proof (wp_emit_clear c0 s0 V N st p D K Oc
                (fun _ s => sstate c0 s0 V N s p (D ∖ {[p]}) K Oc) H
                (fun s Hs => Hs)) as W.
  exact (wp_Ok _ _ _ _ _ W (emit_eq _ st)).
Qed.

Lemma vars_ok_insert V Oc name info :
  vars_ok V Oc ->
  (forall i, 0 <= i < length_ info -> base info + i ∈ Oc) ->
  vars_ok (<[name := info]> V) Oc.
Proof.
  intros HV Hinfo name' info' Hlook.
  destruct (decide (name = name')) as [->|Hne].
  - rewrite lookup_insert_eq in Hlook. injection Hlook as <-. exact Hinfo.
  - rewrite lookup_insert_ne in Hlook by exact Hne. eapply HV, Hlook.
Qed.

(** The declaration of a scalar. *)
Lemma good_declare_scalar compile_rec name type K O st :
  good c0 s0 K O st ->
  wp (compileToken compile_rec (Declaration name type None))
     (fun _ => good c0 s0 K O) st.
Proof.
  intros (V & N & p & D & Oc & H & HD & HV & HO).
  unfold compileToken.
  apply wp_bind. eapply wp_eq; [apply findEmptyLocation_eq|].
  apply wp_bind. eapply wp_eq; [apply memSet_eq|].
  apply wp_modify. simpl_state.
  replace (variables st) with V by (symmetry; apply H).
  destruct (findEmptyLocation_of_spec (memoryUsage st)) as [Hr _]; [apply H|].
  set (r := findEmptyLocation_of (memoryUsage st)) in *.
  eexists _, _, _, _, _. split.
  { eapply sstate_set_variables.
    apply (sstate_memSet_Named _ _ _ _ _ _ _ r (name, 0) type H Hr). }
  split; [set_solver|]. split; [|set_solver].
  apply vars_ok_insert; [eapply vars_ok_mono; [|exact HV]; set_solver|].
  cbn. intros i Hi. replace (r + i) with r by lia. set_solver.
Qed.

(** The declaration of an array. *)
Lemma good_declare_array compile_rec name type n K O st :
  good c0 s0 K O st ->
  wp (compileToken compile_rec (Declaration name type (Some n)))
     (fun _ => good c0 s0 K O) st.
Proof.
  intros (V & N & p & D & Oc & H & HD & HV & HO).
  unfold compileToken.
  apply wp_bind. apply wp_findContiguousFreeRegion; [apply H|].
  destruct (Z.ltb_spec 0 n) as [Hn|Hn].
  - set (len := Z.of_nat (length (memoryUsage st))).
    apply wp_bind. eapply wp_mono.
    + apply (wp_forRange_idx _
               (fun i s => exists p' D',
                  sstate c0 s0 V (N ∪ list_to_set (seqZ len i)) s p' D' K
                    (Oc ∪ list_to_set (seqZ len i))
                  /\ D' ⊆ Oc ∪ list_to_set (seqZ len i)
                  /\ Z.of_nat (length (memoryUsage s)) = len + i));
        [lia| |].
      * intros i si Hi (p' & D' & Hs & HD' & Hlen).
        apply wp_bind. eapply wp_eq; [apply memSet_eq|].
        apply wp_bind. eapply wp_eq; [apply moveTo_eq|].
        eapply wp_eq; [apply clearCell_eq|].
        pose proof (sstate_memSet_Named _ _ _ _ _ _ _ (len + i) (name, i) type
                      Hs ltac:(lia)) as H1.
        apply sstate_moveTo with (q := len + i) in H1.
        apply sstate_clear in H1.
        assert (Hseq : list_to_set (seqZ len (i + 1))
                       = (list_to_set (seqZ len i) ∪ {[len + i]} : gset Z)).
        { rewrite seqZ_app by lia. rewrite list_to_set_app_L.
          rewrite (seqZ_cons (len + i) 1) by lia.
          rewrite (seqZ_nil _ (Z.pred 1)) by lia. cbn. set_solver. }
        rewrite Hseq.
        eexists _, _. split.
        { eapply sstate_sets_eq; [| |exact H1]; set_solver. }
        split; [set_solver|].
        simpl_state.
        destruct (dense_map_set (memoryUsage si) (len + i)
                    (Named (name, i) type)) as [Hd' _];
          [apply Hs|lia|].
        assert (Hkey : In (len + i)
                         (map fst (map_set (len + i) (Named (name, i) type)
                                     (memoryUsage si)))).
        { eapply map_get_Some_In. rewrite map_get_map_set, Z.eqb_refl.
          reflexivity. }
        apply (dense_In _ _ Hd') in Hkey.
        assert (Hnot : ~ In (len + i) (map fst (memoryUsage si))).
        { rewrite (dense_In (memoryUsage si)) by apply Hs. lia. }
        pose proof (map_fst_map_set_notin (len + i) (Named (name, i) type)
                      _ Hnot) as E.
        apply (f_equal (@length Z)) in E.
        rewrite length_app, !length_map in E. cbn [length] in E. lia.
      * exists p, D. rewrite seqZ_nil by lia. cbn.
        split; [eapply sstate_sets_eq; [| |exact H]; set_solver|].
        split; [set_solver|unfold len; lia].
    + intros [] sf (p' & D' & Hs & HD' & Hlen). cbv beta.
      apply wp_modify.
      replace (variables sf) with V by (symmetry; apply Hs).
      eexists _, _, _, _, _. split; [eapply sstate_set_variables, Hs|].
      split; [exact HD'|]. split; [|set_solver].
      apply vars_ok_insert; [eapply vars_ok_mono; [|exact HV]; set_solver|].
      cbn. intros i Hi. apply elem_of_union_r, elem_of_list_to_set, elem_of_seqZ.
      lia.
  - apply wp_bind. unfold forRange. rewrite seqZ_nil by lia. apply wp_ret.
    apply wp_modify.
    replace (variables st) with V by (symmetry; apply H).
    eexists _, _, _, _, _. split; [eapply sstate_set_variables, H|].
    split; [exact HD|]. split; [|exact HO].
    apply vars_ok_insert; [exact HV|]. cbn. intros i Hi. lia.
Qed.

End Statements.

(** The invariant re-established at the end of a statement. *)
Ltac wgood H HV :=
  eexists _, _, _, _, _; split; [exact H|];
  split; [set_solver|];
  split; [eapply vars_ok_mono; [|exact HV]; set_solver|set_solver].

Lemma good_assign_dynamic compile_rec name e value c0 s0 K O st :
  good c0 s0 K O st ->
  wp (compileToken compile_rec (Assign name (IndexExpr e) value))
     (fun _ => good c0 s0 K O) st.
Proof.
  intros (V & N & p & D & Oc & H & HD & HV & HO). unfold compileToken.
  eapply wp_setVariableAtDynamicIndex; [exact H|exact HV|].
  intros st' p' D' Oc' H' HD' HO'. wgood H' HV.
Qed.

Lemma good_assign_static compile_rec name i value c0 s0 K O st :
  good c0 s0 K O st ->
  wp (compileToken compile_rec (Assign name (IndexNumber i) value))
     (fun _ => good c0 s0 K O) st.
Proof.
  intros (V & N & p & D & Oc & H & HD & HV & HO). unfold compileToken.
  pose proof (sstate_named_occ _ _ _ _ _ _ _ _ _ H) as HN.
  apply wp_bind. eapply wp_findVariableLocation; [exact H|apply wp_throw|].
  intros target Htgt. cbv beta iota.
  destruct value as [v|vname vindex|op l r|].
  - do 2 wstep H. wgood H HV.
  - do 2 wstep H. apply wp_bind. destruct vindex as [j|e'].
    + eapply wp_findVariableLocation; [exact H|apply wp_throw|].
      intros src Hsrc. cbv beta iota.
      wstep H. wnew H as cp Hcp HcpN. do 7 wstep H. wgood H HV.
    + apply wp_fmapM.
      apply (eval_evalValue _ _ _ _ _ _ _ _ _ _ _ H HV).
      intros src st1 p1 D1 Oc1 H1 HD1 HO1 Hsrc _. cbv beta iota.
      wstep H1. wnew H1 as cp Hcp HcpN. do 7 wstep H1. wgood H1 HV.
  - apply wp_bind. apply (eval_evalValue _ _ _ _ _ _ _ _ _ _ _ H HV).
    intros rc st1 p1 D1 Oc1 H1 HD1 HO1 Hrc _.
    do 9 wstep H1. wgood H1 HV.
  - do 3 wstep H. wgood H HV.
Qed.

Lemma good_show compile_rec value c0 s0 K O st :
  good c0 s0 K O st ->
  wp (compileToken compile_rec (Show value)) (fun _ => good c0 s0 K O) st.
Proof.
  intros (V & N & p & D & Oc & H & HD & HV & HO). unfold compileToken.
  apply wp_bind. apply (eval_evalValue _ _ _ _ _ _ _ _ _ _ _ H HV).
  intros loc st1 p1 D1 Oc1 H1 HD1 HO1 Hloc _.
  wstep H1. apply wp_get.
  destruct (showsAsChar value _); wstep H1; wgood H1 HV.
Qed.

Lemma good_input compile_rec name c0 s0 K O st :
  good c0 s0 K O st ->
  wp (compileToken compile_rec (Input name)) (fun _ => good c0 s0 K O) st.
Proof.
  intros (V & N & p & D & Oc & H & HD & HV & HO). unfold compileToken.
  pose proof (sstate_named_occ _ _ _ _ _ _ _ _ _ H) as HN.
  apply wp_bind. eapply wp_findVariableLocation; [exact H|apply wp_throw|].
  intros loc Hloc. cbv beta iota.
  destruct (loc =? 0); [apply wp_throw|].
  do 2 wstep H. wgood H HV.
Qed.

Lemma good_function compile_rec name body c0 s0 K O st :
  good c0 s0 K O st ->
  wp (compileToken compile_rec (Function name body))
     (fun _ => good c0 s0 K O) st.
Proof.
  intros (V & N & p & D & Oc & H & HD & HV & HO). unfold compileToken.
  apply wp_modify.
  exists V, N, p, D, Oc. split; [apply sstate_set_functions, H|auto].
Qed.

Lemma good_loop compile_rec condition body c0 s0 K O st :
  keeps_good compile_rec ->
  forallb safe_token body = true ->
  good c0 s0 K O st ->
  wp (compileToken compile_rec (Loop condition body))
     (fun _ => good c0 s0 K O) st.
Proof.
  intros Hrec Hsafe (V & N & p & D & Oc & H & HD & HV & HO).
  unfold compileToken.
  apply wp_bind. apply (eval_conditionCell _ _ _ _ _ _ _ _ _ _ _ H HV).
  intros cond st1 p1 D1 Oc1 H1 HD1 HO1 Hcond _.
  do 2 wstep H1.
  apply wp_bind. eapply wp_mono.
  - apply (Hrec body c0 s0 ((cond, D1) :: K) (O ∪ Oc1) _ Hsafe).
    exists V, N, cond, ∅, Oc1. split; [exact H1|]. split; [set_solver|].
    split; [eapply vars_ok_mono; [|exact HV]; set_solver|set_solver].
  - intros _ st2 (V2 & N2 & p2 & D2 & Oc2 & H2 & HD2 & HV2 & HO2). cbv beta.
    do 2 wstep H2. wgood H2 HV2.
Qed.

Lemma good_if compile_rec condition body c0 s0 K O st :
  keeps_good compile_rec ->
  forallb safe_token body = true ->
  good c0 s0 K O st ->
  wp (compileToken compile_rec (If condition body))
     (fun _ => good c0 s0 K O) st.
Proof.
  intros Hrec Hsafe (V & N & p & D & Oc & H & HD & HV & HO).
  unfold compileToken.
  apply wp_bind. apply (eval_conditionCell _ _ _ _ _ _ _ _ _ _ _ H HV).
  intros cond st1 p1 D1 Oc1 H1 HD1 HO1 Hcond _.
  do 2 wstep H1.
  apply wp_bind. eapply wp_mono.
  - apply (Hrec body c0 s0 ((cond, D1) :: K) (O ∪ Oc1) _ Hsafe).
    exists V, N, cond, ∅, Oc1. split; [exact H1|]. split; [set_solver|].
    split; [eapply vars_ok_mono; [|exact HV]; set_solver|set_solver].
  - intros _ st2 (V2 & N2 & p2 & D2 & Oc2 & H2 & HD2 & HV2 & HO2). cbv beta.
    do 3 wstep H2. wgood H2 HV2.
Qed.

Lemma good_compileToken compile_rec t c0 s0 K O st :
  keeps_good compile_rec ->
  safe_token t = true ->
  good c0 s0 K O st ->
  wp (compileToken compile_rec t) (fun _ => good c0 s0 K O) st.
Proof.
  intros Hrec Hsafe H.
  destruct t as [name type [n|]|name [i|e] value|value|cond body|cond body
                |name|size body|name body|name|].
  - apply good_declare_array, H.
  - apply good_declare_scalar, H.
  - apply good_assign_static, H.
  - apply good_assign_dynamic, H.
  - apply good_show, H.
  - apply good_loop; assumption.
  - apply good_if; assumption.
  - apply good_input, H.
  - discriminate.
  - apply good_function, H.
  - discriminate.
  - apply wp_throw.
Qed.

Lemma good_compile_fuel fuel : keeps_good (compile_fuel fuel).
Proof.
  induction fuel as [|fuel IH]; intros body c0 s0 K O st Hsafe H.
  - exact I.
  - cbn [compile_fuel]. apply wp_bind. apply wp_ret.
    apply wp_bind. eapply wp_mono.
    + apply (wp_forEach _ (good c0 s0 K O)); [|exact H].
      intros t st' Hin Hst'. apply good_compileToken; [exact IH| |exact Hst'].
      rewrite forallb_forall in Hsafe. apply Hsafe, Hin.
    + intros [] st' Hst'. cbv beta. apply wp_get. apply wp_ret. exact Hst'.
Qed.

(** ** The invariant after a whole program *)

Lemma good_reset st : good [] ascan_start [] ∅ (resetState st).
Proof.
  exists ∅, ∅, 0, ∅, ∅. split; [|split; [set_solver|split; [|set_solver]]].
  - unfold sstate, resetState. simpl_state.
    split; [reflexivity|].
    split. { exists [], ∅, []. split; [reflexivity|]. split; [reflexivity|].
             split; [set_solver|constructor]. }
    split; [reflexivity|]. split; [reflexivity|]. split; reflexivity.
  - intros name info Hlook. rewrite lookup_empty in Hlook. discriminate.
Qed.

Lemma good_compile fuel code st :
  forallb safe_token code = true ->
  wp (compile fuel code)
     (fun c st' => c = brainfuckCode st' /\ good [] ascan_start [] ∅ st') st.
Proof.
  intros Hsafe. unfold compile. destruct fuel as [|fuel]; [exact I|].
  cbn [compile_fuel]. apply wp_bind. apply wp_modify.
  apply wp_bind. eapply wp_mono.
  - apply (wp_forEach _ (good [] ascan_start [] ∅)); [|apply good_reset].
    intros t st' Hin Hst'.
    apply good_compileToken; [apply good_compile_fuel| |exact Hst'].
    rewrite forallb_forall in Hsafe. apply Hsafe, Hin.
  - intros [] st' Hst'. cbv beta. apply wp_get. apply wp_ret.
    split; [reflexivity|exact Hst'].
Qed.

(** The tape after a program without [unsafe] blocks and calls. *)
Lemma safe_program_tape fuel code st0 c st o n m :
  forallb safe_token code = true ->
  compile fuel code st0 = Ok (c, st) ->
  brainfuck n c o = Halted m ->
  Z.of_nat (length (memoryUsage st)) < memorySize ->
  dataPointer m = pointerLocation st mod memorySize
  /\ (forall a, 0 <= a < memorySize -> a ∉ occ (memoryUsage st) ->
                read (memory m) a = Num 0)
  /\ read (memory m) (findEmptyLocation_of (memoryUsage st)) = Num 0.
Proof.
  intros Hsafe Hcompile Hrun Hlen.
  pose proof (wp_Ok _ _ _ _ _ (good_compile fuel code st0 Hsafe) Hcompile)
    as (-> & V & N & p & D & Oc & H & HD & HV & _).
  destruct H as (Hd & (delta & d & k & Hcode & Hscan & Hsub & Hk) & Hp & Ho & _).
  inversion Hk; subst k. cbn [app] in Hcode. rewrite Hcode in Hrun.
  destruct (analysis_sound _ _ _ _ _ _ Hscan Hrun) as [Hdp Hzero].
  assert (Hall : forall a, 0 <= a < memorySize -> a ∉ occ (memoryUsage st) ->
                           read (memory m) a = Num 0).
  { intros a Ha Hocc. apply Hzero. intros j Hj E.
    assert (Hj' : j ∈ occ (memoryUsage st)) by (rewrite Ho; set_solver).
    pose proof (dense_occ _ _ Hd Hj') as Hr.
    rewrite Z.mod_small in E by lia. subst j. contradiction. }
  split; [exact Hdp|]. split; [exact Hall|].
  destruct (findEmptyLocation_of_spec _ Hd) as [Hr Hfree].
  apply Hall; [lia|exact Hfree].
Qed.



(** ** The code of [if] *)

Lemma runs_exec o p m m' :
  wf_prog p = true -> runs o (unparse p) m m' -> exec o p m m'.
Proof.
  intros Hwf H. destruct (H [] []) as [n Hn].
  pose proof (steps_run _ _ _ _ _ _ _ _ 1%nat Hn) as Hrun.
  rewrite run_nil in Hrun.
  destruct (run_exec o p Hwf _ _ _ _ _ Hrun ltac:(discriminate))
    as (m1 & N1 & Hex & _ & Hrest).
  rewrite run_nil in Hrest. injection Hrest as ->. exact Hex.
Qed.

Lemma at_zero_false m :
  read (memory m) (dataPointer m) <> Num 0 -> at_zero m = false.
Proof.
  unfold at_zero, is_zero. destruct (read (memory m) (dataPointer m)) as [z|];
    [|reflexivity].
  intros H. apply Z.eqb_neq. intros ->. apply H. reflexivity.
Qed.


Lemma sstate_rebase c0 s0 V N st p D K Oc :
  sstate c0 s0 V N st p D K Oc ->
  sstate (brainfuckCode st) {| apos := p; adirty := ∅; astack := [] |}
    V N st p ∅ [] Oc.
Proof.
  intros (Hd & Hc & Hp & Ho & Hn & Hv). unfold sstate.
  split; [exact Hd|]. split; [|auto].
  exists [], ∅, []. split; [rewrite app_nil_r; reflexivity|].
  split; [rewrite Hp; reflexivity|]. split; [set_solver|constructor].
Qed.



(** ** Supplements *)

(** [input x] for a variable bound to an address other than 0: one [,] with
    the pointer at the variable's cell. *)
Lemma input_at_nonzero_address compile_rec x loc st :
  findVariableLocation_of x 0 (memoryUsage st) = Some loc ->
  loc <> 0 ->
  compileToken compile_rec (Input x) st
  = Ok (tt,
        set_code (brainfuckCode st ++ moves (pointerLocation st) loc ++ bf ",")
          (set_pointerLocation loc st)).
Proof.
  intros Hloc Hne. unfold compileToken.
  run_prim. rewrite Hloc.
  destruct (Z.eqb_spec loc 0) as [->|_]; [contradiction|].
  run_prim. rewrite emit_eq. apply Ok_eq.
  apply state_eq; simpl_state; try reflexivity.
  rewrite <- app_assoc. reflexivity.
Qed.

Lemma input_of_unbound_name compile_rec x st :
  findVariableLocation_of x 0 (memoryUsage st) = None ->
  compileToken compile_rec (Input x) st = Throw (VariableNotDeclared x).
Proof.
  intros Hloc. unfold compileToken. run_prim. rewrite Hloc. reflexivity.
Qed.

(** On a map without deleted keys [findEmptyLocation] answers the lowest
    address in [Freed] status, and the number of entries when there is
    none. *)
Lemma findEmptyLocation_loop_lowest m :
  forall s,
    map fst m = seqZ s (Z.of_nat (length m)) ->
    let r := findEmptyLocation_loop (s - 1) m in
    (map_get r m = Some Freed
     /\ forall k, map_get k m = Some Freed -> r <= k)
    \/ ((forall k, map_get k m <> Some Freed)
        /\ r = s + Z.of_nat (length m)).
Proof.
  induction m as [|[k u] m IH]; intros s Hkeys.
  - right. split; [discriminate|]. cbn. lia.
  - rewrite seqZ_cons in Hkeys by (cbn [length]; lia).
    cbn [map fst] in Hkeys. injection Hkeys as -> Hrest.
    cbn [length] in Hrest.
    replace (Z.pred (Z.of_nat (S (length m)))) with (Z.of_nat (length m))
      in Hrest by lia.
    pose proof (findEmptyLocation_loop_spec m (Z.succ s) Hrest) as [Hrange _].
    specialize (IH (Z.succ s) Hrest).
    replace (Z.succ s - 1) with s in IH, Hrange by lia.
    cbn zeta in IH, Hrange.
    assert (Hkeys' : forall j v, map_get j m = Some v -> Z.succ s <= j).
    { intros j v Hj. apply map_get_Some_In in Hj. rewrite Hrest in Hj.
      apply list_elem_of_In, elem_of_seqZ in Hj. lia. }
    assert (Hnext :
      (map_get (findEmptyLocation_loop s m) ((s, u) :: m) = Some Freed
       /\ forall j, map_get j ((s, u) :: m) = Some Freed ->
                    findEmptyLocation_loop s m <= j)
      \/ ((forall j, map_get j ((s, u) :: m) <> Some Freed)
          /\ findEmptyLocation_loop s m = s + Z.of_nat (length ((s, u) :: m)))
      -> u <> Freed ->
      (map_get (findEmptyLocation_loop (s - 1) ((s, u) :: m)) ((s, u) :: m)
       = Some Freed
       /\ forall j, map_get j ((s, u) :: m) = Some Freed ->
                    findEmptyLocation_loop (s - 1) ((s, u) :: m) <= j)
      \/ ((forall j, map_get j ((s, u) :: m) <> Some Freed)
          /\ findEmptyLocation_loop (s - 1) ((s, u) :: m)
             = s + Z.of_nat (length ((s, u) :: m)))).
    { intros H Hu. cbn [findEmptyLocation_loop]. destruct u; auto. congruence. }
    assert (Hcase : u = Freed \/ u <> Freed)
      by (destruct u; [right; discriminate|left; reflexivity|right; discriminate]).
    cbn zeta. destruct Hcase as [->|Hu].
    + left. cbn [findEmptyLocation_loop map_get]. rewrite Z.eqb_refl.
      split; [reflexivity|]. intros j Hj.
      destruct (Z.eqb_spec s j) as [->|Hne]; [lia|].
      specialize (Hkeys' j Freed Hj). lia.
    + apply Hnext; [|exact Hu]. destruct IH as [[Hget Hlow]|[Hnone Hr]].
      * left. split.
        -- cbn [map_get]. destruct (Z.eqb_spec s (findEmptyLocation_loop s m));
             [lia|exact Hget].
        -- intros j Hj. cbn [map_get] in Hj.
           destruct (Z.eqb_spec s j) as [->|Hne]; [congruence|].
           apply Hlow, Hj.
      * right. split.
        -- intros j Hj. cbn [map_get] in Hj.
           destruct (Z.eqb_spec s j) as [->|Hne]; [congruence|].
           exact (Hnone j Hj).
        -- cbn [length]. lia.
Qed.

Lemma findEmptyLocation_of_lowest m :
  dense m ->
  let r := findEmptyLocation_of m in
  (map_get r m = Some Freed /\ forall k, map_get k m = Some Freed -> r <= k)
  \/ ((forall k, map_get k m <> Some Freed) /\ r = Z.of_nat (length m)).
Proof.
  intros H. destruct (findEmptyLocation_loop_lowest m 0 H) as [Hl|[Hn Hr]];
    [left; exact Hl|].
  right. split; [exact Hn|]. unfold findEmptyLocation_of.
  change (-1) with (0 - 1). rewrite Hr. lia.
Qed.

(** After a program without [unsafe] blocks and calls the hypotheses of
    [runs_assign] on the allocator and on the tape hold: the assignment of a
    variable's cell to another variable's cell leaves the source as it
    was. *)
Lemma assign_after_safe_program
    fuel prefix st0 c st o n m compile_rec a i b j cell target v w :
  forallb safe_token prefix = true ->
  compile fuel prefix st0 = Ok (c, st) ->
  brainfuck n c o = Halted m ->
  Z.of_nat (length (memoryUsage st)) + 2 <= memorySize ->
  findVariableLocation_of a i (memoryUsage st) = Some cell ->
  findVariableLocation_of b j (memoryUsage st) = Some target ->
  target <> cell ->
  0 <= v < bits o ->
  read (memory m) cell = Num v ->
  read (memory m) target = Num w ->
  exists st' seg m',
    compileToken compile_rec
      (Assign b (IndexNumber j) (VariableRef a (IndexNumber i))) st
    = Ok (tt, st')
    /\ brainfuckCode st' = c ++ seg
    /\ runs o seg m m'
    /\ read (memory m') cell = Num v
    /\ read (memory m') target = Num v
    /\ same_except [target] m m'.
Proof.
  intros Hsafe Hcompile Hrun Hlen Ha Hb Hne Hv Hrc Hrt.
  destruct (safe_program_tape _ _ _ _ _ _ _ _ Hsafe Hcompile Hrun ltac:(lia))
    as (Hdp & Hzero & _).
  pose proof (wp_Ok _ _ _ _ _ (good_compile fuel prefix st0 Hsafe) Hcompile)
    as (-> & V & N & p & D & Oc & (Hd & _) & _).
  destruct (copy_locations _ Hd) as (H1 & H2 & Ho1 & Ho2 & _).
  assert (Hocc : forall x k loc,
             findVariableLocation_of x k (memoryUsage st) = Some loc ->
             loc ∈ occ (memoryUsage st)).
  { intros x k loc Hloc. apply named_occ.
    eapply findVariableLocation_of_named; [apply dense_NoDup, Hd|exact Hloc]. }
  destruct (runs_assign o st cell target m v w Hd Hlen (Hocc _ _ _ Ha)
              (Hocc _ _ _ Hb) Hne Hdp Hv Hrc Hrt)
    as (m' & R & _ & Hc & Ht & Hs).
  { apply Hzero; [lia|exact Ho1]. }
  { apply Hzero; [lia|exact Ho2]. }
  eexists _, _, m'.
  split; [apply (assign_variable_eq _ _ _ _ _ _ _ _ Ha Hb)|].
  simpl_state. split; [reflexivity|]. auto.
Qed.

(** The assignment of a variable to itself clears it: the target is cleared
    before the source is copied. *)
Lemma self_assignment_clears :
  exists c st m,
    compile 1 self_assignment initial_state = Ok (c, st)
    /\ findVariableLocation_of "a" 0 (memoryUsage st) = Some 0
    /\ brainfuck 1000 c (options_of_bits 16) = Halted m
    /\ read (memory m) 0 = Num 0.
Proof.
  do 3 eexists.
  split; [vm_compute; reflexivity|].
  split; [vm_compute; reflexivity|].
  split; vm_compute; reflexivity.
Qed.

(** A call resets the allocator: after it the map records no address, and
    the cell of the variable set before the call still holds 1. *)
Lemma call_forgets_occupied_cells :
  exists c st m,
    compile 2 call_after_set initial_state = Ok (c, st)
    /\ memoryUsage st = []
    /\ brainfuck 1000 c (options_of_bits 16) = Halted m
    /\ read (memory m) 0 = Num 1.
Proof.
  do 3 eexists.
  split; [vm_compute; reflexivity|].
  split; [vm_compute; reflexivity|].
  split; vm_compute; reflexivity.
Qed.

(** ** Cell arithmetic with wrap-around *)

Lemma add_rem_inc_mod z b :
  0 <= z -> 0 < b -> add_rem (Num z) 1 b = Num ((z + 1) mod b).
Proof.
  intros Hz Hb. unfold add_rem. destruct (Z.eqb_spec b 0) as [->|_]; [lia|].
  rewrite Z.rem_mod_nonneg by lia. reflexivity.
Qed.

Lemma add_rem_dec_mod z b :
  0 <= z -> 0 < b -> add_rem (Num z) (-1 + b) b = Num ((z - 1) mod b).
Proof.
  intros Hz Hb. unfold add_rem. destruct (Z.eqb_spec b 0) as [->|_]; [lia|].
  rewrite Z.rem_mod_nonneg by lia.
  replace (z + (-1 + b)) with (z - 1 + 1 * b) by lia.
  rewrite Z.mod_add by lia. reflexivity.
Qed.

Lemma set_cell_twice v w m : set_cell w (set_cell v m) = set_cell w m.
Proof.
  unfold set_cell. cbn [memory dataPointer output inputPointer].
  rewrite insert_insert_eq. reflexivity.
Qed.

(** [n] increments of the cell under the pointer. *)
Lemma exec_increments o n m z :
  0 < bits o ->
  read (memory m) (dataPointer m) = Num z -> 0 <= z < bits o ->
  exec o (straight (List.repeat "+"%char n)) m
       (if Nat.eqb n 0 then m
        else set_cell (Num ((z + Z.of_nat n) mod bits o)) m).
Proof.
  intros Hb. revert m z. induction n as [|n IH]; intros m z Hz Hr; [constructor|].
  cbn [List.repeat straight map Nat.eqb]. constructor.
  change (simple_step o "+" m)
    with (set_cell (add_rem (read (memory m) (dataPointer m)) 1 (bits o)) m).
  rewrite Hz, add_rem_inc_mod by lia.
  set (m1 := set_cell (Num ((z + 1) mod bits o)) m).
  assert (H1 : read (memory m1) (dataPointer m1) = Num ((z + 1) mod bits o))
    by apply read_insert_eq.
  pose proof (Z.mod_pos_bound (z + 1) (bits o) Hb) as Hrange.
  specialize (IH m1 _ H1 Hrange).
  destruct n as [|n'].
  - cbn [Nat.eqb] in IH. replace (z + Z.of_nat 1) with (z + 1) by lia. exact IH.
  - cbn [Nat.eqb] in IH. unfold m1 in IH. rewrite set_cell_twice in IH.
    rewrite Zplus_mod_idemp_l in IH.
    replace (z + Z.of_nat (S (S n'))) with (z + 1 + Z.of_nat (S n')) by lia.
    exact IH.
Qed.

(** [n] decrements of the cell under the pointer. *)
Lemma exec_decrements o n m z :
  0 < bits o ->
  read (memory m) (dataPointer m) = Num z -> 0 <= z < bits o ->
  exec o (straight (List.repeat "-"%char n)) m
       (if Nat.eqb n 0 then m
        else set_cell (Num ((z - Z.of_nat n) mod bits o)) m).
Proof.
  intros Hb. revert m z. induction n as [|n IH]; intros m z Hz Hr; [constructor|].
  cbn [List.repeat straight map Nat.eqb]. constructor.
  change (simple_step o "-" m)
    with (set_cell (add_rem (read (memory m) (dataPointer m)) (-1 + bits o)
                      (bits o)) m).
  rewrite Hz, add_rem_dec_mod by lia.
  set (m1 := set_cell (Num ((z - 1) mod bits o)) m).
  assert (H1 : read (memory m1) (dataPointer m1) = Num ((z - 1) mod bits o))
    by apply read_insert_eq.
  pose proof (Z.mod_pos_bound (z - 1) (bits o) Hb) as Hrange.
  specialize (IH m1 _ H1 Hrange).
  destruct n as [|n'].
  - cbn [Nat.eqb] in IH. replace (z - Z.of_nat 1) with (z - 1) by lia. exact IH.
  - cbn [Nat.eqb] in IH. unfold m1 in IH. rewrite set_cell_twice in IH.
    rewrite Zminus_mod_idemp_l in IH.
    replace (z - Z.of_nat (S (S n'))) with (z - 1 - Z.of_nat (S n')) by lia.
    exact IH.
Qed.

Lemma same_except_set_cell v m : same_except [dataPointer m] m (set_cell v m).
Proof.
  split; [reflexivity|]. split; [reflexivity|].
  intros k Hk. cbn. apply read_insert_ne. intros E. apply Hk. cbn. auto.
Qed.

Lemma runs_repeat_inc o n m :
  0 < bits o ->
  read (memory m) (dataPointer m) = Num 0 ->
  exists m',
    runs o (repeat_char "+" n) m m'
    /\ dataPointer m' = dataPointer m
    /\ read (memory m') (dataPointer m) = Num (Z.max 0 n mod bits o)
    /\ same_except [dataPointer m] m m'.
Proof.
  intros Hb Hz. unfold repeat_char.
  pose proof (exec_increments o (Z.to_nat n) m 0 Hb Hz ltac:(lia)) as Hex.
  rewrite <- (unparse_straight (List.repeat "+"%char (Z.to_nat n))).
  eexists. split; [apply exec_runs; [|exact Hex]|].
  { apply wf_straight. apply (no_bracket_repeat "+" n). reflexivity. }
  destruct (Nat.eqb_spec (Z.to_nat n) 0) as [E|E].
  - split; [reflexivity|]. split; [|apply same_except_refl].
    rewrite Hz. replace (Z.max 0 n) with 0 by lia. rewrite Z.mod_0_l by lia.
    reflexivity.
  - split; [reflexivity|]. split; [|apply same_except_set_cell].
    cbn. rewrite read_insert_eq. do 2 f_equal. lia.
Qed.

Lemma runs_repeat_dec o n m :
  0 < bits o ->
  read (memory m) (dataPointer m) = Num 0 ->
  exists m',
    runs o (repeat_char "-" n) m m'
    /\ dataPointer m' = dataPointer m
    /\ read (memory m') (dataPointer m) = Num ((- Z.max 0 n) mod bits o)
    /\ same_except [dataPointer m] m m'.
Proof.
  intros Hb Hz. unfold repeat_char.
  pose proof (exec_decrements o (Z.to_nat n) m 0 Hb Hz ltac:(lia)) as Hex.
  rewrite <- (unparse_straight (List.repeat "-"%char (Z.to_nat n))).
  eexists. split; [apply exec_runs; [|exact Hex]|].
  { apply wf_straight. apply (no_bracket_repeat "-" n). reflexivity. }
  destruct (Nat.eqb_spec (Z.to_nat n) 0) as [E|E].
  - split; [reflexivity|]. split; [|apply same_except_refl].
    rewrite Hz. replace (Z.max 0 n) with 0 by lia. rewrite Z.mod_0_l by lia.
    reflexivity.
  - split; [reflexivity|]. split; [|apply same_except_set_cell].
    cbn. rewrite read_insert_eq. do 2 f_equal. lia.
Qed.

Lemma runs_nil o m : runs o [] m m.
Proof. intros before after. exists 0%nat. reflexivity. Qed.

(** The text of [setValue], run on a cell that holds a number: the cell ends
    with the literal's value, reduced as the machine reduces cells. *)
Lemma runs_setValue o value m z :
  0 < bits o ->
  read (memory m) (dataPointer m) = Num z ->
  exists m',
    runs o (setValue_code value) m m'
    /\ dataPointer m' = dataPointer m
    /\ read (memory m') (dataPointer m) = Num (literal_value value (bits o))
    /\ same_except [dataPointer m] m m'.
Proof.
  intros Hb Hz.
  destruct (runs_clear o m z Hb Hz) as (m1 & R1 & Hdp1 & Hz1 & Hs1).
  assert (Hkeep : exists m',
             runs o (bf "[-]" ++ []) m m'
             /\ dataPointer m' = dataPointer m
             /\ read (memory m') (dataPointer m) = Num 0
             /\ same_except [dataPointer m] m m').
  { exists m1. rewrite app_nil_r. auto. }
  assert (Hinc : forall n, exists m',
             runs o (bf "[-]" ++ repeat_char "+" n) m m'
             /\ dataPointer m' = dataPointer m
             /\ read (memory m') (dataPointer m) = Num (Z.max 0 n mod bits o)
             /\ same_except [dataPointer m] m m').
  { intros n. rewrite <- Hdp1 in Hz1.
    destruct (runs_repeat_inc o n m1 Hb Hz1) as (m2 & R2 & Hdp2 & Hz2 & Hs2).
    rewrite Hdp1 in Hdp2, Hz2, Hs2.
    exists m2. split; [eapply runs_app; eassumption|].
    split; [exact Hdp2|]. split; [exact Hz2|].
    eapply same_except_trans; eassumption. }
  assert (Hdec : forall n, exists m',
             runs o (bf "[-]" ++ repeat_char "-" n) m m'
             /\ dataPointer m' = dataPointer m
             /\ read (memory m') (dataPointer m) = Num ((- Z.max 0 n) mod bits o)
             /\ same_except [dataPointer m] m m').
  { intros n. rewrite <- Hdp1 in Hz1.
    destruct (runs_repeat_dec o n m1 Hb Hz1) as (m2 & R2 & Hdp2 & Hz2 & Hs2).
    rewrite Hdp1 in Hdp2, Hz2, Hs2.
    exists m2. split; [eapply runs_app; eassumption|].
    split; [exact Hdp2|]. split; [exact Hz2|].
    eapply same_except_trans; eassumption. }
  unfold setValue_code, literal_value. destruct value as [n|s|b].
  - destruct (Z.ltb_spec 0 n) as [Hn|Hn].
    + destruct (Hinc n) as (m' & H). rewrite Z.max_r in H by lia. eauto.
    + destruct (Z.ltb_spec n 0) as [Hn'|Hn'].
      * destruct (Hdec (- n)) as (m' & H). rewrite Z.max_r in H by lia.
        rewrite Z.opp_involutive in H. eauto.
      * assert (n = 0) as -> by lia. rewrite Z.mod_0_l by lia. exact Hkeep.
  - destruct (charCodeAt0 s) as [code|] eqn:Hcode; [|exact Hkeep].
    destruct (Z.ltb_spec 0 code) as [Hc|Hc].
    + destruct (Hinc code) as (m' & H). rewrite Z.max_r in H by lia. eauto.
    + assert (Hpos : 0 <= code).
      { destruct s as [|c s']; [discriminate|]. cbn in Hcode.
        injection Hcode as <-. lia. }
      assert (code = 0) as -> by lia. rewrite Z.mod_0_l by lia. exact Hkeep.
  - destruct b; [|exact Hkeep].
    exact (Hinc 1).
Qed.

(** A loop that drains its cell into another cell, with wrap-around: the
    other cell is incremented once per turn. *)
Lemma exec_transfer_add o src dst n :
  src mod memorySize <> dst mod memorySize ->
  forall m x,
    dataPointer m = src mod memorySize ->
    read (memory m) (src mod memorySize) = Num (Z.of_nat n) ->
    read (memory m) (dst mod memorySize) = Num x ->
    0 <= x < bits o -> Z.of_nat n < bits o ->
    exists m',
      exec o [LoopI (straight (moves src dst ++ bf "+" ++ moves dst src ++ bf "-"))]
           m m'
      /\ dataPointer m' = src mod memorySize
      /\ read (memory m') (src mod memorySize) = Num 0
      /\ read (memory m') (dst mod memorySize)
         = Num ((x + Z.of_nat n) mod bits o)
      /\ same_except [src mod memorySize; dst mod memorySize] m m'.
Proof.
  intros Hne. induction n as [|n IH]; intros m x Hdp Hsrc Hdst Hx Hn.
  - exists m. split.
    + apply exec_skip; [|constructor]. unfold at_zero. rewrite Hdp, Hsrc. reflexivity.
    + split; [exact Hdp|]. split; [exact Hsrc|].
      split; [rewrite Hdst, Z.add_0_r, Z.mod_small by lia; reflexivity
             |apply same_except_refl].
  - set (ma := set_dataPointer (dst mod memorySize) m).
    set (mb := set_cell (add_rem (read (memory ma) (dataPointer ma)) 1 (bits o)) ma).
    set (mc := set_dataPointer (src mod memorySize) mb).
    set (md := set_cell (add_rem (read (memory mc) (dataPointer mc))
                           (-1 + bits o) (bits o)) mc).
    assert (Hbody : exec o (straight (moves src dst ++ bf "+" ++ moves dst src
                                      ++ bf "-")) m md).
    { rewrite !straight_app.
      eapply exec_app; [apply exec_moves, Hdp|].
      eapply exec_app; [apply exec_inc|].
      eapply exec_app; [apply (exec_moves o dst src); reflexivity|].
      apply exec_dec. }
    assert (Hmem : memory md
                   = <[src mod memorySize := Num (Z.of_nat n)]>
                       (<[dst mod memorySize := Num ((x + 1) mod bits o)]>
                          (memory m))).
    { unfold md, mc, mb, ma. simpl_machine. reads.
      rewrite Hdst, Hsrc.
      rewrite add_rem_inc_mod by lia. rewrite add_rem_dec by lia.
      do 2 f_equal. lia. }
    pose proof (Z.mod_pos_bound (x + 1) (bits o) ltac:(lia)) as Hrange.
    destruct (IH md ((x + 1) mod bits o)) as (m' & Hex & Hdp' & Hz & H1 & Hsame);
      try lia.
    + reflexivity.
    + rewrite Hmem. reads. reflexivity.
    + rewrite Hmem. reads. reflexivity.
    + exists m'. split.
      * eapply exec_iter; [|exact Hbody|exact Hex].
        unfold at_zero. rewrite Hdp, Hsrc. apply Z.eqb_neq. lia.
      * split; [exact Hdp'|]. split; [exact Hz|].
        split.
        { rewrite H1, Zplus_mod_idemp_l. do 2 f_equal. lia. }
        eapply same_except_trans; [|exact Hsame].
        split; [reflexivity|]. split; [reflexivity|].
        intros k Hk. rewrite Hmem.
        rewrite !read_insert_ne; [reflexivity| |];
          intros E; apply Hk; subst k; cbn; auto.
Qed.

(** The same loop with a decrement of the other cell per turn. *)
Lemma exec_transfer_sub o src dst n :
  src mod memorySize <> dst mod memorySize ->
  forall m x,
    dataPointer m = src mod memorySize ->
    read (memory m) (src mod memorySize) = Num (Z.of_nat n) ->
    read (memory m) (dst mod memorySize) = Num x ->
    0 <= x < bits o -> Z.of_nat n < bits o ->
    exists m',
      exec o [LoopI (straight (moves src dst ++ bf "-" ++ moves dst src ++ bf "-"))]
           m m'
      /\ dataPointer m' = src mod memorySize
      /\ read (memory m') (src mod memorySize) = Num 0
      /\ read (memory m') (dst mod memorySize)
         = Num ((x - Z.of_nat n) mod bits o)
      /\ same_except [src mod memorySize; dst mod memorySize] m m'.
Proof.
  intros Hne. induction n as [|n IH]; intros m x Hdp Hsrc Hdst Hx Hn.
  - exists m. split.
    + apply exec_skip; [|constructor]. unfold at_zero. rewrite Hdp, Hsrc. reflexivity.
    + split; [exact Hdp|]. split; [exact Hsrc|].
      split; [rewrite Hdst, Z.sub_0_r, Z.mod_small by lia; reflexivity
             |apply same_except_refl].
  - set (ma := set_dataPointer (dst mod memorySize) m).
    set (mb := set_cell (add_rem (read (memory ma) (dataPointer ma))
                           (-1 + bits o) (bits o)) ma).
    set (mc := set_dataPointer (src mod memorySize) mb).
    set (md := set_cell (add_rem (read (memory mc) (dataPointer mc))
                           (-1 + bits o) (bits o)) mc).
    assert (Hbody : exec o (straight (moves src dst ++ bf "-" ++ moves dst src
                                      ++ bf "-")) m md).
    { rewrite !straight_app.
      eapply exec_app; [apply exec_moves, Hdp|].
      eapply exec_app; [apply exec_dec|].
      eapply exec_app; [apply (exec_moves o dst src); reflexivity|].
      apply exec_dec. }
    assert (Hmem : memory md
                   = <[src mod memorySize := Num (Z.of_nat n)]>
                       (<[dst mod memorySize := Num ((x - 1) mod bits o)]>
                          (memory m))).
    { unfold md, mc, mb, ma. simpl_machine. reads.
      rewrite Hdst, Hsrc.
      rewrite (add_rem_dec_mod x) by lia.
      rewrite (add_rem_dec (Z.of_nat (S n))) by lia.
      do 2 f_equal. lia. }
    pose proof (Z.mod_pos_bound (x - 1) (bits o) ltac:(lia)) as Hrange.
    destruct (IH md ((x - 1) mod bits o)) as (m' & Hex & Hdp' & Hz & H1 & Hsame);
      try lia.
    + reflexivity.
    + rewrite Hmem. reads. reflexivity.
    + rewrite Hmem. reads. reflexivity.
    + exists m'. split.
      * eapply exec_iter; [|exact Hbody|exact Hex].
        unfold at_zero. rewrite Hdp, Hsrc. apply Z.eqb_neq. lia.
      * split; [exact Hdp'|]. split; [exact Hz|].
        split.
        { rewrite H1, Zminus_mod_idemp_l. do 2 f_equal. lia. }
        eapply same_except_trans; [|exact Hsame].
        split; [reflexivity|]. split; [reflexivity|].
        intros k Hk. rewrite Hmem.
        rewrite !read_insert_ne; [reflexivity| |];
          intros E; apply Hk; subst k; cbn; auto.
Qed.

Lemma runs_transfer_add o src dst m v x :
  src mod memorySize <> dst mod memorySize ->
  dataPointer m = src mod memorySize ->
  0 <= v < bits o -> 0 <= x < bits o ->
  read (memory m) (src mod memorySize) = Num v ->
  read (memory m) (dst mod memorySize) = Num x ->
  exists m',
    runs o (bf "[" ++ moves src dst ++ bf "+" ++ moves dst src ++ bf "-" ++ bf "]")
         m m'
    /\ dataPointer m' = src mod memorySize
    /\ read (memory m') (src mod memorySize) = Num 0
    /\ read (memory m') (dst mod memorySize) = Num ((x + v) mod bits o)
    /\ same_except [src mod memorySize; dst mod memorySize] m m'.
Proof.
  intros Hne Hdp Hv Hx Hsrc Hdst.
  assert (Hn : Z.of_nat (Z.to_nat v) = v) by lia.
  pose proof (exec_transfer_add o src dst (Z.to_nat v) Hne m x) as H.
  rewrite Hn in H.
  destruct (H Hdp Hsrc Hdst Hx ltac:(lia)) as (m' & Hex & Hrest).
  exists m'. split; [|exact Hrest].
  replace (bf "[" ++ moves src dst ++ bf "+" ++ moves dst src ++ bf "-" ++ bf "]")
    with (unparse [LoopI (straight (moves src dst ++ bf "+" ++ moves dst src
                                    ++ bf "-"))])
    by (rewrite unparse_loop_straight, <- !app_assoc; reflexivity).
  apply exec_runs; [|exact Hex].
  apply wf_loop_straight.
  repeat first [ apply no_bracket_moves | apply no_bracket_app | reflexivity ].
Qed.

Lemma runs_transfer_sub o src dst m v x :
  src mod memorySize <> dst mod memorySize ->
  dataPointer m = src mod memorySize ->
  0 <= v < bits o -> 0 <= x < bits o ->
  read (memory m) (src mod memorySize) = Num v ->
  read (memory m) (dst mod memorySize) = Num x ->
  exists m',
    runs o (bf "[" ++ moves src dst ++ bf "-" ++ moves dst src ++ bf "-" ++ bf "]")
         m m'
    /\ dataPointer m' = src mod memorySize
    /\ read (memory m') (src mod memorySize) = Num 0
    /\ read (memory m') (dst mod memorySize) = Num ((x - v) mod bits o)
    /\ same_except [src mod memorySize; dst mod memorySize] m m'.
Proof.
  intros Hne Hdp Hv Hx Hsrc Hdst.
  assert (Hn : Z.of_nat (Z.to_nat v) = v) by lia.
  pose proof (exec_transfer_sub o src dst (Z.to_nat v) Hne m x) as H.
  rewrite Hn in H.
  destruct (H Hdp Hsrc Hdst Hx ltac:(lia)) as (m' & Hex & Hrest).
  exists m'. split; [|exact Hrest].
  replace (bf "[" ++ moves src dst ++ bf "-" ++ moves dst src ++ bf "-" ++ bf "]")
    with (unparse [LoopI (straight (moves src dst ++ bf "-" ++ moves dst src
                                    ++ bf "-"))])
    by (rewrite unparse_loop_straight, <- !app_assoc; reflexivity).
  apply exec_runs; [|exact Hex].
  apply wf_loop_straight.
  repeat first [ apply no_bracket_moves | apply no_bracket_app | reflexivity ].
Qed.

(** ** The allocator map only grows *)

Lemma length_map_set k v m : (length m <= length (map_set k v m))%nat.
Proof.
  induction m as [|[k0 v0] m IH]; cbn; [lia|].
  destruct (k0 =? k); cbn; lia.
Qed.

Lemma gr_bind {A B} (m : M A) (f : A -> M B) :
  grows m -> (forall a, grows (f a)) -> grows (bind m f).
Proof.
  intros Hm Hf st. apply wp_bind. eapply wp_mono; [apply Hm|].
  intros a st1 H1. eapply wp_mono; [apply Hf|].
  intros b st2 H2. cbv beta in *. lia.
Qed.

Lemma gr_ret {A} (a : A) : grows (ret a).
Proof. intros st. cbn. lia. Qed.

Lemma gr_throw {A} e : grows (@throw A e).
Proof. intros st. exact I. Qed.

Lemma gr_eq {A} (m : M A) :
  (forall st, exists a st',
     m st = Ok (a, st')
     /\ (length (memoryUsage st) <= length (memoryUsage st'))%nat) ->
  grows m.
Proof.
  intros H st. destruct (H st) as (a & st' & E & Hx).
  eapply wp_eq; [exact E|exact Hx].
Qed.

Lemma gr_moveTo q : grows (moveTo q).
Proof.
  apply gr_eq. intros st. do 2 eexists. split; [apply moveTo_eq|]. cbn. lia.
Qed.

Lemma gr_emit s : grows (emit s).
Proof. intros st. cbn. lia. Qed.

Lemma gr_clearCell : grows clearCell.
Proof. apply gr_emit. Qed.

Lemma gr_setValue v : grows (setValue v).
Proof.
  apply gr_eq. intros st. do 2 eexists. split; [apply setValue_eq|]. cbn. lia.
Qed.

Lemma gr_memSet k v : grows (memSet k v).
Proof. intros st. cbn. apply length_map_set. Qed.

Lemma gr_findEmptyLocation : grows findEmptyLocation.
Proof. intros st. cbn. lia. Qed.

Lemma gr_findVariableLocation name i : grows (findVariableLocation name i).
Proof. intros st. cbn. lia. Qed.

Lemma gr_get : grows get.
Proof. intros st. cbn. lia. Qed.

Lemma gr_fmapM {A B} (f : A -> B) (m : M A) : grows m -> grows (fmapM f m).
Proof.
  intros Hm st. specialize (Hm st). unfold wp, fmapM in *.
  destruct (m st) as [[a st']| |]; auto.
Qed.

Lemma gr_forEach {A} (f : A -> M unit) xs :
  (forall x, grows (f x)) -> grows (forEach f xs).
Proof.
  intros Hf. induction xs as [|x xs IH].
  - apply gr_ret.
  - cbn. apply gr_bind; [apply Hf|intros _; exact IH].
Qed.

Lemma gr_forRange n (f : Z -> M unit) :
  (forall i, grows (f i)) -> grows (forRange n f).
Proof. intros Hf. apply gr_forEach, Hf. Qed.

Create HintDb gr discriminated.

Ltac gr_step :=
  first [ assumption | lazymatch goal with
  | |- grows (bind _ _) => apply gr_bind; [|intros ?]
  | |- grows (ret _) => apply gr_ret
  | |- grows (throw _) => apply gr_throw
  | |- grows get => apply gr_get
  | |- grows (moveTo _) => apply gr_moveTo
  | |- grows clearCell => apply gr_clearCell
  | |- grows (setValue _) => apply gr_setValue
  | |- grows (memSet _ _) => apply gr_memSet
  | |- grows findEmptyLocation => apply gr_findEmptyLocation
  | |- grows (findVariableLocation _ _) => apply gr_findVariableLocation
  | |- grows (emit _) => apply gr_emit
  | |- grows (forRange _ _) => apply gr_forRange; intros ?
  | |- grows (forEach _ _) => apply gr_forEach; intros ?
  | |- grows (fmapM _ _) => apply gr_fmapM
  | |- grows (match ?x with _ => _ end) => destruct x
  | |- _ => solve [auto with gr]
  end ].

Ltac gr := cbv zeta; repeat gr_step.

Lemma gr_copy cell : grows (copy cell).
Proof. unfold copy. gr. Qed.
#[local] Hint Resolve gr_copy : gr.

Lemma gr_add a b : grows (add a b).
Proof. unfold add. gr. Qed.
#[local] Hint Resolve gr_add : gr.

Lemma gr_subtract a b : grows (subtract a b).
Proof. unfold subtract. gr. Qed.
#[local] Hint Resolve gr_subtract : gr.

Lemma gr_getVariableValueAtDynamicIndex name evalIndex :
  grows evalIndex -> grows (getVariableValueAtDynamicIndex name evalIndex).
Proof. intros Hidx. unfold getVariableValueAtDynamicIndex. gr. Qed.

Lemma gr_evalValue val : grows (evalValue val).
Proof.
  induction val as [value|name index IH|operator lhs IHl rhs IHr| |i|e IH]
    using ValueToken_ind'
    with (P0 := fun index =>
                  match index with
                  | IndexNumber _ => True
                  | IndexExpr e => grows (evalValue e)
                  end).
  - cbn [evalValue]. gr.
  - cbn [evalValue]. destruct index as [i|e].
    + gr.
    + apply gr_getVariableValueAtDynamicIndex. exact IH.
  - cbn [evalValue]. destruct operator; gr.
  - cbn [evalValue]. gr.
  - exact I.
  - exact IH.
Qed.
#[local] Hint Resolve gr_evalValue : gr.

(** ** Composition of computations with the machine beside them *)

Lemma computes_bind {A B} o (c : M A) (f : A -> M B) st m
    (Q : B -> cstate -> machine -> Prop) :
  (forall a, grows (f a)) ->
  computes o c st m (fun a st1 m1 => computes o (f a) st1 m1 Q) ->
  computes o (bind c f) st m Q.
Proof.
  intros Hf Hc b st2 Hbind Hlen.
  apply bind_Ok in Hbind as (a & st1 & Hc1 & Hf1).
  pose proof (wp_Ok _ _ _ _ _ (Hf a st1) Hf1) as Hgrow. cbv beta in Hgrow.
  destruct (Hc a st1 Hc1 ltac:(lia)) as (seg1 & m1 & Hcode1 & R1 & Hrest).
  destruct (Hrest b st2 Hf1 Hlen) as (seg2 & m2 & Hcode2 & R2 & HQ).
  exists (seg1 ++ seg2), m2.
  split; [rewrite Hcode2, Hcode1, app_assoc; reflexivity|].
  split; [eapply runs_app; eassumption|exact HQ].
Qed.

Lemma computes_ret {A} o (a : A) st m (Q : A -> cstate -> machine -> Prop) :
  Q a st m -> computes o (ret a) st m Q.
Proof.
  intros HQ a' st' [= <- <-] _. exists [], m.
  split; [rewrite app_nil_r; reflexivity|]. split; [apply runs_nil|exact HQ].
Qed.

Lemma computes_throw {A} o e st m (Q : A -> cstate -> machine -> Prop) :
  computes o (throw e) st m Q.
Proof. intros a st' H. discriminate. Qed.

Lemma computes_mono {A} o (c : M A) st m (Q Q' : A -> cstate -> machine -> Prop) :
  computes o c st m Q ->
  (forall a st' m', Q a st' m' -> Q' a st' m') ->
  computes o c st m Q'.
Proof.
  intros Hc HQ a st' E Hlen.
  destruct (Hc a st' E Hlen) as (seg & m' & H1 & H2 & H3).
  exists seg, m'. auto.
Qed.

Lemma computes_eq {A} o (c : M A) st m a st1 seg
    (Q : A -> cstate -> machine -> Prop) :
  c st = Ok (a, st1) ->
  brainfuckCode st1 = brainfuckCode st ++ seg ->
  (Z.of_nat (length (memoryUsage st1)) <= memorySize ->
   exists m1, runs o seg m m1 /\ Q a st1 m1) ->
  computes o c st m Q.
Proof.
  intros E Hcode H a' st' E' Hlen. rewrite E in E'. injection E' as <- <-.
  destruct (H Hlen) as (m1 & R & HQ). exists seg, m1. auto.
Qed.

(** ** Lookups of variables across allocations *)

Lemma findVariableLocation_of_map_set x i k u m :
  is_named (Some u) = false -> k ∉ named m ->
  findVariableLocation_of x i (map_set k u m) = findVariableLocation_of x i m.
Proof.
  intros Hu Hk. rewrite elem_of_named in Hk.
  induction m as [|[k0 u0] m IH].
  - cbn. destruct u as [[n j] t| |]; [discriminate|reflexivity|reflexivity].
  - cbn [map_set map_get] in *. destruct (Z.eqb_spec k0 k) as [->|Hne].
    + cbn [findVariableLocation_of].
      destruct u0 as [[n0 j0] t0| |]; [exfalso; apply Hk; reflexivity| |];
        destruct u as [[n j] t| |]; try discriminate; reflexivity.
    + cbn [findVariableLocation_of]. rewrite IH by exact Hk. reflexivity.
Qed.

Lemma dense_key_lt m k v :
  dense m -> map_get k m = Some v -> 0 <= k < Z.of_nat (length m).
Proof.
  intros Hd Hk. apply (dense_In m k Hd). eapply map_get_Some_In, Hk.
Qed.

(** The map after [copy], and where its two cells are. *)
Lemma copy_map_facts m :
  dense m ->
  let l1 := copy_location1 m in
  let l2 := copy_location2 m in
  let m' := map_set l1 Freed (map_set l2 Temporary (map_set l1 Temporary m)) in
  dense m'
  /\ (length m <= length m')%nat
  /\ 0 <= l1 < Z.of_nat (length m')
  /\ 0 <= l2 < Z.of_nat (length m')
  /\ occ m' = occ m ∪ {[l2]}
  /\ (l1 ∉ occ m) /\ (l2 ∉ occ m) /\ l1 <> l2
  /\ named m' = named m
  /\ forall x i, findVariableLocation_of x i m' = findVariableLocation_of x i m.
Proof.
  intros Hd. cbv zeta.
  destruct (copy_locations m Hd) as (H1 & H2 & Ho1 & Ho2 & H12).
  unfold copy_location2 in *.
  set (l1 := copy_location1 m) in *.
  set (l2 := findEmptyLocation_of (map_set l1 Temporary m)) in *.
  destruct (dense_map_set m l1 Temporary Hd H1) as [Hd1 Hlen1].
  destruct (findEmptyLocation_of_spec _ Hd1) as [Hr2 _]. fold l2 in Hr2.
  destruct (dense_map_set _ l2 Temporary Hd1 Hr2) as [Hd2 Hlen2].
  assert (Hk1 : 0 <= l1 < Z.of_nat (length (map_set l2 Temporary
                                            (map_set l1 Temporary m)))).
  { apply (dense_key_lt _ _ Temporary Hd2).
    rewrite !map_get_map_set. destruct (Z.eqb_spec l2 l1); [lia|].
    rewrite Z.eqb_refl. reflexivity. }
  destruct (dense_map_set _ l1 Freed Hd2 ltac:(lia)) as [Hd3 Hlen3].
  pose proof (named_occ m) as Hnamed.
  split; [exact Hd3|]. split; [lia|].
  split.
  { apply (dense_key_lt _ _ Freed Hd3). rewrite map_get_map_set, Z.eqb_refl.
    reflexivity. }
  split.
  { apply (dense_key_lt _ _ Temporary Hd3). rewrite !map_get_map_set.
    destruct (Z.eqb_spec l1 l2); [lia|]. rewrite Z.eqb_refl. reflexivity. }
  split.
  { rewrite occ_map_set_Freed, !occ_map_set_Temporary. set_solver. }
  split; [exact Ho1|]. split; [exact Ho2|]. split; [exact H12|].
  assert (Hn1 : named (map_set l1 Temporary m) = named m)
    by (apply named_map_set; [reflexivity|set_solver]).
  assert (Hn2 : named (map_set l2 Temporary (map_set l1 Temporary m)) = named m)
    by (rewrite named_map_set; [exact Hn1|reflexivity|rewrite Hn1; set_solver]).
  split.
  { rewrite named_map_set; [exact Hn2|reflexivity|rewrite Hn2; set_solver]. }
  intros x i.
  rewrite findVariableLocation_of_map_set;
    [|reflexivity|rewrite Hn2; set_solver].
  rewrite findVariableLocation_of_map_set;
    [|reflexivity|rewrite Hn1; set_solver].
  apply findVariableLocation_of_map_set; [reflexivity|set_solver].
Qed.

(** [copy], with the machine beside it: the new cell holds the source's
    value and everything the allocator knew is as it was. *)
Lemma copy_evaluated o st m cell v :
  tape_ok o st m ->
  cell ∈ occ (memoryUsage st) ->
  read (memory m) cell = Num v ->
  computes o (copy cell) st m
    (fun r st' m' =>
       evaluated o st m r v st' m'
       /\ (r ∉ occ (memoryUsage st))
       /\ occ (memoryUsage st') = occ (memoryUsage st) ∪ {[r]}).
Proof.
  intros (Hd & Hdp & Hzero & Hrange) Hcell Hv.
  eapply computes_eq; [apply copy_eq|simpl_state; reflexivity|].
  cbv zeta. simpl_state. intros Hlen.
  destruct (copy_map_facts _ Hd)
    as (Hd' & Hgrow & H1 & H2 & Hocc & Ho1 & Ho2 & H12 & Hnamed & Hfind).
  set (l1 := copy_location1 (memoryUsage st)) in *.
  set (l2 := copy_location2 (memoryUsage st)) in *.
  pose proof (dense_occ _ _ Hd Hcell) as Hc.
  destruct (Hrange cell Hcell) as (v' & Hv' & Hvr).
  rewrite Hv in Hv'. injection Hv' as <-.
  assert (Ec : cell mod memorySize = cell) by (apply Z.mod_small; lia).
  assert (E1 : l1 mod memorySize = l1) by (apply Z.mod_small; lia).
  assert (E2 : l2 mod memorySize = l2) by (apply Z.mod_small; lia).
  destruct (exec_copy o (pointerLocation st) cell l1 l2 m v)
    as (m' & Hex & Hdp' & Hrc & Hr2 & Hr1 & Hsame);
    rewrite ?Ec, ?E1, ?E2; try assumption.
  { intros ->. contradiction. }
  { intros ->. contradiction. }
  { apply Hzero; [lia|exact Ho1]. }
  { apply Hzero; [lia|exact Ho2]. }
  rewrite Ec, E1, E2 in *.
  destruct Hsame as (Hout & Hin & Hmem).
  exists m'. split.
  { rewrite <- unparse_copy_prog. apply exec_runs; [apply wf_copy_prog|exact Hex]. }
  assert (Hkeep : forall k, k <> l2 -> read (memory m') k = read (memory m) k).
  { intros k Hk. apply Hmem. intros [E|[]]. congruence. }
  split; [|split; [exact Ho2|exact Hocc]].
  unfold evaluated, tape_ok. simpl_state.
  split.
  { split; [exact Hd'|]. split; [rewrite E1; exact Hdp'|]. split.
    - intros a Ha Hocc'. rewrite Hocc in Hocc'.
      rewrite Hkeep by set_solver. apply Hzero; [exact Ha|set_solver].
    - intros a Ha. rewrite Hocc in Ha.
      destruct (Z.eq_dec a l2) as [->|Hne]; [exists v; auto|].
      rewrite Hkeep by exact Hne. apply Hrange. set_solver. }
  split; [rewrite Hocc; set_solver|]. split; [exact Hfind|].
  split; [exact Hnamed|].
  split; [rewrite Hocc; set_solver|]. split; [exact Hr2|].
  split; [|auto].
  intros k Hk. apply Hkeep. intros ->. contradiction.
Qed.

(** ** Moves followed by a loop *)

Lemma same_except_set_dataPointer cells dp m m' :
  same_except cells (set_dataPointer dp m) m' -> same_except cells m m'.
Proof. exact (fun H => H). Qed.

(** To the cell [src], which is then drained into [dst]: added to it when
    [plus], subtracted from it otherwise. *)
Lemma runs_move_transfer o (plus : bool) p src dst m v x :
  dataPointer m = p mod memorySize ->
  0 <= src < memorySize -> 0 <= dst < memorySize -> src <> dst ->
  0 <= v < bits o -> 0 <= x < bits o ->
  read (memory m) src = Num v ->
  read (memory m) dst = Num x ->
  exists m',
    runs o (moves p src ++ bf "[" ++ moves src dst
            ++ (if plus then bf "+" else bf "-") ++ moves dst src
            ++ bf "-" ++ bf "]") m m'
    /\ dataPointer m' = src
    /\ read (memory m') src = Num 0
    /\ read (memory m') dst = Num ((if plus then x + v else x - v) mod bits o)
    /\ same_except [src; dst] m m'.
Proof.
  intros Hdp Hsrc Hdst Hne Hv Hx Hrs Hrd.
  assert (Es : src mod memorySize = src) by (apply Z.mod_small; lia).
  assert (Ed : dst mod memorySize = dst) by (apply Z.mod_small; lia).
  pose proof (runs_moves o p src m Hdp) as R1. rewrite Es in R1.
  set (m1 := set_dataPointer src m) in *.
  destruct plus.
  - destruct (runs_transfer_add o src dst m1 v x) as (m' & R2 & Hdp' & H0 & Hres & Hsame);
      rewrite ?Es, ?Ed; try assumption; try reflexivity.
    rewrite Es, Ed in *.
    exists m'. split; [eapply runs_app; eassumption|]. auto.
  - destruct (runs_transfer_sub o src dst m1 v x) as (m' & R2 & Hdp' & H0 & Hres & Hsame);
      rewrite ?Es, ?Ed; try assumption; try reflexivity.
    rewrite Es, Ed in *.
    exists m'. split; [eapply runs_app; eassumption|]. auto.
Qed.

(** To the cell [c], which is then cleared. *)
Lemma runs_move_clear o p c m z :
  0 < bits o ->
  dataPointer m = p mod memorySize ->
  0 <= c < memorySize ->
  read (memory m) c = Num z ->
  exists m',
    runs o (moves p c ++ bf "[-]") m m'
    /\ dataPointer m' = c
    /\ read (memory m') c = Num 0
    /\ same_except [c] m m'.
Proof.
  intros Hb Hdp Hc Hz.
  assert (Ec : c mod memorySize = c) by (apply Z.mod_small; lia).
  pose proof (runs_moves o p c m Hdp) as R1. rewrite Ec in R1.
  set (m1 := set_dataPointer c m) in *.
  destruct (runs_clear o m1 z Hb Hz) as (m' & R2 & Hdp' & H0 & Hsame).
  change (dataPointer m1) with c in *.
  exists m'. split; [eapply runs_app; eassumption|]. auto.
Qed.

Lemma same_except_read cells m m' k :
  same_except cells m m' -> ~ In k cells -> read (memory m') k = read (memory m) k.
Proof. intros (_ & _ & H) Hk. apply H, Hk. Qed.

Lemma same_except_output cells m m' :
  same_except cells m m' ->
  output m' = output m /\ inputPointer m' = inputPointer m.
Proof. intros (H1 & H2 & _). auto. Qed.

(** ** The two loops of [add] and [subtract]

    The part [add] and [subtract] share: the copy [cA] is moved into the
    result cell [t], the copy [cB] is added to it or subtracted from it, and
    both copies are cleared and freed. *)
Lemma arithmetic_tail o (plus : bool) cA cB t st m va vb :
  tape_ok o st m ->
  cA ∈ occ (memoryUsage st) -> cB ∈ occ (memoryUsage st) ->
  t ∈ occ (memoryUsage st) ->
  cA <> cB -> cA <> t -> cB <> t ->
  cA ∉ named (memoryUsage st) -> cB ∉ named (memoryUsage st) ->
  read (memory m) cA = Num va ->
  read (memory m) cB = Num vb ->
  read (memory m) t = Num 0 ->
  computes o
    (moveTo cA ;; emit (bf "[") ;; moveTo t ;; emit (bf "+") ;;
     moveTo cA ;; emit (bf "-") ;; emit (bf "]") ;;
     moveTo cB ;; emit (bf "[") ;; moveTo t ;;
     emit (if plus then bf "+" else bf "-") ;;
     moveTo cB ;; emit (bf "-") ;; emit (bf "]") ;;
     moveTo cA ;; clearCell ;; memSet cA Freed ;;
     moveTo cB ;; clearCell ;; memSet cB Freed ;;
     ret t) st m
    (fun r st' m' =>
       r = t
       /\ tape_ok o st' m'
       /\ occ (memoryUsage st') = occ (memoryUsage st) ∖ {[cA]} ∖ {[cB]}
       /\ (forall x i, findVariableLocation_of x i (memoryUsage st')
                       = findVariableLocation_of x i (memoryUsage st))
       /\ named (memoryUsage st') = named (memoryUsage st)
       /\ read (memory m') t
          = Num ((if plus then va + vb else va - vb) mod bits o)
       /\ (forall k, k <> cA -> k <> cB -> k <> t ->
                     read (memory m') k = read (memory m) k)
       /\ output m' = output m
       /\ inputPointer m' = inputPointer m).
Proof.
  intros (Hd & Hdp & Hzero & Hrange) HcA HcB Ht Hab Hat Hbt HnA HnB HrA HrB Hrt.
  set (p := pointerLocation st).
  eapply (computes_eq _ _ _ _ _ _
            ((moves p cA ++ bf "[" ++ moves cA t ++ bf "+" ++ moves t cA
              ++ bf "-" ++ bf "]")
             ++ (moves cA cB ++ bf "[" ++ moves cB t
                 ++ (if plus then bf "+" else bf "-") ++ moves t cB
                 ++ bf "-" ++ bf "]")
             ++ (moves cB cA ++ bf "[-]")
             ++ (moves cA cB ++ bf "[-]"))).
  { do 20 run_prim. reflexivity. }
  { simpl_state. fold p. rewrite <- !app_assoc. reflexivity. }
  simpl_state. intros Hlen.
  pose proof (length_map_set cA Freed (memoryUsage st)) as HlenA.
  pose proof (length_map_set cB Freed (map_set cA Freed (memoryUsage st))) as HlenB.
  pose proof (dense_occ _ _ Hd HcA) as HkA.
  pose proof (dense_occ _ _ Hd HcB) as HkB.
  pose proof (dense_occ _ _ Hd Ht) as Hkt.
  destruct (Hrange cA HcA) as (va' & EA & HvA). rewrite HrA in EA.
  injection EA as <-.
  destruct (Hrange cB HcB) as (vb' & EB & HvB). rewrite HrB in EB.
  injection EB as <-.
  assert (Hb : 0 < bits o) by lia.
  (* the first copy is moved into the result *)
  destruct (runs_move_transfer o true p cA t m va 0)
    as (m1 & R1 & Hdp1 & H1A & H1t & Hs1); try assumption; try lia.
  rewrite Z.add_0_l, Z.mod_small in H1t by lia.
  (* the second copy is added or subtracted *)
  destruct (runs_move_transfer o plus cA cB t m1 vb va)
    as (m2 & R2 & Hdp2 & H2B & H2t & Hs2); try assumption; try lia.
  { rewrite Z.mod_small by lia. exact Hdp1. }
  { rewrite (same_except_read _ _ _ _ Hs1); [exact HrB|].
    intros [E|[E|[]]]; lia. }
  (* the copies are cleared *)
  destruct (runs_move_clear o cB cA m2 0)
    as (m3 & R3 & Hdp3 & H3A & Hs3); try assumption; try lia.
  { rewrite Z.mod_small by lia. exact Hdp2. }
  { rewrite (same_except_read _ _ _ _ Hs2); [exact H1A|].
    intros [E|[E|[]]]; lia. }
  destruct (runs_move_clear o cA cB m3 0)
    as (m4 & R4 & Hdp4 & H4B & Hs4); try assumption; try lia.
  { rewrite Z.mod_small by lia. exact Hdp3. }
  { rewrite (same_except_read _ _ _ _ Hs3); [exact H2B|].
    intros [E|[]]; lia. }
  assert (H4A : read (memory m4) cA = Num 0).
  { rewrite (same_except_read _ _ _ _ Hs4); [exact H3A|].
    intros [E|[]]; lia. }
  assert (H4t : read (memory m4) t
                = Num ((if plus then va + vb else va - vb) mod bits o)).
  { rewrite (same_except_read _ _ _ _ Hs4) by (intros [E|[]]; lia).
    rewrite (same_except_read _ _ _ _ Hs3) by (intros [E|[]]; lia).
    exact H2t. }
  assert (Hframe : forall k, k <> cA -> k <> cB -> k <> t ->
                             read (memory m4) k = read (memory m) k).
  { intros k H1 H2 H3.
    rewrite (same_except_read _ _ _ _ Hs4) by (intros [E|[]]; lia).
    rewrite (same_except_read _ _ _ _ Hs3) by (intros [E|[]]; lia).
    rewrite (same_except_read _ _ _ _ Hs2) by (intros [E|[E|[]]]; lia).
    apply (same_except_read _ _ _ _ Hs1). intros [E|[E|[]]]; lia. }
  destruct (dense_map_set _ cA Freed Hd ltac:(lia)) as [HdA _].
  destruct (dense_map_set _ cB Freed HdA ltac:(lia)) as [HdB _].
  assert (Hocc : occ (map_set cB Freed (map_set cA Freed (memoryUsage st)))
                 = occ (memoryUsage st) ∖ {[cA]} ∖ {[cB]})
    by (rewrite !occ_map_set_Freed; reflexivity).
  assert (HnA' : named (map_set cA Freed (memoryUsage st))
                 = named (memoryUsage st))
    by (apply named_map_set; [reflexivity|exact HnA]).
  exists m4. split.
  { eapply runs_app; [exact R1|]. eapply runs_app; [exact R2|].
    eapply runs_app; [exact R3|exact R4]. }
  split; [reflexivity|]. split.
  { unfold tape_ok. simpl_state. split; [exact HdB|].
    split; [rewrite Z.mod_small by lia; exact Hdp4|]. split.
    - intros a Ha Hocc'. rewrite Hocc in Hocc'.
      destruct (Z.eq_dec a cA) as [->|HneA]; [exact H4A|].
      destruct (Z.eq_dec a cB) as [->|HneB]; [exact H4B|].
      assert (a ∉ occ (memoryUsage st)) by set_solver.
      rewrite Hframe; [apply Hzero; assumption|assumption..|].
      intros ->. contradiction.
    - intros a Ha. rewrite Hocc in Ha.
      destruct (Z.eq_dec a t) as [->|Hnet].
      + eexists. split; [exact H4t|]. apply Z.mod_pos_bound. exact Hb.
      + rewrite Hframe by set_solver. apply Hrange. set_solver. }
  split; [exact Hocc|]. split.
  { intros x i.
    rewrite findVariableLocation_of_map_set;
      [|reflexivity|rewrite HnA'; exact HnB].
    apply findVariableLocation_of_map_set; [reflexivity|exact HnA]. }
  split.
  { rewrite named_map_set; [exact HnA'|reflexivity|rewrite HnA'; exact HnB]. }
  split; [exact H4t|]. split; [exact Hframe|].
  destruct (same_except_output _ _ _ Hs1) as [O1 I1].
  destruct (same_except_output _ _ _ Hs2) as [O2 I2].
  destruct (same_except_output _ _ _ Hs3) as [O3 I3].
  destruct (same_except_output _ _ _ Hs4) as [O4 I4].
  split; congruence.
Qed.

(** ** Allocation of a result cell *)

Lemma computes_len {A} o (c : M A) st m (Q : A -> cstate -> machine -> Prop) :
  grows c ->
  (Z.of_nat (length (memoryUsage st)) <= memorySize -> computes o c st m Q) ->
  computes o c st m Q.
Proof.
  intros Hg H a st' E Hlen.
  pose proof (wp_Ok _ _ _ _ _ (Hg st) E) as Hgrow. cbv beta in Hgrow.
  apply H; [lia|exact E|exact Hlen].
Qed.

Lemma computes_alloc {B} o (f : Z -> M B) st m
    (Q : B -> cstate -> machine -> Prop) :
  computes o (f (findEmptyLocation_of (memoryUsage st)))
    (set_memoryUsage
       (map_set (findEmptyLocation_of (memoryUsage st)) Temporary
          (memoryUsage st)) st) m Q ->
  computes o (t <- findEmptyLocation ;; memSet t Temporary ;; f t) st m Q.
Proof.
  intros H b st' E Hlen.
  unfold bind at 1 in E. rewrite findEmptyLocation_eq in E. cbv beta iota in E.
  unfold bind at 1 in E. rewrite memSet_eq in E. cbv beta iota in E.
  destruct (H b st' E Hlen) as (seg & m' & Hc & R & HQ).
  exists seg, m'. split; [exact Hc|]. split; [exact R|exact HQ].
Qed.

(** The map with one more temporary cell, at the place [findEmptyLocation]
    gives. *)
Lemma alloc_map_facts mu :
  dense mu ->
  let t := findEmptyLocation_of mu in
  let mu' := map_set t Temporary mu in
  dense mu'
  /\ (length mu <= length mu')%nat
  /\ 0 <= t < Z.of_nat (length mu')
  /\ (t ∉ occ mu)
  /\ occ mu' = occ mu ∪ {[t]}
  /\ named mu' = named mu
  /\ forall x i, findVariableLocation_of x i mu' = findVariableLocation_of x i mu.
Proof.
  intros Hd. cbv zeta.
  destruct (findEmptyLocation_of_spec mu Hd) as [Hr Ho].
  set (t := findEmptyLocation_of mu) in *.
  destruct (dense_map_set mu t Temporary Hd Hr) as [Hd1 Hlen1].
  pose proof (named_occ mu) as Hnamed.
  split; [exact Hd1|]. split; [lia|]. split.
  { apply (dense_key_lt _ _ Temporary Hd1). rewrite map_get_map_set, Z.eqb_refl.
    reflexivity. }
  split; [exact Ho|]. split; [apply occ_map_set_Temporary|].
  split; [apply named_map_set; [reflexivity|set_solver]|].
  intros x i. apply findVariableLocation_of_map_set; [reflexivity|set_solver].
Qed.

Lemma alloc_tape_ok o st m :
  tape_ok o st m -> 0 < bits o ->
  let t := findEmptyLocation_of (memoryUsage st) in
  let st1 := set_memoryUsage (map_set t Temporary (memoryUsage st)) st in
  Z.of_nat (length (memoryUsage st1)) <= memorySize ->
  tape_ok o st1 m /\ read (memory m) t = Num 0.
Proof.
  intros (Hd & Hdp & Hzero & Hrange) Hb. cbv zeta. simpl_state. intros Hlen.
  destruct (alloc_map_facts _ Hd) as (Hd' & Hgrow & Ht & Ho & Hocc & Hn & Hf).
  set (t := findEmptyLocation_of (memoryUsage st)) in *.
  assert (Hrt : read (memory m) t = Num 0) by (apply Hzero; [lia|exact Ho]).
  split; [|exact Hrt].
  unfold tape_ok. simpl_state. split; [exact Hd'|]. split; [exact Hdp|]. split.
  - intros a Ha Hocc'. rewrite Hocc in Hocc'. apply Hzero; [exact Ha|set_solver].
  - intros a Ha. rewrite Hocc in Ha.
    destruct (Z.eq_dec a t) as [->|Hne]; [exists 0; split; [exact Hrt|lia]|].
    apply Hrange. set_solver.
Qed.

(** ** [add] and [subtract] *)

Lemma tape_ok_bits o st m k :
  tape_ok o st m -> k ∈ occ (memoryUsage st) -> 0 < bits o.
Proof.
  intros (_ & _ & _ & Hrange) Hk. destruct (Hrange k Hk) as (z & _ & Hz). lia.
Qed.

Lemma arithmetic_evaluated o (plus : bool) st st3 m m3 a b va vb cA cB t :
  tape_ok o st m ->
  a ∈ occ (memoryUsage st) -> b ∈ occ (memoryUsage st) ->
  tape_ok o st3 m3 ->
  occ (memoryUsage st3) = occ (memoryUsage st) ∪ {[cA]} ∪ {[cB]} ∪ {[t]} ->
  (cA ∉ occ (memoryUsage st)) -> (cB ∉ occ (memoryUsage st)) ->
  (t ∉ occ (memoryUsage st)) ->
  cA <> cB -> cA <> t -> cB <> t ->
  named (memoryUsage st3) = named (memoryUsage st) ->
  (forall x i, findVariableLocation_of x i (memoryUsage st3)
               = findVariableLocation_of x i (memoryUsage st)) ->
  (forall k, k ∈ occ (memoryUsage st) ->
             read (memory m3) k = read (memory m) k) ->
  output m3 = output m -> inputPointer m3 = inputPointer m ->
  read (memory m3) cA = Num va ->
  read (memory m3) cB = Num vb ->
  read (memory m3) t = Num 0 ->
  computes o
    (moveTo cA ;; emit (bf "[") ;; moveTo t ;; emit (bf "+") ;;
     moveTo cA ;; emit (bf "-") ;; emit (bf "]") ;;
     moveTo cB ;; emit (bf "[") ;; moveTo t ;;
     emit (if plus then bf "+" else bf "-") ;;
     moveTo cB ;; emit (bf "-") ;; emit (bf "]") ;;
     moveTo cA ;; clearCell ;; memSet cA Freed ;;
     moveTo cB ;; clearCell ;; memSet cB Freed ;;
     ret t) st3 m3
    (fun r st' m' =>
       evaluated o st m r ((if plus then va + vb else va - vb) mod bits o) st' m'
       /\ (r ∉ occ (memoryUsage st))
       /\ occ (memoryUsage st') = occ (memoryUsage st) ∪ {[r]}).
Proof.
  intros Htape Ha Hb Ht3 Hocc3 HoA HoB Hot Hab Hat Hbt Hn3 Hf3 Hfr3 Hout3 Hin3
    HrA HrB Hrt.
  pose proof (named_occ (memoryUsage st)) as Hnamed.
  eapply computes_mono.
  { apply (arithmetic_tail o plus cA cB t st3 m3 va vb); try assumption.
    - rewrite Hocc3. set_solver.
    - rewrite Hocc3. set_solver.
    - rewrite Hocc3. set_solver.
    - rewrite Hn3. set_solver.
    - rewrite Hn3. set_solver. }
  cbv beta.
  intros r st' m' (-> & Ht' & Hocc' & Hf' & Hn' & Hres & Hframe & Hout & Hin).
  assert (Hocc : occ (memoryUsage st') = occ (memoryUsage st) ∪ {[t]}).
  { rewrite Hocc', Hocc3. apply set_eq. intros k.
    destruct (Z.eq_dec k cA) as [EA|NA]; destruct (Z.eq_dec k cB) as [EB|NB];
      set_solver. }
  split; [|split; [exact Hot|exact Hocc]].
  unfold evaluated. split; [exact Ht'|].
  split; [rewrite Hocc; set_solver|].
  split; [intros x i; rewrite Hf'; apply Hf3|].
  split; [rewrite Hn'; exact Hn3|].
  split; [rewrite Hocc; set_solver|]. split; [exact Hres|].
  split; [|split; congruence].
  intros k Hk. rewrite Hframe; [apply Hfr3; exact Hk|set_solver..].
Qed.

Lemma add_evaluated o st m a b va vb :
  tape_ok o st m ->
  a ∈ occ (memoryUsage st) -> b ∈ occ (memoryUsage st) ->
  read (memory m) a = Num va -> read (memory m) b = Num vb ->
  computes o (add a b) st m
    (fun r st' m' =>
       evaluated o st m r ((va + vb) mod bits o) st' m'
       /\ (r ∉ occ (memoryUsage st))
       /\ occ (memoryUsage st') = occ (memoryUsage st) ∪ {[r]}).
Proof.
  intros Htape Ha Hb Hra Hrb. unfold add.
  pose proof (tape_ok_bits _ _ _ _ Htape Ha) as Hbits.
  apply computes_bind; [intros; gr|].
  eapply computes_mono; [apply (copy_evaluated o st m a va); assumption|].
  cbv beta. intros cA st1 m1 (Hev1 & HoA & Hocc1).
  destruct Hev1 as (Ht1 & Hsub1 & Hf1 & Hn1 & HcA & HvA & Hfr1 & Hout1 & Hin1).
  apply computes_bind; [intros; gr|].
  eapply computes_mono.
  { apply (copy_evaluated o st1 m1 b vb);
      [exact Ht1|set_solver|rewrite Hfr1 by exact Hb; exact Hrb]. }
  cbv beta. intros cB st2 m2 (Hev2 & HoB & Hocc2).
  destruct Hev2 as (Ht2 & Hsub2 & Hf2 & Hn2 & HcB & HvB & Hfr2 & Hout2 & Hin2).
  apply computes_alloc. apply computes_len; [gr|]. intros Hlen.
  destruct (alloc_tape_ok o st2 m2 Ht2 Hbits Hlen) as [Ht3 Hrt].
  destruct Ht2 as (Hd2 & _).
  destruct (alloc_map_facts _ Hd2) as (_ & _ & _ & Hot & Hocc3 & Hn3 & Hf3).
  set (t := findEmptyLocation_of (memoryUsage st2)) in *.
  apply (arithmetic_evaluated o true st _ m m2 a b va vb cA cB t);
    simpl_state; try assumption.
  - rewrite Hocc3, Hocc2, Hocc1. reflexivity.
  - set_solver.
  - set_solver.
  - intros ->. set_solver.
  - intros ->. set_solver.
  - intros ->. set_solver.
  - congruence.
  - intros x i. rewrite Hf3, Hf2. apply Hf1.
  - intros k Hk. rewrite Hfr2 by set_solver. apply Hfr1. exact Hk.
  - congruence.
  - congruence.
  - rewrite Hfr2 by exact HcA. exact HvA.
Qed.

Lemma subtract_evaluated o st m a b va vb :
  tape_ok o st m ->
  a ∈ occ (memoryUsage st) -> b ∈ occ (memoryUsage st) ->
  read (memory m) a = Num va -> read (memory m) b = Num vb ->
  computes o (subtract a b) st m
    (fun r st' m' =>
       evaluated o st m r ((va - vb) mod bits o) st' m'
       /\ (r ∉ occ (memoryUsage st))
       /\ occ (memoryUsage st') = occ (memoryUsage st) ∪ {[r]}).
Proof.
  intros Htape Ha Hb Hra Hrb. unfold subtract.
  pose proof (tape_ok_bits _ _ _ _ Htape Ha) as Hbits.
  apply computes_alloc. apply computes_len; [gr|]. intros Hlen.
  destruct (alloc_tape_ok o st m Htape Hbits Hlen) as [Ht0 Hrt].
  pose proof Htape as (Hd & _).
  destruct (alloc_map_facts _ Hd) as (_ & _ & _ & Hot & Hocc0 & Hn0 & Hf0).
  set (t := findEmptyLocation_of (memoryUsage st)) in *.
  set (st0 := set_memoryUsage (map_set t Temporary (memoryUsage st)) st) in *.
  change (occ (memoryUsage st0) = occ (memoryUsage st) ∪ {[t]}) in Hocc0.
  change (named (memoryUsage st0) = named (memoryUsage st)) in Hn0.
  change (forall x i, findVariableLocation_of x i (memoryUsage st0)
                      = findVariableLocation_of x i (memoryUsage st)) in Hf0.
  apply computes_bind; [intros; gr|].
  eapply computes_mono.
  { apply (copy_evaluated o st0 m a va); [exact Ht0|set_solver|exact Hra]. }
  cbv beta. intros cA st1 m1 (Hev1 & HoA & Hocc1).
  destruct Hev1 as (Ht1 & Hsub1 & Hf1 & Hn1 & HcA & HvA & Hfr1 & Hout1 & Hin1).
  apply computes_bind; [intros; gr|].
  eapply computes_mono.
  { apply (copy_evaluated o st1 m1 b vb);
      [exact Ht1|set_solver|rewrite Hfr1 by set_solver; exact Hrb]. }
  cbv beta. intros cB st2 m2 (Hev2 & HoB & Hocc2).
  destruct Hev2 as (Ht2 & Hsub2 & Hf2 & Hn2 & HcB & HvB & Hfr2 & Hout2 & Hin2).
  apply (arithmetic_evaluated o false st _ m m2 a b va vb cA cB t);
    try assumption.
  - rewrite Hocc2, Hocc1, Hocc0. set_solver.
  - set_solver.
  - set_solver.
  - intros ->. set_solver.
  - intros ->. set_solver.
  - intros ->. set_solver.
  - congruence.
  - intros x i. rewrite Hf2, Hf1. apply Hf0.
  - intros k Hk. rewrite Hfr2 by set_solver. apply Hfr1. set_solver.
  - congruence.
  - congruence.
  - rewrite Hfr2 by exact HcA. exact HvA.
  - rewrite Hfr2 by set_solver. rewrite Hfr1 by set_solver. exact Hrt.
Qed.

(** ** Literals, [max] and variables *)

Lemma literal_value_range value b : 0 < b -> 0 <= literal_value value b < b.
Proof.
  intros Hb. pose proof (Z.mod_pos_bound 1 b Hb).
  destruct value as [? | ? | []]; cbn [literal_value];
    repeat match goal with
           | |- context [match ?x with _ => _ end] => destruct x
           end;
    try apply Z.mod_pos_bound; lia.
Qed.

(** A new cell is taken and the text of [setValue] runs in it. *)
Lemma store_evaluated o st m value st' :
  tape_ok o st m -> 0 < bits o ->
  let t := findEmptyLocation_of (memoryUsage st) in
  memoryUsage st' = map_set t Temporary (memoryUsage st) ->
  pointerLocation st' = t ->
  Z.of_nat (length (memoryUsage st')) <= memorySize ->
  exists m',
    runs o (moves (pointerLocation st) t ++ setValue_code value) m m'
    /\ evaluated o st m t (literal_value value (bits o)) st' m'
    /\ (t ∉ occ (memoryUsage st)).
Proof.
  intros Htape Hb. cbv zeta. intros Hmu Hp Hlen.
  pose proof (alloc_tape_ok o st m Htape Hb) as Ha. cbv zeta in Ha.
  cbn [memoryUsage set_memoryUsage] in Ha. rewrite <- Hmu in Ha.
  destruct (Ha Hlen) as [_ Hrt].
  destruct Htape as (Hd & Hdp & Hzero & Hrange).
  destruct (alloc_map_facts _ Hd) as (Hd' & _ & Ht & Hot & Hocc & Hn & Hf).
  rewrite <- Hmu in Hd', Ht, Hocc, Hn, Hf.
  set (t := findEmptyLocation_of (memoryUsage st)) in *.
  assert (Et : t mod memorySize = t) by (apply Z.mod_small; lia).
  pose proof (runs_moves o (pointerLocation st) t m Hdp) as R1.
  rewrite Et in R1. set (m1 := set_dataPointer t m) in *.
  destruct (runs_setValue o value m1 0 Hb Hrt) as (m' & R2 & Hdp' & Hv & Hs).
  change (dataPointer m1) with t in *.
  assert (Hkeep : forall k, k <> t -> read (memory m') k = read (memory m) k).
  { intros k Hk. rewrite (same_except_read _ _ _ _ Hs); [reflexivity|].
    intros [E|[]]. congruence. }
  destruct (same_except_output _ _ _ Hs) as [Hout Hin].
  exists m'. split; [eapply runs_app; eassumption|].
  split; [|exact Hot].
  unfold evaluated, tape_ok. split.
  { split; [exact Hd'|]. split; [rewrite Hp, Et; exact Hdp'|]. split.
    - intros a Ha' Hocc'. rewrite Hocc in Hocc'.
      rewrite Hkeep by set_solver. apply Hzero; [exact Ha'|set_solver].
    - intros a Ha'. rewrite Hocc in Ha'.
      destruct (Z.eq_dec a t) as [->|Hne].
      + eexists. split; [exact Hv|]. apply literal_value_range, Hb.
      + rewrite Hkeep by exact Hne. apply Hrange. set_solver. }
  split; [rewrite Hocc; set_solver|]. split; [exact Hf|]. split; [exact Hn|].
  split; [rewrite Hocc; set_solver|]. split; [exact Hv|].
  split; [|split; assumption].
  intros k Hk. apply Hkeep. intros ->. contradiction.
Qed.

Lemma evaluated_trans o st m r1 v1 st1 m1 r v st2 m2 :
  evaluated o st m r1 v1 st1 m1 ->
  evaluated o st1 m1 r v st2 m2 ->
  evaluated o st m r v st2 m2.
Proof.
  intros (Ht1 & Hs1 & Hf1 & Hn1 & Hr1 & Hv1 & Hk1 & Ho1 & Hi1)
         (Ht2 & Hs2 & Hf2 & Hn2 & Hr2 & Hv2 & Hk2 & Ho2 & Hi2).
  unfold evaluated. split; [exact Ht2|]. split; [set_solver|].
  split; [intros x i; rewrite Hf2; apply Hf1|]. split; [congruence|].
  split; [exact Hr2|]. split; [exact Hv2|]. split; [|split; congruence].
  intros k Hk. rewrite Hk2 by set_solver. apply Hk1, Hk.
Qed.

(** The value of an expression depends on the map through the places of
    the variables, and on the tape through their cells. *)
Lemma value_of_ext o mu m mu' m' e :
  dense mu ->
  (forall x i, findVariableLocation_of x i mu' = findVariableLocation_of x i mu) ->
  (forall k, k ∈ occ mu -> read (memory m') k = read (memory m) k) ->
  value_of o mu' m' e = value_of o mu m e.
Proof.
  intros Hd Hf Hk.
  induction e as [value|name index IH|operator lhs IHl rhs IHr| |i|e IH]
    using ValueToken_ind' with (P0 := fun _ => True); try exact I.
  - reflexivity.
  - destruct index as [i|e]; [|reflexivity]. cbn [value_of]. rewrite Hf.
    destruct (findVariableLocation_of name i mu) as [loc|] eqn:E; [|reflexivity].
    rewrite Hk; [reflexivity|].
    apply (named_occ mu), (findVariableLocation_of_named name i);
      [apply dense_NoDup, Hd|exact E].
  - cbn [value_of]. rewrite IHl, IHr. reflexivity.
  - reflexivity.
Qed.

Lemma evalValue_static o e :
  forall st m v,
    tape_ok o st m -> 0 < bits o ->
    value_of o (memoryUsage st) m e = Some v ->
    computes o (evalValue e) st m
      (fun r st' m' =>
         evaluated o st m r v st' m'
         /\ match e with
            | VariableRef _ _ => True
            | _ => r ∉ occ (memoryUsage st)
            end).
Proof.
  induction e as [value|name index IH|operator lhs IHl rhs IHr| |i|e IH]
    using ValueToken_ind' with (P0 := fun _ => True); try exact I;
    intros st m v Htape Hb Hv; cbn [evalValue value_of] in *.
  - (* a literal *)
    injection Hv as <-.
    eapply computes_eq; [do 4 run_prim; reflexivity
                        |simpl_state; rewrite <- app_assoc; reflexivity|].
    simpl_state. intros Hlen.
    apply (store_evaluated o st m value); simpl_state; auto.
  - (* a variable *)
    destruct index as [i|e]; [|discriminate].
    destruct (findVariableLocation_of name i (memoryUsage st)) as [loc|] eqn:E;
      [|discriminate].
    destruct (read (memory m) loc) as [z|] eqn:Ez; [|discriminate].
    injection Hv as <-.
    eapply (computes_eq _ _ _ _ loc st []);
      [run_prim; rewrite E; reflexivity|rewrite app_nil_r; reflexivity|].
    intros _. exists m. split; [apply runs_nil|].
    pose proof Htape as (Hd & _).
    split; [|exact I].
    unfold evaluated. split; [exact Htape|]. split; [reflexivity|].
    split; [reflexivity|]. split; [reflexivity|]. split; [|auto].
    apply (named_occ _), (findVariableLocation_of_named name i);
      [apply dense_NoDup, Hd|exact E].
  - (* a sum or a difference *)
    destruct operator; try (apply computes_throw);
      destruct (value_of o (memoryUsage st) m lhs) as [va|] eqn:El;
      try discriminate;
      destruct (value_of o (memoryUsage st) m rhs) as [vb|] eqn:Er;
      try discriminate; injection Hv as <-;
      (apply computes_bind; [intros; gr|]);
      (eapply computes_mono; [apply (IHl st m va Htape Hb El)|]);
      cbv beta; intros a st1 m1 [Hev1 _];
      pose proof Hev1 as (Ht1 & Hs1 & Hf1 & Hn1 & Hr1 & Hv1 & Hk1 & Ho1 & Hi1);
      (apply computes_bind; [intros; gr|]);
      (eapply computes_mono;
       [apply (IHr st1 m1 vb Ht1 Hb);
        rewrite (value_of_ext o (memoryUsage st) m); [exact Er|apply Htape|exact Hf1|exact Hk1]|]);
      cbv beta; intros b st2 m2 [Hev2 _];
      pose proof Hev2 as (Ht2 & Hs2 & Hf2 & Hn2 & Hr2 & Hv2 & Hk2 & Ho2 & Hi2);
      (eapply computes_mono;
       [first [apply (add_evaluated o st2 m2 a b va vb)
              |apply (subtract_evaluated o st2 m2 a b va vb)];
        [exact Ht2|set_solver|exact Hr2
        |rewrite Hk2 by exact Hr1; exact Hv1|exact Hv2]|]);
      cbv beta; intros r st3 m3 (Hev3 & Hfresh & _);
      (split; [|set_solver]);
      exact (evaluated_trans _ _ _ _ _ _ _ _ _ _ _
               (evaluated_trans _ _ _ _ _ _ _ _ _ _ _ Hev1 Hev2) Hev3).
  - (* the largest value *)
    injection Hv as <-.
    eapply computes_eq; [do 4 run_prim; reflexivity
                        |simpl_state; rewrite <- app_assoc; reflexivity|].
    simpl_state. intros Hlen.
    apply (store_evaluated o st m (LitNumber (-1))); simpl_state; auto.
Qed.

(** ** The evaluation of an expression returns *)

Lemma bind_eq {A B} (c : M A) (f : A -> M B) st a st1 :
  c st = Ok (a, st1) -> bind c f st = f a st1.
Proof. intros E. unfold bind. rewrite E. reflexivity. Qed.

(** The map after an evaluation into [r], without the machine. *)
Lemma evaluated_map_trans mu mu1 mu2 (r1 r : Z) :
  (dense mu1 /\ occ mu ⊆ occ mu1
   /\ (forall x i, findVariableLocation_of x i mu1 = findVariableLocation_of x i mu)
   /\ named mu1 = named mu /\ r1 ∈ occ mu1) ->
  (dense mu2 /\ occ mu1 ⊆ occ mu2
   /\ (forall x i, findVariableLocation_of x i mu2 = findVariableLocation_of x i mu1)
   /\ named mu2 = named mu1 /\ r ∈ occ mu2) ->
  dense mu2 /\ occ mu ⊆ occ mu2
  /\ (forall x i, findVariableLocation_of x i mu2 = findVariableLocation_of x i mu)
  /\ named mu2 = named mu /\ r ∈ occ mu2.
Proof.
  intros (H1 & H2 & H3 & H4 & H5) (G1 & G2 & G3 & G4 & G5).
  split; [exact G1|]. split; [set_solver|].
  split; [intros x i; rewrite G3; apply H3|]. split; [congruence|exact G5].
Qed.

Lemma copy_returns cell st :
  dense (memoryUsage st) ->
  exists r st',
    copy cell st = Ok (r, st')
    /\ (r ∉ occ (memoryUsage st))
    /\ dense (memoryUsage st')
    /\ occ (memoryUsage st) ⊆ occ (memoryUsage st')
    /\ (forall x i, findVariableLocation_of x i (memoryUsage st')
                    = findVariableLocation_of x i (memoryUsage st))
    /\ named (memoryUsage st') = named (memoryUsage st)
    /\ r ∈ occ (memoryUsage st').
Proof.
  intros Hd. eexists _, _. split; [apply copy_eq|]. cbv zeta. simpl_state.
  destruct (copy_map_facts _ Hd)
    as (Hd' & _ & _ & _ & Hocc & _ & Ho2 & _ & Hn & Hf).
  split; [exact Ho2|]. split; [exact Hd'|]. split; [rewrite Hocc; set_solver|].
  split; [exact Hf|]. split; [exact Hn|]. rewrite Hocc. set_solver.
Qed.

Lemma alloc_returns st :
  dense (memoryUsage st) ->
  let t := findEmptyLocation_of (memoryUsage st) in
  let st' := set_memoryUsage (map_set t Temporary (memoryUsage st)) st in
  (t ∉ occ (memoryUsage st))
  /\ dense (memoryUsage st')
  /\ occ (memoryUsage st) ⊆ occ (memoryUsage st')
  /\ (forall x i, findVariableLocation_of x i (memoryUsage st')
                  = findVariableLocation_of x i (memoryUsage st))
  /\ named (memoryUsage st') = named (memoryUsage st)
  /\ t ∈ occ (memoryUsage st').
Proof.
  intros Hd. cbv zeta. simpl_state.
  destruct (alloc_map_facts _ Hd) as (Hd' & _ & _ & Ho & Hocc & Hn & Hf).
  split; [exact Ho|]. split; [exact Hd'|]. split; [rewrite Hocc; set_solver|].
  split; [exact Hf|]. split; [exact Hn|]. rewrite Hocc. set_solver.
Qed.

Lemma arithmetic_tail_returns (plus : bool) cA cB t st :
  dense (memoryUsage st) ->
  cA ∈ occ (memoryUsage st) -> cB ∈ occ (memoryUsage st) ->
  t ∈ occ (memoryUsage st) ->
  cA <> t -> cB <> t ->
  cA ∉ named (memoryUsage st) -> cB ∉ named (memoryUsage st) ->
  exists st',
    (moveTo cA ;; emit (bf "[") ;; moveTo t ;; emit (bf "+") ;;
     moveTo cA ;; emit (bf "-") ;; emit (bf "]") ;;
     moveTo cB ;; emit (bf "[") ;; moveTo t ;;
     emit (if plus then bf "+" else bf "-") ;;
     moveTo cB ;; emit (bf "-") ;; emit (bf "]") ;;
     moveTo cA ;; clearCell ;; memSet cA Freed ;;
     moveTo cB ;; clearCell ;; memSet cB Freed ;;
     ret t) st = Ok (t, st')
    /\ dense (memoryUsage st')
    /\ occ (memoryUsage st) ∖ {[cA]} ∖ {[cB]} ⊆ occ (memoryUsage st')
    /\ (forall x i, findVariableLocation_of x i (memoryUsage st')
                    = findVariableLocation_of x i (memoryUsage st))
    /\ named (memoryUsage st') = named (memoryUsage st)
    /\ t ∈ occ (memoryUsage st').
Proof.
  intros Hd HcA HcB Ht Hat Hbt HnA HnB.
  eexists. split; [do 20 run_prim; reflexivity|]. simpl_state.
  pose proof (dense_occ _ _ Hd HcA) as HkA.
  pose proof (dense_occ _ _ Hd HcB) as HkB.
  destruct (dense_map_set _ cA Freed Hd ltac:(lia)) as [HdA HlA].
  destruct (dense_map_set _ cB Freed HdA ltac:(lia)) as [HdB _].
  assert (HnA' : named (map_set cA Freed (memoryUsage st))
                 = named (memoryUsage st))
    by (apply named_map_set; [reflexivity|exact HnA]).
  split; [exact HdB|]. rewrite !occ_map_set_Freed.
  split; [reflexivity|]. split.
  { intros x i.
    rewrite findVariableLocation_of_map_set;
      [|reflexivity|rewrite HnA'; exact HnB].
    apply findVariableLocation_of_map_set; [reflexivity|exact HnA]. }
  split.
  { rewrite named_map_set; [exact HnA'|reflexivity|rewrite HnA'; exact HnB]. }
  set_solver.
Qed.

Lemma add_returns a b st :
  dense (memoryUsage st) ->
  exists r st',
    add a b st = Ok (r, st')
    /\ dense (memoryUsage st')
    /\ occ (memoryUsage st) ⊆ occ (memoryUsage st')
    /\ (forall x i, findVariableLocation_of x i (memoryUsage st')
                    = findVariableLocation_of x i (memoryUsage st))
    /\ named (memoryUsage st') = named (memoryUsage st)
    /\ r ∈ occ (memoryUsage st').
Proof.
  intros Hd. unfold add.
  destruct (copy_returns a st Hd)
    as (cA & st1 & E1 & HoA & Hd1 & Hs1 & Hf1 & Hn1 & HcA).
  rewrite (bind_eq _ _ _ _ _ E1).
  destruct (copy_returns b st1 Hd1)
    as (cB & st2 & E2 & HoB & Hd2 & Hs2 & Hf2 & Hn2 & HcB).
  rewrite (bind_eq _ _ _ _ _ E2).
  do 2 run_prim.
  destruct (alloc_returns st2 Hd2) as (Hot & Hd3 & Hs3 & Hf3 & Hn3 & Ht).
  set (t := findEmptyLocation_of (memoryUsage st2)) in *.
  set (st3 := set_memoryUsage (map_set t Temporary (memoryUsage st2)) st2) in *.
  pose proof (named_occ (memoryUsage st)) as Hnamed.
  destruct (arithmetic_tail_returns true cA cB t st3)
    as (st' & E & Hd' & Hs' & Hf' & Hn' & Hr); try assumption.
  - set_solver.
  - set_solver.
  - intros ->. set_solver.
  - intros ->. set_solver.
  - rewrite Hn3, Hn2, Hn1. set_solver.
  - rewrite Hn3, Hn2. intros Hin. apply HoB, (named_occ _), Hin.
  - exists t, st'. split; [exact E|]. split; [exact Hd'|].
    split.
    { intros k Hk. apply Hs'. set_solver. }
    split; [intros x i; rewrite Hf', Hf3, Hf2; apply Hf1|].
    split; [congruence|exact Hr].
Qed.

Lemma subtract_returns a b st :
  dense (memoryUsage st) ->
  exists r st',
    subtract a b st = Ok (r, st')
    /\ dense (memoryUsage st')
    /\ occ (memoryUsage st) ⊆ occ (memoryUsage st')
    /\ (forall x i, findVariableLocation_of x i (memoryUsage st')
                    = findVariableLocation_of x i (memoryUsage st))
    /\ named (memoryUsage st') = named (memoryUsage st)
    /\ r ∈ occ (memoryUsage st').
Proof.
  intros Hd. unfold subtract.
  do 2 run_prim.
  destruct (alloc_returns st Hd) as (Hot & Hd0 & Hs0 & Hf0 & Hn0 & Ht).
  set (t := findEmptyLocation_of (memoryUsage st)) in *.
  set (st0 := set_memoryUsage (map_set t Temporary (memoryUsage st)) st) in *.
  destruct (copy_returns a st0 Hd0)
    as (cA & st1 & E1 & HoA & Hd1 & Hs1 & Hf1 & Hn1 & HcA).
  rewrite (bind_eq _ _ _ _ _ E1).
  destruct (copy_returns b st1 Hd1)
    as (cB & st2 & E2 & HoB & Hd2 & Hs2 & Hf2 & Hn2 & HcB).
  rewrite (bind_eq _ _ _ _ _ E2).
  pose proof (named_occ (memoryUsage st0)) as Hnamed0.
  pose proof (named_occ (memoryUsage st1)) as Hnamed1.
  destruct (arithmetic_tail_returns false cA cB t st2)
    as (st' & E & Hd' & Hs' & Hf' & Hn' & Hr); try assumption.
  - set_solver.
  - set_solver.
  - intros ->. set_solver.
  - intros ->. set_solver.
  - rewrite Hn2, Hn1. set_solver.
  - rewrite Hn2. set_solver.
  - exists t, st'. split; [exact E|]. split; [exact Hd'|].
    split.
    { intros k Hk. apply Hs'. set_solver. }
    split; [intros x i; rewrite Hf', Hf2, Hf1; apply Hf0|].
    split; [congruence|exact Hr].
Qed.

Lemma evalValue_returns o e :
  forall st m v,
    dense (memoryUsage st) ->
    value_of o (memoryUsage st) m e = Some v ->
    exists r st',
      evalValue e st = Ok (r, st')
      /\ dense (memoryUsage st')
      /\ occ (memoryUsage st) ⊆ occ (memoryUsage st')
      /\ (forall x i, findVariableLocation_of x i (memoryUsage st')
                      = findVariableLocation_of x i (memoryUsage st))
      /\ named (memoryUsage st') = named (memoryUsage st)
      /\ r ∈ occ (memoryUsage st').
Proof.
  induction e as [value|name index IH|operator lhs IHl rhs IHr| |i|e IH]
    using ValueToken_ind' with (P0 := fun _ => True); try exact I;
    intros st m v Hd Hv; cbn [evalValue value_of] in *.
  - eexists _, _. split; [do 4 run_prim; reflexivity|]. simpl_state.
    destruct (alloc_returns st Hd) as (_ & H). exact H.
  - destruct index as [i|e]; [|discriminate].
    destruct (findVariableLocation_of name i (memoryUsage st)) as [loc|] eqn:E;
      [|discriminate].
    exists loc, st. split; [run_prim; rewrite E; reflexivity|].
    split; [exact Hd|]. split; [reflexivity|]. split; [reflexivity|].
    split; [reflexivity|].
    apply (named_occ _), (findVariableLocation_of_named name i);
      [apply dense_NoDup, Hd|exact E].
  - destruct (value_of o (memoryUsage st) m lhs) as [va|] eqn:El;
      [|destruct operator; discriminate].
    destruct (value_of o (memoryUsage st) m rhs) as [vb|] eqn:Er;
      [|destruct operator; discriminate].
    destruct (IHl st m va Hd El) as (a & st1 & E1 & H1).
    pose proof H1 as (Hd1 & Hs1 & Hf1 & Hn1 & Hr1).
    destruct (IHr st1 m vb Hd1) as (b & st2 & E2 & H2).
    { rewrite (value_of_ext o (memoryUsage st) m); [exact Er|exact Hd|exact Hf1|].
      reflexivity. }
    pose proof H2 as (Hd2 & _).
    destruct operator; try discriminate.
    + destruct (add_returns a b st2 Hd2) as (r & st3 & E3 & H3).
      exists r, st3. rewrite (bind_eq _ _ _ _ _ E1), (bind_eq _ _ _ _ _ E2).
      split; [exact E3|].
      exact (evaluated_map_trans _ _ _ b r
               (evaluated_map_trans _ _ _ a b H1 H2) H3).
    + destruct (subtract_returns a b st2 Hd2) as (r & st3 & E3 & H3).
      exists r, st3. rewrite (bind_eq _ _ _ _ _ E1), (bind_eq _ _ _ _ _ E2).
      split; [exact E3|].
      exact (evaluated_map_trans _ _ _ b r
               (evaluated_map_trans _ _ _ a b H1 H2) H3).
  - eexists _, _. split; [do 4 run_prim; reflexivity|]. simpl_state.
    destruct (alloc_returns st Hd) as (_ & H). exact H.
Qed.

(** ** [tape_ok] on a given state and machine *)

Lemma tape_okb_sound o st m : tape_okb o st m = true -> tape_ok o st m.
Proof.
  unfold tape_okb. rewrite !andb_true_iff.
  intros [[[Hd Hdp] Hz] Hr].
  apply bool_decide_eq_true in Hd. apply Z.eqb_eq in Hdp.
  rewrite forallb_forall in Hz, Hr.
  split; [exact Hd|]. split; [exact Hdp|]. split.
  - intros a _ Ha. unfold read.
    destruct (memory m !! a) as [x|] eqn:E; [|reflexivity]. cbn [default].
    assert (Hin : In (a, x) (map_to_list (memory m))).
    { apply list_elem_of_In, elem_of_map_to_list, E. }
    specialize (Hz _ Hin). cbn [fst snd] in Hz.
    destruct x as [[|p|p]|]; try reflexivity;
      apply bool_decide_eq_true in Hz; contradiction.
  - intros a Ha. unfold occ in Ha. apply elem_of_list_to_set in Ha.
    apply list_elem_of_In in Ha. specialize (Hr _ Ha).
    destruct (read (memory m) a) as [z|]; [|discriminate].
    exists z. split; [reflexivity|]. lia.
Qed.

(** * What the emitted code computes *)

(** A computation within the limits leaves a map that fits the tape. *)
Lemma within_limits_Ok {A} (c : M A) st a st' :
  within_limits c st = true ->
  c st = Ok (a, st') ->
  Z.of_nat (length (memoryUsage st')) <= memorySize.
Proof.
  unfold within_limits. intros H E. rewrite E in H.
  apply andb_true_iff in H as [_ H]. apply Z.leb_le, H.
Qed.


(** The text of [setValue] on the embedded executor, for every positive
    [bits] and every number in the cell. *)
Lemma setValue_stores_literal_spec o value st m z :
  0 < bits o ->
  read (memory m) (dataPointer m) = Num z ->
  exists st' seg m',
    setValue value st = Ok (tt, st')
    /\ brainfuckCode st' = brainfuckCode st ++ seg
    /\ memoryUsage st' = memoryUsage st
    /\ pointerLocation st' = pointerLocation st
    /\ runs o seg m m'
    /\ dataPointer m' = dataPointer m
    /\ read (memory m') (dataPointer m) = Num (literal_value value (bits o))
    /\ same_except [dataPointer m] m m'.
Proof.
  intros Hb Hz.
  destruct (runs_setValue o value m z Hb Hz) as (m' & R & H).
  eexists _, (setValue_code value), m'.
  split; [apply setValue_eq|]. simpl_state.
  split; [reflexivity|]. split; [reflexivity|]. split; [reflexivity|].
  split; [exact R|exact H].
Qed.

(** X1.  Let the [bits] option be an integer from 1 to 2^52, let the current
    cell hold an integer from 0 to 2^52, and let the text with what
    [setValue] appends fit a string and the map fit the tape.  Then
    [setValue] returns, and the text it appends leaves the value of the
    literal, reduced modulo [bits], in the current cell: an integer [n]
    gives [n mod bits] (a negative one wraps), [true] gives [1 mod bits],
    [false] and the empty string give 0, another string the code of its
    first character.  No other cell, the pointer, the output and the
    allocator's map are touched. *)
Theorem setValue_stores_literal o value st m z :
  0 < bits o <= 2 ^ 52 ->
  0 <= z <= 2 ^ 52 ->
  within_limits (setValue value) st = true ->
  read (memory m) (dataPointer m) = Num z ->
  exists st' seg m',
    setValue value st = Ok (tt, st')
    /\ brainfuckCode st' = brainfuckCode st ++ seg
    /\ memoryUsage st' = memoryUsage st
    /\ pointerLocation st' = pointerLocation st
    /\ runs o seg m m'
    /\ dataPointer m' = dataPointer m
    /\ read (memory m') (dataPointer m) = Num (literal_value value (bits o))
    /\ same_except [dataPointer m] m m'.
Proof.
  intros [Hb _] _ _ Hz.
  exact (setValue_stores_literal_spec o value st m z Hb Hz).
Qed.

Lemma setValue_stores_literal_witness :
  exists st' seg m',
    setValue (LitNumber (-3)) initial_state = Ok (tt, st')
    /\ brainfuckCode st' = brainfuckCode initial_state ++ seg
    /\ memoryUsage st' = memoryUsage initial_state
    /\ pointerLocation st' = pointerLocation initial_state
    /\ runs (options_of_bits 16) seg initial_machine m'
    /\ dataPointer m' = dataPointer initial_machine
    /\ read (memory m') (dataPointer initial_machine) = Num 13
    /\ same_except [dataPointer initial_machine] initial_machine m'.
Proof.
  apply (setValue_stores_literal (options_of_bits 16) (LitNumber (-3))
           initial_state initial_machine 0).
  - split; [reflexivity|vm_compute; discriminate].
  - split; [reflexivity|vm_compute; discriminate].
  - vm_compute. reflexivity.
  - reflexivity.
Defined.


(** [add] beside the embedded executor: it returns on every map without
    deleted key, and its text runs when the map fits the tape. *)
Lemma add_computes_sum_spec o st m a b va vb :
  tape_ok o st m ->
  a ∈ occ (memoryUsage st) -> b ∈ occ (memoryUsage st) ->
  read (memory m) a = Num va -> read (memory m) b = Num vb ->
  exists r st',
    add a b st = Ok (r, st')
    /\ (Z.of_nat (length (memoryUsage st')) <= memorySize ->
        exists seg m',
          brainfuckCode st' = brainfuckCode st ++ seg
          /\ runs o seg m m'
          /\ evaluated o st m r ((va + vb) mod bits o) st' m'
          /\ (r ∉ occ (memoryUsage st))
          /\ occ (memoryUsage st') = occ (memoryUsage st) ∪ {[r]}).
Proof.
  intros Htape Ha Hb Hra Hrb.
  destruct (add_returns a b st (proj1 Htape)) as (r & st' & E & _).
  exists r, st'. split; [exact E|]. intros Hlen.
  exact (add_evaluated o st m a b va vb Htape Ha Hb Hra Hrb r st' E Hlen).
Qed.

(** X2.  Let the tape be as the allocator's map describes it: the map has no
    deleted key, the tape pointer is where the compiler tracks it, the
    cells the map does not record as occupied hold 0 and the occupied ones
    hold integers from 0 to [bits - 1] (so it is when a program without
    [unsafe] blocks, calls and [,] has run to its end, and need not be on
    a later pass of a loop).  Let
    [bits] be at most 2^52, and let the text with what [add] appends fit a
    string and the map fit the tape.  Then [add a b], for two occupied cells
    that hold [va] and [vb], returns a cell that was not occupied, and the
    text it appends runs to a machine where that cell holds
    [(va + vb) mod bits]; the cells occupied before, [a] and [b] among
    them, hold what they held, no other cell than the result became
    occupied (the two copies are free again and hold 0, as every cell that
    is not occupied), and nothing is printed or read. *)
Theorem add_computes_sum o st m a b va vb :
  tape_ok o st m ->
  bits o <= 2 ^ 52 ->
  within_limits (add a b) st = true ->
  a ∈ occ (memoryUsage st) -> b ∈ occ (memoryUsage st) ->
  read (memory m) a = Num va -> read (memory m) b = Num vb ->
  exists r st' seg m',
    add a b st = Ok (r, st')
    /\ brainfuckCode st' = brainfuckCode st ++ seg
    /\ runs o seg m m'
    /\ evaluated o st m r ((va + vb) mod bits o) st' m'
    /\ (r ∉ occ (memoryUsage st))
    /\ occ (memoryUsage st') = occ (memoryUsage st) ∪ {[r]}.
Proof.
  intros Htape _ Hfit Ha Hb Hra Hrb.
  destruct (add_computes_sum_spec o st m a b va vb Htape Ha Hb Hra Hrb)
    as (r & st' & E & H).
  destruct (H (within_limits_Ok _ _ _ _ Hfit E)) as (seg & m' & H').
  exists r, st', seg, m'. split; [exact E|exact H'].
Qed.

Lemma add_computes_sum_witness :
  let o := options_of_bits 4 in
  let st := state_after two_variables in
  let m := machine_after two_variables o in
  exists r st' seg m',
    add 0 0 st = Ok (r, st')
    /\ brainfuckCode st' = brainfuckCode st ++ seg
    /\ runs o seg m m'
    /\ evaluated o st m r 2 st' m'
    /\ (r ∉ occ (memoryUsage st))
    /\ occ (memoryUsage st') = occ (memoryUsage st) ∪ {[r]}.
Proof.
  intros o st m.
  apply (add_computes_sum o st m 0 0 3 3).
  - apply tape_okb_sound. vm_compute. reflexivity.
  - vm_compute. discriminate.
  - vm_compute. reflexivity.
  - apply elem_of_occ. vm_compute. reflexivity.
  - apply elem_of_occ. vm_compute. reflexivity.
  - vm_compute. reflexivity.
  - vm_compute. reflexivity.
Defined.


(** [subtract] beside the embedded executor: it returns on every map without
    deleted key, and its text runs when the map fits the tape. *)
Lemma subtract_computes_difference_spec o st m a b va vb :
  tape_ok o st m ->
  a ∈ occ (memoryUsage st) -> b ∈ occ (memoryUsage st) ->
  read (memory m) a = Num va -> read (memory m) b = Num vb ->
  exists r st',
    subtract a b st = Ok (r, st')
    /\ (Z.of_nat (length (memoryUsage st')) <= memorySize ->
        exists seg m',
          brainfuckCode st' = brainfuckCode st ++ seg
          /\ runs o seg m m'
          /\ evaluated o st m r ((va - vb) mod bits o) st' m'
          /\ (r ∉ occ (memoryUsage st))
          /\ occ (memoryUsage st') = occ (memoryUsage st) ∪ {[r]}).
Proof.
  intros Htape Ha Hb Hra Hrb.
  destruct (subtract_returns a b st (proj1 Htape)) as (r & st' & E & _).
  exists r, st'. split; [exact E|]. intros Hlen.
  exact (subtract_evaluated o st m a b va vb Htape Ha Hb Hra Hrb r st' E Hlen).
Qed.

(** X3.  Let the tape be as the allocator's map describes it: the map has no
    deleted key, the tape pointer is where the compiler tracks it, the
    cells the map does not record as occupied hold 0 and the occupied ones
    hold integers from 0 to [bits - 1] (so it is when a program without
    [unsafe] blocks, calls and [,] has run to its end, and need not be on
    a later pass of a loop).  Let
    [bits] be at most 2^52, and let the text with what [subtract] appends fit a
    string and the map fit the tape.  Then [subtract a b], for two occupied cells
    that hold [va] and [vb], returns a cell that was not occupied, and the
    text it appends runs to a machine where that cell holds
    [(va - vb) mod bits]; the cells occupied before, [a] and [b] among
    them, hold what they held, no other cell than the result became
    occupied (the two copies are free again and hold 0, as every cell that
    is not occupied), and nothing is printed or read. *)
Theorem subtract_computes_difference o st m a b va vb :
  tape_ok o st m ->
  bits o <= 2 ^ 52 ->
  within_limits (subtract a b) st = true ->
  a ∈ occ (memoryUsage st) -> b ∈ occ (memoryUsage st) ->
  read (memory m) a = Num va -> read (memory m) b = Num vb ->
  exists r st' seg m',
    subtract a b st = Ok (r, st')
    /\ brainfuckCode st' = brainfuckCode st ++ seg
    /\ runs o seg m m'
    /\ evaluated o st m r ((va - vb) mod bits o) st' m'
    /\ (r ∉ occ (memoryUsage st))
    /\ occ (memoryUsage st') = occ (memoryUsage st) ∪ {[r]}.
Proof.
  intros Htape _ Hfit Ha Hb Hra Hrb.
  destruct (subtract_computes_difference_spec o st m a b va vb Htape Ha Hb Hra Hrb)
    as (r & st' & E & H).
  destruct (H (within_limits_Ok _ _ _ _ Hfit E)) as (seg & m' & H').
  exists r, st', seg, m'. split; [exact E|exact H'].
Qed.

Lemma subtract_computes_difference_witness :
  let o := options_of_bits 16 in
  let st := state_after two_variables in
  let m := machine_after two_variables o in
  exists r st' seg m',
    subtract 1 0 st = Ok (r, st')
    /\ brainfuckCode st' = brainfuckCode st ++ seg
    /\ runs o seg m m'
    /\ evaluated o st m r 13 st' m'
    /\ (r ∉ occ (memoryUsage st))
    /\ occ (memoryUsage st') = occ (memoryUsage st) ∪ {[r]}.
Proof.
  intros o st m.
  apply (subtract_computes_difference o st m 1 0 0 3).
  - apply tape_okb_sound. vm_compute. reflexivity.
  - vm_compute. discriminate.
  - vm_compute. reflexivity.
  - apply elem_of_occ. vm_compute. reflexivity.
  - apply elem_of_occ. vm_compute. reflexivity.
  - vm_compute. reflexivity.
  - vm_compute. reflexivity.
Defined.


(** [evalValue] beside the embedded executor, on expressions without
    computed indices. *)
Lemma evalValue_computes_value_spec o e st m v :
  tape_ok o st m -> 0 < bits o ->
  value_of o (memoryUsage st) m e = Some v ->
  exists r st',
    evalValue e st = Ok (r, st')
    /\ (Z.of_nat (length (memoryUsage st')) <= memorySize ->
        exists seg m',
          brainfuckCode st' = brainfuckCode st ++ seg
          /\ runs o seg m m'
          /\ evaluated o st m r v st' m').
Proof.
  intros Htape Hb Hv.
  destruct (evalValue_returns o e st m v (proj1 Htape) Hv)
    as (r & st' & E & _).
  exists r, st'. split; [exact E|]. intros Hlen.
  destruct (evalValue_static o e st m v Htape Hb Hv r st' E Hlen)
    as (seg & m' & Hc & R & Hev & _).
  exists seg, m'. auto.
Qed.

(** X4.  Let the tape be as the allocator's map describes it (no deleted key,
    the pointer where the compiler tracks it, 0 in the cells the map does
    not record as occupied, integers from 0 to [bits - 1] in the occupied
    ones: the tape when a program without [unsafe] blocks, calls and [,]
    has run to its end, not that of a later pass of a loop), let [bits] be
    at most 2^52, and let the text the compiler has built fit a string and
    the map fit the tape.  Then
    [evalValue], on an expression made of literals, [max],
    variables at constant indices, [+] and [-], all variables declared,
    returns a cell, and the text it appends runs to a machine where that
    cell holds the value of the expression, computed modulo [bits] at every
    operation; the variables are where they were and hold what they held,
    and nothing is printed or read. *)
Theorem evalValue_computes_value o e st m v :
  tape_ok o st m ->
  0 < bits o <= 2 ^ 52 ->
  within_limits (evalValue e) st = true ->
  value_of o (memoryUsage st) m e = Some v ->
  exists r st' seg m',
    evalValue e st = Ok (r, st')
    /\ brainfuckCode st' = brainfuckCode st ++ seg
    /\ runs o seg m m'
    /\ evaluated o st m r v st' m'.
Proof.
  intros Htape [Hb _] Hfit Hv.
  destruct (evalValue_computes_value_spec o e st m v Htape Hb Hv)
    as (r & st' & E & H).
  destruct (H (within_limits_Ok _ _ _ _ Hfit E)) as (seg & m' & H').
  exists r, st', seg, m'. split; [exact E|exact H'].
Qed.

Lemma evalValue_computes_value_witness :
  let o := options_of_bits 16 in
  let st := state_after two_variables in
  let m := machine_after two_variables o in
  exists r st' seg m',
    evalValue (Math OpMinus (var "b") (Math OpPlus (var "a") (lit 5))) st
    = Ok (r, st')
    /\ brainfuckCode st' = brainfuckCode st ++ seg
    /\ runs o seg m m'
    /\ evaluated o st m r 8 st' m'.
Proof.
  intros o st m.
  apply (evalValue_computes_value o _ st m 8).
  - apply tape_okb_sound. vm_compute. reflexivity.
  - split; [reflexivity|vm_compute; discriminate].
  - vm_compute. reflexivity.
  - vm_compute. reflexivity.
Defined.


(** ** [show] *)

Lemma runs_single o c m :
  is_bracket c = false -> runs o [c] m (simple_step o c m).
Proof.
  intros Hc. rewrite <- (unparse_straight [c]).
  apply exec_runs; [apply wf_straight; cbn; rewrite Hc; reflexivity|].
  apply exec_single.
Qed.

Lemma computes_run {A B} o (c : M A) (f : A -> M B) st m a st1 seg m1
    (Q : B -> cstate -> machine -> Prop) :
  c st = Ok (a, st1) ->
  brainfuckCode st1 = brainfuckCode st ++ seg ->
  runs o seg m m1 ->
  computes o (f a) st1 m1 Q ->
  computes o (bind c f) st m Q.
Proof.
  intros E Hcode R H b st2 E2 Hlen.
  rewrite (bind_eq _ _ _ _ _ E) in E2.
  destruct (H b st2 E2 Hlen) as (seg2 & m2 & Hc2 & R2 & HQ).
  exists (seg ++ seg2), m2.
  split; [rewrite Hc2, Hcode, app_assoc; reflexivity|].
  split; [eapply runs_app; eassumption|exact HQ].
Qed.

Lemma showsAsChar_evalValue o e st m v r st1 c p :
  value_of o (memoryUsage st) m e = Some v ->
  evalValue e st = Ok (r, st1) ->
  showsAsChar e (set_pointerLocation p (set_code c st1)) = showsAsChar e st.
Proof.
  intros Hv E. destruct e as [lv|name [i|e']| |]; cbn [value_of] in Hv.
  - destruct lv; reflexivity.
  - cbn [evalValue] in E. unfold bind in E. rewrite findVariableLocation_eq in E.
    destruct (findVariableLocation_of name i (memoryUsage st)); [|discriminate].
    injection E as _ <-. reflexivity.
  - discriminate.
  - reflexivity.
  - reflexivity.
Qed.

(** [show] beside the embedded executor. *)
Lemma show_prints_value_spec compile_rec o e st m v :
  tape_ok o st m -> 0 < bits o ->
  value_of o (memoryUsage st) m e = Some v ->
  exists st',
    compileToken compile_rec (Show e) st = Ok (tt, st')
    /\ (Z.of_nat (length (memoryUsage st')) <= memorySize ->
        exists seg m',
          brainfuckCode st' = brainfuckCode st ++ seg
          /\ runs o seg m m'
          /\ output m'
             = output m ++ (if showsAsChar e st then fromCharCode (Num v)
                            else number_to_string (Num v))
          /\ tape_ok o st' m'
          /\ (forall k, k ∈ occ (memoryUsage st) ->
                        read (memory m') k = read (memory m) k)
          /\ (forall x i, findVariableLocation_of x i (memoryUsage st')
                          = findVariableLocation_of x i (memoryUsage st))
          /\ inputPointer m' = inputPointer m).
Proof.
  intros Htape Hb Hv.
  destruct (evalValue_returns o e st m v (proj1 Htape) Hv)
    as (r & st1 & E & _).
  set (c := if showsAsChar e st then "~"%char else "."%char).
  exists (set_code (brainfuckCode st1 ++ moves (pointerLocation st1) r ++ [c])
            (set_pointerLocation r st1)).
  split.
  { cbn [compileToken]. rewrite (bind_eq _ _ _ _ _ E). run_prim.
    unfold bind, get.
    rewrite (showsAsChar_evalValue o e st m v r st1 _ _ Hv E).
    unfold c. destruct (showsAsChar e st); rewrite emit_eq; apply Ok_eq;
      apply state_eq; simpl_state; try reflexivity;
      rewrite <- app_assoc; reflexivity. }
  simpl_state. intros Hlen.
  destruct (evalValue_static o e st m v Htape Hb Hv r st1 E Hlen)
    as (seg & m1 & Hc & R1 & Hev & _).
  destruct Hev as (Ht1 & Hs1 & Hf1 & Hn1 & Hr1 & Hv1 & Hk1 & Ho1 & Hi1).
  destruct Ht1 as (Hd1 & Hdp1 & Hz1 & Hrg1).
  pose proof (dense_occ _ _ Hd1 Hr1) as Hr.
  assert (Er : r mod memorySize = r) by (apply Z.mod_small; lia).
  pose proof (runs_moves o (pointerLocation st1) r m1 Hdp1) as R2.
  rewrite Er in R2. set (m2 := set_dataPointer r m1) in *.
  assert (Hc' : is_bracket c = false)
    by (unfold c; destruct (showsAsChar e st); reflexivity).
  pose proof (runs_single o c m2 Hc') as R3.
  exists (seg ++ moves (pointerLocation st1) r ++ [c]), (simple_step o c m2).
  split; [rewrite Hc, <- app_assoc; reflexivity|].
  split; [eapply runs_app; [exact R1|eapply runs_app; [exact R2|exact R3]]|].
  assert (Hm : memory (simple_step o c m2) = memory m1
               /\ dataPointer (simple_step o c m2) = r
               /\ inputPointer (simple_step o c m2) = inputPointer m1
               /\ output (simple_step o c m2)
                  = output m1 ++ (if showsAsChar e st then fromCharCode (Num v)
                                  else number_to_string (Num v))).
  { unfold c. destruct (showsAsChar e st); cbn;
      change (read (memory m1) r) with (read (memory m1) r);
      rewrite Hv1; auto. }
  destruct Hm as (Hmem & Hdp & Hin & Hout).
  split; [rewrite Hout, Ho1; reflexivity|]. split.
  { unfold tape_ok. simpl_state. rewrite Hmem, Hdp, Er. auto. }
  split; [intros k Hk; rewrite Hmem; apply Hk1, Hk|].
  split; [exact Hf1|]. congruence.
Qed.

(** X5.  Let the tape be as the allocator's map describes it (no deleted key,
    the pointer where the compiler tracks it, 0 in the cells the map does
    not record as occupied, integers from 0 to [bits - 1] in the occupied
    ones: the tape when a program without [unsafe] blocks, calls and [,]
    has run to its end, not that of a later pass of a loop), let [bits] be
    at most 2^52, and let the text the compiler has built fit a string and
    the map fit the tape.  Then
    [show e], for an expression made of literals, [max], variables
    at constant indices, [+] and [-], all variables declared, compiles, and
    its text appends to the output the value of [e]: as one character when
    [e] is a string literal or a variable declared [char], as a decimal
    number otherwise.  The variables are where they were and hold what they
    held. *)
Theorem show_prints_value compile_rec o e st m v :
  tape_ok o st m ->
  0 < bits o <= 2 ^ 52 ->
  within_limits (compileToken compile_rec (Show e)) st = true ->
  value_of o (memoryUsage st) m e = Some v ->
  exists st' seg m',
    compileToken compile_rec (Show e) st = Ok (tt, st')
    /\ brainfuckCode st' = brainfuckCode st ++ seg
    /\ runs o seg m m'
    /\ output m'
       = output m ++ (if showsAsChar e st then fromCharCode (Num v)
                      else number_to_string (Num v))
    /\ tape_ok o st' m'
    /\ (forall k, k ∈ occ (memoryUsage st) ->
                  read (memory m') k = read (memory m) k)
    /\ (forall x i, findVariableLocation_of x i (memoryUsage st')
                    = findVariableLocation_of x i (memoryUsage st))
    /\ inputPointer m' = inputPointer m.
Proof.
  intros Htape [Hb _] Hfit Hv.
  destruct (show_prints_value_spec compile_rec o e st m v Htape Hb Hv)
    as (st' & E & H).
  destruct (H (within_limits_Ok _ _ _ _ Hfit E)) as (seg & m' & H').
  exists st', seg, m'. split; [exact E|exact H'].
Qed.

Lemma show_prints_value_witness :
  let o := options_of_bits 16 in
  let st := state_after two_variables in
  let m := machine_after two_variables o in
  let e := Math OpMinus (var "b") (Math OpPlus (var "a") (lit 5)) in
  exists st' seg m',
    compileToken (compile_fuel 0) (Show e) st = Ok (tt, st')
    /\ brainfuckCode st' = brainfuckCode st ++ seg
    /\ runs o seg m m'
    /\ output m' = output m ++ [56]
    /\ tape_ok o st' m'
    /\ (forall k, k ∈ occ (memoryUsage st) ->
                  read (memory m') k = read (memory m) k)
    /\ (forall x i, findVariableLocation_of x i (memoryUsage st')
                    = findVariableLocation_of x i (memoryUsage st))
    /\ inputPointer m' = inputPointer m.
Proof.
  intros o st m e.
  apply (show_prints_value (compile_fuel 0) o e st m 8).
  - apply tape_okb_sound. vm_compute. reflexivity.
  - split; [reflexivity|vm_compute; discriminate].
  - vm_compute. reflexivity.
  - vm_compute. reflexivity.
Defined.


(** ** Assignment to a variable at a constant index *)

(** The cell [c] is moved into the cleared cell [target]. *)
Lemma transfer_into_target o st m c target v :
  0 < bits o ->
  dataPointer m = pointerLocation st mod memorySize ->
  0 <= c < memorySize -> 0 <= target < memorySize -> c <> target ->
  0 <= v < bits o ->
  read (memory m) c = Num v ->
  read (memory m) target = Num 0 ->
  exists st' m',
    (moveTo c ;; emit (bf "[") ;; moveTo target ;; emit (bf "+") ;;
     moveTo c ;; emit (bf "-") ;; emit (bf "]")) st = Ok (tt, st')
    /\ brainfuckCode st'
       = brainfuckCode st
         ++ (moves (pointerLocation st) c ++ bf "[" ++ moves c target ++ bf "+"
             ++ moves target c ++ bf "-" ++ bf "]")
    /\ memoryUsage st' = memoryUsage st
    /\ pointerLocation st' = c
    /\ runs o (moves (pointerLocation st) c ++ bf "[" ++ moves c target
               ++ bf "+" ++ moves target c ++ bf "-" ++ bf "]") m m'
    /\ dataPointer m' = c
    /\ read (memory m') c = Num 0
    /\ read (memory m') target = Num v
    /\ same_except [c; target] m m'.
Proof.
  intros Hb Hdp Hc Ht Hne Hv Hrc Hrt.
  destruct (runs_move_transfer o true (pointerLocation st) c target m v 0
              Hdp Hc Ht Hne Hv ltac:(lia) Hrc Hrt)
    as (m' & R & Hdp' & H0 & Hres & Hs).
  rewrite Z.add_0_l, Z.mod_small in Hres by lia.
  eexists _, m'. split; [do 6 run_prim; rewrite emit_eq; reflexivity|].
  simpl_state. split; [rewrite <- !app_assoc; reflexivity|].
  split; [reflexivity|]. split; [reflexivity|]. auto.
Qed.

(** A literal or [max] is stored in the target. *)
Lemma assign_literal_runs o st m target lv st' :
  tape_ok o st m ->
  target ∈ named (memoryUsage st) ->
  memoryUsage st' = memoryUsage st ->
  pointerLocation st' = target ->
  Z.of_nat (length (memoryUsage st')) <= memorySize ->
  exists m',
    runs o (moves (pointerLocation st) target ++ setValue_code lv) m m'
    /\ assigned o st m target (literal_value lv (bits o)) st' m'.
Proof.
  intros Htape Ht Hmu Hp Hlen.
  pose proof (named_occ (memoryUsage st) _ Ht) as Hto.
  pose proof (tape_ok_bits _ _ _ _ Htape Hto) as Hb.
  destruct Htape as (Hd & Hdp & Hzero & Hrange).
  pose proof (dense_occ _ _ Hd Hto) as Hk. rewrite Hmu in Hlen.
  assert (Et : target mod memorySize = target) by (apply Z.mod_small; lia).
  pose proof (runs_moves o (pointerLocation st) target m Hdp) as R1.
  rewrite Et in R1. set (m1 := set_dataPointer target m) in *.
  destruct (Hrange _ Hto) as (z & Hz & _).
  destruct (runs_setValue o lv m1 z Hb Hz) as (m' & R2 & Hdp' & Hv & Hs).
  change (dataPointer m1) with target in *.
  assert (Hkeep : forall k, k <> target ->
                            read (memory m') k = read (memory m) k).
  { intros k Hne. rewrite (same_except_read _ _ _ _ Hs); [reflexivity|].
    intros [E|[]]. congruence. }
  destruct (same_except_output _ _ _ Hs) as [Hout Hin].
  exists m'. split; [eapply runs_app; eassumption|].
  unfold assigned, tape_ok. rewrite Hmu, Hp, Et. split.
  { split; [exact Hd|]. split; [exact Hdp'|]. split.
    - intros a Ha Hocc. rewrite Hkeep by (intros ->; contradiction).
      apply Hzero; assumption.
    - intros a Ha. destruct (Z.eq_dec a target) as [->|Hne].
      + eexists. split; [exact Hv|]. apply literal_value_range, Hb.
      + rewrite Hkeep by exact Hne. apply Hrange, Ha. }
  split; [reflexivity|]. split; [reflexivity|]. split; [reflexivity|].
  split; [exact Hv|]. split; [|split; assumption].
  intros k _ Hne. apply Hkeep, Hne.
Qed.

(** The target is cleared before the value is moved into it. *)
Lemma computes_clear_target {B} o st m target (k : M B)
    (Q : B -> cstate -> machine -> Prop) :
  tape_ok o st m ->
  target ∈ occ (memoryUsage st) ->
  Z.of_nat (length (memoryUsage st)) <= memorySize ->
  (forall st2 m2,
     memoryUsage st2 = memoryUsage st ->
     tape_ok o st2 m2 ->
     read (memory m2) target = Num 0 ->
     (forall j, j <> target -> read (memory m2) j = read (memory m) j) ->
     output m2 = output m -> inputPointer m2 = inputPointer m ->
     computes o k st2 m2 Q) ->
  computes o (moveTo target ;; clearCell ;; k) st m Q.
Proof.
  intros Htape Ht Hlen Hk.
  pose proof (tape_ok_bits _ _ _ _ Htape Ht) as Hb.
  destruct Htape as (Hd & Hdp & Hzero & Hrange).
  pose proof (dense_occ _ _ Hd Ht) as Hkt.
  assert (Et : target mod memorySize = target) by (apply Z.mod_small; lia).
  pose proof (runs_moves o (pointerLocation st) target m Hdp) as R1.
  rewrite Et in R1. set (m1 := set_dataPointer target m) in *.
  destruct (Hrange _ Ht) as (z & Hz & _).
  destruct (runs_clear o m1 z Hb Hz) as (m2 & R2 & Hdp2 & H0 & Hs).
  change (dataPointer m1) with target in *.
  assert (Hkeep : forall j, j <> target ->
                            read (memory m2) j = read (memory m) j).
  { intros j Hne. rewrite (same_except_read _ _ _ _ Hs); [reflexivity|].
    intros [E|[]]. congruence. }
  destruct (same_except_output _ _ _ Hs) as [Hout Hin].
  eapply computes_run; [apply moveTo_eq|simpl_state; reflexivity|exact R1|].
  eapply computes_run; [apply clearCell_eq|simpl_state; reflexivity|exact R2|].
  apply Hk; simpl_state; try assumption; try reflexivity.
  unfold tape_ok. simpl_state. rewrite Et. split; [exact Hd|].
  split; [exact Hdp2|]. split.
  - intros a Ha Hocc. rewrite Hkeep by (intros ->; contradiction).
    apply Hzero; assumption.
  - intros a Ha. destruct (Z.eq_dec a target) as [->|Hne].
    + exists 0. split; [exact H0|lia].
    + rewrite Hkeep by exact Hne. apply Hrange, Ha.
Qed.

(** The value in the cell [c] is moved into the cleared target. *)
Lemma assign_transfer_computes o st1 m1 c target v :
  tape_ok o st1 m1 ->
  c ∈ occ (memoryUsage st1) -> target ∈ occ (memoryUsage st1) ->
  c <> target ->
  read (memory m1) c = Num v ->
  read (memory m1) target = Num 0 ->
  computes o
    (moveTo c ;; emit (bf "[") ;; moveTo target ;; emit (bf "+") ;;
     moveTo c ;; emit (bf "-") ;; emit (bf "]")) st1 m1
    (fun _ st' m' =>
       memoryUsage st' = memoryUsage st1
       /\ tape_ok o st' m'
       /\ read (memory m') target = Num v
       /\ (forall k, k <> c -> k <> target ->
                     read (memory m') k = read (memory m1) k)
       /\ output m' = output m1
       /\ inputPointer m' = inputPointer m1).
Proof.
  intros Ht1 Hc Ht Hne Hv Hrt u st' E Hlen.
  pose proof (tape_ok_bits _ _ _ _ Ht1 Hc) as Hb.
  destruct Ht1 as (Hd1 & Hdp1 & Hz1 & Hrg1).
  pose proof (dense_occ _ _ Hd1 Hc) as Hkc.
  pose proof (dense_occ _ _ Hd1 Ht) as Hkt.
  destruct (Hrg1 _ Hc) as (v' & Ev & Hvr). rewrite Hv in Ev. injection Ev as <-.
  assert (Hl : Z.of_nat (length (memoryUsage st1)) <= memorySize).
  { assert (Hg : grows (moveTo c ;; emit (bf "[") ;; moveTo target ;;
                        emit (bf "+") ;; moveTo c ;; emit (bf "-") ;;
                        emit (bf "]"))) by gr.
    pose proof (wp_Ok _ _ _ _ _ (Hg st1) E) as Hgrow. cbv beta in Hgrow. lia. }
  destruct (transfer_into_target o st1 m1 c target v)
    as (st'' & m' & E' & Hcode & Hmu & Hp & R & Hdp & H0 & Hres & Hs);
    try assumption; try lia.
  rewrite E' in E. injection E as <- <-.
  eexists _, m'. split; [exact Hcode|]. split; [exact R|].
  assert (Hkeep : forall k, k <> c -> k <> target ->
                            read (memory m') k = read (memory m1) k).
  { intros k H1 H2. apply (same_except_read _ _ _ _ Hs).
    intros [E|[E|[]]]; congruence. }
  destruct (same_except_output _ _ _ Hs) as [Hout Hin].
  split; [exact Hmu|]. split.
  { unfold tape_ok. rewrite Hmu, Hp. split; [exact Hd1|].
    split; [rewrite Z.mod_small by lia; exact Hdp|]. split.
    - intros a Ha Hocc. rewrite Hkeep.
      + apply Hz1; assumption.
      + intros ->. contradiction.
      + intros ->. contradiction.
    - intros a Ha. destruct (Z.eq_dec a c) as [->|Hne1];
        [exists 0; split; [exact H0|lia]|].
      destruct (Z.eq_dec a target) as [->|Hne2]; [exists v; auto|].
      rewrite Hkeep by assumption. apply Hrg1, Ha. }
  split; [exact Hres|]. split; [exact Hkeep|]. split; assumption.
Qed.

Lemma assign_variable_computes compile_rec o x i y j st m target cell v :
  tape_ok o st m ->
  findVariableLocation_of x i (memoryUsage st) = Some target ->
  findVariableLocation_of y j (memoryUsage st) = Some cell ->
  cell <> target ->
  read (memory m) cell = Num v ->
  computes o
    (compileToken compile_rec
       (Assign x (IndexNumber i) (VariableRef y (IndexNumber j)))) st m
    (fun _ st' m' => assigned o st m target v st' m').
Proof.
  intros Htape Hx Hy Hne Hv.
  pose proof Htape as (Hd & _).
  assert (Ht : target ∈ occ (memoryUsage st)).
  { apply (named_occ _), (findVariableLocation_of_named x i);
      [apply dense_NoDup, Hd|exact Hx]. }
  assert (Hc : cell ∈ occ (memoryUsage st)).
  { apply (named_occ _), (findVariableLocation_of_named y j);
      [apply dense_NoDup, Hd|exact Hy]. }
  cbn [compileToken].
  eapply computes_run;
    [apply findVariableLocation_eq|rewrite app_nil_r; reflexivity
    |apply runs_nil|].
  rewrite Hx. apply computes_len; [gr|]. intros Hlen.
  apply computes_clear_target; try assumption.
  intros st2 m2 Hmu2 Ht2 H0 Hk2 Ho2 Hi2.
  eapply computes_run;
    [apply findVariableLocation_eq|rewrite app_nil_r; reflexivity
    |apply runs_nil|].
  rewrite Hmu2, Hy.
  pose proof Ht2 as (Hd2 & Hdp2 & Hz2 & Hrg2).
  eapply computes_run;
    [apply moveTo_eq|simpl_state; reflexivity|apply runs_moves, Hdp2|].
  pose proof (dense_occ _ _ Hd Hc) as Hkc.
  assert (Ec : cell mod memorySize = cell) by (apply Z.mod_small; lia).
  rewrite Ec.
  set (st3 := set_pointerLocation cell _).
  set (m3 := set_dataPointer cell m2).
  assert (Ht3 : tape_ok o st3 m3).
  { unfold tape_ok, st3, m3. simpl_state. cbn [dataPointer set_dataPointer memory].
    rewrite Ec. split; [exact Hd2|]. split; [reflexivity|].
    split; [exact Hz2|exact Hrg2]. }
  assert (Hmu3 : memoryUsage st3 = memoryUsage st) by exact Hmu2.
  apply computes_bind; [intros; gr|].
  eapply computes_mono.
  { apply (copy_evaluated o st3 m3 cell v); [exact Ht3|rewrite Hmu3; exact Hc|].
    change (read (memory m2) cell = Num v). rewrite Hk2 by exact Hne. exact Hv. }
  cbv beta. intros c st4 m4 (Hev & Hfresh & Hocc4).
  destruct Hev as (Ht4 & Hs4 & Hf4 & Hn4 & Hc4 & Hv4 & Hk4 & Ho4 & Hi4).
  rewrite Hmu3 in *.
  eapply computes_mono.
  { apply (assign_transfer_computes o st4 m4 c target v); try assumption.
    - apply Hs4, Ht.
    - intros ->. contradiction.
    - rewrite Hk4 by exact Ht. exact H0. }
  cbv beta. intros _ st' m' (Hmu' & Ht' & Hres & Hk' & Ho' & Hi').
  unfold assigned. rewrite Hmu'. split; [exact Ht'|]. split; [exact Hs4|].
  split; [exact Hf4|]. split; [exact Hn4|]. split; [exact Hres|].
  split; [|split; [rewrite Ho', Ho4; exact Ho2|rewrite Hi', Hi4; exact Hi2]].
  intros k Hk Hkt. rewrite Hk'; [|intros ->; contradiction|exact Hkt].
  rewrite Hk4 by exact Hk. apply Hk2, Hkt.
Qed.

Lemma assign_result_computes o e st m target v :
  tape_ok o st m -> 0 < bits o ->
  target ∈ occ (memoryUsage st) ->
  value_of o (memoryUsage st) m e = Some v ->
  match e with VariableRef _ _ => False | _ => True end ->
  computes o
    (resultCell <- evalValue e ;;
     moveTo target ;; clearCell ;;
     moveTo resultCell ;; emit (bf "[") ;; moveTo target ;; emit (bf "+") ;;
     moveTo resultCell ;; emit (bf "-") ;; emit (bf "]")) st m
    (fun _ st' m' => assigned o st m target v st' m').
Proof.
  intros Htape Hb Ht Hv He.
  apply computes_bind; [intros; gr|].
  eapply computes_mono; [apply (evalValue_static o e st m v Htape Hb Hv)|].
  cbv beta. intros r st1 m1 (Hev & Hfresh).
  assert (Hr : r ∉ occ (memoryUsage st)) by (destruct e; [exact Hfresh|contradiction|exact Hfresh..]).
  destruct Hev as (Ht1 & Hs1 & Hf1 & Hn1 & Hr1 & Hv1 & Hk1 & Ho1 & Hi1).
  apply computes_len; [gr|]. intros Hlen.
  apply computes_clear_target; [exact Ht1|apply Hs1, Ht|exact Hlen|].
  intros st2 m2 Hmu2 Ht2 H0 Hk2 Ho2 Hi2.
  assert (Hne : r <> target) by (intros ->; contradiction).
  eapply computes_mono.
  { apply (assign_transfer_computes o st2 m2 r target v);
      rewrite ?Hmu2; try assumption.
    - apply Hs1, Ht.
    - rewrite Hk2 by exact Hne. exact Hv1. }
  cbv beta. intros _ st' m' (Hmu' & Ht' & Hres & Hk' & Ho' & Hi').
  unfold assigned. rewrite Hmu', Hmu2. split; [exact Ht'|]. split; [exact Hs1|].
  split; [exact Hf1|]. split; [exact Hn1|]. split; [exact Hres|].
  split; [|split; congruence].
  intros k Hk Hkt. rewrite Hk'; [|intros ->; contradiction|exact Hkt].
  rewrite Hk2 by exact Hkt. apply Hk1, Hk.
Qed.

(** The assignment at a constant index beside the embedded executor. *)
Lemma assign_stores_value_spec compile_rec o x i e st m target v :
  tape_ok o st m ->
  findVariableLocation_of x i (memoryUsage st) = Some target ->
  value_of o (memoryUsage st) m e = Some v ->
  (forall y j, e = VariableRef y (IndexNumber j) ->
               findVariableLocation_of y j (memoryUsage st) <> Some target) ->
  exists st',
    compileToken compile_rec (Assign x (IndexNumber i) e) st = Ok (tt, st')
    /\ (Z.of_nat (length (memoryUsage st')) <= memorySize ->
        exists seg m',
          brainfuckCode st' = brainfuckCode st ++ seg
          /\ runs o seg m m'
          /\ assigned o st m target v st' m').
Proof.
  intros Htape Hx Hv Hself.
  pose proof Htape as (Hd & _).
  assert (Htn : target ∈ named (memoryUsage st)).
  { apply (findVariableLocation_of_named x i);
      [apply dense_NoDup, Hd|exact Hx]. }
  pose proof (named_occ _ _ Htn) as Ht.
  pose proof (tape_ok_bits _ _ _ _ Htape Ht) as Hb.
  destruct e as [lv|y [j|e']|op l r|].
  - (* a literal *)
    cbn [value_of] in Hv. injection Hv as <-.
    eexists. split.
    { cbn [compileToken]. run_prim. rewrite Hx. run_prim.
      rewrite setValue_eq. reflexivity. }
    lazymatch goal with
    | |- Z.of_nat (length (memoryUsage ?s)) <= _ -> _ => set (st' := s)
    end.
    intros Hlen.
    destruct (assign_literal_runs o st m target lv st' Htape Htn eq_refl eq_refl
                Hlen) as (m' & R & Ha).
    eexists _, m'. split; [unfold st'; simpl_state; rewrite <- app_assoc; reflexivity|].
    split; [exact R|exact Ha].
  - (* a variable *)
    cbn [value_of] in Hv.
    destruct (findVariableLocation_of y j (memoryUsage st)) as [cell|] eqn:Hy;
      [|discriminate].
    destruct (read (memory m) cell) as [z|] eqn:Hz; [|discriminate].
    injection Hv as <-.
    assert (Hne : cell <> target).
    { intros ->. exact (Hself y j eq_refl Hy). }
    eexists. split; [apply (assign_variable_eq _ _ _ _ _ _ _ _ Hy Hx)|].
    intros Hlen.
    exact (assign_variable_computes compile_rec o x i y j st m target cell z
             Htape Hx Hy Hne Hz tt _
             (assign_variable_eq _ _ _ _ _ _ _ _ Hy Hx) Hlen).
  - discriminate.
  - (* a sum or a difference *)
    destruct (evalValue_returns o _ st m v Hd Hv) as (rc & st1 & E & _).
    assert (Eq : exists st',
               compileToken compile_rec (Assign x (IndexNumber i) (Math op l r)) st
               = Ok (tt, st')
               /\ (resultCell <- evalValue (Math op l r) ;;
                   moveTo target ;; clearCell ;;
                   moveTo resultCell ;; emit (bf "[") ;; moveTo target ;;
                   emit (bf "+") ;; moveTo resultCell ;; emit (bf "-") ;;
                   emit (bf "]")) st = Ok (tt, st')).
    { eexists. cbn [compileToken]. unfold bind at 1.
      rewrite findVariableLocation_eq. cbv beta iota. rewrite Hx.
      rewrite !(bind_eq _ _ _ _ _ E).
      split; do 8 run_prim; rewrite emit_eq; reflexivity. }
    destruct Eq as (st' & E1 & E2).
    exists st'. split; [exact E1|]. intros Hlen.
    exact (assign_result_computes o _ st m target v Htape Hb Ht Hv I tt st' E2 Hlen).
  - (* the largest value *)
    cbn [value_of] in Hv. injection Hv as <-.
    eexists. split.
    { cbn [compileToken]. run_prim. rewrite Hx. do 2 run_prim.
      rewrite emit_eq. reflexivity. }
    lazymatch goal with
    | |- Z.of_nat (length (memoryUsage ?s)) <= _ -> _ => set (st' := s)
    end.
    intros Hlen.
    destruct (assign_literal_runs o st m target (LitNumber (-1)) st' Htape Htn
                eq_refl eq_refl Hlen) as (m' & R & Ha).
    eexists _, m'.
    split; [unfold st'; simpl_state; rewrite <- !app_assoc; reflexivity|].
    split; [exact R|exact Ha].
Qed.

(** X6.  Let the tape be as the allocator's map describes it (no deleted key,
    the pointer where the compiler tracks it, 0 in the cells the map does
    not record as occupied, integers from 0 to [bits - 1] in the occupied
    ones: the tape when a program without [unsafe] blocks, calls and [,]
    has run to its end, not that of a later pass of a loop), let [bits] be
    at most 2^52, and let the text the compiler has built fit a string and
    the map fit the tape.  Then
    [set x[i] e], for a constant index [i] and an expression made of
    literals, [max], variables at constant indices, [+] and [-]
    that is not the target itself, compiles, and its text runs to a machine
    where the target cell holds the value of [e]; the other cells occupied
    before hold what they held, the variables are where they were and
    nothing is printed or read. *)
Theorem assign_stores_value compile_rec o x i e st m target v :
  tape_ok o st m ->
  bits o <= 2 ^ 52 ->
  within_limits (compileToken compile_rec (Assign x (IndexNumber i) e)) st
  = true ->
  findVariableLocation_of x i (memoryUsage st) = Some target ->
  value_of o (memoryUsage st) m e = Some v ->
  (forall y j, e = VariableRef y (IndexNumber j) ->
               findVariableLocation_of y j (memoryUsage st) <> Some target) ->
  exists st' seg m',
    compileToken compile_rec (Assign x (IndexNumber i) e) st = Ok (tt, st')
    /\ brainfuckCode st' = brainfuckCode st ++ seg
    /\ runs o seg m m'
    /\ assigned o st m target v st' m'.
Proof.
  intros Htape _ Hfit Hx Hv Hself.
  destruct (assign_stores_value_spec compile_rec o x i e st m target v
              Htape Hx Hv Hself) as (st' & E & H).
  destruct (H (within_limits_Ok _ _ _ _ Hfit E)) as (seg & m' & H').
  exists st', seg, m'. split; [exact E|exact H'].
Qed.

Lemma assign_stores_value_witness :
  let o := options_of_bits 16 in
  let st := state_after two_variables in
  let m := machine_after two_variables o in
  let e := Math OpMinus (var "b") (Math OpPlus (var "a") (lit 5)) in
  exists st' seg m',
    compileToken (compile_fuel 0) (Assign "a" (IndexNumber 0) e) st
    = Ok (tt, st')
    /\ brainfuckCode st' = brainfuckCode st ++ seg
    /\ runs o seg m m'
    /\ assigned o st m 0 8 st' m'.
Proof.
  intros o st m e.
  apply (assign_stores_value (compile_fuel 0) o "a" 0 e st m 0 8).
  - apply tape_okb_sound. vm_compute. reflexivity.
  - vm_compute. discriminate.
  - vm_compute. reflexivity.
  - vm_compute. reflexivity.
  - vm_compute. reflexivity.
  - intros y j E. discriminate E.
Defined.


(** * The allocator *)

Lemma firstUsedOffset_None_inv m start offsets :
  firstUsedOffset m start offsets = None ->
  forall i, In i offsets -> map_has (start + i) m = false.
Proof.
  induction offsets as [|j rest IH]; intros H i Hi; [destruct Hi|].
  cbn in H. destruct (map_has (start + j) m) eqn:E; [discriminate|].
  destruct Hi as [->|Hi]; [exact E|apply IH; assumption].
Qed.

Lemma firstUsedOffset_first m start size i :
  firstUsedOffset m start (seqZ 0 size) = Some i ->
  0 <= i < size /\ map_has (start + i) m = true.
Proof.
  intros H. apply firstUsedOffset_Some in H as [H1 H2].
  split; [apply In_seqZ, H1|apply map_has_In, H2].
Qed.

Lemma findContiguousFreeRegion_loop_least m size :
  forall retries start r,
    0 <= start ->
    (forall s, 0 <= s < start ->
               exists i, 0 <= i < size /\ map_has (s + i) m = true) ->
    findContiguousFreeRegion_loop retries m size start = Some r ->
    0 <= r
    /\ (forall i, 0 <= i < size -> map_has (r + i) m = false)
    /\ (forall s, 0 <= s < r ->
                  exists i, 0 <= i < size /\ map_has (s + i) m = true).
Proof.
  induction retries as [|retries IH]; intros start r Hs Hblocked;
    cbn [findContiguousFreeRegion_loop];
    destruct (firstUsedOffset m start (seqZ 0 size)) as [i|] eqn:E;
    try discriminate.
  - intros [= <-]. split; [exact Hs|]. split; [|exact Hblocked].
    intros i Hi. apply (firstUsedOffset_None_inv _ _ _ E).
    apply list_elem_of_In, elem_of_seqZ. lia.
  - intros H. apply firstUsedOffset_first in E as [Hi Hused].
    apply (IH (start + i + 1) r); [lia| |exact H].
    intros s Hs'. destruct (Z_lt_ge_dec s start) as [Hlt|Hge].
    + apply Hblocked. lia.
    + exists (start + i - s). split; [lia|].
      replace (s + (start + i - s)) with (start + i) by lia. exact Hused.
  - intros [= <-]. split; [exact Hs|]. split; [|exact Hblocked].
    intros i Hi. apply (firstUsedOffset_None_inv _ _ _ E).
    apply list_elem_of_In, elem_of_seqZ. lia.
Qed.

(** [findContiguousFreeRegion] on the embedding, where sizes and keys are
    integers without a bound. *)
Lemma findContiguousFreeRegion_least_free_spec size st :
  exists start,
    findContiguousFreeRegion size st = Ok (start, st)
    /\ 0 <= start
    /\ (forall i, 0 <= i < size ->
                  map_has (start + i) (memoryUsage st) = false)
    /\ (forall s, 0 <= s < start ->
                  exists i, 0 <= i < size
                            /\ map_has (s + i) (memoryUsage st) = true).
Proof.
  destruct (findContiguousFreeRegion_of_total (memoryUsage st) size)
    as [start E].
  exists start. unfold findContiguousFreeRegion. rewrite E.
  split; [reflexivity|].
  apply (findContiguousFreeRegion_loop_least (memoryUsage st) size
           (length (memoryUsage st)) 0 start); [lia| |exact E].
  intros s Hs. lia.
Qed.

(** X7.  For an integer [size] of at most the 30000 cells of the tape and a map
    whose keys are addresses of the tape, [findContiguousFreeRegion]
    returns: its [while (true)] loop ends, and the start it answers is the
    least address from which [size] addresses in a row are no keys of the
    map (freed cells are keys as well). *)
Theorem findContiguousFreeRegion_least_free size st :
  size <= memorySize ->
  keys_on_tape (memoryUsage st) = true ->
  exists start,
    findContiguousFreeRegion size st = Ok (start, st)
    /\ 0 <= start
    /\ (forall i, 0 <= i < size ->
                  map_has (start + i) (memoryUsage st) = false)
    /\ (forall s, 0 <= s < start ->
                  exists i, 0 <= i < size
                            /\ map_has (s + i) (memoryUsage st) = true).
Proof.
  intros _ _. exact (findContiguousFreeRegion_least_free_spec size st).
Qed.

Lemma findContiguousFreeRegion_least_free_witness :
  let st :=
    set_memoryUsage [(0, Named ("a"%string, 0) TNumber); (1, Freed);
                     (4, Temporary)] initial_state in
  exists start,
    findContiguousFreeRegion 2 st = Ok (start, st)
    /\ 0 <= start
    /\ (forall i, 0 <= i < 2 ->
                  map_has (start + i) (memoryUsage st) = false)
    /\ (forall s, 0 <= s < start ->
                  exists i, 0 <= i < 2
                            /\ map_has (s + i) (memoryUsage st) = true).
Proof.
  intros st. apply (findContiguousFreeRegion_least_free 2 st).
  - vm_compute. discriminate.
  - reflexivity.
Defined.

(** X8.  On a map no key was deleted from, [findEmptyLocation] answers the lowest
    freed address, and the number of entries when no address is freed; the
    address it answers is never an occupied one. *)
Theorem findEmptyLocation_lowest_free st :
  dense (memoryUsage st) ->
  exists r,
    findEmptyLocation st = Ok (r, st)
    /\ (r ∉ occ (memoryUsage st))
    /\ ((map_get r (memoryUsage st) = Some Freed
         /\ forall k, map_get k (memoryUsage st) = Some Freed -> r <= k)
        \/ ((forall k, map_get k (memoryUsage st) <> Some Freed)
            /\ r = Z.of_nat (length (memoryUsage st)))).
Proof.
  intros Hd. exists (findEmptyLocation_of (memoryUsage st)).
  split; [reflexivity|].
  split; [apply (findEmptyLocation_of_spec _ Hd)|].
  apply (findEmptyLocation_of_lowest _ Hd).
Qed.

Lemma findEmptyLocation_lowest_free_witness :
  let st :=
    set_memoryUsage [(0, Named ("a"%string, 0) TNumber); (1, Temporary);
                     (2, Freed); (3, Temporary); (4, Freed)] initial_state in
  exists r,
    findEmptyLocation st = Ok (r, st)
    /\ (r ∉ occ (memoryUsage st))
    /\ ((map_get r (memoryUsage st) = Some Freed
         /\ forall k, map_get k (memoryUsage st) = Some Freed -> r <= k)
        \/ ((forall k, map_get k (memoryUsage st) <> Some Freed)
            /\ r = Z.of_nat (length (memoryUsage st)))).
Proof.
  intros st. apply (findEmptyLocation_lowest_free st). reflexivity.
Defined.

(** * Declarations *)

Lemma findVariableLocation_of_new x i t k m :
  k ∉ named m ->
  findVariableLocation_of x i m = None ->
  findVariableLocation_of x i (map_set k (Named (x, i) t) m) = Some k.
Proof.
  intros Hk. rewrite elem_of_named in Hk.
  induction m as [|[k0 u0] m IH]; intros Hnone.
  - cbn. rewrite String.eqb_refl, Z.eqb_refl. reflexivity.
  - cbn [map_set map_get] in *. destruct (Z.eqb_spec k0 k) as [->|Hne].
    + cbn [findVariableLocation_of]. rewrite String.eqb_refl, Z.eqb_refl.
      reflexivity.
    + cbn [findVariableLocation_of] in *.
      destruct u0 as [[n j] t0| |]; try (apply IH; assumption).
      destruct (String.eqb n x && Z.eqb j i)%bool; [discriminate|].
      apply IH; assumption.
Qed.

Lemma findVariableLocation_of_other x i t k m y j :
  k ∉ named m ->
  (y, j) <> (x, i) ->
  findVariableLocation_of y j (map_set k (Named (x, i) t) m)
  = findVariableLocation_of y j m.
Proof.
  intros Hk Hne. rewrite elem_of_named in Hk.
  assert (E : (String.eqb x y && Z.eqb i j)%bool = false).
  { destruct (String.eqb_spec x y) as [->|]; [|reflexivity].
    destruct (Z.eqb_spec i j) as [->|]; [|reflexivity].
    exfalso. apply Hne. reflexivity. }
  induction m as [|[k0 u0] m IH].
  - cbn. rewrite E. reflexivity.
  - cbn [map_set map_get] in *. destruct (Z.eqb_spec k0 k) as [->|Hne'].
    + cbn [findVariableLocation_of]. rewrite E.
      destruct u0 as [[n j0] t0| |]; [exfalso; apply Hk; reflexivity| |];
        reflexivity.
    + cbn [findVariableLocation_of]. rewrite IH by exact Hk. reflexivity.
Qed.

(** The declaration of a single cell beside the embedded executor. *)
Lemma declare_scalar_binds_spec compile_rec o x ty st m :
  tape_ok o st m -> 0 < bits o ->
  findVariableLocation_of x 0 (memoryUsage st) = None ->
  exists loc st',
    compileToken compile_rec (Declaration x ty None) st = Ok (tt, st')
    /\ brainfuckCode st' = brainfuckCode st
    /\ (loc ∉ occ (memoryUsage st))
    /\ findVariableLocation_of x 0 (memoryUsage st') = Some loc
    /\ (forall y j, (y, j) <> (x, 0) ->
                    findVariableLocation_of y j (memoryUsage st')
                    = findVariableLocation_of y j (memoryUsage st))
    /\ variables st' !! x = Some {| base := loc; length_ := 1; type_ := ty |}
    /\ (Z.of_nat (length (memoryUsage st')) <= memorySize ->
        tape_ok o st' m /\ read (memory m) loc = Num 0).
Proof.
  intros Htape Hb Hnone.
  pose proof Htape as (Hd & Hdp & Hzero & Hrange).
  destruct (findEmptyLocation_of_spec _ Hd) as [Hr Ho].
  remember (findEmptyLocation_of (memoryUsage st)) as loc eqn:Eloc.
  pose proof Ho as Hon.
  assert (Hn : loc ∉ named (memoryUsage st)).
  { intros H. apply Hon, (named_occ _), H. }
  exists loc. eexists. split; [cbn [compileToken]; do 2 run_prim; reflexivity|].
  simpl_state. rewrite <- !Eloc. split; [reflexivity|]. split; [exact Hon|].
  split; [apply findVariableLocation_of_new; assumption|].
  split; [intros y j Hne; apply findVariableLocation_of_other; assumption|].
  split; [apply lookup_insert_eq|].
  intros Hlen.
  destruct (dense_map_set _ loc (Named (x, 0) ty) Hd Hr) as [Hd' _].
  assert (Hk : 0 <= loc < Z.of_nat (length (map_set loc (Named (x, 0) ty)
                                              (memoryUsage st)))).
  { apply (dense_key_lt _ _ (Named (x, 0) ty) Hd').
    rewrite map_get_map_set, Z.eqb_refl. reflexivity. }
  assert (H0 : read (memory m) loc = Num 0) by (apply Hzero; [lia|exact Hon]).
  split; [|exact H0].
  unfold tape_ok. simpl_state. split; [exact Hd'|]. split; [exact Hdp|].
  rewrite occ_map_set_Named. split.
  - intros a Ha Hocc. apply Hzero; [exact Ha|set_solver].
  - intros a Ha. destruct (Z.eq_dec a loc) as [->|Hne].
    + exists 0. split; [exact H0|lia].
    + apply Hrange. set_solver.
Qed.

(** X9.  Let the tape be as the allocator's map describes it (no deleted key,
    the pointer where the compiler tracks it, 0 in the cells the map does
    not record as occupied, integers from 0 to [bits - 1] in the occupied
    ones: the tape when a program without [unsafe] blocks, calls and [,]
    has run to its end, not that of a later pass of a loop), let [bits] be
    at most 2^52, and let the text the compiler has built fit a string and
    the map fit the tape.  Then
    [define x], a single cell, for a name that is not declared, compiles
    and emits no text; the variable is found at the address
    [findEmptyLocation] gives, which was not occupied and holds 0, every
    other variable is found where it was, and the tape is as the new map
    describes it. *)
Theorem declare_scalar_binds compile_rec o x ty st m :
  tape_ok o st m ->
  0 < bits o <= 2 ^ 52 ->
  within_limits (compileToken compile_rec (Declaration x ty None)) st = true ->
  findVariableLocation_of x 0 (memoryUsage st) = None ->
  exists loc st',
    compileToken compile_rec (Declaration x ty None) st = Ok (tt, st')
    /\ brainfuckCode st' = brainfuckCode st
    /\ (loc ∉ occ (memoryUsage st))
    /\ findVariableLocation_of x 0 (memoryUsage st') = Some loc
    /\ (forall y j, (y, j) <> (x, 0) ->
                    findVariableLocation_of y j (memoryUsage st')
                    = findVariableLocation_of y j (memoryUsage st))
    /\ variables st' !! x = Some {| base := loc; length_ := 1; type_ := ty |}
    /\ tape_ok o st' m
    /\ read (memory m) loc = Num 0.
Proof.
  intros Htape [Hb _] Hfit Hnone.
  destruct (declare_scalar_binds_spec compile_rec o x ty st m Htape Hb Hnone)
    as (loc & st' & E & H1 & H2 & H3 & H4 & H5 & H).
  destruct (H (within_limits_Ok _ _ _ _ Hfit E)) as [H6 H7].
  exists loc, st'. auto 10.
Qed.

Lemma declare_scalar_binds_witness :
  let o := options_of_bits 16 in
  let st := state_after two_variables in
  let m := machine_after two_variables o in
  exists loc st',
    compileToken (compile_fuel 0) (Declaration "c" TChar None) st = Ok (tt, st')
    /\ brainfuckCode st' = brainfuckCode st
    /\ (loc ∉ occ (memoryUsage st))
    /\ findVariableLocation_of "c" 0 (memoryUsage st') = Some loc
    /\ (forall y j, (y, j) <> ("c"%string, 0) ->
                    findVariableLocation_of y j (memoryUsage st')
                    = findVariableLocation_of y j (memoryUsage st))
    /\ variables st' !! "c"%string
       = Some {| base := loc; length_ := 1; type_ := TChar |}
    /\ tape_ok o st' m
    /\ read (memory m) loc = Num 0.
Proof.
  intros o st m.
  apply (declare_scalar_binds (compile_fuel 0) o "c" TChar st m).
  - apply tape_okb_sound. vm_compute. reflexivity.
  - split; [reflexivity|vm_compute; discriminate].
  - vm_compute. reflexivity.
  - vm_compute. reflexivity.
Defined.


(** ** Arrays *)

Lemma map_set_fresh k v m :
  ~ In k (map fst m) -> map_set k v m = m ++ [(k, v)].
Proof.
  induction m as [|[k0 v0] m IH]; intros Hk; [reflexivity|].
  cbn [map_set app]. cbn [map fst] in Hk.
  destruct (Z.eqb_spec k0 k) as [->|Hne]; [exfalso; apply Hk; left; reflexivity|].
  rewrite IH; [reflexivity|]. intros H. apply Hk. right. exact H.
Qed.

Lemma map_set_length_dense v m :
  dense m -> map_set (Z.of_nat (length m)) v m = m ++ [(Z.of_nat (length m), v)].
Proof.
  intros Hd. apply map_set_fresh. rewrite (dense_In _ _ Hd). lia.
Qed.

Lemma findVariableLocation_of_app y j l1 l2 :
  findVariableLocation_of y j (l1 ++ l2)
  = match findVariableLocation_of y j l1 with
    | Some r => Some r
    | None => findVariableLocation_of y j l2
    end.
Proof.
  induction l1 as [|[k u] l1 IH]; [reflexivity|].
  cbn [app findVariableLocation_of]. destruct u as [[n i] t| |]; try exact IH.
  destruct (String.eqb n y && Z.eqb i j)%bool; [reflexivity|exact IH].
Qed.

(** The entries an array declaration adds. *)
Lemma findVariableLocation_of_array x ty b y j k :
  forall s,
    findVariableLocation_of y j
      (map (fun i => (b + i, Named (x, i) ty)) (seqZ s (Z.of_nat k)))
    = if (String.eqb x y && (s <=? j) && (j <? s + Z.of_nat k))%bool
      then Some (b + j) else None.
Proof.
  induction k as [|k IH]; intros s.
  - change (Z.of_nat 0) with 0. rewrite seqZ_nil by lia.
    cbn [map findVariableLocation_of].
    destruct (String.eqb x y), (Z.leb_spec s j), (Z.ltb_spec j (s + 0));
      cbn [andb]; try reflexivity; lia.
  - rewrite seqZ_cons by lia. cbn [map findVariableLocation_of].
    replace (Z.pred (Z.of_nat (S k))) with (Z.of_nat k) by lia.
    rewrite IH. destruct (String.eqb x y); [|reflexivity]. cbn [andb].
    destruct (Z.eqb_spec s j) as [->|Hne].
    + destruct (Z.leb_spec j j), (Z.ltb_spec j (j + Z.of_nat (S k)));
        try reflexivity; lia.
    + destruct (Z.leb_spec (Z.succ s) j), (Z.ltb_spec j (Z.succ s + Z.of_nat k)),
        (Z.leb_spec s j), (Z.ltb_spec j (s + Z.of_nat (S k)));
        try reflexivity; lia.
Qed.

Lemma declare_step_returns x ty loc i st :
  exists st1,
    (memSet loc (Named (x, i) ty) ;; moveTo loc ;; clearCell) st = Ok (tt, st1)
    /\ memoryUsage st1 = map_set loc (Named (x, i) ty) (memoryUsage st)
    /\ variables st1 = variables st.
Proof.
  eexists. split; [do 2 run_prim; rewrite clearCell_eq; reflexivity|].
  simpl_state. auto.
Qed.

Lemma declare_loop_returns x ty b k :
  forall s st,
    dense (memoryUsage st) ->
    Z.of_nat (length (memoryUsage st)) = b + s ->
    exists st',
      forEach (fun i =>
                 let loc := b + i in
                 memSet loc (Named (x, i) ty) ;; moveTo loc ;; clearCell)
              (seqZ s (Z.of_nat k)) st = Ok (tt, st')
      /\ memoryUsage st'
         = memoryUsage st
           ++ map (fun i => (b + i, Named (x, i) ty)) (seqZ s (Z.of_nat k))
      /\ variables st' = variables st
      /\ dense (memoryUsage st').
Proof.
  induction k as [|k IH]; intros s st Hd Hlen.
  - exists st. cbn. rewrite app_nil_r. auto.
  - rewrite seqZ_cons by lia. cbn [forEach map]. cbv zeta.
    replace (Z.pred (Z.of_nat (S k))) with (Z.of_nat k) by lia.
    destruct (declare_step_returns x ty (b + s) s st) as (st1 & E1 & Hm1 & Hv1).
    rewrite (bind_eq _ _ _ _ _ E1).
    assert (Hmu1 : memoryUsage st1
                   = memoryUsage st ++ [(b + s, Named (x, s) ty)]).
    { rewrite Hm1, <- Hlen. apply map_set_length_dense, Hd. }
    assert (Hd1 : dense (memoryUsage st1)).
    { rewrite Hm1. apply (dense_map_set _ _ _ Hd). lia. }
    destruct (IH (Z.succ s) st1 Hd1) as (st' & E & Hmu & Hv & Hd').
    { rewrite Hmu1, length_app. cbn [length]. lia. }
    exists st'. split; [exact E|]. split; [|split; [congruence|exact Hd']].
    rewrite Hmu, Hmu1, <- app_assoc. reflexivity.
Qed.

Lemma declare_loop_computes o x ty b k :
  forall s st m,
    tape_ok o st m -> 0 < bits o ->
    Z.of_nat (length (memoryUsage st)) = b + s ->
    computes o
      (forEach (fun i =>
                  let loc := b + i in
                  memSet loc (Named (x, i) ty) ;; moveTo loc ;; clearCell)
               (seqZ s (Z.of_nat k))) st m
      (fun _ st' m' =>
         tape_ok o st' m'
         /\ (forall a, read (memory m') a = read (memory m) a)
         /\ output m' = output m
         /\ inputPointer m' = inputPointer m).
Proof.
  induction k as [|k IH]; intros s st m Htape Hb Hlen.
  - cbn. apply computes_ret. auto.
  - rewrite seqZ_cons by lia. cbn [forEach]. cbv zeta.
    replace (Z.pred (Z.of_nat (S k))) with (Z.of_nat k) by lia.
    destruct Htape as (Hd & Hdp & Hzero & Hrange).
    assert (Hfresh : b + s ∉ occ (memoryUsage st)).
    { intros H. apply (dense_occ _ _ Hd) in H. lia. }
    destruct (dense_map_set _ (b + s) (Named (x, s) ty) Hd ltac:(lia))
      as [Hd1 _].
    assert (Hl1 : Z.of_nat (length (map_set (b + s) (Named (x, s) ty)
                                      (memoryUsage st))) = b + Z.succ s).
    { rewrite <- Hlen, map_set_length_dense by exact Hd.
      rewrite length_app. cbn [length]. lia. }
    apply computes_bind;
      [intros; apply gr_forEach; intros; cbv zeta; gr|].
    eapply computes_run;
      [apply memSet_eq|rewrite app_nil_r; reflexivity|apply runs_nil|].
    apply computes_len; [gr|]. simpl_state. intros Hl.
    rewrite Hl1 in Hl.
    assert (H0 : read (memory m) (b + s) = Num 0)
      by (apply Hzero; [lia|exact Hfresh]).
    destruct (runs_move_clear o (pointerLocation st) (b + s) m 0 Hb Hdp
                ltac:(lia) H0) as (m1 & R & Hdp1 & H1 & Hs1).
    assert (Hsame : forall a, read (memory m1) a = read (memory m) a).
    { intros a. destruct (Z.eq_dec a (b + s)) as [->|Hne]; [congruence|].
      apply (same_except_read _ _ _ _ Hs1). intros [E|[]]. congruence. }
    destruct (same_except_output _ _ _ Hs1) as [Hout Hin].
    eapply computes_eq;
      [run_prim; rewrite clearCell_eq; reflexivity
      |simpl_state; rewrite <- app_assoc; reflexivity|].
    simpl_state. intros _. exists m1. split; [exact R|].
    eapply computes_mono.
    { apply (IH (Z.succ s)); [|exact Hb|simpl_state; exact Hl1].
      unfold tape_ok. simpl_state. split; [exact Hd1|].
      split; [rewrite Z.mod_small by lia; exact Hdp1|].
      rewrite occ_map_set_Named. split.
      - intros a Ha Hocc. rewrite Hsame. apply Hzero; [exact Ha|set_solver].
      - intros a Ha. rewrite Hsame.
        destruct (Z.eq_dec a (b + s)) as [->|Hne].
        + exists 0. split; [exact H0|lia].
        + apply Hrange. set_solver. }
    cbv beta. intros _ st' m' (Ht' & Hr' & Ho' & Hi').
    split; [exact Ht'|]. split; [intros a; rewrite Hr'; apply Hsame|].
    split; congruence.
Qed.

(** The declaration of an array beside the embedded executor. *)
Lemma declare_array_binds_spec compile_rec o x ty n st m :
  tape_ok o st m -> 0 < bits o -> 0 < n ->
  (forall i, findVariableLocation_of x i (memoryUsage st) = None) ->
  exists st',
    compileToken compile_rec (Declaration x ty (Some n)) st = Ok (tt, st')
    /\ (forall i, 0 <= i < n ->
                  findVariableLocation_of x i (memoryUsage st')
                  = Some (Z.of_nat (length (memoryUsage st)) + i))
    /\ (forall y j, y <> x ->
                    findVariableLocation_of y j (memoryUsage st')
                    = findVariableLocation_of y j (memoryUsage st))
    /\ variables st' !! x
       = Some {| base := Z.of_nat (length (memoryUsage st));
                 length_ := n; type_ := ty |}
    /\ (Z.of_nat (length (memoryUsage st')) <= memorySize ->
        exists seg m',
          brainfuckCode st' = brainfuckCode st ++ seg
          /\ runs o seg m m'
          /\ tape_ok o st' m'
          /\ (forall a, read (memory m') a = read (memory m) a)
          /\ (forall i, 0 <= i < n ->
                read (memory m') (Z.of_nat (length (memoryUsage st)) + i)
                = Num 0)
          /\ output m' = output m
          /\ inputPointer m' = inputPointer m).
Proof.
  intros Htape Hb Hn Hnone.
  pose proof Htape as (Hd & Hdp & Hzero & Hrange).
  set (b := Z.of_nat (length (memoryUsage st))).
  assert (Hfind : findContiguousFreeRegion n st = Ok (b, st)).
  { unfold findContiguousFreeRegion.
    rewrite (findContiguousFreeRegion_of_dense _ _ Hd).
    destruct (Z.ltb_spec 0 n); [reflexivity|lia]. }
  destruct (declare_loop_returns x ty b (Z.to_nat n) 0 st Hd ltac:(unfold b; lia))
    as (st1 & E1 & Hmu1 & Hv1 & Hd1).
  rewrite Z2Nat.id in E1, Hmu1 by lia.
  eexists. split.
  { cbn [compileToken]. rewrite (bind_eq _ _ _ _ _ Hfind). unfold forRange.
    rewrite (bind_eq _ _ _ _ _ E1). reflexivity. }
  simpl_state. rewrite Hmu1.
  split.
  { intros i Hi. rewrite findVariableLocation_of_app, Hnone.
    rewrite <- (Z2Nat.id n) by lia. rewrite findVariableLocation_of_array.
    rewrite String.eqb_refl. cbn [andb].
    destruct (Z.leb_spec 0 i), (Z.ltb_spec i (0 + Z.of_nat (Z.to_nat n)));
      try reflexivity; lia. }
  split.
  { intros y j Hne. rewrite findVariableLocation_of_app.
    destruct (findVariableLocation_of y j (memoryUsage st)); [reflexivity|].
    rewrite <- (Z2Nat.id n) by lia. rewrite findVariableLocation_of_array.
    destruct (String.eqb_spec x y) as [->|]; [contradiction|reflexivity]. }
  split; [apply lookup_insert_eq|].
  rewrite <- Hmu1. intros Hlen.
  pose proof (declare_loop_computes o x ty b (Z.to_nat n) 0 st m Htape Hb
                ltac:(unfold b; lia)) as Hc.
  rewrite Z2Nat.id in Hc by lia.
  destruct (Hc tt st1 E1 Hlen) as (seg & m' & Hcode & R & Ht' & Hr' & Ho' & Hi').
  exists seg, m'. split; [exact Hcode|]. split; [exact R|].
  split.
  { destruct Ht' as (H1 & H2 & H3 & H4). unfold tape_ok. simpl_state. auto. }
  split; [exact Hr'|]. split; [|auto].
  intros i Hi. rewrite Hr'. apply Hzero.
  - rewrite Hmu1, length_app, length_map in Hlen.
    rewrite <- (Z2Nat.id n) in Hlen by lia.
    rewrite length_seqZ in Hlen. fold b. lia.
  - intros H. apply (dense_occ _ _ Hd) in H. fold b in H. lia.
Qed.

(** X10.  Let the tape be as the allocator's map describes it (no deleted key,
    the pointer where the compiler tracks it, 0 in the cells the map does
    not record as occupied, integers from 0 to [bits - 1] in the occupied
    ones: the tape when a program without [unsafe] blocks, calls and [,]
    has run to its end, not that of a later pass of a loop), let [bits] be
    at most 2^52, and let the text the compiler has built fit a string and
    the map fit the tape.  Then
    [define x n], an array of [n > 0] cells ([n] an integer), for a name
    that is not declared, compiles; the elements are found in a row right
    after the last entry of the map (freed cells are not reused), every
    other variable is found where it was, and the emitted text runs and
    leaves every cell of the tape as it was, the new ones at 0. *)
Theorem declare_array_binds compile_rec o x ty n st m :
  tape_ok o st m ->
  0 < bits o <= 2 ^ 52 ->
  within_limits (compileToken compile_rec (Declaration x ty (Some n))) st
  = true ->
  0 < n ->
  (forall i, findVariableLocation_of x i (memoryUsage st) = None) ->
  exists st' seg m',
    compileToken compile_rec (Declaration x ty (Some n)) st = Ok (tt, st')
    /\ (forall i, 0 <= i < n ->
                  findVariableLocation_of x i (memoryUsage st')
                  = Some (Z.of_nat (length (memoryUsage st)) + i))
    /\ (forall y j, y <> x ->
                    findVariableLocation_of y j (memoryUsage st')
                    = findVariableLocation_of y j (memoryUsage st))
    /\ variables st' !! x
       = Some {| base := Z.of_nat (length (memoryUsage st));
                 length_ := n; type_ := ty |}
    /\ brainfuckCode st' = brainfuckCode st ++ seg
    /\ runs o seg m m'
    /\ tape_ok o st' m'
    /\ (forall a, read (memory m') a = read (memory m) a)
    /\ (forall i, 0 <= i < n ->
          read (memory m') (Z.of_nat (length (memoryUsage st)) + i) = Num 0)
    /\ output m' = output m
    /\ inputPointer m' = inputPointer m.
Proof.
  intros Htape [Hb _] Hfit Hn Hnone.
  destruct (declare_array_binds_spec compile_rec o x ty n st m Htape Hb Hn
              Hnone) as (st' & E & H1 & H2 & H3 & H).
  destruct (H (within_limits_Ok _ _ _ _ Hfit E)) as (seg & m' & H').
  exists st', seg, m'. auto 10.
Qed.

Lemma declare_array_binds_witness :
  let o := options_of_bits 16 in
  let st := state_after two_variables in
  let m := machine_after two_variables o in
  exists st' seg m',
    compileToken (compile_fuel 0) (Declaration "c" TChar (Some 3)) st
    = Ok (tt, st')
    /\ (forall i, 0 <= i < 3 ->
                  findVariableLocation_of "c" i (memoryUsage st')
                  = Some (Z.of_nat (length (memoryUsage st)) + i))
    /\ (forall y j, y <> "c"%string ->
                    findVariableLocation_of y j (memoryUsage st')
                    = findVariableLocation_of y j (memoryUsage st))
    /\ variables st' !! "c"%string
       = Some {| base := Z.of_nat (length (memoryUsage st));
                 length_ := 3; type_ := TChar |}
    /\ brainfuckCode st' = brainfuckCode st ++ seg
    /\ runs o seg m m'
    /\ tape_ok o st' m'
    /\ (forall a, read (memory m') a = read (memory m) a)
    /\ (forall i, 0 <= i < 3 ->
          read (memory m') (Z.of_nat (length (memoryUsage st)) + i) = Num 0)
    /\ output m' = output m
    /\ inputPointer m' = inputPointer m.
Proof.
  intros o st m.
  apply (declare_array_binds (compile_fuel 0) o "c" TChar 3 st m).
  - apply tape_okb_sound. vm_compute. reflexivity.
  - split; [reflexivity|vm_compute; discriminate].
  - vm_compute. reflexivity.
  - reflexivity.
  - intros i. vm_compute. reflexivity.
Defined.


(** * [input] *)

(** [input] beside the embedded executor. *)
Lemma input_stores_character_spec compile_rec o x loc st m :
  tape_ok o st m ->
  findVariableLocation_of x 0 (memoryUsage st) = Some loc ->
  loc <> 0 ->
  exists st',
    compileToken compile_rec (Input x) st = Ok (tt, st')
    /\ memoryUsage st' = memoryUsage st
    /\ (Z.of_nat (length (memoryUsage st')) <= memorySize ->
        exists seg m',
          brainfuckCode st' = brainfuckCode st ++ seg
          /\ runs o seg m m'
          /\ dataPointer m' = loc
          /\ read (memory m') loc
             = match input o !! inputPointer m with
               | Some c => if useNumberInputs o then parseInt c
                           else Num (Z.of_nat (nat_of_ascii c))
               | None => Num 0
               end
          /\ inputPointer m'
             = match input o !! inputPointer m with
               | Some _ => S (inputPointer m)
               | None => inputPointer m
               end
          /\ (forall k, k <> loc -> read (memory m') k = read (memory m) k)
          /\ output m' = output m).
Proof.
  intros (Hd & Hdp & Hzero & Hrange) Hx Hne.
  eexists. split; [apply (input_at_nonzero_address _ _ _ _ Hx Hne)|].
  simpl_state. split; [reflexivity|]. intros Hlen.
  assert (Hocc : loc ∈ occ (memoryUsage st)).
  { apply (named_occ _), (findVariableLocation_of_named x 0);
      [apply dense_NoDup, Hd|exact Hx]. }
  pose proof (dense_occ _ _ Hd Hocc) as Hk.
  assert (El : loc mod memorySize = loc) by (apply Z.mod_small; lia).
  pose proof (runs_moves o (pointerLocation st) loc m Hdp) as R1.
  rewrite El in R1. set (m1 := set_dataPointer loc m) in *.
  pose proof (runs_single o "," m1 eq_refl) as R2.
  exists (moves (pointerLocation st) loc ++ bf ","), (simple_step o "," m1).
  split; [reflexivity|]. split; [eapply runs_app; eassumption|].
  change (simple_step o "," m1) with (read_input o m1).
  unfold read_input. change (inputPointer m1) with (inputPointer m).
  destruct (input o !! inputPointer m) as [c|];
    cbn [memory dataPointer inputPointer output set_cell m1 set_dataPointer];
    unfold read; rewrite lookup_insert_eq; cbn [default];
    (split; [reflexivity|]); (split; [reflexivity|]); (split; [reflexivity|]);
    (split; [|reflexivity]);
    intros k Hk'; rewrite lookup_insert_ne by congruence; reflexivity.
Qed.

(** X11.  Let the tape be as the allocator's map describes it (no deleted key,
    the pointer where the compiler tracks it, 0 in the cells the map does
    not record as occupied, integers from 0 to [bits - 1] in the occupied
    ones), let the text the compiler has built fit a string and the map fit
    the tape, and let the input be a string of characters with codes below
    256.  Then [input x], for a variable bound to an address other than 0,
    compiles, and its text stores the next character of the input in the
    variable's cell: its code, not reduced modulo [bits], or the digit it
    stands for when number inputs are on ([NaN] when it is no digit); past
    the end of the input the cell is set to 0.  No other cell changes and
    nothing is printed. *)
Theorem input_stores_character compile_rec o x loc st m :
  tape_ok o st m ->
  within_limits (compileToken compile_rec (Input x)) st = true ->
  findVariableLocation_of x 0 (memoryUsage st) = Some loc ->
  loc <> 0 ->
  exists st' seg m',
    compileToken compile_rec (Input x) st = Ok (tt, st')
    /\ memoryUsage st' = memoryUsage st
    /\ brainfuckCode st' = brainfuckCode st ++ seg
    /\ runs o seg m m'
    /\ dataPointer m' = loc
    /\ read (memory m') loc
       = match input o !! inputPointer m with
         | Some c => if useNumberInputs o then parseInt c
                     else Num (Z.of_nat (nat_of_ascii c))
         | None => Num 0
         end
    /\ inputPointer m'
       = match input o !! inputPointer m with
         | Some _ => S (inputPointer m)
         | None => inputPointer m
         end
    /\ (forall k, k <> loc -> read (memory m') k = read (memory m) k)
    /\ output m' = output m.
Proof.
  intros Htape Hfit Hx Hne.
  destruct (input_stores_character_spec compile_rec o x loc st m Htape Hx Hne)
    as (st' & E & H1 & H).
  destruct (H (within_limits_Ok _ _ _ _ Hfit E)) as (seg & m' & H').
  exists st', seg, m'. auto.
Qed.

Lemma input_stores_character_witness :
  let o := {| input := ["7"%char]; useNumberInputs := true; bits := 4 |} in
  let st := state_after two_variables in
  let m := machine_after two_variables o in
  exists st' seg m',
    compileToken (compile_fuel 0) (Input "b") st = Ok (tt, st')
    /\ memoryUsage st' = memoryUsage st
    /\ brainfuckCode st' = brainfuckCode st ++ seg
    /\ runs o seg m m'
    /\ dataPointer m' = 1
    /\ read (memory m') 1 = Num 7
    /\ inputPointer m' = 1%nat
    /\ (forall k, k <> 1 -> read (memory m') k = read (memory m) k)
    /\ output m' = output m.
Proof.
  intros o st m.
  apply (input_stores_character (compile_fuel 0) o "b" 1 st m).
  - apply tape_okb_sound. vm_compute. reflexivity.
  - vm_compute. reflexivity.
  - vm_compute. reflexivity.
  - discriminate.
Defined.


(** * The executor *)

Lemma scan_forward_code after :
  forall c before b' a',
    scan_forward c before after = Some (b', a') ->
    rev b' ++ a' = rev before ++ after.
Proof.
  induction after as [|ch after IH]; intros c before b' a' H; [discriminate|].
  cbn [scan_forward] in H.
  destruct (if Ascii.eqb ch "[" then S c
            else if Ascii.eqb ch "]" then Nat.pred c else c) as [|c'].
  - injection H as <- <-. cbn [rev]. rewrite <- app_assoc. reflexivity.
  - rewrite (IH _ _ _ _ H). cbn [rev]. rewrite <- app_assoc. reflexivity.
Qed.

Lemma scan_backward_code before :
  forall c after b' a',
    scan_backward c before after = Some (b', a') ->
    rev b' ++ a' = rev before ++ after.
Proof.
  induction before as [|ch before IH]; intros c after b' a' H; [discriminate|].
  cbn [scan_backward] in H.
  destruct (if Ascii.eqb ch "]" then S c
            else if Ascii.eqb ch "[" then Nat.pred c else c) as [|c'].
  - injection H as <- <-. reflexivity.
  - rewrite (IH _ _ _ _ H). cbn [rev]. rewrite <- app_assoc. reflexivity.
Qed.

(** The machine after a turn of the loop is the machine before it, or one
    of its five updates. *)
Lemma operation_machine o i before after m z m' :
  operation o i before after m = Some (z, m') ->
  m' = m
  \/ m' = set_dataPointer (Z.rem (dataPointer m + 1) memorySize) m
  \/ m' = set_dataPointer (Z.rem (dataPointer m - 1 + memorySize) memorySize) m
  \/ (i = "+"%char
      /\ m' = set_cell (add_rem (read (memory m) (dataPointer m)) 1 (bits o)) m)
  \/ (i = "-"%char
      /\ m' = set_cell (add_rem (read (memory m) (dataPointer m))
                                (-1 + bits o) (bits o)) m)
  \/ (exists s, m' = append_output s m)
  \/ (i = ","%char /\ m' = read_input o m).
Proof.
  unfold operation.
  destruct (Ascii.eqb_spec i ">"); [intros [= <- <-]; auto|].
  destruct (Ascii.eqb_spec i "<"); [intros [= <- <-]; auto|].
  destruct (Ascii.eqb_spec i "+"); [intros [= <- <-]; auto 10|].
  destruct (Ascii.eqb_spec i "-"); [intros [= <- <-]; auto 10|].
  destruct (Ascii.eqb_spec i "."); [intros [= <- <-]; eauto 10|].
  destruct (Ascii.eqb_spec i "~"); [intros [= <- <-]; eauto 10|].
  destruct (Ascii.eqb_spec i ","); [intros [= <- <-]; auto 10|].
  destruct (Ascii.eqb_spec i "[").
  { destruct (is_zero _); [|intros [= <- <-]; auto].
    destruct (scan_forward _ _ _); [intros [= <- <-]; auto|discriminate]. }
  destruct (Ascii.eqb_spec i "]").
  { destruct (is_zero _); [intros [= <- <-]; auto|].
    destruct (scan_backward _ _ _); [intros [= <- <-]; auto|discriminate]. }
  intros [= <- <-]. auto.
Qed.

Lemma operation_code o i before after m b' a' m' :
  operation o i before after m = Some (b', a', m') ->
  rev b' ++ a' = rev before ++ i :: after.
Proof.
  assert (Hnext : rev (i :: before) ++ after = rev before ++ i :: after)
    by (cbn [rev]; rewrite <- app_assoc; reflexivity).
  unfold operation.
  repeat match goal with
         | |- context [if Ascii.eqb i ?c then _ else _] =>
             destruct (Ascii.eqb i c) eqn:?
         end;
    repeat match goal with
           | |- context [if is_zero ?x then _ else _] => destruct (is_zero x)
           end;
    try (intros [= <- <- <-]; exact Hnext).
  - destruct (scan_forward 1 (i :: before) after) as [[b a]|] eqn:E;
      [|discriminate].
    intros [= <- <- <-]. rewrite (scan_forward_code _ _ _ _ _ E). exact Hnext.
  - destruct (scan_backward 1 before (i :: after)) as [[b a]|] eqn:E;
      [|discriminate].
    intros [= <- <- <-]. apply (scan_backward_code _ _ _ _ _ E).
Qed.

(** A property of the instruction pointer and the machine that every turn
    of the loop keeps holds when the executor halts. *)
Lemma run_invariant o (Inv : list ascii -> list ascii -> machine -> Prop) :
  (forall i before after m b' a' m',
     Inv before (i :: after) m ->
     operation o i before after m = Some (b', a', m') ->
     Inv b' a' m') ->
  forall n before after m0 m,
    Inv before after m0 ->
    run n o before after m0 = Halted m ->
    exists before', Inv before' [] m.
Proof.
  intros Hstep. induction n as [|n IH]; intros before after m0 m H0 Hrun.
  - destruct after; [|discriminate]. injection Hrun as <-. eauto.
  - destruct after as [|i after]; [injection Hrun as <-; eauto|].
    cbn [run] in Hrun.
    destruct (operation o i before after m0) as [[[b' a'] m']|] eqn:E;
      [|discriminate].
    exact (IH _ _ _ _ (Hstep _ _ _ _ _ _ _ H0 E) Hrun).
Qed.



Lemma read_set_cell v m a :
  read (memory (set_cell v m)) a
  = if Z.eq_dec a (dataPointer m) then v else read (memory m) a.
Proof.
  unfold read, set_cell. cbn [memory].
  destruct (Z.eq_dec a (dataPointer m)) as [->|Hne].
  - rewrite lookup_insert_eq. reflexivity.
  - rewrite lookup_insert_ne by congruence. reflexivity.
Qed.

(** The cells of the embedded executor, for every positive [bits]. *)
Lemma cells_stay_in_range_spec n code o m :
  0 < bits o ->
  forallb (fun c => negb (Ascii.eqb c ",")) code = true ->
  brainfuck n code o = Halted m ->
  cells_in_range o m.
Proof.
  intros Hb Hcode Hrun.
  destruct (run_invariant o
              (fun before after m =>
                 rev before ++ after = code /\ cells_in_range o m))
    with (n := n) (before := @nil ascii) (after := code)
         (m0 := initial_machine) (m := m) as [_ [_ H]];
    [| |exact Hrun|exact H].
  - intros i before after m1 b' a' m' [Hc H1] E.
    split; [rewrite (operation_code _ _ _ _ _ _ _ _ E); exact Hc|].
    assert (Hi : i <> ","%char).
    { intros ->. rewrite forallb_forall in Hcode.
      specialize (Hcode ","%char). rewrite <- Hc in Hcode.
      discriminate Hcode. apply in_or_app. right. left. reflexivity. }
    destruct (operation_machine _ _ _ _ _ _ _ E)
      as [->|[->|[->|[[_ ->]|[[_ ->]|[[s ->]|[-> _]]]]]]];
      try exact H1; try contradiction.
    + intros a. rewrite read_set_cell.
      destruct (Z.eq_dec a (dataPointer m1)) as [_|_]; [|apply H1].
      destruct (H1 (dataPointer m1)) as (z & -> & Hz). cbn [add_rem].
      destruct (Z.eqb_spec (bits o) 0); [lia|]. eexists. split; [reflexivity|].
      pose proof (Z.rem_bound_pos (z + 1) (bits o)). lia.
    + intros a. rewrite read_set_cell.
      destruct (Z.eq_dec a (dataPointer m1)) as [_|_]; [|apply H1].
      destruct (H1 (dataPointer m1)) as (z & -> & Hz). cbn [add_rem].
      destruct (Z.eqb_spec (bits o) 0); [lia|]. eexists. split; [reflexivity|].
      pose proof (Z.rem_bound_pos (z + (-1 + bits o)) (bits o)). lia.
  - split; [reflexivity|]. intros a. exists 0. split; [reflexivity|lia].
Qed.




(** ** Bracket errors *)

Lemma pdepth_cons ch before D :
  pdepth before = Some D ->
  pdepth (ch :: before)
  = if Ascii.eqb ch "[" then Some (S D)
    else if Ascii.eqb ch "]" then match D with O => None | S d' => Some d' end
         else Some D.
Proof. intros H. cbn [pdepth]. rewrite H. reflexivity. Qed.

Lemma scan_forward_closes after :
  forall c before D,
    pdepth before = Some D -> closes D after = true ->
    (1 <= c <= D)%nat ->
    exists b' a' d,
      scan_forward c before after = Some (b', a')
      /\ pdepth b' = Some d /\ closes d a' = true.
Proof.
  induction after as [|ch after IH]; intros c before D Hp Hc Hle.
  - cbn in Hc. apply Nat.eqb_eq in Hc. lia.
  - cbn [scan_forward]. cbn [closes] in Hc.
    pose proof (pdepth_cons ch before D Hp) as Hp'.
    destruct (Ascii.eqb ch "[") eqn:Eopen.
    + apply (IH (S c) _ (S D)); [exact Hp'|exact Hc|lia].
    + destruct (Ascii.eqb ch "]") eqn:Eclose.
      * destruct D as [|D']; [discriminate Hc|].
        destruct c as [|[|c']]; [lia| |]; cbn [Nat.pred].
        -- exists (ch :: before), after, D'.
           split; [reflexivity|]. split; [exact Hp'|exact Hc].
        -- apply (IH (S c') _ D'); [exact Hp'|exact Hc|lia].
      * destruct c as [|c']; [lia|].
        apply (IH (S c') _ D); [exact Hp'|exact Hc|lia].
Qed.

Lemma scan_backward_opens before :
  forall c after D,
    pdepth before = Some D -> closes D after = true ->
    (1 <= c <= D)%nat ->
    exists b' a' d,
      scan_backward c before after = Some (b', a')
      /\ pdepth b' = Some d /\ closes d a' = true.
Proof.
  induction before as [|ch before IH]; intros c after D Hp Hc Hle.
  - cbn in Hp. injection Hp as <-. lia.
  - cbn [scan_backward].
    pose proof Hp as Hp0. cbn [pdepth] in Hp.
    destruct (pdepth before) as [D0|] eqn:E0; [|discriminate Hp].
    destruct (Ascii.eqb ch "]") eqn:Eclose.
    + assert (Eopen : Ascii.eqb ch "[" = false).
      { apply Ascii.eqb_eq in Eclose. subst ch. reflexivity. }
      rewrite Eopen in Hp. destruct D0 as [|D0']; [discriminate Hp|].
      injection Hp as <-.
      apply (IH (S c) _ (S D0')); [reflexivity| |lia].
      cbn [closes]. rewrite Eopen, Eclose. exact Hc.
    + destruct (Ascii.eqb ch "[") eqn:Eopen.
      * injection Hp as <-.
        destruct c as [|[|c']]; [lia| |]; cbn [Nat.pred].
        -- exists (ch :: before), after, (S D0).
           split; [reflexivity|]. split; [exact Hp0|exact Hc].
        -- apply (IH (S c') _ D0); [reflexivity| |lia].
           cbn [closes]. rewrite Eopen. exact Hc.
      * injection Hp as <-. destruct c as [|c']; [lia|].
        apply (IH (S c') _ D0); [reflexivity| |lia].
        cbn [closes]. rewrite Eopen, Eclose. exact Hc.
Qed.

Lemma operation_balanced o i before after m D :
  pdepth before = Some D -> closes D (i :: after) = true ->
  exists (b' a' : list ascii) (m' : machine) (d : nat),
    operation o i before after m = Some (b', a', m')
    /\ pdepth b' = Some d /\ closes d a' = true.
Proof.
  intros Hp Hc.
  pose proof (pdepth_cons i before D Hp) as Hp'.
  pose proof Hc as Hc0. cbn [closes] in Hc.
  assert (Hnext : is_bracket i = false ->
                  forall m' : machine,
                  exists (b' a' : list ascii) (m'' : machine) (d : nat),
                    Some (i :: before, after, m') = Some (b', a', m'')
                    /\ pdepth b' = Some d /\ closes d a' = true).
  { unfold is_bracket. intros Hi m'.
    destruct (Ascii.eqb i "["); [discriminate Hi|].
    destruct (Ascii.eqb i "]"); [discriminate Hi|].
    exists (i :: before), after, m', D.
    split; [reflexivity|]. split; [exact Hp'|exact Hc]. }
  unfold operation.
  destruct (Ascii.eqb_spec i ">") as [Ei|_]; [apply Hnext; subst i; reflexivity|].
  destruct (Ascii.eqb_spec i "<") as [Ei|_]; [apply Hnext; subst i; reflexivity|].
  destruct (Ascii.eqb_spec i "+") as [Ei|_]; [apply Hnext; subst i; reflexivity|].
  destruct (Ascii.eqb_spec i "-") as [Ei|_]; [apply Hnext; subst i; reflexivity|].
  destruct (Ascii.eqb_spec i ".") as [Ei|_]; [apply Hnext; subst i; reflexivity|].
  destruct (Ascii.eqb_spec i "~") as [Ei|_]; [apply Hnext; subst i; reflexivity|].
  destruct (Ascii.eqb_spec i ",") as [Ei|_]; [apply Hnext; subst i; reflexivity|].
  destruct (Ascii.eqb_spec i "[") as [Ei|Hopen].
  { subst i. change (pdepth ("["%char :: before) = Some (S D)) in Hp'.
    change (closes (S D) after = true) in Hc.
    destruct (is_zero _).
    - destruct (scan_forward_closes after 1 ("["%char :: before) (S D) Hp' Hc
                  ltac:(lia)) as (b' & a' & d & E & H1 & H2).
      rewrite E. exists b', a', m, d. auto.
    - exists ("["%char :: before), after, m, (S D). auto. }
  destruct (Ascii.eqb_spec i "]") as [Ei|Hclose].
  { subst i. destruct D as [|D']; [discriminate Hc|].
    change (pdepth ("]"%char :: before) = Some D') in Hp'.
    change (closes D' after = true) in Hc.
    destruct (is_zero _).
    - exists ("]"%char :: before), after, m, D'. auto.
    - destruct (scan_backward_opens before 1 ("]"%char :: after) (S D') Hp
                  Hc0 ltac:(lia)) as (b' & a' & d & E & H1 & H2).
      rewrite E. exists b', a', m, d. auto. }
  apply Hnext. unfold is_bracket.
  destruct (Ascii.eqb_spec i "["); [contradiction|].
  destruct (Ascii.eqb_spec i "]"); [contradiction|reflexivity].
Qed.

Lemma run_balanced o n :
  forall before after m D e,
    pdepth before = Some D -> closes D after = true ->
    run n o before after m <> Raised e.
Proof.
  induction n as [|n IH]; intros before after m D e Hp Hc.
  - destruct after; discriminate.
  - destruct after as [|i after]; [discriminate|]. cbn [run].
    destruct (operation_balanced o i before after m D Hp Hc)
      as (b' & a' & m' & d & E & H1 & H2).
    rewrite E. apply (IH _ _ _ d); assumption.
Qed.

(** X14.  On code whose brackets match the executor raises no bracket error,
    however long it runs: it halts or is still running. *)
Theorem balanced_code_raises_no_error n code o e :
  balanced code = true ->
  brainfuck n code o <> Raised e.
Proof.
  intros H. apply (run_balanced o n [] code initial_machine 0);
    [reflexivity|exact H].
Qed.

Lemma balanced_code_raises_no_error_witness :
  brainfuck 5 (bf "+[[-]+]") (options_of_bits 16) <> Raised UnmatchedClose.
Proof.
  apply (balanced_code_raises_no_error 5 (bf "+[[-]+]") (options_of_bits 16)).
  reflexivity.
Defined.

Lemma ascan_closes c :
  forall s s',
    ascan c s = Some s' -> astack s' = [] ->
    closes (length (astack s)) c = true.
Proof.
  induction c as [|ch c IH]; intros s s' H Hs'.
  - cbn in H. injection H as <-. rewrite Hs'. reflexivity.
  - cbn [ascan] in H. destruct (ascan_char ch s) as [s1|] eqn:E; [|discriminate].
    specialize (IH s1 s' H Hs'). cbn [closes].
    destruct (Ascii.eqb ch "[") eqn:Eopen.
    + apply Ascii.eqb_eq in Eopen. subst ch. cbn in E. injection E as <-.
      exact IH.
    + destruct (Ascii.eqb ch "]") eqn:Eclose.
      * apply Ascii.eqb_eq in Eclose. subst ch. cbn in E.
        destruct (astack s) as [|[p d] k]; [discriminate|].
        destruct (p =? apos s); [|discriminate]. injection E as <-.
        exact IH.
      * rewrite (ascan_char_simple_stack ch s s1) in IH; [exact IH| |exact E].
        unfold is_bracket. rewrite Eopen, Eclose. reflexivity.
Qed.

(** X15.  A program without [unsafe] blocks and calls compiles to code whose
    brackets match, so the executor raises no bracket error on it. *)
Theorem safe_program_raises_no_error fuel code st0 c st n o e :
  forallb safe_token code = true ->
  compile fuel code st0 = Ok (c, st) ->
  balanced c = true /\ brainfuck n c o <> Raised e.
Proof.
  intros Hsafe Hcompile.
  pose proof (wp_Ok _ _ _ _ _ (good_compile fuel code st0 Hsafe) Hcompile)
    as (-> & V & N & p & D & Oc & H & _).
  destruct H as (_ & (delta & d & k & Hcode & Hscan & _ & Hk) & _).
  inversion Hk; subst k. cbn [app] in Hcode.
  assert (Hb : balanced (brainfuckCode st) = true).
  { rewrite Hcode. exact (ascan_closes _ _ _ Hscan eq_refl). }
  split; [exact Hb|].
  apply (run_balanced o n [] (brainfuckCode st) initial_machine 0);
    [reflexivity|exact Hb].
Qed.

Lemma safe_program_raises_no_error_witness :
  balanced (code_after (flag_set ++ [if_flag])) = true
  /\ brainfuck 1000 (code_after (flag_set ++ [if_flag])) (options_of_bits 16)
     <> Raised UnmatchedOpen.
Proof.
  apply (safe_program_raises_no_error 2 (flag_set ++ [if_flag]) initial_state
           (code_after (flag_set ++ [if_flag]))
           (state_after (flag_set ++ [if_flag])) 1000 (options_of_bits 16)
           UnmatchedOpen).
  - reflexivity.
  - vm_compute. reflexivity.
Defined.

(** * [loop] *)

Lemma runs_while o body cell p d :
  wf_prog body = true ->
  ascan (unparse body) {| apos := cell; adirty := ∅; astack := [] |}
  = Some {| apos := p; adirty := d; astack := [] |} ->
  forall m,
    dataPointer m = cell mod memorySize ->
    (read (memory m) (cell mod memorySize) = Num 0 ->
     runs o (bf "[" ++ unparse body ++ moves p cell ++ bf "]") m m)
    /\ (forall m_b m',
          read (memory m) (cell mod memorySize) <> Num 0 ->
          runs o (unparse body) m m_b ->
          runs o (bf "[" ++ unparse body ++ moves p cell ++ bf "]")
               (set_dataPointer (cell mod memorySize) m_b) m' ->
          runs o (bf "[" ++ unparse body ++ moves p cell ++ bf "]") m m').
Proof.
  intros Hwf Hscan m Hdp.
  set (loop := body ++ straight (moves p cell)).
  assert (Hun : unparse [LoopI loop]
                = bf "[" ++ unparse body ++ moves p cell ++ bf "]").
  { rewrite unparse_loop. unfold loop.
    rewrite !unparse_app, unparse_straight.
    cbn [unparse]. unfold bf. cbn [list_ascii_of_string app].
    rewrite <- !app_assoc. reflexivity. }
  assert (Hwfl : wf_prog [LoopI loop] = true).
  { unfold wf_prog. cbn [forallb wf_instr]. fold (wf_prog loop).
    unfold loop. rewrite !wf_prog_app, Hwf.
    rewrite wf_straight by apply no_bracket_moves. reflexivity. }
  rewrite <- Hun. split.
  - intros Hz. apply exec_runs; [exact Hwfl|].
    apply exec_skip; [|constructor].
    unfold at_zero. rewrite Hdp, Hz. reflexivity.
  - intros m_b m' Hnz Hb Hrest.
    apply (runs_exec _ _ _ _ Hwf) in Hb.
    apply (runs_exec _ _ _ _ Hwfl) in Hrest.
    destruct (ascan_sound o body Hwf _ _ Hscan) as [_ Hsound].
    destruct (Hsound m m_b Hb Hdp) as [Hdpb _]. cbn [apos] in Hdpb.
    apply exec_runs; [exact Hwfl|].
    eapply exec_iter.
    + apply at_zero_false. rewrite Hdp. exact Hnz.
    + unfold loop. eapply exec_app; [exact Hb|apply exec_moves, Hdpb].
    + exact Hrest.
Qed.

(** X16.  Let a [loop] whose body has no [unsafe] block and no function call be
    compiled after a program without them.  Its code is
    [pre ++ "[" ++ B ++ back ++ "]"], where [pre] evaluates the condition,
    once, and moves to its cell, [B] is the code of the body and [back]
    moves to the condition cell again.  From a machine whose pointer is at
    the condition cell: if the cell holds 0 the loop runs to the same
    machine; if it holds anything else and one run of [B] ends in [m_b],
    the loop runs as it runs from [m_b] with the pointer at the condition
    cell. *)
Theorem loop_runs_while_nonzero
    fuel0 prefix st0 c st fuel condition body st' o :
  forallb safe_token prefix = true ->
  compile fuel0 prefix st0 = Ok (c, st) ->
  forallb safe_token body = true ->
  compileToken (compile_fuel fuel) (Loop condition body) st = Ok (tt, st') ->
  exists cell sa st1 x st2 pre B back,
    conditionCell condition st = Ok (cell, sa)
    /\ (moveTo cell ;; emit (bf "[")) sa = Ok (tt, st1)
    /\ compile_fuel fuel body false st1 = Ok (x, st2)
    /\ brainfuckCode st1 = brainfuckCode st ++ pre ++ bf "["
    /\ brainfuckCode st2 = brainfuckCode st1 ++ B
    /\ brainfuckCode st' = brainfuckCode st2 ++ back ++ bf "]"
    /\ forall m,
         dataPointer m = cell mod memorySize ->
         (read (memory m) (cell mod memorySize) = Num 0 ->
          runs o (bf "[" ++ B ++ back ++ bf "]") m m)
         /\ (forall m_b m',
               read (memory m) (cell mod memorySize) <> Num 0 ->
               runs o B m m_b ->
               runs o (bf "[" ++ B ++ back ++ bf "]")
                    (set_dataPointer (cell mod memorySize) m_b) m' ->
               runs o (bf "[" ++ B ++ back ++ bf "]") m m').
Proof.
  intros Hsafe Hcompile Hbody Htoken.
  pose proof (wp_Ok _ _ _ _ _ (good_compile fuel0 prefix st0 Hsafe) Hcompile)
    as (_ & V & N & p & D & Oc & H & HD & HV & _).
  unfold compileToken in Htoken.
  apply bind_Ok in Htoken as (cell & sa & Hcond & Htoken).
  apply bind_Ok in Htoken as ([] & sb & Hmove & Htoken).
  apply bind_Ok in Htoken as ([] & st1 & Hopen & Htoken).
  apply bind_Ok in Htoken as (x & st2 & Hbodyc & Htoken).
  apply bind_Ok in Htoken as ([] & sc & Hmove2 & Hclose).
  (* the state in which the body is compiled *)
  assert (Hopen' : (moveTo cell ;; emit (bf "[")) sa = Ok (tt, st1))
    by (unfold bind; rewrite Hmove; exact Hopen).
  assert (H1 : exists D1 K1 Oc1,
             sstate [] ascan_start V N st1 cell D1 K1 Oc1 /\ vars_ok V Oc1).
  { assert (W : wp (conditionCell condition)
                  (fun r s =>
                     wp (moveTo r ;; emit (bf "["))
                        (fun _ s' => exists D1 K1 Oc1,
                           sstate [] ascan_start V N s' r D1 K1 Oc1
                           /\ vars_ok V Oc1) s) st).
    { apply (eval_conditionCell _ _ _ _ _ _ _ _ _ _ _ H HV).
      intros r s p1 D1 Oc1 Hs HD1 HO1 Hr _.
      do 2 wstep Hs. eexists _, _, _. split; [exact Hs|].
      eapply vars_ok_mono; [exact HO1|exact HV]. }
    apply (wp_Ok _ _ _ _ _ W) in Hcond.
    exact (wp_Ok _ _ _ _ _ Hcond Hopen'). }
  destruct H1 as (D1 & K1 & Oc1 & H1 & HV1).
  (* the code of the body is balanced and keeps the pointer tracked *)
  assert (Hgood : good (brainfuckCode st1)
                    {| apos := cell; adirty := ∅; astack := [] |} [] ∅ st1).
  { exists V, N, cell, ∅, Oc1. split; [eapply sstate_rebase, H1|].
    split; [set_solver|]. split; [exact HV1|set_solver]. }
  pose proof (wp_Ok _ _ _ _ _
                (good_compile_fuel fuel body _ _ _ _ _ Hbody Hgood) Hbodyc)
    as (V2 & N2 & p2 & D2 & Oc2 & H2 & _).
  destruct H2 as (_ & (B & d & k & HB & Hscan & _ & Hk) & Hp2 & _).
  inversion Hk; subst k.
  destruct (ascan_balanced _ _ _ Hscan eq_refl eq_refl) as (PB & Hwf & ->).
  (* the texts *)
  destruct (wp_Ok _ _ _ _ _ (ec_conditionCell condition st) Hcond)
    as (_ & e & He & _).
  rewrite moveTo_eq in Hmove, Hmove2. rewrite emit_eq in Hopen, Hclose.
  injection Hmove as <-. injection Hopen as <-.
  injection Hmove2 as <-. injection Hclose as <-.
  exists cell, sa,
    (set_code
       (brainfuckCode
          (set_pointerLocation cell
             (set_code (brainfuckCode sa ++ moves (pointerLocation sa) cell) sa))
        ++ bf "[")
       (set_pointerLocation cell
          (set_code (brainfuckCode sa ++ moves (pointerLocation sa) cell) sa))),
    x, st2, (e ++ moves (pointerLocation sa) cell), (unparse PB),
    (moves (pointerLocation st2) cell).
  split; [exact Hcond|]. split; [exact Hopen'|]. split; [exact Hbodyc|].
  split. { simpl_state. rewrite He, <- !app_assoc. reflexivity. }
  split; [exact HB|].
  split. { simpl_state. rewrite <- !app_assoc. reflexivity. }
  apply (runs_while o PB cell (pointerLocation st2) d Hwf Hscan).
Qed.

Lemma loop_runs_while_nonzero_witness :
  let st := state_after flag_set in
  let body := [ scalar "x"; set_ "x" (lit 2) ] in
  let st' := state_after (flag_set ++ [Loop (var "c") body]) in
  let o := options_of_bits 16 in
  exists cell sa st1 x st2 pre B back,
    conditionCell (var "c") st = Ok (cell, sa)
    /\ (moveTo cell ;; emit (bf "[")) sa = Ok (tt, st1)
    /\ compile_fuel 1 body false st1 = Ok (x, st2)
    /\ brainfuckCode st1 = brainfuckCode st ++ pre ++ bf "["
    /\ brainfuckCode st2 = brainfuckCode st1 ++ B
    /\ brainfuckCode st' = brainfuckCode st2 ++ back ++ bf "]"
    /\ forall m,
         dataPointer m = cell mod memorySize ->
         (read (memory m) (cell mod memorySize) = Num 0 ->
          runs o (bf "[" ++ B ++ back ++ bf "]") m m)
         /\ (forall m_b m',
               read (memory m) (cell mod memorySize) <> Num 0 ->
               runs o B m m_b ->
               runs o (bf "[" ++ B ++ back ++ bf "]")
                    (set_dataPointer (cell mod memorySize) m_b) m' ->
               runs o (bf "[" ++ B ++ back ++ bf "]") m m').
Proof.
  intros st body st' o.
  apply (loop_runs_while_nonzero 2 flag_set initial_state
           (code_after flag_set) st 1 (var "c") body st' o).
  - reflexivity.
  - vm_compute. reflexivity.
  - reflexivity.
  - vm_compute. reflexivity.
Defined.

(** ** Characters that are no instructions *)

Lemma instruction_char_false i :
  instruction_char i = false ->
  Ascii.eqb i ">" = false /\ Ascii.eqb i "<" = false
  /\ Ascii.eqb i "+" = false /\ Ascii.eqb i "-" = false
  /\ Ascii.eqb i "." = false /\ Ascii.eqb i "," = false
  /\ Ascii.eqb i "[" = false /\ Ascii.eqb i "]" = false
  /\ Ascii.eqb i "~" = false.
Proof.
  unfold instruction_char. cbn [bf list_ascii_of_string existsb].
  rewrite !orb_false_iff. tauto.
Qed.

Lemma operation_comment o i before after m :
  instruction_char i = false ->
  operation o i before after m = Some (i :: before, after, m).
Proof.
  intros H. apply instruction_char_false in H
    as (H1 & H2 & H3 & H4 & H5 & H6 & H7 & H8 & H9).
  unfold operation. rewrite H1, H2, H3, H4, H5, H9, H6, H7, H8. reflexivity.
Qed.

Lemma scan_forward_filter after :
  forall c before,
    (1 <= c)%nat ->
    scan_forward c (List.filter instruction_char before)
                 (List.filter instruction_char after)
    = option_map (fun z : list ascii * list ascii =>
                    (List.filter instruction_char (fst z),
                     List.filter instruction_char (snd z)))
                 (scan_forward c before after).
Proof.
  induction after as [|ch after IH]; intros c before Hc; [reflexivity|].
  cbn [List.filter]. destruct (instruction_char ch) eqn:E.
  - cbn [scan_forward].
    destruct (if Ascii.eqb ch "[" then S c
              else if Ascii.eqb ch "]" then Nat.pred c else c) as [|c'] eqn:Ec.
    + cbn [option_map fst snd List.filter]. rewrite E. reflexivity.
    + rewrite <- (IH (S c') (ch :: before)) by lia.
      cbn [List.filter]. rewrite E. reflexivity.
  - pose proof (instruction_char_false _ E)
      as (_ & _ & _ & _ & _ & _ & H7 & H8 & _).
    cbn [scan_forward]. rewrite H7, H8.
    destruct c as [|c']; [lia|].
    rewrite <- (IH (S c') (ch :: before)) by lia.
    cbn [List.filter]. rewrite E. reflexivity.
Qed.

Lemma scan_backward_filter before :
  forall c after,
    (1 <= c)%nat ->
    scan_backward c (List.filter instruction_char before)
                  (List.filter instruction_char after)
    = option_map (fun z : list ascii * list ascii =>
                    (List.filter instruction_char (fst z),
                     List.filter instruction_char (snd z)))
                 (scan_backward c before after).
Proof.
  induction before as [|ch before IH]; intros c after Hc; [reflexivity|].
  cbn [List.filter]. destruct (instruction_char ch) eqn:E.
  - cbn [scan_backward].
    destruct (if Ascii.eqb ch "]" then S c
              else if Ascii.eqb ch "[" then Nat.pred c else c) as [|c'] eqn:Ec.
    + cbn [option_map fst snd List.filter]. rewrite E. reflexivity.
    + rewrite <- (IH (S c') (ch :: after)) by lia.
      cbn [List.filter]. rewrite E. reflexivity.
  - pose proof (instruction_char_false _ E)
      as (_ & _ & _ & _ & _ & _ & H7 & H8 & _).
    cbn [scan_backward]. rewrite H7, H8.
    destruct c as [|c']; [lia|].
    rewrite <- (IH (S c') (ch :: after)) by lia.
    cbn [List.filter]. rewrite E. reflexivity.
Qed.

Lemma operation_filter o i before after m :
  instruction_char i = true ->
  operation o i (List.filter instruction_char before)
            (List.filter instruction_char after) m
  = option_map filter_zipper (operation o i before after m).
Proof.
  intros Hi.
  assert (Hnext : forall m' : machine,
             Some (i :: List.filter instruction_char before,
                   List.filter instruction_char after, m')
             = option_map filter_zipper (Some (i :: before, after, m'))).
  { intros m'. unfold filter_zipper. cbn [option_map fst snd List.filter].
    rewrite Hi. reflexivity. }
  unfold operation.
  repeat match goal with
         | |- context [if Ascii.eqb i ?c then _ else _] =>
             destruct (Ascii.eqb i c) eqn:?
         end;
    try apply Hnext.
  - destruct (is_zero _); [|apply Hnext].
    pose proof (scan_forward_filter after 1 (i :: before) ltac:(lia)) as H.
    cbn [List.filter] in H. rewrite Hi in H. rewrite H.
    destruct (scan_forward 1 (i :: before) after) as [[b a]|]; reflexivity.
  - destruct (is_zero _); [apply Hnext|].
    pose proof (scan_backward_filter before 1 (i :: after) ltac:(lia)) as H.
    cbn [List.filter] in H. rewrite Hi in H. rewrite H.
    destruct (scan_backward 1 before (i :: after)) as [[b a]|]; reflexivity.
Qed.

Lemma run_more o n :
  forall before after m,
    run n o before after m <> Timeout ->
    run (S n) o before after m = run n o before after m.
Proof.
  induction n as [|n IH]; intros before after m H.
  - destruct after; [reflexivity|]. exfalso. apply H. reflexivity.
  - destruct after as [|i after]; [reflexivity|].
    cbn [run] in H. change (run (S (S n)) o before (i :: after) m)
      with (match operation o i before after m with
            | Some (before', after'', m') => run (S n) o before' after'' m'
            | None => Raised (if Ascii.eqb i "[" then UnmatchedOpen
                              else UnmatchedClose)
            end).
    cbn [run].
    destruct (operation o i before after m) as [[[b' a'] m']|]; [|reflexivity].
    apply IH, H.
Qed.

Lemma run_filter o n :
  forall before after m,
    run n o before after m <> Timeout ->
    run n o (List.filter instruction_char before)
        (List.filter instruction_char after) m
    = run n o before after m.
Proof.
  induction n as [|n IH]; intros before after m H.
  - destruct after; [reflexivity|]. exfalso. apply H. reflexivity.
  - destruct after as [|i after]; [reflexivity|].
    cbn [List.filter]. destruct (instruction_char i) eqn:Ei.
    + cbn [run] in *. rewrite (operation_filter _ _ _ _ _ Ei).
      destruct (operation o i before after m) as [[[b' a'] m']|];
        [|reflexivity].
      cbn [option_map filter_zipper fst snd]. apply IH, H.
    + cbn [run] in H. rewrite (operation_comment _ _ _ _ _ Ei) in H.
      pose proof (IH (i :: before) after m H) as E.
      cbn [List.filter] in E. rewrite Ei in E.
      change (run (S n) o before (i :: after) m)
        with (match operation o i before after m with
              | Some (before', after'', m') => run n o before' after'' m'
              | None => Raised (if Ascii.eqb i "[" then UnmatchedOpen
                                else UnmatchedClose)
              end).
      rewrite (operation_comment _ _ _ _ _ Ei), <- E.
      apply run_more. rewrite E. exact H.
Qed.

(** X17.  Characters that are no instructions are comments: when the executor
    halts or raises an error within [n] turns of its loop, it does the same,
    with the same tape, pointer and output, on the code without them. *)
Theorem comments_are_ignored n code o :
  brainfuck n code o <> Timeout ->
  brainfuck n (List.filter instruction_char code) o = brainfuck n code o.
Proof. intros H. apply (run_filter o n [] code initial_machine H). Qed.

Lemma comments_are_ignored_witness :
  brainfuck 100 (List.filter instruction_char (bf "++ two [- loop ] done"))
            (options_of_bits 16)
  = brainfuck 100 (bf "++ two [- loop ] done") (options_of_bits 16).
Proof.
  apply (comments_are_ignored 100 (bf "++ two [- loop ] done")
           (options_of_bits 16)).
  vm_compute. discriminate.
Defined.

(** ** A variable assigned to itself *)

Lemma self_assign_computes compile_rec o x i st m target :
  tape_ok o st m ->
  findVariableLocation_of x i (memoryUsage st) = Some target ->
  computes o
    (compileToken compile_rec
       (Assign x (IndexNumber i) (VariableRef x (IndexNumber i)))) st m
    (fun _ st' m' => assigned o st m target 0 st' m').
Proof.
  intros Htape Hx.
  pose proof Htape as (Hd & _).
  assert (Ht : target ∈ occ (memoryUsage st)).
  { apply (named_occ _), (findVariableLocation_of_named x i);
      [apply dense_NoDup, Hd|exact Hx]. }
  cbn [compileToken].
  eapply computes_run;
    [apply findVariableLocation_eq|rewrite app_nil_r; reflexivity
    |apply runs_nil|].
  rewrite Hx. apply computes_len; [gr|]. intros Hlen0.
  apply computes_clear_target; try assumption.
  intros st2 m2 Hmu2 Ht2 H0 Hk2 Ho2 Hi2.
  eapply computes_run;
    [apply findVariableLocation_eq|rewrite app_nil_r; reflexivity
    |apply runs_nil|].
  rewrite Hmu2, Hx.
  pose proof Ht2 as (Hd2 & Hdp2 & Hz2 & Hrg2).
  eapply computes_run;
    [apply moveTo_eq|simpl_state; reflexivity|apply runs_moves, Hdp2|].
  pose proof (dense_occ _ _ Hd Ht) as Hkc.
  assert (Ec : target mod memorySize = target) by (apply Z.mod_small; lia).
  rewrite Ec.
  set (st3 := set_pointerLocation target _).
  set (m3 := set_dataPointer target m2).
  assert (Ht3 : tape_ok o st3 m3).
  { unfold tape_ok, st3, m3. simpl_state. cbn [dataPointer set_dataPointer memory].
    rewrite Ec. split; [exact Hd2|]. split; [reflexivity|].
    split; [exact Hz2|exact Hrg2]. }
  assert (Hmu3 : memoryUsage st3 = memoryUsage st) by exact Hmu2.
  apply computes_bind; [intros; gr|].
  eapply computes_mono.
  { apply (copy_evaluated o st3 m3 target 0);
      [exact Ht3|rewrite Hmu3; exact Ht|exact H0]. }
  cbv beta. intros c st4 m4 (Hev & Hfresh & Hocc4).
  destruct Hev as (Ht4 & Hs4 & Hf4 & Hn4 & Hc4 & Hv4 & Hk4 & Ho4 & Hi4).
  rewrite Hmu3 in *.
  eapply computes_mono.
  { apply (assign_transfer_computes o st4 m4 c target 0); try assumption.
    - apply Hs4, Ht.
    - intros ->. contradiction.
    - rewrite Hk4 by exact Ht. exact H0. }
  cbv beta. intros _ st' m' (Hmu' & Ht' & Hres & Hk' & Ho' & Hi').
  unfold assigned. rewrite Hmu'. split; [exact Ht'|]. split; [exact Hs4|].
  split; [exact Hf4|]. split; [exact Hn4|]. split; [exact Hres|].
  split; [|split; [rewrite Ho', Ho4; exact Ho2|rewrite Hi', Hi4; exact Hi2]].
  intros k Hk Hkt. rewrite Hk'; [|intros ->; contradiction|exact Hkt].
  rewrite Hk4 by exact Hk. apply Hk2, Hkt.
Qed.

(** The assignment of a variable to itself beside the embedded
    executor. *)
Lemma self_assignment_clears_variable_spec compile_rec o x i st m target :
  tape_ok o st m ->
  findVariableLocation_of x i (memoryUsage st) = Some target ->
  exists st',
    compileToken compile_rec
      (Assign x (IndexNumber i) (VariableRef x (IndexNumber i))) st
    = Ok (tt, st')
    /\ (Z.of_nat (length (memoryUsage st')) <= memorySize ->
        exists seg m',
          brainfuckCode st' = brainfuckCode st ++ seg
          /\ runs o seg m m'
          /\ assigned o st m target 0 st' m').
Proof.
  intros Htape Hx.
  eexists. split; [apply (assign_variable_eq _ _ _ _ _ _ _ _ Hx Hx)|].
  intros Hlen.
  exact (self_assign_computes compile_rec o x i st m target Htape Hx tt _
           (assign_variable_eq _ _ _ _ _ _ _ _ Hx Hx) Hlen).
Qed.

(** X18.  Let the tape be as the allocator's map describes it (no deleted key,
    the pointer where the compiler tracks it, 0 in the cells the map does
    not record as occupied, integers from 0 to [bits - 1] in the occupied
    ones: the tape when a program without [unsafe] blocks, calls and [,]
    has run to its end, not that of a later pass of a loop), let [bits] be
    at most 2^52, and let the text the compiler has built fit a string and
    the map fit the tape.  Then
    [set x[i] x[i]] compiles and, run on the executor, leaves 0 in the
    variable, whatever it held: the target is cleared before the source is
    copied.  The other cells occupied before are unchanged. *)
Theorem self_assignment_clears_variable compile_rec o x i st m target :
  tape_ok o st m ->
  bits o <= 2 ^ 52 ->
  within_limits
    (compileToken compile_rec
       (Assign x (IndexNumber i) (VariableRef x (IndexNumber i)))) st = true ->
  findVariableLocation_of x i (memoryUsage st) = Some target ->
  exists st' seg m',
    compileToken compile_rec
      (Assign x (IndexNumber i) (VariableRef x (IndexNumber i))) st
    = Ok (tt, st')
    /\ brainfuckCode st' = brainfuckCode st ++ seg
    /\ runs o seg m m'
    /\ assigned o st m target 0 st' m'.
Proof.
  intros Htape _ Hfit Hx.
  destruct (self_assignment_clears_variable_spec compile_rec o x i st m target
              Htape Hx) as (st' & E & H).
  destruct (H (within_limits_Ok _ _ _ _ Hfit E)) as (seg & m' & H').
  exists st', seg, m'. split; [exact E|exact H'].
Qed.

Lemma self_assignment_clears_variable_witness :
  let o := options_of_bits 16 in
  let st := state_after two_variables in
  let m := machine_after two_variables o in
  exists st' seg m',
    compileToken (compile_fuel 0)
      (Assign "a" (IndexNumber 0) (VariableRef "a" (IndexNumber 0))) st
    = Ok (tt, st')
    /\ brainfuckCode st' = brainfuckCode st ++ seg
    /\ runs o seg m m'
    /\ assigned o st m 0 0 st' m'.
Proof.
  intros o st m.
  apply (self_assignment_clears_variable (compile_fuel 0) o "a" 0 st m 0).
  - apply tape_okb_sound. vm_compute. reflexivity.
  - vm_compute. discriminate.
  - vm_compute. reflexivity.
  - vm_compute. reflexivity.
Defined.


(** * [levenshtein] *)

Lemma edit_nil_r a : edit a [] = length a.
Proof. destruct a; reflexivity. Qed.

Lemma edit_cons_cons x a y b :
  edit (x :: a) (y :: b)
  = Nat.min (Nat.min (edit a (y :: b) + 1) (edit (x :: a) b + 1))
            (edit a b + if bool_decide (x = y) then 0 else 1).
Proof. reflexivity. Qed.

#[local] Opaque edit.

Lemma edit_refl a : edit a a = 0%nat.
Proof.
  induction a as [|x a IH]; [reflexivity|].
  rewrite edit_cons_cons, IH, bool_decide_eq_true_2 by reflexivity. lia.
Qed.

Lemma edit_zero a : forall b, edit a b = 0%nat -> a = b.
Proof.
  induction a as [|x a IH]; intros b H.
  - change (edit [] b) with (length b) in H. destruct b; [reflexivity|discriminate].
  - destruct b as [|y b]; [rewrite edit_nil_r in H; discriminate|].
    rewrite edit_cons_cons in H.
    destruct (bool_decide_reflect (x = y)) as [->|Hne]; [|lia].
    f_equal. apply IH. lia.
Qed.

Lemma edit_sym a : forall b, edit a b = edit b a.
Proof.
  induction a as [|x a IHa]; intros b.
  - rewrite edit_nil_r. reflexivity.
  - induction b as [|y b IHb]; [rewrite edit_nil_r; reflexivity|].
    rewrite !edit_cons_cons, IHb, (IHa (y :: b)), (IHa b).
    rewrite (Nat.min_comm (edit (y :: b) a + 1)).
    destruct (bool_decide_reflect (x = y)) as [->|Hne].
    + rewrite bool_decide_eq_true_2 by reflexivity. reflexivity.
    + rewrite bool_decide_eq_false_2 by congruence. reflexivity.
Qed.

Lemma edit_upper a : forall b, (edit a b <= Nat.max (length a) (length b))%nat.
Proof.
  induction a as [|x a IHa]; intros b.
  - change (edit [] b) with (length b). lia.
  - induction b as [|y b IHb]; [rewrite edit_nil_r; lia|].
    rewrite edit_cons_cons. specialize (IHa b). cbn [length].
    destruct (bool_decide (x = y)); lia.
Qed.

Lemma edit_lower a : forall b, (length a - length b <= edit a b)%nat.
Proof.
  induction a as [|x a IHa]; intros b.
  - cbn. lia.
  - induction b as [|y b IHb]; [rewrite edit_nil_r; lia|].
    rewrite edit_cons_cons. pose proof (IHa b). pose proof (IHa (y :: b)).
    cbn [length] in *. destruct (bool_decide (x = y)); lia.
Qed.

#[local] Transparent edit.

(** ** The table *)

Lemma foldl_seq_inv {A} (f : A -> nat -> A) (P : nat -> A -> Prop) n :
  forall s x,
    P s x ->
    (forall k y, (s <= k < s + n)%nat -> P k y -> P (S k) (f y k)) ->
    P (s + n)%nat (foldl f x (seq s n)).
Proof.
  induction n as [|n IH]; intros s x H0 Hstep.
  - rewrite Nat.add_0_r. exact H0.
  - cbn [seq foldl]. replace (s + S n)%nat with (S s + n)%nat by lia.
    apply IH; [apply Hstep; [lia|exact H0]|].
    intros k y Hk. apply Hstep. lia.
Qed.

Lemma wfm_set2 R C dp i j v : wfm R C dp -> wfm R C (set2 dp i j v).
Proof.
  intros [HR HC]. unfold set2. split; [rewrite length_insert; exact HR|].
  intros i' Hi'. destruct (decide (i = i')) as [->|Hne].
  - rewrite list_lookup_total_insert_eq by lia.
    rewrite length_insert. apply HC, Hi'.
  - rewrite list_lookup_total_insert_ne by exact Hne. apply HC, Hi'.
Qed.

Lemma get2_set2_eq R C dp i j v :
  wfm R C dp -> (i < R)%nat -> (j < C)%nat -> get2 (set2 dp i j v) i j = v.
Proof.
  intros [HR HC] Hi Hj. unfold get2, set2.
  rewrite list_lookup_total_insert_eq by lia.
  apply list_lookup_total_insert_eq. rewrite HC by exact Hi. exact Hj.
Qed.

Lemma get2_set2_ne R C dp i j v i' j' :
  wfm R C dp -> (i < R)%nat -> (i', j') <> (i, j) ->
  get2 (set2 dp i j v) i' j' = get2 dp i' j'.
Proof.
  intros [HR HC] Hi Hne. unfold get2, set2.
  destruct (decide (i = i')) as [->|Hi'].
  - rewrite list_lookup_total_insert_eq by lia.
    apply list_lookup_total_insert_ne. congruence.
  - rewrite list_lookup_total_insert_ne by exact Hi'. reflexivity.
Qed.

(** The distance between the first [i] units of [a] and the first [j]
    units of [b], as the table holds it. *)
Lemma prefix_distance_0_l a b j :
  Z.of_nat (edit (rev (take 0 a)) (rev (take j b)))
  = Z.of_nat (Nat.min j (length b)).
Proof.
  rewrite take_0. change (edit (rev []) (rev (take j b)))
    with (length (rev (take j b))).
  rewrite length_rev, length_take. reflexivity.
Qed.

Lemma prefix_distance_0_r a b i :
  Z.of_nat (edit (rev (take i a)) (rev (take 0 b)))
  = Z.of_nat (Nat.min i (length a)).
Proof.
  rewrite (take_0 b). cbn [rev].
  rewrite edit_nil_r, length_rev, length_take. reflexivity.
Qed.

Lemma prefix_distance_S a b i j :
  (i < length a)%nat -> (j < length b)%nat ->
  Z.of_nat (edit (rev (take (S i) a)) (rev (take (S j) b)))
  = Z.min (Z.min (Z.of_nat (edit (rev (take i a)) (rev (take (S j) b))) + 1)
                 (Z.of_nat (edit (rev (take (S i) a)) (rev (take j b))) + 1))
          (Z.of_nat (edit (rev (take i a)) (rev (take j b)))
           + if bool_decide (a !! i = b !! j) then 0 else 1).
Proof.
  intros Hi Hj.
  destruct (lookup_lt_is_Some_2 a i Hi) as [x Hx].
  destruct (lookup_lt_is_Some_2 b j Hj) as [y Hy].
  rewrite (take_S_r a i x Hx), (take_S_r b j y Hy), !rev_app_distr.
  cbn [rev app]. rewrite edit_cons_cons.
  rewrite Hx, Hy.
  assert (Hc : (if bool_decide (Some x = Some y) then 0 else 1)
               = Z.of_nat (if bool_decide (x = y) then 0 else 1)).
  { destruct (bool_decide_reflect (x = y)) as [->|Hne].
    - rewrite bool_decide_eq_true_2 by reflexivity. reflexivity.
    - rewrite bool_decide_eq_false_2 by congruence. reflexivity. }
  rewrite Hc. lia.
Qed.

Lemma levenshtein_edit a b :
  levenshtein a b = Z.of_nat (edit (rev a) (rev b)).
Proof.
  unfold levenshtein.
  set (R := S (length a)). set (C := S (length b)).
  set (D := fun i j => Z.of_nat (edit (rev (take i a)) (rev (take j b)))).
  set (dp0 := replicate R (replicate C 0)).
  assert (W0 : wfm R C dp0).
  { split; [apply length_replicate|]. intros i Hi. unfold dp0.
    rewrite lookup_total_replicate_2 by exact Hi. apply length_replicate. }
  (* the first column *)
  set (dp1 := foldl (fun dp i => set2 dp i 0 (Z.of_nat i)) dp0 (seq 0 R)).
  assert (H1 : wfm R C dp1
               /\ forall i, (i < R)%nat -> get2 dp1 i 0 = Z.of_nat i).
  { pose proof (foldl_seq_inv (fun dp i => set2 dp i 0 (Z.of_nat i))
                  (fun k dp => wfm R C dp
                     /\ forall i, (i < k)%nat -> get2 dp i 0 = Z.of_nat i)
                  R 0 dp0) as H.
    cbn [Nat.add] in H. destruct H as [HW H]; [split; [exact W0|lia]| |].
    - intros k y Hk [HW Hy]. split; [apply wfm_set2, HW|].
      intros i Hi. destruct (decide (i = k)) as [->|Hne].
      + apply (get2_set2_eq R C); [exact HW|lia|unfold C; lia].
      + rewrite (get2_set2_ne R C); [apply Hy; lia|exact HW|lia|congruence].
    - split; [exact HW|exact H]. }
  destruct H1 as [W1 H1].
  (* the first row *)
  set (dp2 := foldl (fun dp j => set2 dp 0 j (Z.of_nat j)) dp1 (seq 0 C)).
  assert (H2 : wfm R C dp2
               /\ (forall i, (i < R)%nat -> get2 dp2 i 0 = Z.of_nat i)
               /\ forall j, (j < C)%nat -> get2 dp2 0 j = Z.of_nat j).
  { pose proof (foldl_seq_inv (fun dp j => set2 dp 0 j (Z.of_nat j))
                  (fun k dp => wfm R C dp
                     /\ (forall i, (i < R)%nat -> get2 dp i 0 = Z.of_nat i)
                     /\ forall j, (j < k)%nat -> get2 dp 0 j = Z.of_nat j)
                  C 0 dp1) as H.
    cbn [Nat.add] in H. apply H; [split; [exact W1|split; [exact H1|lia]]|].
    intros k y Hk (HW & Hcol & Hrow). split; [apply wfm_set2, HW|]. split.
    - intros i Hi. destruct (decide ((i, 0%nat) = (0%nat, k))) as [E|Hne].
      + injection E as -> <-. apply (get2_set2_eq R C); [exact HW|unfold R; lia|lia].
      + rewrite (get2_set2_ne R C); [apply Hcol, Hi|exact HW|unfold R; lia|exact Hne].
    - intros j Hj. destruct (decide (j = k)) as [->|Hne].
      + apply (get2_set2_eq R C); [exact HW|unfold R; lia|lia].
      + rewrite (get2_set2_ne R C); [apply Hrow; lia|exact HW|unfold R; lia|congruence]. }
  destruct H2 as (W2 & Hcol2 & Hrow2).
  (* the rows *)
  set (step := fun dp i j =>
                 set2 dp i j
                   (Z.min (Z.min (get2 dp (i - 1) j + 1) (get2 dp i (j - 1) + 1))
                          (get2 dp (i - 1) (j - 1)
                           + if bool_decide (a !! (i - 1)%nat = b !! (j - 1)%nat)
                             then 0 else 1))).
  set (Q := fun i dp =>
              wfm R C dp
              /\ (forall i' j, (i' < i)%nat -> (j < C)%nat -> get2 dp i' j = D i' j)
              /\ forall i', (i' < R)%nat -> get2 dp i' 0 = D i' 0%nat).
  assert (HD0r : forall i, (i < R)%nat -> D i 0%nat = Z.of_nat i).
  { intros i Hi. unfold D. rewrite prefix_distance_0_r. unfold R in Hi. lia. }
  assert (HD0l : forall j, (j < C)%nat -> D 0%nat j = Z.of_nat j).
  { intros j Hj. unfold D. rewrite prefix_distance_0_l. unfold C in Hj. lia. }
  assert (Hfinal : Q (1 + (R - 1))%nat
             (foldl (fun dp i => foldl (fun dp j => step dp i j) dp
                                   (seq 1 (C - 1)))
                    dp2 (seq 1 (R - 1)))).
  { apply (foldl_seq_inv _ Q).
    - split; [exact W2|]. split.
      + intros i' j Hi' Hj. assert (i' = 0%nat) as -> by lia.
        rewrite Hrow2, HD0l by exact Hj. reflexivity.
      + intros i' Hi'. rewrite Hcol2, HD0r by exact Hi'. reflexivity.
    - intros i dp Hi (HW & Hrows & Hcol).
      pose proof (foldl_seq_inv (fun dp j => step dp i j)
                    (fun j dp =>
                       Q i dp /\ forall j', (j' < j)%nat -> get2 dp i j' = D i j')
                    (C - 1) 1 dp) as H.
      destruct H as [(HW' & Hrows' & Hcol') Hrow'].
      + split; [split; [exact HW|split; [exact Hrows|exact Hcol]]|].
        intros j' Hj'. assert (j' = 0%nat) as -> by lia. apply Hcol. lia.
      + intros j y Hj ((HWy & Hrowsy & Hcoly) & Hrowy).
        assert (Hset : forall i' j', (i', j') <> (i, j) ->
                         get2 (step y i j) i' j' = get2 y i' j').
        { intros i' j' Hne. unfold step.
          apply (get2_set2_ne R C); [exact HWy|lia|exact Hne]. }
        split; [split; [apply wfm_set2, HWy|split]|].
        * intros i' j' Hi' Hj'. rewrite Hset by (intros E; injection E; intros; lia).
          apply Hrowsy; assumption.
        * intros i' Hi'. rewrite Hset by (intros E; injection E; intros; lia).
          apply Hcoly, Hi'.
        * intros j' Hj'. destruct (decide (j' = j)) as [->|Hne].
          -- unfold step. rewrite (get2_set2_eq R C); [|exact HWy|lia|lia].
             rewrite (Hrowsy (i - 1)%nat j), (Hrowsy (i - 1)%nat (j - 1)%nat),
               (Hrowy (j - 1)%nat) by lia.
             unfold D. destruct i as [|i]; [lia|]. destruct j as [|j]; [lia|].
             replace (S i - 1)%nat with i by lia.
             replace (S j - 1)%nat with j by lia.
             symmetry. apply prefix_distance_S; unfold R, C in *; lia.
          -- rewrite Hset by (intros E; injection E; intros; lia). apply Hrowy. lia.
      + split; [exact HW'|]. split; [|exact Hcol'].
        intros i' j Hi' Hj. destruct (decide (i' = i)) as [->|Hne].
        * apply Hrow'. lia.
        * apply Hrows'; [lia|exact Hj]. }
  destruct Hfinal as (_ & Hrows & _).
  change (get2 (foldl (fun dp i => foldl (fun dp j => step dp i j) dp
                                     (seq 1 (C - 1)))
                      dp2 (seq 1 (R - 1))) (R - 1) (C - 1)
          = Z.of_nat (edit (rev a) (rev b))).
  rewrite Hrows by (unfold R, C; lia). unfold D, R, C.
  replace (S (length a) - 1)%nat with (length a) by lia.
  replace (S (length b) - 1)%nat with (length b) by lia.
  rewrite !firstn_all. reflexivity.
Qed.

(** X19.  The distance [levenshtein] returns is 0 for equal strings and for no
    others. *)
Theorem levenshtein_zero_iff_equal a b : levenshtein a b = 0 <-> a = b.
Proof.
  rewrite levenshtein_edit. split.
  - intros H. apply rev_inj, edit_zero. lia.
  - intros ->. rewrite edit_refl. reflexivity.
Qed.

(** X20.  [levenshtein] does not depend on the order of its arguments. *)
Theorem levenshtein_symmetric a b : levenshtein a b = levenshtein b a.
Proof. rewrite !levenshtein_edit, edit_sym. reflexivity. Qed.

(** X21.  The distance [levenshtein] returns is at least the difference of the
    two lengths and at most the greater length. *)
Theorem levenshtein_bounds a b :
  Z.abs (Z.of_nat (length a) - Z.of_nat (length b)) <= levenshtein a b
  /\ levenshtein a b <= Z.max (Z.of_nat (length a)) (Z.of_nat (length b)).
Proof.
  rewrite levenshtein_edit.
  pose proof (edit_upper (rev a) (rev b)) as Hu.
  pose proof (edit_lower (rev a) (rev b)) as Hl.
  pose proof (edit_lower (rev b) (rev a)) as Hl'.
  rewrite (edit_sym (rev b)) in Hl'. rewrite !length_rev in *. lia.
Qed.

(** * The page's helpers *)

Lemma replace_all_app c r s1 s2 :
  replace_all c r (s1 ++ s2) = replace_all c r s1 ++ replace_all c r s2.
Proof. unfold replace_all. apply flat_map_app. Qed.

Lemma escapeHTML_cons x s : escapeHTML (x :: s) = escape_unit x ++ escapeHTML s.
Proof.
  unfold escapeHTML.
  change (x :: s) with ([x] ++ s). rewrite !replace_all_app. f_equal.
  unfold escape_unit, replace_all. cbn [flat_map app].
  destruct (Z.eqb_spec x 38) as [->|H38]; [reflexivity|].
  cbn [flat_map app].
  destruct (Z.eqb_spec x 60) as [->|H60]; [reflexivity|].
  cbn [flat_map app].
  destruct (Z.eqb_spec x 62) as [->|H62]; reflexivity.
Qed.

Lemma escape_unit_cases x :
  (x = 38 /\ escape_unit x = [38; 97; 109; 112; 59])
  \/ (x = 60 /\ escape_unit x = [38; 108; 116; 59])
  \/ (x = 62 /\ escape_unit x = [38; 103; 116; 59])
  \/ (x <> 38 /\ x <> 60 /\ x <> 62 /\ escape_unit x = [x]).
Proof.
  unfold escape_unit.
  destruct (Z.eqb_spec x 38) as [->|H38]; [left; split; reflexivity|].
  destruct (Z.eqb_spec x 60) as [->|H60]; [right; left; split; reflexivity|].
  destruct (Z.eqb_spec x 62) as [->|H62];
    [right; right; left; split; reflexivity|].
  right. right. right. auto.
Qed.

(** X24.  The text [escapeHTML] returns holds no [<] and no [>], whatever the
    string: it cannot open or close a tag. *)
Theorem escapeHTML_has_no_angle_bracket s :
  ~ In 60 (escapeHTML s) /\ ~ In 62 (escapeHTML s).
Proof.
  induction s as [|x s [IH1 IH2]]; [split; intros []|].
  rewrite escapeHTML_cons.
  destruct (escape_unit_cases x)
    as [[_ ->]|[[_ ->]|[[_ ->]|(H38 & H60 & H62 & ->)]]];
    split; intros H; apply in_app_or in H as [H|H];
    try (apply IH1, H); try (apply IH2, H);
    cbn [In] in H; intuition (try discriminate; try lia).
Qed.

(** X25.  [escapeHTML] loses nothing: two strings with the same escaped text are
    the same string. *)
Theorem escapeHTML_injective s1 : forall s2,
  escapeHTML s1 = escapeHTML s2 -> s1 = s2.
Proof.
  induction s1 as [|x s1 IH]; intros [|y s2] H.
  - reflexivity.
  - rewrite escapeHTML_cons in H. exfalso.
    destruct (escape_unit_cases y)
      as [[_ E]|[[_ E]|[[_ E]|(_ & _ & _ & E)]]]; rewrite E in H;
      discriminate H.
  - rewrite escapeHTML_cons in H. exfalso.
    destruct (escape_unit_cases x)
      as [[_ E]|[[_ E]|[[_ E]|(_ & _ & _ & E)]]]; rewrite E in H;
      discriminate H.
  - rewrite !escapeHTML_cons in H.
    destruct (escape_unit_cases x)
      as [[Hx Ex]|[[Hx Ex]|[[Hx Ex]|(Hx1 & Hx2 & Hx3 & Ex)]]];
      destruct (escape_unit_cases y)
        as [[Hy Ey]|[[Hy Ey]|[[Hy Ey]|(Hy1 & Hy2 & Hy3 & Ey)]]];
      rewrite Ex, Ey in H; cbn [app] in H;
      try discriminate H;
      injection H; intros; subst;
      first [ f_equal; apply IH; assumption | exfalso; congruence ].
Qed.

Lemma escapeHTML_injective_witness :
  code_units "1<2 & 3>2" = [49; 60; 50; 32; 38; 32; 51; 62; 50].
Proof.
  apply (escapeHTML_injective (code_units "1<2 & 3>2")
           [49; 60; 50; 32; 38; 32; 51; 62; 50]).
  vm_compute. reflexivity.
Defined.

(** ** [format] *)

Lemma split_lines_nonempty s : split_lines s <> [].
Proof.
  destruct s as [|c s]; cbn; [discriminate|].
  destruct (c =? 10); [discriminate|].
  destruct (split_lines s); discriminate.
Qed.

Lemma split_lines_no_newline s :
  Forall (fun l => ~ In 10 l) (split_lines s).
Proof.
  induction s as [|c s IH]; cbn [split_lines].
  - constructor; [intros []|constructor].
  - destruct (Z.eqb_spec c 10) as [->|Hne].
    + constructor; [intros []|exact IH].
    + destruct (split_lines s) as [|l ls]; [constructor; [|constructor]|].
      * intros [E|[]]. congruence.
      * inversion IH as [|? ? Hl Hls]; subst. constructor; [|exact Hls].
        intros [E|H]; [congruence|exact (Hl H)].
Qed.

Lemma split_join ls :
  ls <> [] -> Forall (fun l => ~ In 10 l) ls ->
  split_lines (join_lines ls) = ls.
Proof.
  induction ls as [|l ls IH]; intros Hne Hall; [congruence|].
  inversion Hall as [|? ? Hl Hls]; subst.
  destruct ls as [|l' ls].
  - cbn [join_lines]. clear IH Hall Hne Hls.
    induction l as [|c l IHl]; [reflexivity|].
    cbn [split_lines]. destruct (Z.eqb_spec c 10) as [->|Hc].
    + exfalso. apply Hl. left. reflexivity.
    + rewrite IHl; [reflexivity|]. intros H. apply Hl. right. exact H.
  - change (join_lines (l :: l' :: ls)) with (l ++ 10 :: join_lines (l' :: ls)).
    specialize (IH ltac:(discriminate) Hls).
    clear Hall Hne Hls.
    induction l as [|c l IHl].
    + cbn [app split_lines]. rewrite Z.eqb_refl, IH. reflexivity.
    + cbn [app split_lines]. destruct (Z.eqb_spec c 10) as [->|Hc].
      * exfalso. apply Hl. left. reflexivity.
      * rewrite IHl; [reflexivity|]. intros H. apply Hl. right. exact H.
Qed.

Lemma trimStart_suffix l : exists p, l = p ++ trimStart l.
Proof.
  induction l as [|c l [p IH]]; [exists []; reflexivity|].
  cbn [trimStart]. destruct (is_js_space c).
  - exists (c :: p). cbn. congruence.
  - exists []. reflexivity.
Qed.

Lemma trimStart_idem l : trimStart (trimStart l) = trimStart l.
Proof.
  induction l as [|c l IH]; [reflexivity|].
  cbn [trimStart]. destruct (is_js_space c) eqn:E; [exact IH|].
  cbn [trimStart]. rewrite E. reflexivity.
Qed.

Lemma trimStart_indent n l :
  trimStart (concat (List.repeat [32; 32] n) ++ l) = trimStart l.
Proof. induction n as [|n IH]; [reflexivity|exact IH]. Qed.

Lemma format_lines_trim ts :
  forall level,
    Forall (fun t => trimStart t = t) ts ->
    map trimStart (format_lines level ts) = ts.
Proof.
  induction ts as [|t ts IH]; intros level H; [reflexivity|].
  inversion H as [|? ? Ht Hts]; subst.
  cbn [format_lines map]. rewrite trimStart_indent, Ht, IH by exact Hts.
  reflexivity.
Qed.

Lemma format_lines_no_newline ts :
  forall level,
    Forall (fun l => ~ In 10 l) ts ->
    Forall (fun l => ~ In 10 l) (format_lines level ts).
Proof.
  induction ts as [|t ts IH]; intros level H; [constructor|].
  inversion H as [|? ? Ht Hts]; subst.
  cbn [format_lines]. constructor; [|apply IH, Hts].
  intros Hin. apply in_app_or in Hin as [Hin|Hin]; [|exact (Ht Hin)].
  apply in_concat in Hin as (x & Hx & Hin).
  apply repeat_spec in Hx. subst x.
  destruct Hin as [E|[E|[]]]; discriminate E.
Qed.

Lemma map_trimStart_trimmed ls :
  Forall (fun t => trimStart t = t) (map trimStart ls).
Proof.
  induction ls as [|l ls IH]; [constructor|].
  cbn [map]. constructor; [apply trimStart_idem|exact IH].
Qed.

Lemma map_trimStart_no_newline ls :
  Forall (fun l => ~ In 10 l) ls ->
  Forall (fun l => ~ In 10 l) (map trimStart ls).
Proof.
  induction 1 as [|l ls Hl Hls IH]; [constructor|].
  cbn [map]. constructor; [|exact IH].
  intros Hin. apply Hl.
  destruct (trimStart_suffix l) as [p Hp]. rewrite Hp.
  apply in_or_app. right. exact Hin.
Qed.

(** X26.  [format] is idempotent: formatting a formatted text changes nothing. *)
Theorem format_is_idempotent code :
  format_text (format_text code) = format_text code.
Proof.
  unfold format_text.
  pose proof (map_trimStart_trimmed (split_lines code)) as Hts.
  pose proof (map_trimStart_no_newline _ (split_lines_no_newline code)) as Hn.
  set (ts := map trimStart (split_lines code)) in *.
  assert (Hne : format_lines 0 ts <> []).
  { unfold ts. pose proof (split_lines_nonempty code).
    destruct (split_lines code); [congruence|discriminate]. }
  rewrite split_join; [|exact Hne|apply format_lines_no_newline, Hn].
  rewrite format_lines_trim by exact Hts. reflexivity.
Qed.

(** * [copy] and the tape after a program *)

(** X22.  Let the tape be as the allocator's map describes it (no deleted key,
    the pointer where the compiler tracks it, 0 in the cells the map does
    not record as occupied, integers from 0 to [bits - 1] in the occupied
    ones: the tape when a program without [unsafe] blocks, calls and [,]
    has run to its end, not that of a later pass of a loop), let [bits] be
    at most 2^52, and let the text the compiler has built fit a string and
    the map fit the tape.  Then [copy],
    for an occupied cell that holds [v], returns a cell that was not
    occupied, and the text it appends runs to a machine where that cell and
    the source both hold [v]; the cells occupied before hold what they
    held, no other cell than the result became occupied, and nothing is
    printed or read. *)
Theorem copy_duplicates_cell o st m cell v :
  tape_ok o st m ->
  bits o <= 2 ^ 52 ->
  within_limits (copy cell) st = true ->
  cell ∈ occ (memoryUsage st) ->
  read (memory m) cell = Num v ->
  exists r st' seg m',
    copy cell st = Ok (r, st')
    /\ brainfuckCode st' = brainfuckCode st ++ seg
    /\ runs o seg m m'
    /\ evaluated o st m r v st' m'
    /\ read (memory m') cell = Num v
    /\ (r ∉ occ (memoryUsage st))
    /\ occ (memoryUsage st') = occ (memoryUsage st) ∪ {[r]}.
Proof.
  intros Htape _ Hfit Hc Hv.
  destruct (copy_returns cell st (proj1 Htape)) as (r & st' & E & _).
  destruct (copy_evaluated o st m cell v Htape Hc Hv r st' E
              (within_limits_Ok _ _ _ _ Hfit E))
    as (seg & m' & Hcode & R & Hev & Hr & Hocc).
  exists r, st', seg, m'.
  split; [exact E|]. split; [exact Hcode|]. split; [exact R|].
  split; [exact Hev|]. split; [|split; [exact Hr|exact Hocc]].
  destruct Hev as (_ & _ & _ & _ & _ & _ & Hframe & _).
  rewrite Hframe by exact Hc. exact Hv.
Qed.

Lemma copy_duplicates_cell_witness :
  let o := options_of_bits 16 in
  let st := state_after two_variables in
  let m := machine_after two_variables o in
  exists r st' seg m',
    copy 0 st = Ok (r, st')
    /\ brainfuckCode st' = brainfuckCode st ++ seg
    /\ runs o seg m m'
    /\ evaluated o st m r 3 st' m'
    /\ read (memory m') 0 = Num 3
    /\ (r ∉ occ (memoryUsage st))
    /\ occ (memoryUsage st') = occ (memoryUsage st) ∪ {[r]}.
Proof.
  intros o st m.
  apply (copy_duplicates_cell o st m 0 3).
  - apply tape_okb_sound. vm_compute. reflexivity.
  - vm_compute. discriminate.
  - vm_compute. reflexivity.
  - apply elem_of_occ. vm_compute. reflexivity.
  - vm_compute. reflexivity.
Defined.

(** X23.  For a program without [unsafe] blocks and function calls that
    compiles, with a map of fewer than 30000 entries at the end, and a
    [bits] option that is an integer from 1 to 2^52: when the code
    [compile] returns has run from the all-zero tape and halted, the tape
    pointer is where the compiler tracks it, every tape cell whose address
    the map at the end does not record as a variable's or a temporary's
    holds 0, and so does the cell the allocator would hand out next.  (The
    map is the one at the end of the compilation: inside a loop the cells
    the allocator hands out need not hold 0 on a later pass.) *)
Theorem unrecorded_cells_are_zero fuel code st0 c st o n m :
  forallb safe_token code = true ->
  compile fuel code st0 = Ok (c, st) ->
  0 < bits o <= 2 ^ 52 ->
  brainfuck n c o = Halted m ->
  Z.of_nat (length (memoryUsage st)) < memorySize ->
  dataPointer m = pointerLocation st mod memorySize
  /\ (forall a, 0 <= a < memorySize -> a ∉ occ (memoryUsage st) ->
                read (memory m) a = Num 0)
  /\ read (memory m) (findEmptyLocation_of (memoryUsage st)) = Num 0.
Proof.
  intros Hsafe Hcompile _. exact (safe_program_tape fuel code st0 c st o n m
                                    Hsafe Hcompile).
Qed.

Lemma unrecorded_cells_are_zero_witness :
  let st := state_after assign_variable in
  let m := machine_after assign_variable (options_of_bits 16) in
  dataPointer m = pointerLocation st mod memorySize
  /\ (forall a, 0 <= a < memorySize -> a ∉ occ (memoryUsage st) ->
                read (memory m) a = Num 0)
  /\ read (memory m) (findEmptyLocation_of (memoryUsage st)) = Num 0.
Proof.
  intros st m.
  apply (unrecorded_cells_are_zero 2 assign_variable initial_state
           (code_after assign_variable) st (options_of_bits 16) 1000 m).
  - reflexivity.
  - vm_compute. reflexivity.
  - split; [reflexivity|vm_compute; discriminate].
  - vm_compute. reflexivity.
  - vm_compute. reflexivity.
Defined.

(** X28.  For a program without [unsafe] blocks and function calls that compiles
    to code without [,], with a map of fewer than 30000 entries at the end
    and a [bits] option that is an integer from 1 to 2^52: when the code
    has run from the all-zero tape and halted, the tape is as the map at
    the end describes it.  No key was deleted from the map, the tape
    pointer is where the compiler tracks it, the cells the map does not
    record as occupied hold 0 and the occupied ones hold integers from 0 to
    [bits - 1]. *)
Theorem tape_is_as_map_describes fuel code st0 c st o n m :
  forallb safe_token code = true ->
  compile fuel code st0 = Ok (c, st) ->
  forallb (fun ch => negb (Ascii.eqb ch ",")) c = true ->
  0 < bits o <= 2 ^ 52 ->
  brainfuck n c o = Halted m ->
  Z.of_nat (length (memoryUsage st)) < memorySize ->
  tape_ok o st m.
Proof.
  intros Hsafe Hcompile Hcode [Hb _] Hrun Hlen.
  pose proof (wp_Ok _ _ _ _ _ (good_compile fuel code st0 Hsafe) Hcompile)
    as (_ & V & N & p & D & Oc & (Hd & _) & _).
  destruct (safe_program_tape fuel code st0 c st o n m Hsafe Hcompile Hrun Hlen)
    as (Hdp & Hzero & _).
  pose proof (cells_stay_in_range_spec n c o m Hb Hcode Hrun) as Hrange.
  split; [exact Hd|]. split; [exact Hdp|]. split; [exact Hzero|].
  intros a _. apply Hrange.
Qed.

Lemma tape_is_as_map_describes_witness :
  tape_ok (options_of_bits 16) (state_after assign_variable)
    (machine_after assign_variable (options_of_bits 16)).
Proof.
  apply (tape_is_as_map_describes 2 assign_variable initial_state
           (code_after assign_variable) (state_after assign_variable)
           (options_of_bits 16) 1000).
  - reflexivity.
  - vm_compute. reflexivity.
  - vm_compute. reflexivity.
  - split; [reflexivity|vm_compute; discriminate].
  - vm_compute. reflexivity.
  - vm_compute. reflexivity.
Defined.

(** * The lexer *)

Lemma span_while_spec p s :
  let (a, b) := span_while p s in
  s = a ++ b /\ forallb p a = true /\ (length b <= length s)%nat.
Proof.
  induction s as [|c s IH]; cbn [span_while]; [auto|].
  destruct (p c) eqn:E; [|cbn; auto].
  destruct (span_while p s) as [a b]. destruct IH as (-> & Ha & Hl).
  cbn [app forallb length]. rewrite E, Ha. split; [reflexivity|].
  split; [reflexivity|]. rewrite length_app in *. lia.
Qed.

Lemma push_ok t r ts :
  push t r = LexOk ts -> exists ts', r = LexOk ts' /\ ts = t :: ts'.
Proof. destruct r; cbn; [intros [= <-]; eauto|discriminate..]. Qed.

Lemma push_fuel t r : push t r = LexOutOfFuel -> r = LexOutOfFuel.
Proof. destruct r; cbn; [discriminate|discriminate|reflexivity]. Qed.

Lemma lex_loop_fuel fuel :
  forall s, (length s < fuel)%nat -> lex_loop fuel s <> LexOutOfFuel.
Proof.
  induction fuel as [|fuel IH]; intros s Hs; [lia|].
  destruct s as [|char rest]; [discriminate|].
  cbn [lex_loop]. cbn [length] in Hs.
  destruct (is_js_space char); [apply IH; lia|].
  destruct ((char =? 47) && _).
  { apply IH.
    pose proof (span_while_spec (fun c => negb (c =? 10)) (tl rest)) as H.
    destruct (span_while _ (tl rest)) as [a b]. destruct H as (_ & _ & Hl).
    cbn [snd]. destruct rest; cbn [tl length] in *; lia. }
  destruct (isAlpha char).
  { pose proof (span_while_spec isAlphaNum rest) as H.
    destruct (span_while isAlphaNum rest) as [a b]. destruct H as (_ & _ & Hl).
    intros E. apply push_fuel in E. revert E. apply IH. lia. }
  destruct (isDigit char || _) eqn:Ed.
  { assert (Hl : Nat.le (length (snd (span_while isDigit
                                        (if char =? 45 then rest
                                         else char :: rest))))
                        (length rest)).
    { destruct (Z.eqb_spec char 45) as [->|Hne].
      - pose proof (span_while_spec isDigit rest) as H.
        destruct (span_while isDigit rest) as [a b]. cbn [snd]. lia.
      - assert (Hd : isDigit char = true).
        { destruct (isDigit char); [reflexivity|]. cbn [orb andb] in Ed.
          discriminate Ed. }
        cbn [span_while]. rewrite Hd.
        pose proof (span_while_spec isDigit rest) as H.
        destruct (span_while isDigit rest) as [a b]. cbn [snd]. lia. }
    destruct (span_while isDigit (if char =? 45 then rest else char :: rest))
      as [a b] eqn:Esp.
    cbn [snd] in Hl. unfold Nat.le in Hl.
    intros E. apply push_fuel in E. revert E. apply IH. lia. }
  destruct (bool_decide _).
  { intros E. apply push_fuel in E. revert E. apply IH.
    rewrite length_drop. cbn [length]. lia. }
  destruct (bool_decide _); [|discriminate].
  intros E. apply push_fuel in E. revert E. apply IH. lia.
Qed.

Lemma lex_loop_tokens fuel :
  forall s ts,
    lex_loop fuel s = LexOk ts ->
    exists body, ts = body ++ [TokEof] /\ Forall tok_ok body.
Proof.
  induction fuel as [|fuel IH]; intros s ts H; [discriminate|].
  destruct s as [|char rest].
  { injection H as <-. exists []. split; [reflexivity|constructor]. }
  cbn [lex_loop] in H.
  assert (Hpush : forall t s',
             tok_ok t -> push t (lex_loop fuel s') = LexOk ts ->
             exists body, ts = body ++ [TokEof] /\ Forall tok_ok body).
  { intros t s' Ht E. apply push_ok in E as (ts' & E & ->).
    destruct (IH _ _ E) as (body & -> & Hb).
    exists (t :: body). split; [reflexivity|]. constructor; assumption. }
  destruct (is_js_space char); [exact (IH _ _ H)|].
  destruct ((char =? 47) && _); [exact (IH _ _ H)|].
  destruct (isAlpha char) eqn:Ea.
  { pose proof (span_while_spec isAlphaNum rest) as Hsp.
    destruct (span_while isAlphaNum rest) as [a b]. destruct Hsp as (_ & Ha & _).
    refine (Hpush _ _ _ H). cbn [tok_ok]. exists char, a. auto. }
  destruct (isDigit char || _) eqn:Ed.
  { pose proof (span_while_spec isDigit
                  (if char =? 45 then rest else char :: rest)) as Hsp.
    destruct (span_while isDigit (if char =? 45 then rest else char :: rest))
      as [a b] eqn:Esp.
    destruct Hsp as (Hs' & Ha & _).
    refine (Hpush _ _ _ H). cbn [tok_ok]. exists a.
    destruct (Z.eqb_spec char 45) as [->|Hne].
    - split; [right; reflexivity|]. split; [|exact Ha].
      intros ->. cbn [app] in Hs'. subst b.
      destruct rest as [|c rest]; [discriminate Ed|].
      cbn [orb andb isDigit] in Ed. change (isDigit 45) with false in Ed.
      cbn [orb andb] in Ed. cbn [span_while] in Esp. rewrite Ed in Esp.
      destruct (span_while isDigit rest); discriminate Esp.
    - split; [left; reflexivity|]. split; [|exact Ha].
      intros ->.
      assert (Hd : isDigit char = true).
      { destruct (isDigit char); [reflexivity|]. cbn [orb andb] in Ed.
        discriminate Ed. }
      cbn [span_while] in Esp. rewrite Hd in Esp.
      destruct (span_while isDigit rest); discriminate Esp. }
  destruct (bool_decide_reflect (take 2 (char :: rest) ∈ two_char_symbols))
    as [H2|_].
  { refine (Hpush _ _ _ H). left. exact H2. }
  destruct (bool_decide_reflect (char ∈ one_char_symbols)) as [H1|_];
    [|discriminate H].
  refine (Hpush _ _ _ H). right. exists char. auto.
Qed.

(** X27.  The lexer ends on every input, and the tokens it returns are those of
    the grammar followed by one end mark: an identifier is a letter or [_]
    followed by letters, digits and [_]; a number is an optional [-] and
    one digit or more, so it denotes an integer; a symbol is one of the
    four two-character symbols or of the fourteen one-character symbols
    (no [.], so an [abstract] block cannot hold that instruction). *)
Theorem lexer_tokens_wellformed input :
  lexer input <> LexOutOfFuel
  /\ forall ts,
       lexer input = LexOk ts ->
       exists body, ts = body ++ [TokEof] /\ Forall tok_ok body.
Proof.
  split; [apply lex_loop_fuel; lia|apply lex_loop_tokens].
Qed.
(** * The claims on loops, [if] and [subtract] *)

(** ** Loops run the code of one pass again *)

(** C5.  [copy] alters its source in a program without raw escapes and
    calls.  In [copy_in_loop] the variable [a] is the cell 0 and holds 3
    when the loop is entered.  The body is compiled once: [copy] takes the
    cells 3 and 4 from the allocator, which records them as free at that
    point of the compilation.  [set c (c - 1)] then leaves the literal 1 in
    the cell 3, so on the second pass [copy] restores [a] from a cell that
    did not start at 0: the program ends with 4 in [a] and prints 4.  With
    the two passes written out, every [copy] gets cells that are still zero
    and the program prints 3. *)
Theorem copy_alters_its_source_in_loop :
  exists c0 st0 m0 c st m c' st' m',
    compile 1 copy_in_loop_prefix initial_state = Ok (c0, st0)
    /\ brainfuck 1000 c0 (options_of_bits 256) = Halted m0
    /\ findVariableLocation_of "a" 0 (memoryUsage st0) = Some 0
    /\ read (memory m0) 0 = Num 3
    /\ compile 2 copy_in_loop initial_state = Ok (c, st)
    /\ findVariableLocation_of "a" 0 (memoryUsage st) = Some 0
    /\ brainfuck 1000 c (options_of_bits 256) = Halted m
    /\ read (memory m) 0 = Num 4
    /\ output m = code_units "4"
    /\ compile 1 copy_unrolled initial_state = Ok (c', st')
    /\ brainfuck 1000 c' (options_of_bits 256) = Halted m'
    /\ read (memory m') 0 = Num 3
    /\ output m' = code_units "3".
Proof.
  do 9 eexists.
  split; [vm_compute; reflexivity|].
  split; [vm_compute; reflexivity|].
  split; [vm_compute; reflexivity|].
  split; [vm_compute; reflexivity|].
  split; [vm_compute; reflexivity|].
  split; [vm_compute; reflexivity|].
  split; [vm_compute; reflexivity|].
  split; [vm_compute; reflexivity|].
  split; [vm_compute; reflexivity|].
  split; [vm_compute; reflexivity|].
  split; [vm_compute; reflexivity|].
  split; vm_compute; reflexivity.
Qed.

(** C10.  A cell the allocator hands out does not start at 0 in a program
    without raw escapes and calls.  In [accumulator_in_loop] the body of
    the loop is compiled once.  At the point where the read [a[0]] takes
    its accumulator from the allocator, after the index was evaluated, the
    allocator records the address 4 as free and hands it out; the read adds
    the element to it without clearing it.  The executor is at that point
    of the code after 302 turns, with 0 in the cell 4, and again after 811
    turns, on the second pass, with the 6 of the first pass in it: the
    second read gives 12 and the program prints 6 and 12.  With the two
    passes written out it prints 6 and 6. *)
Theorem accumulator_is_not_zero_in_loop :
  let o := options_of_bits 256 in
  exists c0 st0 st_b idx st_c r c st b1 a1 m1 b2 a2 m2 m c' st' m',
    compile 1 accumulator_prefix initial_state = Ok (c0, st0)
    /\ (condCell <- conditionCell (var "c") ;;
        moveTo condCell ;; emit (bf "[")) st0 = Ok (tt, st_b)
    /\ evalValue (lit 0) st_b = Ok (idx, st_c)
    /\ findEmptyLocation st_c = Ok (r, st_c)
    /\ map_get r (memoryUsage st_c) = Some Freed
    /\ compile 2 accumulator_in_loop initial_state = Ok (c, st)
    /\ steps 302 o [] c initial_machine = Some (b1, a1, m1)
    /\ rev b1 = brainfuckCode st_c
    /\ read (memory m1) r = Num 0
    /\ steps 811 o [] c initial_machine = Some (b2, a2, m2)
    /\ rev b2 = brainfuckCode st_c
    /\ read (memory m2) r = Num 6
    /\ brainfuck 2000 c o = Halted m
    /\ output m = code_units "6" ++ code_units "12"
    /\ compile 1 accumulator_unrolled initial_state = Ok (c', st')
    /\ brainfuck 2000 c' o = Halted m'
    /\ output m' = code_units "6" ++ code_units "6".
Proof.
  intros o. do 18 eexists.
  split; [vm_compute; reflexivity|].
  split; [vm_compute; reflexivity|].
  split; [vm_compute; reflexivity|].
  split; [vm_compute; reflexivity|].
  split; [vm_compute; reflexivity|].
  split; [vm_compute; reflexivity|].
  split; [vm_compute; reflexivity|].
  split; [vm_compute; reflexivity|].
  split; [vm_compute; reflexivity|].
  split; [vm_compute; reflexivity|].
  split; [vm_compute; reflexivity|].
  split; [vm_compute; reflexivity|].
  split; [vm_compute; reflexivity|].
  split; [vm_compute; reflexivity|].
  split; [vm_compute; reflexivity|].
  split; vm_compute; reflexivity.
Qed.

(** * The code of [if], whatever its body *)

(** ** Compilation only appends to the text *)

Lemma ap_ec {A} (c : M A) : emits_clean c -> appends c.
Proof.
  intros H st. eapply wp_mono; [apply H|].
  intros a st' [_ (e & He & _)]. exists e. exact He.
Qed.

Lemma ap_bind {A B} (m : M A) (f : A -> M B) :
  appends m -> (forall a, appends (f a)) -> appends (bind m f).
Proof.
  intros Hm Hf st. apply wp_bind. eapply wp_mono; [apply Hm|].
  intros a st1 (e1 & H1). eapply wp_mono; [apply Hf|].
  intros b st2 (e2 & H2). exists (e1 ++ e2).
  rewrite H2, H1, app_assoc. reflexivity.
Qed.

Lemma ap_forEach {A} (f : A -> M unit) xs :
  (forall x, In x xs -> appends (f x)) -> appends (forEach f xs).
Proof.
  induction xs as [|x xs IH]; intros Hf.
  - apply ap_ec, ec_ret.
  - cbn [forEach]. apply ap_bind; [apply Hf; left; reflexivity|].
    intros _. apply IH. intros y Hy. apply Hf. right. exact Hy.
Qed.

Lemma ap_emit s : appends (emit s).
Proof. intros st. exists s. reflexivity. Qed.

Lemma ap_compileUnsafeToken : forall token, appends (compileUnsafeToken token).
Proof.
  pose proof ec_copy as Hcopy. pose proof ec_evalValue as Heval.
  fix IH 1. intros [amount|amount|loc| |body|ops]; cbn [compileUnsafeToken].
  - apply ap_ec. ec.
  - apply ap_ec. ec.
  - apply ap_ec. ec.
  - apply ap_ec. ec.
  - assert (Hbody : appends (forEach compileUnsafeToken body)).
    { induction body as [|t body IHbody]; [apply ap_ec, ec_ret|].
      cbn [forEach]. apply ap_bind; [apply IH|intros _; exact IHbody]. }
    apply ap_bind; [apply ap_ec, ec_getUnsafePointer|intros p].
    apply ap_bind; [apply ap_ec, ec_moveTo|intros _].
    apply ap_bind; [apply ap_emit|intros _].
    apply ap_bind; [exact Hbody|intros _].
    apply ap_ec. ec.
  - apply ap_emit.
Qed.

Lemma ap_compileToken rec token :
  (forall body, appends (rec body false)) -> appends (compileToken rec token).
Proof.
  intros Hrec.
  pose proof ec_copy as Hcopy. pose proof ec_evalValue as Heval.
  destruct token as [name type array|name index value|value|condition body
                    |condition body|name|safetySize body|name body|name|name];
    cbn [compileToken].
  - apply ap_ec. ec.
  - apply ap_ec. pose proof ec_setVariableAtDynamicIndex.
    destruct index as [i|e]; [|auto]. ec.
  - apply ap_ec. ec.
  - pose proof ec_conditionCell.
    apply ap_bind; [apply ap_ec; auto|intros condCell].
    apply ap_bind; [apply ap_ec, ec_moveTo|intros _].
    apply ap_bind; [apply ap_emit|intros _].
    apply ap_bind; [apply Hrec|intros _].
    apply ap_ec. ec.
  - pose proof ec_conditionCell.
    apply ap_bind; [apply ap_ec; auto|intros condCell].
    apply ap_bind; [apply ap_ec, ec_moveTo|intros _].
    apply ap_bind; [apply ap_emit|intros _].
    apply ap_bind; [apply Hrec|intros _].
    apply ap_ec. ec.
  - apply ap_ec. ec.
  - apply ap_bind; [apply ap_ec, ec_findContiguousFreeRegion|intros start].
    apply ap_bind; [apply ap_ec; ec|intros _].
    apply ap_bind; [apply ap_ec; ec|intros _].
    apply ap_bind; [apply ap_ec, ec_moveTo|intros _].
    apply ap_bind.
    { apply ap_forEach. intros t _. apply ap_compileUnsafeToken. }
    intros _. apply ap_ec. ec.
  - intros st. exists []. cbn. rewrite app_nil_r. reflexivity.
  - intros st. unfold wp, bind, get.
    destruct (functions st !! name) as [funcCode|]; [|exact I].
    destruct (rec funcCode true st) as [[c st']| |]; [|exact I|exact I].
    exists c. reflexivity.
  - apply ap_ec. ec.
Qed.

Lemma ap_compile_fuel fuel : forall body, appends (compile_fuel fuel body false).
Proof.
  induction fuel as [|fuel IH]; intros body.
  - intros st. exact I.
  - cbn [compile_fuel].
    apply ap_bind; [apply ap_ec, ec_ret|intros _].
    apply ap_bind.
    { apply ap_forEach. intros t _. apply ap_compileToken, IH. }
    intros _. apply ap_ec. ec.
Qed.

(** ** Brackets that match *)

Lemma closes_app a :
  forall j d b, closes j a = true -> closes (j + d) (a ++ b) = closes d b.
Proof.
  induction a as [|ch a IH]; intros j d b H.
  - cbn in H. apply Nat.eqb_eq in H. subst j. reflexivity.
  - cbn [closes app] in *. destruct (Ascii.eqb ch "[").
    + apply (IH (S j) d b H).
    + destruct (Ascii.eqb ch "]").
      * destruct j as [|j']; [discriminate H|]. cbn [Nat.add].
        apply (IH j' d b H).
      * apply (IH j d b H).
Qed.

Lemma closes_no_bracket s :
  forallb (fun c => negb (is_bracket c)) s = true ->
  forall d b, closes d (s ++ b) = closes d b.
Proof.
  induction s as [|ch s IH]; intros H d b; [reflexivity|].
  cbn in H. apply andb_true_iff in H as [Hc Hs].
  apply negb_true_iff, is_bracket_false in Hc as [H1 H2].
  cbn [closes app]. rewrite H1, H2. apply IH, Hs.
Qed.

(** The scan for a closing bracket passes over a text that closes the [j]
    loops it was opened in. *)
Lemma scan_forward_over text :
  forall j c before rest,
    closes j text = true ->
    scan_forward (S c + j) before (text ++ rest)
    = scan_forward (S c) (rev text ++ before) rest.
Proof.
  induction text as [|ch text IH]; intros j c before rest H.
  - cbn in H. apply Nat.eqb_eq in H. subst j.
    rewrite Nat.add_0_r. reflexivity.
  - cbn [closes] in H. cbn [rev]. rewrite <- app_assoc.
    cbn [app scan_forward]. cbv zeta.
    destruct (Ascii.eqb ch "[").
    + rewrite <- (IH (S j) c (ch :: before) rest H).
      replace (S c + S j)%nat with (S (S c + j)) by lia. reflexivity.
    + destruct (Ascii.eqb ch "]").
      * destruct j as [|j']; [discriminate H|].
        rewrite <- (IH j' c (ch :: before) rest H).
        replace (Nat.pred (S c + S j')) with (S c + j')%nat by lia.
        reflexivity.
      * rewrite <- (IH j c (ch :: before) rest H). reflexivity.
Qed.

(** A loop entered on a zero cell is skipped when the brackets of its body
    match. *)
Lemma runs_skip o text m :
  balanced text = true -> at_zero m = true ->
  runs o (bf "[" ++ text ++ bf "]") m m.
Proof.
  intros Hb Hz before after. exists 1%nat.
  change (bf "[" ++ text ++ bf "]") with ("["%char :: text ++ ["]"%char]).
  cbn [app steps]. unfold operation.
  change (Ascii.eqb "[" ">") with false. change (Ascii.eqb "[" "<") with false.
  change (Ascii.eqb "[" "+") with false. change (Ascii.eqb "[" "-") with false.
  change (Ascii.eqb "[" ".") with false. change (Ascii.eqb "[" "~") with false.
  change (Ascii.eqb "[" ",") with false. change (Ascii.eqb "[" "[") with true.
  cbv iota. unfold at_zero in Hz. rewrite Hz.
  rewrite <- app_assoc.
  change 1%nat with (1 + 0)%nat.
  rewrite (scan_forward_over text 0 0 _ _ Hb).
  cbn [app scan_forward].
  change (Ascii.eqb "]" "[") with false. change (Ascii.eqb "]" "]") with true.
  cbv iota. cbn [Nat.pred rev]. rewrite <- !app_assoc, rev_app_distr.
  reflexivity.
Qed.

Lemma runs_open o m : at_zero m = false -> runs o (bf "[") m m.
Proof.
  intros Hz before after. exists 1%nat.
  change (bf "[" ++ after) with ("["%char :: after). cbn [steps].
  rewrite (operation_open_nonzero o before after m Hz). reflexivity.
Qed.

Lemma runs_close o m : at_zero m = true -> runs o (bf "]") m m.
Proof.
  intros Hz before after. exists 1%nat.
  change (bf "]" ++ after) with ("]"%char :: after). cbn [steps].
  rewrite (operation_close_zero o before after m Hz). reflexivity.
Qed.

(** The code of [if] around a body [B] that ends with the pointer at [p]:
    skipped on a zero cell when the brackets of [B] match; on another cell,
    one run of [B] followed by the clearing of the cell. *)
Lemma runs_if_body o B cell p m :
  dataPointer m = cell mod memorySize ->
  (read (memory m) (cell mod memorySize) = Num 0 ->
   balanced B = true ->
   runs o (bf "[" ++ B ++ (moves p cell ++ bf "[-]") ++ bf "]") m m)
  /\ (forall m_b z,
        read (memory m) (cell mod memorySize) <> Num 0 ->
        runs o B m m_b ->
        dataPointer m_b = p mod memorySize ->
        read (memory m_b) (cell mod memorySize) = Num z ->
        0 < bits o ->
        exists m',
          runs o (bf "[" ++ B ++ (moves p cell ++ bf "[-]") ++ bf "]") m m'
          /\ dataPointer m' = cell mod memorySize
          /\ read (memory m') (cell mod memorySize) = Num 0
          /\ same_except [cell mod memorySize] m_b m').
Proof.
  intros Hdp. split.
  - intros Hz Hb.
    replace (B ++ (moves p cell ++ bf "[-]") ++ bf "]")
      with ((B ++ moves p cell ++ bf "[-]") ++ bf "]")
      by (rewrite <- !app_assoc; reflexivity).
    apply runs_skip.
    + unfold balanced in *.
      rewrite (closes_app B 0 0 _ Hb).
      rewrite closes_no_bracket by apply no_bracket_moves. reflexivity.
    + unfold at_zero. rewrite Hdp, Hz. reflexivity.
  - intros m_b z Hnz Hb Hdpb Hz Hbits.
    pose proof (runs_moves o p cell m_b Hdpb) as Rm.
    set (m1 := set_dataPointer (cell mod memorySize) m_b) in *.
    destruct (runs_clear o m1 z Hbits Hz) as (m' & Rc & Hdp' & Hz' & Hsame).
    change (dataPointer m1) with (cell mod memorySize) in Hdp', Hz', Hsame.
    exists m'. split.
    + eapply runs_app; [apply runs_open, at_zero_false; rewrite Hdp; exact Hnz|].
      eapply runs_app; [exact Hb|].
      eapply runs_app; [eapply runs_app; [exact Rm|exact Rc]|].
      apply runs_close. unfold at_zero. rewrite Hdp', Hz'. reflexivity.
    + split; [exact Hdp'|]. split; [exact Hz'|exact Hsame].
Qed.

(** A body the analysis accepts: its brackets match and it ends with the
    tape pointer where the analysis ends. *)
Lemma analysed_body o B cell p d :
  ascan B {| apos := cell; adirty := ∅; astack := [] |}
  = Some {| apos := p; adirty := d; astack := [] |} ->
  balanced B = true
  /\ forall m m_b,
       dataPointer m = cell mod memorySize ->
       runs o B m m_b ->
       dataPointer m_b = p mod memorySize.
Proof.
  intros Hscan. split.
  - exact (ascan_closes _ _ _ Hscan eq_refl).
  - intros m m_b Hdp Hb.
    destruct (ascan_balanced _ _ _ Hscan eq_refl eq_refl) as (PB & Hwf & ->).
    apply (runs_exec _ _ _ _ Hwf) in Hb.
    destruct (ascan_sound o PB Hwf _ _ Hscan) as [_ Hsound].
    destruct (Hsound m m_b Hb Hdp) as [Hdpb _]. exact Hdpb.
Qed.

(** C4, amended.  Every [if] the compiler accepts, in whatever state and
    with whatever body, has the code [pre ++ "[" ++ B ++ fin ++ "]"], where
    [pre] evaluates the condition and moves to its cell, [B] is the code of
    the body and [fin] moves back to the condition cell and clears it.
    From a machine whose pointer is at the condition cell: if the cell
    holds 0 and the brackets of [B] match, the statement runs to the same
    machine and the body is not executed; if it holds anything else and one
    run of [B] ends in [m_b] with the pointer where the compiler tracks it
    and an integer from 0 to 2^52 in the condition cell (with a [bits]
    option from 1 to 2^52: where the executor's arithmetic on doubles is
    that of integers), the statement runs to [m_b] with the condition cell
    cleared: the body is executed once.  The two conditions on [B] hold whenever the analysis
    [ascan] accepts [B] from the condition cell to the tracked pointer, and
    it does for every body without [unsafe] block and call compiled on a
    map without deleted key whose variable table points at occupied
    cells. *)
Theorem if_runs_its_body_at_most_once fuel condition body st st' o :
  compileToken (compile_fuel fuel) (If condition body) st = Ok (tt, st') ->
  exists cell sa st1 x st2 pre B fin,
    conditionCell condition st = Ok (cell, sa)
    /\ (moveTo cell ;; emit (bf "[")) sa = Ok (tt, st1)
    /\ compile_fuel fuel body false st1 = Ok (x, st2)
    /\ brainfuckCode st1 = brainfuckCode st ++ pre ++ bf "["
    /\ brainfuckCode st2 = brainfuckCode st1 ++ B
    /\ brainfuckCode st' = brainfuckCode st2 ++ fin ++ bf "]"
    /\ (forall m,
          dataPointer m = cell mod memorySize ->
          (read (memory m) (cell mod memorySize) = Num 0 ->
           balanced B = true ->
           runs o (bf "[" ++ B ++ fin ++ bf "]") m m)
          /\ (forall m_b z,
                read (memory m) (cell mod memorySize) <> Num 0 ->
                runs o B m m_b ->
                dataPointer m_b = pointerLocation st2 mod memorySize ->
                read (memory m_b) (cell mod memorySize) = Num z ->
                0 <= z <= 2 ^ 52 ->
                0 < bits o <= 2 ^ 52 ->
                exists m',
                  runs o (bf "[" ++ B ++ fin ++ bf "]") m m'
                  /\ dataPointer m' = cell mod memorySize
                  /\ read (memory m') (cell mod memorySize) = Num 0
                  /\ same_except [cell mod memorySize] m_b m'))
    /\ (forall d,
          ascan B {| apos := cell; adirty := ∅; astack := [] |}
          = Some {| apos := pointerLocation st2; adirty := d; astack := [] |} ->
          balanced B = true
          /\ forall m m_b,
               dataPointer m = cell mod memorySize ->
               runs o B m m_b ->
               dataPointer m_b = pointerLocation st2 mod memorySize)
    /\ (dense (memoryUsage st) ->
        vars_ok (variables st) (occ (memoryUsage st)) ->
        forallb safe_token body = true ->
        exists d,
          ascan B {| apos := cell; adirty := ∅; astack := [] |}
          = Some {| apos := pointerLocation st2; adirty := d; astack := [] |}).
Proof.
  intros Htoken.
  unfold compileToken in Htoken.
  apply bind_Ok in Htoken as (cell & sa & Hcond & Htoken).
  apply bind_Ok in Htoken as ([] & sb & Hmove & Htoken).
  apply bind_Ok in Htoken as ([] & st1 & Hopen & Htoken).
  apply bind_Ok in Htoken as (x & st2 & Hbodyc & Htoken).
  apply bind_Ok in Htoken as ([] & sc & Hmove2 & Htoken).
  apply bind_Ok in Htoken as ([] & sd & Hclear & Hclose).
  assert (Hopen' : (moveTo cell ;; emit (bf "[")) sa = Ok (tt, st1))
    by (unfold bind; rewrite Hmove; exact Hopen).
  destruct (wp_Ok _ _ _ _ _ (ec_conditionCell condition st) Hcond)
    as (_ & e & He & _).
  destruct (wp_Ok _ _ _ _ _ (ap_compile_fuel fuel body st1) Hbodyc)
    as (B & HB).
  assert (Hsafe :
            dense (memoryUsage st) ->
            vars_ok (variables st) (occ (memoryUsage st)) ->
            forallb safe_token body = true ->
            exists d,
              ascan B {| apos := cell; adirty := ∅; astack := [] |}
              = Some {| apos := pointerLocation st2; adirty := d;
                        astack := [] |}).
  { intros Hd HV Hbody.
    set (V := variables st). set (N := named (memoryUsage st)).
    assert (H : sstate (brainfuckCode st)
                  {| apos := pointerLocation st; adirty := ∅; astack := [] |}
                  V N st (pointerLocation st) ∅ [] (occ (memoryUsage st))).
    { split; [exact Hd|]. split; [|auto].
      exists [], ∅, []. split; [rewrite app_nil_r; reflexivity|].
      split; [reflexivity|]. split; [set_solver|constructor]. }
    assert (H1 : exists c0 s0 D1 K1 Oc1,
               sstate c0 s0 V N st1 cell D1 K1 Oc1 /\ vars_ok V Oc1).
    { assert (W : wp (conditionCell condition)
                    (fun r s =>
                       wp (moveTo r ;; emit (bf "["))
                          (fun _ s' => exists c0 s0 D1 K1 Oc1,
                             sstate c0 s0 V N s' r D1 K1 Oc1
                             /\ vars_ok V Oc1) s) st).
      { apply (eval_conditionCell _ _ _ _ _ _ _ _ _ _ _ H HV).
        intros r s p1 D1 Oc1 Hs HD1 HO1 Hr _.
        do 2 wstep Hs. eexists _, _, _, _, _. split; [exact Hs|].
        eapply vars_ok_mono; [exact HO1|exact HV]. }
      apply (wp_Ok _ _ _ _ _ W) in Hcond.
      exact (wp_Ok _ _ _ _ _ Hcond Hopen'). }
    destruct H1 as (c0 & s0 & D1 & K1 & Oc1 & H1 & HV1).
    assert (Hgood : good (brainfuckCode st1)
                      {| apos := cell; adirty := ∅; astack := [] |} [] ∅ st1).
    { exists V, N, cell, ∅, Oc1. split; [eapply sstate_rebase, H1|].
      split; [set_solver|]. split; [exact HV1|set_solver]. }
    pose proof (wp_Ok _ _ _ _ _
                  (good_compile_fuel fuel body _ _ _ _ _ Hbody Hgood) Hbodyc)
      as (V2 & N2 & p2 & D2 & Oc2 & H2 & _).
    destruct H2 as (_ & (B' & d & k & HB' & Hscan & _ & Hk) & Hp2 & _).
    inversion Hk; subst k.
    rewrite HB in HB'. apply app_inv_head in HB'. subst B'.
    exists d. rewrite Hscan, Hp2. reflexivity. }
  rewrite moveTo_eq in Hmove, Hmove2. rewrite emit_eq in Hopen, Hclose.
  rewrite clearCell_eq in Hclear.
  injection Hmove as <-. injection Hopen as <-.
  injection Hmove2 as <-. injection Hclear as <-. injection Hclose as <-.
  eexists cell, sa, _, x, st2, (e ++ moves (pointerLocation sa) cell), B,
    (moves (pointerLocation st2) cell ++ bf "[-]").
  split; [exact Hcond|]. split; [exact Hopen'|]. split; [exact Hbodyc|].
  split. { simpl_state. rewrite He, <- !app_assoc. reflexivity. }
  split; [exact HB|].
  split. { simpl_state. rewrite <- !app_assoc. reflexivity. }
  split.
  { intros m Hdp.
    destruct (runs_if_body o B cell (pointerLocation st2) m Hdp) as [Hz Hnz].
    split; [exact Hz|].
    intros m_b z H1 H2 H3 H4 _ [Hb _]. exact (Hnz m_b z H1 H2 H3 H4 Hb). }
  split; [intros d Hscan; exact (analysed_body o B cell _ d Hscan)|].
  exact Hsafe.
Qed.

Lemma if_runs_its_body_at_most_once_witness :
  let st := state_after two_flags in
  let o := options_of_bits 16 in
  let B :=
    bf ">>[-]+++++[>+>+<<-]>[<+>-][-]>[<<+>>-]<<.[-]<[>>[-]+++++++.<<[-]]" in
  exists st' pre fin,
    compileToken (compile_fuel 2) (If (var "c") if_unsafe_body) st
    = Ok (tt, st')
    /\ brainfuckCode st'
       = brainfuckCode st ++ pre ++ bf "[" ++ B ++ fin ++ bf "]"
    /\ forall m,
         dataPointer m = 0 ->
         (read (memory m) 0 = Num 0 ->
          runs o (bf "[" ++ B ++ fin ++ bf "]") m m)
         /\ (forall m_b z,
               read (memory m) 0 <> Num 0 ->
               runs o B m m_b ->
               read (memory m_b) 0 = Num z ->
               0 <= z <= 2 ^ 52 ->
               exists m',
                 runs o (bf "[" ++ B ++ fin ++ bf "]") m m'
                 /\ dataPointer m' = 0
                 /\ read (memory m') 0 = Num 0
                 /\ same_except [0] m_b m').
Proof.
  intros st o B0.
  destruct (if_runs_its_body_at_most_once 2 (var "c") if_unsafe_body st
              (state_after_token (If (var "c") if_unsafe_body) st) o)
    as (cell & sa & st1 & x & st2 & pre & B & fin
        & Hc & Hm & Hb & H1 & H2 & H3 & Hrun & Han & _).
  { vm_compute. reflexivity. }
  assert (E : if_body_text 2 (var "c") if_unsafe_body st
              = Some (cell, pointerLocation st2, B)).
  { unfold if_body_text. rewrite Hc, Hm, Hb, H2, drop_app_length.
    reflexivity. }
  assert (E0 : if_body_text 2 (var "c") if_unsafe_body st = Some (0, 1, B0))
    by (vm_compute; reflexivity).
  rewrite E0 in E. injection E as <- Hp <-.
  assert (Hscan : ascan B0 {| apos := 0; adirty := ∅; astack := [] |}
                  = Some {| apos := 1; adirty := {[3]}; astack := [] |})
    by (vm_compute; reflexivity).
  rewrite Hp in Hscan. destruct (Han _ Hscan) as [Hbal Htracked].
  change (0 mod memorySize) with 0 in *.
  exists (state_after_token (If (var "c") if_unsafe_body) st), pre, fin.
  split; [vm_compute; reflexivity|].
  split; [rewrite H3, H2, H1, <- !app_assoc; reflexivity|].
  intros m Hdp. destruct (Hrun m Hdp) as [Hzero Hnonzero]. split.
  - intros Hz. exact (Hzero Hz Hbal).
  - intros m_b z Hnz HB Hz Hrange.
    apply (Hnonzero m_b z Hnz HB (Htracked m m_b Hdp HB) Hz Hrange).
    split; [reflexivity|vm_compute; discriminate].
Defined.

(** * [subtract] and its copies *)



